(** * L0 sublevels of an LSM tree: a shallow embedding of
    [internal/manifest/l0_sublevels.go] and the properties of its
    construction, compaction-state tracking and compaction pickers.

    Conventions of the embedding.
    - Go's [int] is modelled by [Z]; only list lengths and indices are stored
      in it.  [uint64] and [int64] arithmetic is written with its wrap-around.
    - [*FileMetadata] is a handle ([fileRef]) into the engine's file arena
      ([levelMetadata]), so that every sublevel, interval and candidate that
      mentions a file sees the one shared record.
    - A Go function that can fail returns a [result]: [Ok], an [Err] for the
      errors the source constructs, or [Panic] for run-time panics (index out
      of range, division by zero, explicit [panic]). *)

From Stdlib Require Import ZArith List Lia Bool Permutation Sorted.
From Stdlib Require Import Floats.SpecFloat.
From Stdlib Require Import Strings.Byte Strings.String.
From stdpp Require Import prelude sorting.

Local Open Scope Z_scope.

(** ** Results of fallible Go code *)

Inductive error : Type :=
| ErrBoundNotInIntervalKeys   (* "expected sstable bound to be in interval keys" *)
| ErrSublevelBeyondRange      (* "chose a sublevel beyond allowed range of sublevels" *)
| ErrNoSeedFile               (* "no seed file found in sublevel intervals" *)
| ErrSeedCompacting.          (* "file ... chosen as seed file for compaction should not be compacting" *)

Inductive result (A : Type) : Type :=
| Ok (a : A)
| Err (e : error)
| Panic.
Arguments Ok {A} a.
Arguments Err {A} e.
Arguments Panic {A}.

Definition bind {A B} (m : result A) (k : A -> result B) : result B :=
  match m with
  | Ok a => k a
  | Err e => Err e
  | Panic => Panic
  end.

Notation "'let*' x ':=' m 'in' k" := (bind m (fun x => k))
  (at level 10, x pattern, m at level 100, k at level 200).

(** A failed lookup is an index-out-of-range (or nil dereference) panic. *)
Definition lift {A} (o : option A) : result A :=
  match o with Some a => Ok a | None => Panic end.

Fixpoint foldM {A S} (f : S -> A -> result S) (l : list A) (s : S) : result S :=
  match l with
  | [] => Ok s
  | a :: l' => let* s' := f s a in foldM f l' s'
  end.

(** ** Slices indexed by Go ints *)

Definition zlen {A} (l : list A) : Z := Z.of_nat (length l).

Definition zget {A} (l : list A) (i : Z) : option A :=
  if 0 <=? i then l !! Z.to_nat i else None.

Definition zupd {A} (l : list A) (i : Z) (g : A -> A) : option (list A) :=
  match zget l i with
  | Some x => Some (<[Z.to_nat i := g x]> l)
  | None => None
  end.

(** [zrange a b] is the index sequence of [for i := a; i <= b; i++]. *)
Definition zrange (a b : Z) : list Z := seqZ a (b - a + 1).

Definition uint64 (x : Z) : Z := x mod 2 ^ 64.

(** [uint64(x)] for a Go [int] [x]: negative values wrap. *)
Definition uint64OfInt (x : Z) : Z := if x <? 0 then x + 2 ^ 64 else x.

(** [int64(x)] for a wrapped product. *)
Definition int64 (x : Z) : Z := (x + 2 ^ 63) mod 2 ^ 64 - 2 ^ 63.

(** ** sort.Search (Go standard library): binary search on [0, n) *)

Fixpoint search_loop (fuel : nat) (f : Z -> bool) (i j : Z) : Z :=
  match fuel with
  | O => i
  | S fuel' =>
      if i <? j then
        let h := (i + j) / 2 in
        if f h then search_loop fuel' f i h else search_loop fuel' f (h + 1) j
      else i
  end.

Definition sort_Search (n : Z) (f : Z -> bool) : Z :=
  search_loop (Z.to_nat n) f 0 n.

(** ** Keys *)

Abbreviation Key := (list byte).

#[global] Instance byte_eq_decision : EqDecision byte := Byte.byte_eq_dec.

Record InternalKey : Type := mkInternalKey {
  UserKey : Key;
  Trailer : Z
}.

(** Modelled from the spec: the constants of package [base], which is not
    part of the sources at hand.  The trailer packs a sequence number and a
    kind byte; the range-delete sentinel is the largest sequence number with
    kind RangeDelete, and the invalid kind is 255. *)
Definition InternalKeyKindRangeDelete : Z := 15.
Definition InternalKeySeqNumMax : Z := 2 ^ 56 - 1.
Definition InternalKeyRangeDeleteSentinel : Z :=
  Z.lor (Z.shiftl InternalKeySeqNumMax 8) InternalKeyKindRangeDelete.
Definition InternalKeyKindInvalid : Z := 255.
Definition Kind (k : InternalKey) : Z := Z.land (Trailer k) 255.

Record intervalKey : Type := mkIntervalKey {
  key : Key;
  isLargest : bool
}.

(** The comparator handed to the engine and Go's [sort.Sort].  The comparator
    is a total preorder on user keys; [sort.Sort] returns a permutation of its
    input that is ordered by [Less] whenever [Less] is a strict weak order.
    It is not stable, so nothing else is assumed about ties. *)
Class Env : Type := {
  cmp : Key -> Key -> Z;
  cmp_sgn : forall a b, Z.sgn (cmp b a) = - Z.sgn (cmp a b);
  cmp_trans : forall a b c, cmp a b <= 0 -> cmp b c <= 0 -> cmp a c <= 0;
  go_sort : forall A : Type, (A -> A -> bool) -> list A -> list A;
  go_sort_perm : forall A (less : A -> A -> bool) l,
      Permutation (go_sort A less l) l;
  go_sort_sorted : forall A (less : A -> A -> bool) l,
      (forall a, less a a = false) ->
      (forall a b c, less a b = true -> less b c = true -> less a c = true) ->
      (forall a b c, less a b = false -> less b c = false -> less a c = false) ->
      Sorted (fun a b => less b a = false) (go_sort A less l)
}.
Arguments go_sort {_ A} less l.

(** ** Files *)

Record FileMetadata : Type := mkFile {
  FileNum : Z;
  Size : Z;
  SmallestSeqNum : Z;
  LargestSeqNum : Z;
  Smallest : InternalKey;
  Largest : InternalKey;
  Compacting : bool;
  IsIntraL0Compacting : bool;
  l0Index : Z;
  minIntervalIndex : Z;
  maxIntervalIndex : Z;
  subLevel : Z
}.

(** A [*FileMetadata]: the position of the record in the engine's arena. *)
Abbreviation fileRef := nat.

Record fileInterval : Type := mkInterval {
  index : Z;
  startKey : intervalKey;
  isBaseCompacting : bool;
  filesMinIntervalIndex : Z;
  filesMaxIntervalIndex : Z;
  intervalRangeIsBaseCompacting : bool;
  fileCount : Z;
  compactingFileCount : Z;
  files : list fileRef;
  estimatedBytes : Z
}.

Abbreviation bitSet := (list bool).

Definition newBitSet (n : Z) : bitSet := replicate (Z.to_nat n) false.

Definition markBit (b : bitSet) (i : Z) : result bitSet :=
  lift (zupd b i (fun _ => true)).

Definition markBits (b : bitSet) (start end_ : Z) : result bitSet :=
  foldM markBit (zrange start (end_ - 1)) b.

Definition clearAllBits (b : bitSet) : bitSet := map (fun _ => false) b.

Record L0Sublevels : Type := mkL0 {
  Levels : list (list fileRef);
  fileBytes : Z;
  levelMetadata : list FileMetadata;
  orderedIntervals : list fileInterval;
  flushSplitUserKeys : list Key
}.

(** Field updates written out (the record has no update syntax). *)
Definition setSpan (f : FileMetadata) (mn mx sl : Z) : FileMetadata :=
  mkFile (FileNum f) (Size f) (SmallestSeqNum f) (LargestSeqNum f) (Smallest f)
    (Largest f) (Compacting f) (IsIntraL0Compacting f) (l0Index f) mn mx sl.

Definition setL0Index (i : Z) (f : FileMetadata) : FileMetadata :=
  mkFile (FileNum f) (Size f) (SmallestSeqNum f) (LargestSeqNum f) (Smallest f)
    (Largest f) (Compacting f) (IsIntraL0Compacting f) i (minIntervalIndex f)
    (maxIntervalIndex f) (subLevel f).

Definition deref (arena : list FileMetadata) (p : fileRef) : result FileMetadata :=
  lift (arena !! p).

(** An active compaction with inputs from L0. *)
Record L0Compaction : Type := mkL0Compaction {
  CSmallest : InternalKey;
  CLargest : InternalKey;
  IsIntraL0 : bool
}.

(** A candidate set of L0 files ([L0CompactionFiles]); its fields live in a
    module because several share their names with the engine's. *)
Module lcf.
Record t : Type := mk {
  Files : list fileRef;
  FilesIncluded : bitSet;
  seedIntervalStackDepthReduction : Z;
  seedIntervalMinLevel : Z;
  seedIntervalMaxLevel : Z;
  seedInterval : Z;
  fileBytes : Z;
  minIntervalIndex : Z;
  maxIntervalIndex : Z;
  isIntraL0 : bool;
  earliestUnflushedSeqNum : Z;
  preExtensionMinInterval : Z;
  preExtensionMaxInterval : Z;
  filesAdded : list fileRef
}.
End lcf.
Abbreviation L0CompactionFiles := lcf.t.

Record intervalAndScore : Type := mkScore {
  interval : Z;
  score : Z
}.

(** [float64(a)/float64(b) > 1.5] on two [uint64] values, in IEEE 754
    binary64 with round-to-nearest-even. *)
Definition float64 (x : Z) : spec_float := binary_normalize 53 1024 x 0 false.
Definition ratioExceeds1_5 (a b : Z) : bool :=
  SFltb (binary_normalize 53 1024 3 (-1) false)
        (SFdiv 53 1024 (float64 a) (float64 b)).

Definition MaxUint64 : Z := 2 ^ 64 - 1.

Section Engine.
Context `{E : Env}.

Definition intervalKeyCompare (a b : intervalKey) : Z :=
  let rv := cmp (key a) (key b) in
  if rv =? 0 then
    if isLargest a && negb (isLargest b) then 1
    else if negb (isLargest a) && isLargest b then -1
    else rv
  else rv.

Fixpoint dedup_loop (last : intervalKey) (rest : list intervalKey) : list intervalKey :=
  match rest with
  | [] => []
  | k :: rest' =>
      if intervalKeyCompare k last =? 0 then dedup_loop last rest'
      else k :: dedup_loop k rest'
  end.

Definition sortAndDedup (keys : list intervalKey) : list intervalKey :=
  match go_sort (fun a b => intervalKeyCompare a b <? 0) keys with
  | [] => []
  | k0 :: rest => k0 :: dedup_loop k0 rest
  end.

(** The two boundary keys of a file. *)
Definition smallestIK (f : FileMetadata) : intervalKey :=
  mkIntervalKey (UserKey (Smallest f)) false.
Definition largestIK (f : FileMetadata) : intervalKey :=
  mkIntervalKey (UserKey (Largest f))
    (negb (Trailer (Largest f) =? InternalKeyRangeDeleteSentinel)).

(** [sort.Search] over a slice: the closure reads [l[i]], which the search
    only asks for with [0 <= i < len(l)]. *)
Definition searchIn {A} (l : list A) (p : A -> bool) : Z :=
  sort_Search (zlen l) (fun i => match zget l i with Some x => p x | None => true end).

Definition insertIntoSubLevel (arena : list FileMetadata) (fs : list fileRef)
    (p : fileRef) (f : FileMetadata) : list fileRef :=
  let idx := searchIn fs (fun q =>
      match arena !! q with
      | Some g => minIntervalIndex f <? minIntervalIndex g
      | None => true
      end) in
  take (Z.to_nat idx) fs ++ p :: drop (Z.to_nat idx) fs.

(** First pass over the span of a new file: the sublevel above every file
    already stacked there, and the per-interval counters. *)
Definition touchInterval (arena : list FileMetadata) (mn mx interp : Z)
    (st : Z * list fileInterval) (i : Z) : result (Z * list fileInterval) :=
  let '(sl, ivs) := st in
  let* iv := lift (zget ivs i) in
  let* sl' :=
    match last (files iv) with
    | None => Ok sl
    | Some q =>
        let* g := deref arena q in
        Ok (if sl <=? subLevel g then subLevel g + 1 else sl)
    end in
  let iv' := mkInterval (index iv) (startKey iv) (isBaseCompacting iv)
      (if mn <? filesMinIntervalIndex iv then mn else filesMinIntervalIndex iv)
      (if filesMaxIntervalIndex iv <? mx then mx else filesMaxIntervalIndex iv)
      (intervalRangeIsBaseCompacting iv) (fileCount iv + 1)
      (compactingFileCount iv) (files iv)
      (uint64 (estimatedBytes iv + interp)) in
  Ok (sl', <[Z.to_nat i := iv']> ivs).

Definition setFiles (iv : fileInterval) (fs : list fileRef) : fileInterval :=
  mkInterval (index iv) (startKey iv) (isBaseCompacting iv)
    (filesMinIntervalIndex iv) (filesMaxIntervalIndex iv)
    (intervalRangeIsBaseCompacting iv) (fileCount iv) (compactingFileCount iv)
    fs (estimatedBytes iv).

Definition appendFile (p : fileRef) (ivs : list fileInterval) (i : Z)
    : result (list fileInterval) :=
  lift (zupd ivs i (fun iv => setFiles iv (files iv ++ [p]))).

(** One iteration of the second loop of [NewL0Sublevels], for the file at
    arena position [p]. *)
Definition addL0File (keys : list intervalKey) (s : L0Sublevels) (p : fileRef)
    : result L0Sublevels :=
  let* f := deref (levelMetadata s) p in
  let mn := searchIn keys (fun k => intervalKeyCompare (smallestIK f) k <=? 0) in
  if mn =? zlen keys then Err ErrBoundNotInIntervalKeys else
  let mx0 := searchIn keys (fun k => intervalKeyCompare (largestIK f) k <=? 0) in
  if mx0 =? zlen keys then Err ErrBoundNotInIntervalKeys else
  let mx := mx0 - 1 in
  let width := uint64OfInt (mx - mn + 1) in
  if width =? 0 then Panic else
  let interp := Size f / width in
  let fb := uint64 (fileBytes s + Size f) in
  let* (sl, ivs1) := foldM (touchInterval (levelMetadata s) mn mx interp)
                        (zrange mn mx) (0, orderedIntervals s) in
  let* ivs2 := foldM (appendFile p) (zrange mn mx) ivs1 in
  let f' := setSpan f mn mx sl in
  let arena' := <[p := f']> (levelMetadata s) in
  if zlen (Levels s) <? sl then Err ErrSublevelBeyondRange else
  let levels' :=
    if sl =? zlen (Levels s) then Levels s ++ [[p]]
    else alter (fun fs => insertIntoSubLevel arena' fs p f') (Z.to_nat sl) (Levels s) in
  Ok (mkL0 levels' fb arena' ivs2 (flushSplitUserKeys s)).

(** The flush-split walk: the split keys so far and the bytes accumulated
    since the last one. *)
Definition flushSplitStep (threshold : Z) (st : list Key * Z) (iv : fileInterval)
    : list Key * Z :=
  let '(splits, cum) := st in
  let '(splits', cum') :=
    if (0 <? threshold) && (uint64 threshold <? cum) &&
       match last splits with
       | None => true
       | Some k => negb (bool_decide (key (startKey iv) = k))
       end
    then (splits ++ [key (startKey iv)], 0)
    else (splits, cum) in
  (splits', uint64 (cum' + estimatedBytes iv)).

Definition flushSplitWalk (threshold : Z) (ivs : list fileInterval) : list Key * Z :=
  fold_left (flushSplitStep threshold) ivs ([], 0).

Definition effectiveFlushSplitMaxBytes (flushSplitMaxBytes : Z) (s : L0Sublevels) : Z :=
  int64 (flushSplitMaxBytes * zlen (Levels s)).

Definition initialInterval (i : nat) (k : intervalKey) : fileInterval :=
  mkInterval (Z.of_nat i) k false (Z.of_nat i) (Z.of_nat i) false 0 0 [] 0.

Definition boundaryKeys (fs : list FileMetadata) : list intervalKey :=
  flat_map (fun f => [smallestIK f; largestIK f]) fs.

Definition NewL0Sublevels (levelMetadata0 : list FileMetadata) (flushSplitMaxBytes : Z)
    : result L0Sublevels :=
  let arena := imap (fun i f => setL0Index (Z.of_nat i) f) levelMetadata0 in
  let keys := sortAndDedup (boundaryKeys arena) in
  let s0 := mkL0 [] 0 arena (imap initialInterval keys) [] in
  let* s1 := foldM (addL0File keys) (seq 0 (length arena)) s0 in
  let threshold := effectiveFlushSplitMaxBytes flushSplitMaxBytes s1 in
  Ok (mkL0 (Levels s1) (fileBytes s1) (levelMetadata s1) (orderedIntervals s1)
        (fst (flushSplitWalk threshold (orderedIntervals s1)))).

(** ** Compaction state tracker *)

Definition setCompacting (iv : fileInterval) (cfc : Z) (ibc irbc : bool) : fileInterval :=
  mkInterval (index iv) (startKey iv) ibc (filesMinIntervalIndex iv)
    (filesMaxIntervalIndex iv) irbc (fileCount iv) cfc (files iv) (estimatedBytes iv).

Definition setIntervals (s : L0Sublevels) (ivs : list fileInterval) : L0Sublevels :=
  mkL0 (Levels s) (fileBytes s) (levelMetadata s) ivs (flushSplitUserKeys s).

Definition resetInterval (iv : fileInterval) : fileInterval := setCompacting iv 0 false false.

Definition countCompacting (iv : fileInterval) : fileInterval :=
  setCompacting iv (compactingFileCount iv + 1) (isBaseCompacting iv)
    (intervalRangeIsBaseCompacting iv).

Definition setBaseCompacting (iv : fileInterval) : fileInterval :=
  setCompacting iv (compactingFileCount iv) true (intervalRangeIsBaseCompacting iv).

Definition setRangeBaseCompacting (iv : fileInterval) : fileInterval :=
  setCompacting iv (compactingFileCount iv) (isBaseCompacting iv) true.

Definition markFileCompacting (f : FileMetadata) (ivs : list fileInterval) (i : Z)
    : result (list fileInterval) :=
  lift (zupd ivs i (fun iv =>
    if IsIntraL0Compacting f then countCompacting iv
    else setBaseCompacting (countCompacting iv))).

Definition initFile (ivs : list fileInterval) (f : FileMetadata) : result (list fileInterval) :=
  if Compacting f then
    foldM (markFileCompacting f) (zrange (minIntervalIndex f) (maxIntervalIndex f)) ivs
  else Ok ivs.

Definition initInProgress (ivs : list fileInterval) (c : L0Compaction)
    : result (list fileInterval) :=
  let startIK := mkIntervalKey (UserKey (CSmallest c)) false in
  let endIK := mkIntervalKey (UserKey (CLargest c))
      (negb (Trailer (CLargest c) =? InternalKeyRangeDeleteSentinel)) in
  let start := searchIn ivs (fun iv => 0 <=? intervalKeyCompare (startKey iv) startIK) in
  let end_ := searchIn ivs (fun iv => 0 <=? intervalKeyCompare (startKey iv) endIK) in
  foldM (fun ivs i =>
           if IsIntraL0 c then
             let* _ := lift (zget ivs i) in Ok ivs
           else lift (zupd ivs i setBaseCompacting))
        (zrange start (Z.min end_ (zlen ivs) - 1)) ivs.

Definition markRange (st : Z * list fileInterval) (j : Z) : result (Z * list fileInterval) :=
  let* ivs := lift (zupd (snd st) j setRangeBaseCompacting) in
  Ok (j, ivs).

Definition propagateStep (st : Z * list fileInterval) (i : Z)
    : result (Z * list fileInterval) :=
  let* iv := lift (zget (snd st) i) in
  if isBaseCompacting iv then
    let minIndex :=
      if filesMinIntervalIndex iv <? fst st then fst st else filesMinIntervalIndex iv in
    foldM markRange (zrange minIndex (filesMaxIntervalIndex iv)) st
  else Ok st.

Definition InitCompactingFileInfo (s : L0Sublevels) (inProgress : list L0Compaction)
    : result L0Sublevels :=
  let ivs0 := map resetInterval (orderedIntervals s) in
  let* ivs1 := foldM initFile (levelMetadata s) ivs0 in
  let* ivs2 := foldM initInProgress inProgress ivs1 in
  let* st := foldM propagateStep (zrange 0 (zlen ivs2 - 1)) (0, ivs2) in
  Ok (setIntervals s (snd st)).

(** State of the first loop of [UpdateStateForStartedCompaction]. *)
Definition updateFile (arena : list FileMetadata)
    (st : Z * Z * list fileInterval) (p : fileRef) : result (Z * Z * list fileInterval) :=
  let '(mn, mx, ivs) := st in
  let* f := deref arena p in
  let* ivs' := foldM (fun ivs i => lift (zupd ivs i countCompacting))
                 (zrange (minIntervalIndex f) (maxIntervalIndex f)) ivs in
  Ok (if (minIntervalIndex f <? mn) || (mn =? -1) then minIntervalIndex f else mn,
      if mx <? maxIntervalIndex f then maxIntervalIndex f else mx,
      ivs').

Definition updateBase (ivs : list fileInterval) (i : Z) : result (list fileInterval) :=
  let* ivs1 := lift (zupd ivs i setBaseCompacting) in
  let* iv := lift (zget ivs1 i) in
  foldM (fun ivs j => lift (zupd ivs j setRangeBaseCompacting))
    (zrange (filesMinIntervalIndex iv) (filesMaxIntervalIndex iv)) ivs1.

Definition UpdateStateForStartedCompaction (s : L0Sublevels)
    (inputs : list (list fileRef)) (isBase : bool) : result L0Sublevels :=
  let* (mn, mx, ivs) := foldM (updateFile (levelMetadata s)) (concat inputs)
                           (-1, 0, orderedIntervals s) in
  if isBase then
    let* ivs' := foldM updateBase (zrange mn mx) ivs in
    Ok (setIntervals s ivs')
  else Ok (setIntervals s ivs).

(** ** Queries *)

Definition ReadAmplification (s : L0Sublevels) : Z :=
  fold_left (fun amp iv => if amp <? fileCount iv then fileCount iv else amp)
    (orderedIntervals s) 0.

Definition FlushSplitKeys (s : L0Sublevels) : list Key := flushSplitUserKeys s.

Definition MaxDepthAfterOngoingCompactions (s : L0Sublevels) : Z :=
  fold_left (fun depth iv =>
               let intervalDepth := fileCount iv - compactingFileCount iv in
               if depth <? intervalDepth then intervalDepth else depth)
    (orderedIntervals s) 0.

(** ** Candidates *)

Definition addFile (arena : list FileMetadata) (l : L0CompactionFiles) (p : fileRef)
    : result L0CompactionFiles :=
  let* f := deref arena p in
  let* included := lift (zget (lcf.FilesIncluded l) (l0Index f)) in
  if included then Ok l else
  let* fi := markBit (lcf.FilesIncluded l) (l0Index f) in
  Ok (lcf.mk (lcf.Files l ++ [p]) fi
        (lcf.seedIntervalStackDepthReduction l) (lcf.seedIntervalMinLevel l)
        (lcf.seedIntervalMaxLevel l) (lcf.seedInterval l)
        (uint64 (lcf.fileBytes l + Size f))
        (if minIntervalIndex f <? lcf.minIntervalIndex l
         then minIntervalIndex f else lcf.minIntervalIndex l)
        (if lcf.maxIntervalIndex l <? maxIntervalIndex f
         then maxIntervalIndex f else lcf.maxIntervalIndex l)
        (lcf.isIntraL0 l) (lcf.earliestUnflushedSeqNum l)
        (lcf.preExtensionMinInterval l) (lcf.preExtensionMaxInterval l)
        (lcf.filesAdded l ++ [p])).

Definition setFilesIncluded (l : L0CompactionFiles) (fi : bitSet) : L0CompactionFiles :=
  lcf.mk (lcf.Files l) fi
    (lcf.seedIntervalStackDepthReduction l) (lcf.seedIntervalMinLevel l)
    (lcf.seedIntervalMaxLevel l) (lcf.seedInterval l) (lcf.fileBytes l)
    (lcf.minIntervalIndex l) (lcf.maxIntervalIndex l)
    (lcf.isIntraL0 l) (lcf.earliestUnflushedSeqNum l)
    (lcf.preExtensionMinInterval l) (lcf.preExtensionMaxInterval l)
    (lcf.filesAdded l).

(** [seedIntervalStackDepthReduction++] together with the level that the
    builder records for the file just stacked. *)
Definition stackOne (l : L0CompactionFiles) (minLevel maxLevel : Z) : L0CompactionFiles :=
  lcf.mk (lcf.Files l) (lcf.FilesIncluded l)
    (lcf.seedIntervalStackDepthReduction l + 1) minLevel maxLevel
    (lcf.seedInterval l) (lcf.fileBytes l)
    (lcf.minIntervalIndex l) (lcf.maxIntervalIndex l)
    (lcf.isIntraL0 l) (lcf.earliestUnflushedSeqNum l)
    (lcf.preExtensionMinInterval l) (lcf.preExtensionMaxInterval l)
    (lcf.filesAdded l).

Definition setPreExtension (l : L0CompactionFiles) : L0CompactionFiles :=
  lcf.mk (lcf.Files l) (lcf.FilesIncluded l)
    (lcf.seedIntervalStackDepthReduction l) (lcf.seedIntervalMinLevel l)
    (lcf.seedIntervalMaxLevel l) (lcf.seedInterval l) (lcf.fileBytes l)
    (lcf.minIntervalIndex l) (lcf.maxIntervalIndex l)
    (lcf.isIntraL0 l) (lcf.earliestUnflushedSeqNum l)
    (lcf.minIntervalIndex l) (lcf.maxIntervalIndex l)
    (lcf.filesAdded l).

(** The loop of [extendFiles] from the position found by the search.  The
    candidate is mutated in place, so it is returned also on failure. *)
Fixpoint extendFiles_loop (arena : list FileMetadata) (earliestUnflushed : Z)
    (fs : list fileRef) (c : L0CompactionFiles) : result (bool * L0CompactionFiles) :=
  match fs with
  | [] => Ok (true, c)
  | p :: fs' =>
      let* f := deref arena p in
      if lcf.maxIntervalIndex c <? minIntervalIndex f then Ok (true, c)
      else if Compacting f then Ok (false, c)
      else if earliestUnflushed <=? LargestSeqNum f then
        extendFiles_loop arena earliestUnflushed fs' c
      else
        let* c' := addFile arena c p in
        extendFiles_loop arena earliestUnflushed fs' c'
  end.

Definition maxIndexOf (arena : list FileMetadata) (q : fileRef) : Z :=
  match arena !! q with Some g => maxIntervalIndex g | None => 0 end.

Definition extendFiles (s : L0Sublevels) (sl : Z) (earliestUnflushed : Z)
    (c : L0CompactionFiles) : result (bool * L0CompactionFiles) :=
  let* fs := lift (zget (Levels s) sl) in
  let idx := searchIn fs (fun q =>
      lcf.minIntervalIndex c <=? maxIndexOf (levelMetadata s) q) in
  extendFiles_loop (levelMetadata s) earliestUnflushed (drop (Z.to_nat idx) fs) c.

(** The inner loop over sublevels of both builders: stop at the first
    sublevel that cannot be extended. *)
Fixpoint extendLevels (s : L0Sublevels) (earliestUnflushed : Z) (levels : list Z)
    (c : L0CompactionFiles) : result (bool * L0CompactionFiles) :=
  match levels with
  | [] => Ok (true, c)
  | currLevel :: levels' =>
      let* (ok, c') := extendFiles s currLevel earliestUnflushed c in
      if ok then extendLevels s earliestUnflushed levels' c' else Ok (false, c')
  end.

Definition growthCapReached (lastCandidate c : L0CompactionFiles) (minCompactionDepth : Z)
    : bool :=
  (minCompactionDepth <=? lcf.seedIntervalStackDepthReduction lastCandidate) &&
  (Z.shiftl 100 20 <? lcf.fileBytes c) &&
  (ratioExceeds1_5 (lcf.fileBytes c) (lcf.fileBytes lastCandidate) ||
   (Z.shiftl 500 20 <? lcf.fileBytes c)).

(** The end of both builders: [FilesIncluded] is cleared and marked again
    from the files of the candidate that is kept.  (In the source the kept
    candidate shares its bit set with the working one; the bit set is read
    nowhere between the copy and this point.) *)
Definition remarkFiles (arena : list FileMetadata) (l : L0CompactionFiles)
    : result L0CompactionFiles :=
  let* fi := foldM (fun b p => let* f := deref arena p in markBit b (l0Index f))
               (lcf.Files l) (clearAllBits (lcf.FilesIncluded l)) in
  Ok (setFilesIncluded l fi).

(** ** Base compactions *)

Fixpoint baseLoop (s : L0Sublevels) (minCompactionDepth : Z) (fs : list fileRef)
    (c : L0CompactionFiles) (lastCandidate : option L0CompactionFiles)
    : result (option L0CompactionFiles) :=
  match fs with
  | [] => Ok lastCandidate
  | p2 :: fs' =>
      let* f2 := deref (levelMetadata s) p2 in
      let sl := subLevel f2 in
      let c1 := stackOne c (lcf.seedIntervalMinLevel c) sl in
      let* c2 := addFile (levelMetadata s) c1 p2 in
      let* (ok, c3) := extendLevels s MaxUint64 (reverse (zrange 0 (sl - 1))) c2 in
      if negb ok then Ok lastCandidate else
      match lastCandidate with
      | None => baseLoop s minCompactionDepth fs' c3 (Some c3)
      | Some lc =>
          if growthCapReached lc c3 minCompactionDepth then Ok lastCandidate
          else baseLoop s minCompactionDepth fs' c3 (Some c3)
      end
  end.

Definition finishCandidate (s : L0Sublevels) (minCompactionDepth : Z)
    (lastCandidate : option L0CompactionFiles) : result (option L0CompactionFiles) :=
  match lastCandidate with
  | Some lc =>
      if minCompactionDepth <=? lcf.seedIntervalStackDepthReduction lc then
        let* lc' := remarkFiles (levelMetadata s) lc in Ok (Some lc')
      else Ok None
  | None => Ok None
  end.

Definition baseCompactionUsingSeed (s : L0Sublevels) (p : fileRef) (intervalIndex : Z)
    (minCompactionDepth : Z) : result (option L0CompactionFiles) :=
  let* f := deref (levelMetadata s) p in
  let c0 := lcf.mk [] (newBitSet (zlen (levelMetadata s))) 0 0 0 intervalIndex 0
              (minIntervalIndex f) (maxIntervalIndex f) false 0 0 0 [] in
  let* c := addFile (levelMetadata s) c0 p in
  let* iv := lift (zget (orderedIntervals s) intervalIndex) in
  let* lastCandidate := baseLoop s minCompactionDepth (files iv) c None in
  finishCandidate s minCompactionDepth lastCandidate.

Definition scoreBase (s : L0Sublevels) (minCompactionDepth : Z) : list intervalAndScore :=
  concat (imap (fun i iv =>
    let depth := fileCount iv - compactingFileCount iv in
    if isBaseCompacting iv || (depth <? minCompactionDepth) then []
    else if intervalRangeIsBaseCompacting iv then [mkScore (Z.of_nat i) depth]
    else [mkScore (Z.of_nat i) (depth + zlen (Levels s))]) (orderedIntervals s)).

Definition byDecreasingScore (a b : intervalAndScore) : bool := score b <? score a.

(** Modelled from the spec: [LevelSlice.Iter().SeekGE], which lives outside
    the sources at hand.  Lbase files are ordered by key and do not overlap;
    the seek lands on the first file whose largest user key is at or past the
    sought key. *)
Fixpoint SeekGE (baseFiles : list FileMetadata) (userKey : Key) : list FileMetadata :=
  match baseFiles with
  | [] => []
  | m :: rest =>
      if 0 <=? cmp (UserKey (Largest m)) userKey then baseFiles
      else SeekGE rest userKey
  end.

(** The scan of the Lbase files under a candidate; [true] when one of them
    is compacting. *)
Fixpoint lbaseLoop (s : L0Sublevels) (c : L0CompactionFiles) (ms : list FileMetadata)
    : result bool :=
  match ms with
  | [] => Ok false
  | m :: rest =>
      let* iv := lift (zget (orderedIntervals s) (lcf.maxIntervalIndex c + 1)) in
      let rv := cmp (UserKey (Smallest m)) (key (startKey iv)) in
      if (0 <? rv) || ((rv =? 0) && negb (isLargest (startKey iv))) then Ok false
      else if Compacting m then Ok true
      else lbaseLoop s c rest
  end.

Definition lbaseCompacting (s : L0Sublevels) (c : L0CompactionFiles)
    (baseFiles : list FileMetadata) : result bool :=
  let* iv := lift (zget (orderedIntervals s) (lcf.minIntervalIndex c)) in
  lbaseLoop s c (SeekGE baseFiles (key (startKey iv))).

Fixpoint pickBaseLoop (s : L0Sublevels) (minCompactionDepth : Z)
    (baseFiles : list FileMetadata) (scored : list intervalAndScore)
    (considered : bitSet) : result (option L0CompactionFiles) :=
  match scored with
  | [] => Ok None
  | scoredInterval :: rest =>
      let* iv := lift (zget (orderedIntervals s) (interval scoredInterval)) in
      let* seen := lift (zget considered (index iv)) in
      if seen then pickBaseLoop s minCompactionDepth baseFiles rest considered else
      let* p := lift (head (files iv)) in
      let* f := deref (levelMetadata s) p in
      let* considered' :=
        markBits considered (minIntervalIndex f) (maxIntervalIndex f + 1) in
      if Compacting f then
        if IsIntraL0Compacting f
        then pickBaseLoop s minCompactionDepth baseFiles rest considered'
        else Err ErrSeedCompacting
      else
        let* c := baseCompactionUsingSeed s p (index iv) minCompactionDepth in
        match c with
        | None => pickBaseLoop s minCompactionDepth baseFiles rest considered'
        | Some c =>
            let* baseCompacting := lbaseCompacting s c baseFiles in
            if baseCompacting
            then pickBaseLoop s minCompactionDepth baseFiles rest considered'
            else Ok (Some c)
        end
  end.

Definition PickBaseCompaction (s : L0Sublevels) (minCompactionDepth : Z)
    (baseFiles : list FileMetadata) : result (option L0CompactionFiles) :=
  pickBaseLoop s minCompactionDepth baseFiles
    (go_sort byDecreasingScore (scoreBase s minCompactionDepth))
    (newBitSet (zlen (orderedIntervals s))).

(** ** Rectangle extension *)

(** First inner loop: the files of one sublevel that lie inside the current
    constraint; a file that sticks out narrows it.  The state is
    [(minIntervalIndex, maxIntervalIndex, firstIndex, lastIndex)]. *)
Fixpoint rectScan (arena : list FileMetadata) (fs : list (Z * fileRef))
    (st : Z * Z * Z * Z) : result (Z * Z * Z * Z) :=
  match fs with
  | [] => Ok st
  | (idx, p) :: fs' =>
      let '(mn, mx, firstIndex, lastIndex) := st in
      let* f := deref arena p in
      if mx <? minIntervalIndex f then Ok st else
      let left := minIntervalIndex f <? mn in
      let right := mx <? maxIntervalIndex f in
      let mn' := if left then maxIntervalIndex f + 1 else mn in
      let mx' := if right then minIntervalIndex f - 1 else mx in
      if left || right then rectScan arena fs' (mn', mx', firstIndex, lastIndex)
      else rectScan arena fs' (mn', mx', if firstIndex =? -1 then idx else firstIndex, idx)
  end.

(** State of the run selection: the current run of non-compacting files and
    the run chosen so far. *)
Record runState : Type := mkRun {
  nonCompactingFirst : Z;
  currentRunHasAlreadyPickedFiles : bool;
  candidateNonCompactingFirst : Z;
  candidateNonCompactingLast : Z;
  candidateHasAlreadyPickedFiles : bool
}.

Definition takesRun (r : runState) (last : Z) : bool :=
  negb (candidateHasAlreadyPickedFiles r) &&
  ((candidateNonCompactingFirst r =? -1) ||
   currentRunHasAlreadyPickedFiles r ||
   (candidateNonCompactingLast r - candidateNonCompactingFirst r
      <? last - nonCompactingFirst r)).

Definition runStep (arena : list FileMetadata) (included : bitSet) (fs : list fileRef)
    (r : runState) (idx : Z) : result runState :=
  let* p := lift (zget fs idx) in
  let* f := deref arena p in
  if Compacting f then
    if negb (nonCompactingFirst r =? -1) && takesRun r (idx - 1) then
      Ok (mkRun (-1) false (nonCompactingFirst r) (idx - 1)
            (currentRunHasAlreadyPickedFiles r))
    else
      Ok (mkRun (-1) false (candidateNonCompactingFirst r)
            (candidateNonCompactingLast r) (candidateHasAlreadyPickedFiles r))
  else
    let* picked := lift (zget included (l0Index f)) in
    Ok (mkRun (if nonCompactingFirst r =? -1 then idx else nonCompactingFirst r)
          (currentRunHasAlreadyPickedFiles r || picked)
          (candidateNonCompactingFirst r) (candidateNonCompactingLast r)
          (candidateHasAlreadyPickedFiles r)).

Definition closeRun (r : runState) (last : Z) : runState :=
  if negb (nonCompactingFirst r =? -1) && takesRun r last then
    mkRun (nonCompactingFirst r) (currentRunHasAlreadyPickedFiles r)
      (nonCompactingFirst r) last (candidateHasAlreadyPickedFiles r)
  else r.

(** Last inner loop: add the files of the chosen run. *)
Definition rectAdd (arena : list FileMetadata) (fs : list fileRef)
    (st : Z * L0CompactionFiles) (idx : Z) : result (Z * L0CompactionFiles) :=
  let '(addedCount, c) := st in
  let* p := lift (zget fs idx) in
  let* f := deref arena p in
  if Compacting f then Panic else
  if lcf.isIntraL0 c && (lcf.earliestUnflushedSeqNum c <=? LargestSeqNum f) then Ok st else
  let* included := lift (zget (lcf.FilesIncluded c) (l0Index f)) in
  if included then Ok st else
  let* c' := addFile arena c p in
  Ok (addedCount + 1, c').

Definition indexed {A} (l : list A) : list (Z * A) := imap (fun i x => (Z.of_nat i, x)) l.

(** The loop over sublevels.  [sl] moves by [increment] until it meets
    [endLevel]; reading [s.Levels[sl]] panics outside the engine, so the walk
    takes at most one step per sublevel. *)
Fixpoint rectLevels (fuel : nat) (s : L0Sublevels) (sl increment endLevel : Z)
    (mn mx : Z) (addedCount : Z) (c : L0CompactionFiles)
    : result (Z * L0CompactionFiles) :=
  match fuel with
  | O => Panic
  | S fuel' =>
      if sl =? endLevel then Ok (addedCount, c) else
      let* fs := lift (zget (Levels s) sl) in
      let idx := searchIn fs (fun q => mn <=? maxIndexOf (levelMetadata s) q) in
      let* (mn1, mx1, firstIndex, lastIndex) :=
        rectScan (levelMetadata s) (drop (Z.to_nat idx) (indexed fs)) (mn, mx, -1, -1) in
      if mx1 <? mn1 then Ok (addedCount, c) else
      if firstIndex <? 0 then
        rectLevels fuel' s (sl + increment) increment endLevel mn1 mx1 addedCount c
      else
      let* r := foldM (runStep (levelMetadata s) (lcf.FilesIncluded c) fs)
                  (zrange firstIndex lastIndex) (mkRun (-1) false (-1) (-1) false) in
      let r' := closeRun r lastIndex in
      let first := candidateNonCompactingFirst r' in
      let last := candidateNonCompactingLast r' in
      if first =? -1 then Ok (addedCount, c) else
      let* mn2 :=
        if firstIndex <? first then
          let* p := lift (zget fs (first - 1)) in
          let* f := deref (levelMetadata s) p in Ok (maxIntervalIndex f + 1)
        else Ok mn1 in
      let* mx2 :=
        if last <? lastIndex then
          let* p := lift (zget fs (last + 1)) in
          let* f := deref (levelMetadata s) p in Ok (minIntervalIndex f - 1)
        else Ok mx1 in
      let* (addedCount', c') :=
        foldM (rectAdd (levelMetadata s) fs) (zrange first last) (addedCount, c) in
      rectLevels fuel' s (sl + increment) increment endLevel mn2 mx2 addedCount' c'
  end.

Definition extendCandidateToRectangle (s : L0Sublevels) (minIntervalIndex0 maxIntervalIndex0 : Z)
    (candidate : L0CompactionFiles) (isBase : bool) : result (bool * L0CompactionFiles) :=
  let c := setPreExtension candidate in
  let mn := if lcf.minIntervalIndex c <? minIntervalIndex0
            then lcf.minIntervalIndex c else minIntervalIndex0 in
  let mx := if maxIntervalIndex0 <? lcf.maxIntervalIndex c
            then lcf.maxIntervalIndex c else maxIntervalIndex0 in
  let startLevel := if isBase then 0 else zlen (Levels s) - 1 in
  let increment := if isBase then 1 else -1 in
  let endLevel := if isBase then lcf.seedIntervalMaxLevel c + 1
                  else lcf.seedIntervalMinLevel c - 1 in
  let* (addedCount, c') :=
    rectLevels (S (length (Levels s))) s startLevel increment endLevel mn mx 0 c in
  Ok (0 <? addedCount, c').

(** ** Intra-L0 compactions *)

(** [slIndex] of the seed: the walk down from the top of the interval's
    files until the seed is met; running off the bottom is an index panic. *)
Fixpoint seedPosition (fs_rev : list fileRef) (p : fileRef) : result nat :=
  match fs_rev with
  | [] => Panic
  | q :: rest => if Nat.eqb q p then Ok (length rest) else seedPosition rest p
  end.

Fixpoint intraLoop (s : L0Sublevels) (earliestUnflushed minCompactionDepth : Z)
    (fs_rev : list fileRef) (c : L0CompactionFiles)
    (lastCandidate : option L0CompactionFiles) : result (option L0CompactionFiles) :=
  match fs_rev with
  | [] => Ok lastCandidate
  | p2 :: rest =>
      let* f2 := deref (levelMetadata s) p2 in
      let sl := subLevel f2 in
      if Compacting f2 then Ok lastCandidate else
      let c1 := stackOne c sl (lcf.seedIntervalMaxLevel c) in
      let* c2 := addFile (levelMetadata s) c1 p2 in
      let* (ok, c3) :=
        extendLevels s earliestUnflushed (zrange (sl + 1) (zlen (Levels s) - 1)) c2 in
      if negb ok then Ok lastCandidate else
      match lastCandidate with
      | None => intraLoop s earliestUnflushed minCompactionDepth rest c3 (Some c3)
      | Some lc =>
          if growthCapReached lc c3 minCompactionDepth then Ok lastCandidate
          else intraLoop s earliestUnflushed minCompactionDepth rest c3 (Some c3)
      end
  end.

Definition intraL0CompactionUsingSeed (s : L0Sublevels) (p : fileRef) (intervalIndex : Z)
    (earliestUnflushed minCompactionDepth : Z) : result (option L0CompactionFiles) :=
  let* f := deref (levelMetadata s) p in
  let c0 := lcf.mk [] (newBitSet (zlen (levelMetadata s))) 0 0 (zlen (Levels s) - 1)
              intervalIndex 0 (minIntervalIndex f) (maxIntervalIndex f)
              true earliestUnflushed 0 0 [] in
  let* c := addFile (levelMetadata s) c0 p in
  let* iv := lift (zget (orderedIntervals s) intervalIndex) in
  let* slIndex := seedPosition (reverse (files iv)) p in
  let* lastCandidate :=
    intraLoop s earliestUnflushed minCompactionDepth
      (reverse (take (S slIndex) (files iv))) c None in
  let* kept := finishCandidate s minCompactionDepth lastCandidate in
  match kept with
  | Some lc =>
      let* (_, lc') :=
        extendCandidateToRectangle s (lcf.minIntervalIndex lc) (lcf.maxIntervalIndex lc)
          lc false in
      Ok (Some lc')
  | None => Ok None
  end.

Definition scoreIntra (s : L0Sublevels) (minCompactionDepth : Z) : list intervalAndScore :=
  concat (imap (fun i iv =>
    let depth := fileCount iv - compactingFileCount iv in
    if depth <? minCompactionDepth then [] else [mkScore (Z.of_nat i) depth])
    (orderedIntervals s)).

(** The search for a seed from the highest sublevel down; the state is the
    file last looked at, the remaining depth budget and the considered set. *)
Fixpoint intraSeedLoop (arena : list FileMetadata) (earliestUnflushed : Z)
    (fs_rev : list fileRef) (f : option fileRef) (stackDepthReduction : Z)
    (considered : bitSet) : result (option fileRef * Z * bitSet) :=
  match fs_rev with
  | [] => Ok (f, stackDepthReduction, considered)
  | p :: rest =>
      let* g := deref arena p in
      if Compacting g then Ok (Some p, stackDepthReduction, considered) else
      let* considered' :=
        markBits considered (minIntervalIndex g) (maxIntervalIndex g + 1) in
      if earliestUnflushed <=? LargestSeqNum g then
        if stackDepthReduction - 1 =? 0
        then Ok (Some p, stackDepthReduction - 1, considered')
        else intraSeedLoop arena earliestUnflushed rest (Some p)
               (stackDepthReduction - 1) considered'
      else Ok (Some p, stackDepthReduction, considered')
  end.

Fixpoint pickIntraLoop (s : L0Sublevels) (earliestUnflushed minCompactionDepth : Z)
    (scored : list intervalAndScore) (considered : bitSet)
    : result (option L0CompactionFiles) :=
  match scored with
  | [] => Ok None
  | scoredInterval :: rest =>
      let* iv := lift (zget (orderedIntervals s) (interval scoredInterval)) in
      let* seen := lift (zget considered (index iv)) in
      if seen then pickIntraLoop s earliestUnflushed minCompactionDepth rest considered else
      let* (f, stackDepthReduction, considered') :=
        intraSeedLoop (levelMetadata s) earliestUnflushed (reverse (files iv)) None
          (score scoredInterval) considered in
      if stackDepthReduction <? minCompactionDepth
      then pickIntraLoop s earliestUnflushed minCompactionDepth rest considered' else
      match f with
      | None => Err ErrNoSeedFile
      | Some p =>
          let* g := deref (levelMetadata s) p in
          if Compacting g
          then pickIntraLoop s earliestUnflushed minCompactionDepth rest considered' else
          let* c := intraL0CompactionUsingSeed s p (index iv) earliestUnflushed
                      minCompactionDepth in
          match c with
          | Some c => Ok (Some c)
          | None => pickIntraLoop s earliestUnflushed minCompactionDepth rest considered'
          end
      end
  end.

Definition PickIntraL0Compaction (s : L0Sublevels) (earliestUnflushed minCompactionDepth : Z)
    : result (option L0CompactionFiles) :=
  pickIntraLoop s earliestUnflushed minCompactionDepth
    (go_sort byDecreasingScore (scoreIntra s minCompactionDepth))
    (newBitSet (zlen (orderedIntervals s))).

(** ** ExtendL0ForBaseCompactionTo *)

Definition ExtendL0ForBaseCompactionTo (s : L0Sublevels) (smallest largest : InternalKey)
    (candidate : L0CompactionFiles) : result (bool * L0CompactionFiles) :=
  let ivs := orderedIntervals s in
  let firstIntervalIndex :=
    if negb (Kind smallest =? InternalKeyKindInvalid) then
      if Trailer smallest =? InternalKeyRangeDeleteSentinel then
        searchIn ivs (fun iv => cmp (UserKey smallest) (key (startKey iv)) <=? 0)
      else
        searchIn ivs (fun iv => cmp (UserKey smallest) (key (startKey iv)) <? 0)
    else 0 in
  let lastIntervalIndex :=
    if negb (Kind largest =? InternalKeyKindInvalid) then
      let i := searchIn ivs (fun iv => cmp (UserKey largest) (key (startKey iv)) <=? 0) in
      (if i <? zlen ivs then i - 1 else i) - 1
    else zlen ivs - 1 in
  if lastIntervalIndex <? firstIntervalIndex then Ok (false, candidate)
  else extendCandidateToRectangle s firstIntervalIndex lastIntervalIndex candidate true.

End Engine.

(** ** A concrete environment: bytes.Compare and insertion sort

    [bytes.Compare] is the default comparer; [insertionSort] is what
    [sort.Sort] runs on short slices: each element moves left while it is
    [Less] than its left neighbour. *)

Fixpoint bytesCompare (a b : Key) : Z :=
  match a, b with
  | [], [] => 0
  | [], _ :: _ => -1
  | _ :: _, [] => 1
  | x :: a', y :: b' =>
      match N.compare (Byte.to_N x) (Byte.to_N y) with
      | Lt => -1
      | Gt => 1
      | Eq => bytesCompare a' b'
      end
  end.

(** [insertLeftwards less x r]: [r] is the sorted prefix, rightmost element
    first; [x] moves left past every element it is [less] than. *)
Fixpoint insertLeftwards {A} (less : A -> A -> bool) (x : A) (r : list A) : list A :=
  match r with
  | [] => [x]
  | p :: r' => if less x p then p :: insertLeftwards less x r' else x :: p :: r'
  end.

Definition insertionSort (A : Type) (less : A -> A -> bool) (l : list A) : list A :=
  reverse (fold_left (fun r x => insertLeftwards less x r) l []).

Lemma bytesCompare_sgn (a b : Key) :
  Z.sgn (bytesCompare b a) = - Z.sgn (bytesCompare a b).
Proof.
  revert b; induction a as [|x a IH]; intros [|y b]; simpl; try reflexivity.
  rewrite (N.compare_antisym (Byte.to_N x) (Byte.to_N y)).
  destruct (N.compare (Byte.to_N x) (Byte.to_N y)); simpl; auto.
Qed.

Lemma bytesCompare_trans (a b c : Key) :
  bytesCompare a b <= 0 -> bytesCompare b c <= 0 -> bytesCompare a c <= 0.
Proof.
  revert b c; induction a as [|x a IH]; intros [|y b] [|z c]; simpl; try lia.
  destruct (N.compare_spec (Byte.to_N x) (Byte.to_N y)) as [Hxy|Hxy|Hxy];
    destruct (N.compare_spec (Byte.to_N y) (Byte.to_N z)) as [Hyz|Hyz|Hyz];
    destruct (N.compare_spec (Byte.to_N x) (Byte.to_N z)) as [Hxz|Hxz|Hxz];
    try lia; eauto.
Qed.

Lemma insertLeftwards_perm {A} (less : A -> A -> bool) x r :
  Permutation (insertLeftwards less x r) (x :: r).
Proof.
  induction r as [|p r IH]; simpl; [reflexivity|].
  destruct (less x p); [|reflexivity].
  rewrite IH. apply perm_swap.
Qed.

Lemma insertionSort_perm A (less : A -> A -> bool) l :
  Permutation (insertionSort A less l) l.
Proof.
  unfold insertionSort. rewrite reverse_Permutation.
  enough (forall r, Permutation (fold_left (fun r x => insertLeftwards less x r) l r) (l ++ r))
    as H by (rewrite H, app_nil_r; reflexivity).
  induction l as [|x l IH]; intros r; simpl; [reflexivity|].
  rewrite IH, insertLeftwards_perm. symmetry. apply Permutation_middle.
Qed.

Lemma insertLeftwards_sorted {A} (less : A -> A -> bool) x r :
  (forall a b, less a b = true -> less b a = false) ->
  Sorted (fun a b => less a b = false) r ->
  Sorted (fun a b => less a b = false) (insertLeftwards less x r).
Proof.
  intros Hasym. induction r as [|p r IH]; intros Hs; simpl.
  - repeat constructor.
  - destruct (less x p) eqn:Hxp.
    + inversion Hs as [|? ? Hs' Hhd]; subst. constructor; [auto|].
      destruct r as [|q r]; simpl.
      * constructor. auto.
      * inversion Hhd; subst. destruct (less x q); constructor; auto.
    + constructor; [assumption|]. constructor. assumption.
Qed.

Lemma insertionSort_sorted A (less : A -> A -> bool) l :
  (forall a, less a a = false) ->
  (forall a b c, less a b = true -> less b c = true -> less a c = true) ->
  (forall a b c, less a b = false -> less b c = false -> less a c = false) ->
  Sorted (fun a b => less b a = false) (insertionSort A less l).
Proof.
  intros Hirr Htr _. unfold insertionSort.
  apply (Sorted_reverse (fun a b => less a b = false)).
  assert (Hasym : forall a b, less a b = true -> less b a = false).
  { intros a b Hab. destruct (less b a) eqn:Hba; [|reflexivity].
    rewrite <- (Hirr a). symmetry. eauto. }
  enough (forall r, Sorted (fun a b => less a b = false) r ->
            Sorted (fun a b => less a b = false)
              (fold_left (fun r x => insertLeftwards less x r) l r)) as H
    by (apply H; constructor).
  induction l as [|x l IH]; intros r Hr; simpl; [assumption|].
  apply IH, insertLeftwards_sorted; assumption.
Qed.

#[global] Instance bytesEnv : Env := {|
  cmp := bytesCompare;
  cmp_sgn := bytesCompare_sgn;
  cmp_trans := bytesCompare_trans;
  go_sort := insertionSort;
  go_sort_perm := insertionSort_perm;
  go_sort_sorted := insertionSort_sorted
|}.

(** * Properties *)

(** ** Reasoning about [result] *)

Lemma bind_Ok {A B} (m : result A) (k : A -> result B) (b : B) :
  bind m k = Ok b -> exists a, m = Ok a /\ k a = Ok b.
Proof. destruct m; simpl; intros H; try discriminate. eauto. Qed.

Lemma lift_Ok {A} (o : option A) (a : A) : lift o = Ok a -> o = Some a.
Proof. destruct o; simpl; congruence. Qed.

Ltac inv_bind H :=
  let a := fresh "x" in
  let Ha := fresh "Hx" in
  apply bind_Ok in H; destruct H as (a & Ha & H).

(** Peel every monadic step of a hypothesis [_ = Ok _]. *)
Ltac inv_ok H :=
  repeat first
    [ apply bind_Ok in H;
      let a := fresh "x" in let Ha := fresh "Hx" in destruct H as (a & Ha & H)
    | apply lift_Ok in H ].

Lemma foldM_inv {A S} (P : S -> Prop) (f : S -> A -> result S) (l : list A) s s' :
  (forall s a s', P s -> f s a = Ok s' -> P s') ->
  P s -> foldM f l s = Ok s' -> P s'.
Proof.
  intros Hstep. revert s. induction l as [|a l IH]; simpl; intros s Hs H.
  - congruence.
  - inv_bind H. eauto.
Qed.

(** ** addFile *)

Section Candidates.

Lemma addFile_cases arena c p c' :
  addFile arena c p = Ok c' ->
  exists f, arena !! p = Some f /\
    ((zget (lcf.FilesIncluded c) (l0Index f) = Some true /\ c' = c) \/
     (zget (lcf.FilesIncluded c) (l0Index f) = Some false /\
      exists fi, markBit (lcf.FilesIncluded c) (l0Index f) = Ok fi /\
      c' = lcf.mk (lcf.Files c ++ [p]) fi
        (lcf.seedIntervalStackDepthReduction c) (lcf.seedIntervalMinLevel c)
        (lcf.seedIntervalMaxLevel c) (lcf.seedInterval c)
        (uint64 (lcf.fileBytes c + Size f))
        (if minIntervalIndex f <? lcf.minIntervalIndex c
         then minIntervalIndex f else lcf.minIntervalIndex c)
        (if lcf.maxIntervalIndex c <? maxIntervalIndex f
         then maxIntervalIndex f else lcf.maxIntervalIndex c)
        (lcf.isIntraL0 c) (lcf.earliestUnflushedSeqNum c)
        (lcf.preExtensionMinInterval c) (lcf.preExtensionMaxInterval c)
        (lcf.filesAdded c ++ [p]))).
Proof.
  unfold addFile, deref. intros H.
  inv_bind H. apply lift_Ok in Hx. inv_bind H. apply lift_Ok in Hx0.
  exists x. split; [assumption|].
  destruct x0.
  - left. split; congruence.
  - right. split; [assumption|]. inv_bind H. exists x0. split; congruence.
Qed.

(** C10.  Adding a file that the candidate already includes changes nothing:
    the files, the inclusion bits, the byte total and the interval bounds all
    stay as they were. *)
Theorem addFile_included_unchanged (arena : list FileMetadata) (c : L0CompactionFiles)
    (p : fileRef) (f : FileMetadata) :
  arena !! p = Some f ->
  zget (lcf.FilesIncluded c) (l0Index f) = Some true ->
  addFile arena c p = Ok c.
Proof.
  intros Hp Hinc. unfold addFile, deref. rewrite Hp. simpl. rewrite Hinc. reflexivity.
Qed.

Lemma markBit_sets b i b' : markBit b i = Ok b' -> zget b' i = Some true.
Proof.
  unfold markBit, zupd. intros H. apply lift_Ok in H.
  destruct (zget b i) eqn:Hg; [|discriminate]. injection H as <-.
  unfold zget in *. destruct (0 <=? i); [|discriminate].
  apply list_lookup_insert_eq. eapply lookup_lt_Some; eauto.
Qed.

(** A file is counted once: a second [addFile] of the same file is the
    identity, whatever the first one did. *)
Lemma addFile_twice arena c p c' :
  addFile arena c p = Ok c' -> addFile arena c' p = Ok c'.
Proof.
  intros H. destruct (addFile_cases _ _ _ _ H) as (f & Hf & [[Hi ->]|[Hi (fi & Hm & ->)]]).
  - assumption.
  - eapply addFile_included_unchanged; [eassumption|]. simpl.
    eapply markBit_sets; eassumption.
Qed.

Lemma addFile_depth arena c p c' :
  addFile arena c p = Ok c' ->
  lcf.seedIntervalStackDepthReduction c' = lcf.seedIntervalStackDepthReduction c.
Proof.
  intros H. destruct (addFile_cases _ _ _ _ H) as (f & Hf & [[Hi ->]|[Hi (fi & Hm & ->)]]);
    reflexivity.
Qed.

End Candidates.

(** ** Invariants of a candidate along the builders

    Every file that the builders and the rectangle extension add goes through
    [addFile], and only after the caller has looked at its flags.  The lemmas
    below carry a property [P] of the candidate through each loop, given that
    [addFile] of such a file keeps it. *)

Section CandidateInvariants.
Context `{E : Env}.
Variable P : L0CompactionFiles -> Prop.

Section Extend.
Variable arena : list FileMetadata.
Variable earliestUnflushed : Z.
Hypothesis P_add : forall c p f c',
  P c -> arena !! p = Some f -> Compacting f = false ->
  LargestSeqNum f < earliestUnflushed ->
  addFile arena c p = Ok c' -> P c'.

Lemma extendFiles_loop_inv fs c ok c' :
  P c -> extendFiles_loop arena earliestUnflushed fs c = Ok (ok, c') -> P c'.
Proof.
  revert c. induction fs as [|p fs IH]; simpl; intros c Hc H.
  - congruence.
  - inv_bind H. apply lift_Ok in Hx.
    destruct (lcf.maxIntervalIndex c <? minIntervalIndex x); [congruence|].
    destruct (Compacting x) eqn:Hcomp; [congruence|].
    destruct (earliestUnflushed <=? LargestSeqNum x) eqn:Hseq; [eauto|].
    inv_bind H. apply Z.leb_gt in Hseq. eauto.
Qed.

Lemma extendFiles_inv s sl c ok c' :
  levelMetadata s = arena ->
  P c -> extendFiles s sl earliestUnflushed c = Ok (ok, c') -> P c'.
Proof.
  intros Hs Hc H. unfold extendFiles in H. rewrite Hs in H. inv_bind H.
  eapply extendFiles_loop_inv; eauto.
Qed.

Lemma extendLevels_inv s levels c ok c' :
  levelMetadata s = arena ->
  P c -> extendLevels s earliestUnflushed levels c = Ok (ok, c') -> P c'.
Proof.
  intros Hs. revert c. induction levels as [|l levels IH]; simpl; intros c Hc H.
  - congruence.
  - inv_bind H. destruct x as [ok1 c1].
    assert (P c1) by (eapply extendFiles_inv; eauto).
    destruct ok1; [eauto|congruence].
Qed.

End Extend.

Section Rectangle.
Variable arena : list FileMetadata.
Hypothesis P_add : forall c p f c',
  P c -> arena !! p = Some f -> Compacting f = false ->
  lcf.isIntraL0 c && (lcf.earliestUnflushedSeqNum c <=? LargestSeqNum f) = false ->
  addFile arena c p = Ok c' -> P c'.

Lemma rectAdd_inv fs st idx st' :
  P (snd st) -> rectAdd arena fs st idx = Ok st' -> P (snd st').
Proof.
  destruct st as [n c]. simpl. intros Hc H. unfold rectAdd in H.
  inv_bind H. inv_bind H. apply lift_Ok in Hx0.
  destruct (Compacting x0) eqn:Hcomp; [discriminate|].
  destruct (lcf.isIntraL0 c && (lcf.earliestUnflushedSeqNum c <=? LargestSeqNum x0)) eqn:Hseq.
  - injection H as <-. assumption.
  - inv_bind H. destruct x1.
    + injection H as <-. assumption.
    + inv_bind H. injection H as <-. simpl. eauto.
Qed.

Lemma rectLevels_inv fuel s sl increment endLevel mn mx n c n' c' :
  levelMetadata s = arena ->
  P c ->
  rectLevels fuel s sl increment endLevel mn mx n c = Ok (n', c') -> P c'.
Proof.
  intros Hs. revert sl mn mx n c.
  induction fuel as [|fuel IH]; simpl; intros sl mn mx n c Hc H; [discriminate|].
  destruct (sl =? endLevel); [congruence|].
  inv_bind H. inv_bind H. destruct x0 as [[[mn1 mx1] firstIndex] lastIndex].
  destruct (mx1 <? mn1); [congruence|].
  destruct (firstIndex <? 0); [eauto|].
  inv_bind H.
  destruct (candidateNonCompactingFirst (closeRun x0 lastIndex) =? -1); [congruence|].
  inv_bind H. inv_bind H. inv_bind H. destruct x3 as [n2 c2].
  eapply IH; [|eassumption].
  change c2 with (snd (n2, c2)).
  eapply (foldM_inv (fun st => P (snd st))); [| |eassumption]; [|exact Hc].
  intros st a st' Hst Hadd. rewrite Hs in Hadd. eapply rectAdd_inv; eauto.
Qed.

Hypothesis P_pre : forall c, P c -> P (setPreExtension c).

Lemma extendCandidateToRectangle_inv s mn mx c isBase ok c' :
  levelMetadata s = arena ->
  P c -> extendCandidateToRectangle s mn mx c isBase = Ok (ok, c') -> P c'.
Proof.
  intros Hs Hc H. apply P_pre in Hc. unfold extendCandidateToRectangle in H.
  inv_bind H. destruct x as [n2 c2]. injection H as _ <-.
  eapply rectLevels_inv; [exact Hs| |eassumption]. exact Hc.
Qed.

End Rectangle.
End CandidateInvariants.

(** ** Stack-depth reduction of a picked candidate *)

Section Depth.
Context `{E : Env}.

Lemma remarkFiles_shape arena l l' :
  remarkFiles arena l = Ok l' -> exists fi, l' = setFilesIncluded l fi.
Proof. unfold remarkFiles. intros H. inv_bind H. injection H as <-. eauto. Qed.

Lemma finishCandidate_Some s m last c :
  finishCandidate s m last = Ok (Some c) ->
  exists lc, last = Some lc /\ m <= lcf.seedIntervalStackDepthReduction lc /\
             remarkFiles (levelMetadata s) lc = Ok c.
Proof.
  unfold finishCandidate. destruct last as [lc|]; [|discriminate].
  destruct (m <=? lcf.seedIntervalStackDepthReduction lc) eqn:Hm; [|discriminate].
  intros H. inv_bind H. injection H as <-. apply Z.leb_le in Hm. eauto.
Qed.

Lemma finishCandidate_depth s m last c :
  finishCandidate s m last = Ok (Some c) ->
  m <= lcf.seedIntervalStackDepthReduction c.
Proof.
  intros H. apply finishCandidate_Some in H as (lc & _ & Hm & H).
  apply remarkFiles_shape in H as (fi & ->). exact Hm.
Qed.

Lemma baseCompactionUsingSeed_depth s p i m c :
  baseCompactionUsingSeed s p i m = Ok (Some c) ->
  m <= lcf.seedIntervalStackDepthReduction c.
Proof.
  unfold baseCompactionUsingSeed. intros H. do 4 inv_bind H.
  eapply finishCandidate_depth; eassumption.
Qed.

Lemma rectangle_depth s mn mx c isBase ok c' :
  extendCandidateToRectangle s mn mx c isBase = Ok (ok, c') ->
  lcf.seedIntervalStackDepthReduction c' = lcf.seedIntervalStackDepthReduction c.
Proof.
  intros H.
  eapply (extendCandidateToRectangle_inv
            (fun x => lcf.seedIntervalStackDepthReduction x
                      = lcf.seedIntervalStackDepthReduction c) (levelMetadata s));
    [| |reflexivity|reflexivity|exact H].
  - intros c0 p f c0' Hc0 _ _ _ Hadd. rewrite <- Hc0. eapply addFile_depth; eassumption.
  - intros c0 Hc0. exact Hc0.
Qed.

Lemma intraL0CompactionUsingSeed_depth s p i eus m c :
  intraL0CompactionUsingSeed s p i eus m = Ok (Some c) ->
  m <= lcf.seedIntervalStackDepthReduction c.
Proof.
  unfold intraL0CompactionUsingSeed. intros H. do 6 inv_bind H.
  destruct x4 as [lc|]; [|discriminate].
  inv_bind H. destruct x4 as [ok c']. injection H as <-.
  apply rectangle_depth in Hx5. rewrite Hx5.
  eapply finishCandidate_depth; eassumption.
Qed.

Lemma pickBaseLoop_depth s m baseFiles scored considered c :
  pickBaseLoop s m baseFiles scored considered = Ok (Some c) ->
  m <= lcf.seedIntervalStackDepthReduction c.
Proof.
  revert considered. induction scored as [|si scored IH]; simpl; intros considered H;
    [discriminate|].
  inv_bind H. inv_bind H. destruct x0; [eauto|].
  do 3 inv_bind H.
  destruct (Compacting x1).
  { destruct (IsIntraL0Compacting x1); [eauto|discriminate]. }
  inv_bind H. destruct x3 as [c0|]; [|eauto].
  inv_bind H. destruct x3; [eauto|].
  injection H as <-. eapply baseCompactionUsingSeed_depth; eassumption.
Qed.

Lemma pickIntraLoop_depth s eus m scored considered c :
  pickIntraLoop s eus m scored considered = Ok (Some c) ->
  m <= lcf.seedIntervalStackDepthReduction c.
Proof.
  revert considered. induction scored as [|si scored IH]; simpl; intros considered H;
    [discriminate|].
  inv_bind H. inv_bind H. destruct x0; [eauto|].
  inv_bind H. destruct x0 as [[f sdr] considered'].
  destruct (sdr <? m); [eauto|].
  destruct f as [p|]; [|discriminate].
  inv_bind H. destruct (Compacting x0); [eauto|].
  inv_bind H. destruct x1 as [c0|]; [|eauto].
  injection H as <-. eapply intraL0CompactionUsingSeed_depth; eassumption.
Qed.

(** C7.  A candidate returned by either picker reduces the stack depth of its
    seed interval by at least [minCompactionDepth]; a seed that cannot reach
    that depth yields no candidate. *)
Theorem picked_candidate_depth (s : L0Sublevels) (minCompactionDepth : Z)
    (baseFiles : list FileMetadata) (earliestUnflushed : Z) (c : L0CompactionFiles) :
  PickBaseCompaction s minCompactionDepth baseFiles = Ok (Some c) \/
  PickIntraL0Compaction s earliestUnflushed minCompactionDepth = Ok (Some c) ->
  minCompactionDepth <= lcf.seedIntervalStackDepthReduction c.
Proof.
  intros [H|H].
  - eapply pickBaseLoop_depth; exact H.
  - eapply pickIntraLoop_depth; exact H.
Qed.

End Depth.

(** ** The structure of an engine is fixed after construction *)

(** What construction decides for an interval. *)
Definition intervalStructure (iv : fileInterval)
    : Z * intervalKey * list fileRef * Z * Z * Z * Z :=
  (index iv, startKey iv, files iv, fileCount iv, estimatedBytes iv,
   filesMinIntervalIndex iv, filesMaxIntervalIndex iv).

Definition structure (s : L0Sublevels)
    : list (list fileRef) * list (Z * intervalKey * list fileRef * Z * Z * Z * Z)
      * list Key * list FileMetadata * Z :=
  (Levels s, map intervalStructure (orderedIntervals s), flushSplitUserKeys s,
   levelMetadata s, fileBytes s).

(** The calls that can be made on a built engine. *)
Inductive engineCall : Type :=
| CallInitCompactingFileInfo (inProgress : list L0Compaction)
| CallUpdateStateForStartedCompaction (inputs : list (list fileRef)) (isBase : bool)
| CallPickBaseCompaction (minCompactionDepth : Z) (baseFiles : list FileMetadata)
| CallPickIntraL0Compaction (earliestUnflushed minCompactionDepth : Z)
| CallExtendL0ForBaseCompactionTo (smallest largest : InternalKey)
    (candidate : L0CompactionFiles)
| CallReadAmplification
| CallMaxDepthAfterOngoingCompactions
| CallFlushSplitKeys.

Definition tracksCompactionState (call : engineCall) : bool :=
  match call with
  | CallInitCompactingFileInfo _ | CallUpdateStateForStartedCompaction _ _ => true
  | _ => false
  end.

Section Frame.
Context `{E : Env}.

(** The engine that a call leaves behind.  The two state trackers write the
    intervals; the pickers, the extension and the queries only read the
    receiver (the source assigns to none of its fields there), so the engine
    after them is the engine before. *)
Definition engineAfter (call : engineCall) (s : L0Sublevels) : result L0Sublevels :=
  match call with
  | CallInitCompactingFileInfo inProgress => InitCompactingFileInfo s inProgress
  | CallUpdateStateForStartedCompaction inputs isBase =>
      UpdateStateForStartedCompaction s inputs isBase
  | CallPickBaseCompaction m baseFiles =>
      let* _ := PickBaseCompaction s m baseFiles in Ok s
  | CallPickIntraL0Compaction eus m =>
      let* _ := PickIntraL0Compaction s eus m in Ok s
  | CallExtendL0ForBaseCompactionTo smallest largest candidate =>
      let* _ := ExtendL0ForBaseCompactionTo s smallest largest candidate in Ok s
  | CallReadAmplification => let _ := ReadAmplification s in Ok s
  | CallMaxDepthAfterOngoingCompactions =>
      let _ := MaxDepthAfterOngoingCompactions s in Ok s
  | CallFlushSplitKeys => let _ := FlushSplitKeys s in Ok s
  end.

Definition sameShape (ivs ivs' : list fileInterval) : Prop :=
  map intervalStructure ivs' = map intervalStructure ivs.

Lemma zget_Some {A} (l : list A) i x :
  zget l i = Some x -> 0 <= i /\ l !! Z.to_nat i = Some x.
Proof.
  unfold zget. destruct (0 <=? i) eqn:Hi; [|discriminate].
  apply Z.leb_le in Hi. auto.
Qed.

Lemma zupd_Some {A} (l : list A) i g l' :
  zupd l i g = Some l' ->
  exists x, 0 <= i /\ l !! Z.to_nat i = Some x /\ l' = <[Z.to_nat i := g x]> l.
Proof.
  unfold zupd. destruct (zget l i) eqn:Hg; [|discriminate].
  intros [= <-]. apply zget_Some in Hg as [? ?]. eauto.
Qed.

Lemma zupd_sameShape ivs i g ivs' :
  (forall iv, intervalStructure (g iv) = intervalStructure iv) ->
  zupd ivs i g = Some ivs' -> sameShape ivs ivs'.
Proof.
  intros Hg H. apply zupd_Some in H as (x & _ & Hx & ->).
  unfold sameShape. change (intervalStructure <$> <[Z.to_nat i := g x]> ivs
                            = intervalStructure <$> ivs).
  rewrite list_fmap_insert, Hg. apply list_insert_id.
  rewrite list_lookup_fmap, Hx. reflexivity.
Qed.

Lemma foldM_zupd_sameShape {A} (g : A -> fileInterval -> fileInterval)
    (ix : A -> Z) (l : list A) ivs0 ivs ivs' :
  (forall a iv, intervalStructure (g a iv) = intervalStructure iv) ->
  sameShape ivs0 ivs ->
  foldM (fun ivs a => lift (zupd ivs (ix a) (g a))) l ivs = Ok ivs' ->
  sameShape ivs0 ivs'.
Proof.
  intros Hg H0 H.
  eapply (foldM_inv (sameShape ivs0)); [|exact H0|exact H].
  intros s a s' Hs Hstep. apply lift_Ok in Hstep.
  eapply zupd_sameShape in Hstep; [|apply Hg].
  unfold sameShape in *. congruence.
Qed.

Lemma initFile_sameShape ivs0 ivs f ivs' :
  sameShape ivs0 ivs -> initFile ivs f = Ok ivs' -> sameShape ivs0 ivs'.
Proof.
  unfold initFile. intros H0 H. destruct (Compacting f); [|congruence].
  unfold markFileCompacting in H.
  eapply (foldM_zupd_sameShape
            (fun _ iv => if IsIntraL0Compacting f then countCompacting iv
                         else setBaseCompacting (countCompacting iv)) id);
    [|exact H0|exact H].
  intros _ iv. destruct (IsIntraL0Compacting f); reflexivity.
Qed.

Lemma initInProgress_sameShape ivs0 ivs c ivs' :
  sameShape ivs0 ivs -> initInProgress ivs c = Ok ivs' -> sameShape ivs0 ivs'.
Proof.
  unfold initInProgress. intros H0 H.
  eapply (foldM_inv (sameShape ivs0)); [|exact H0|exact H].
  intros s i s' Hs Hstep. simpl in Hstep. destruct (IsIntraL0 c).
  - inv_bind Hstep. congruence.
  - apply lift_Ok in Hstep. eapply zupd_sameShape in Hstep; [|reflexivity].
    unfold sameShape in *. congruence.
Qed.

Lemma propagateStep_sameShape ivs0 st i st' :
  sameShape ivs0 (snd st) -> propagateStep st i = Ok st' -> sameShape ivs0 (snd st').
Proof.
  unfold propagateStep. intros H0 H. inv_bind H.
  destruct (isBaseCompacting x); [|congruence].
  eapply (foldM_inv (fun st => sameShape ivs0 (snd st))); [|exact H0|exact H].
  intros s j s' Hs Hstep. unfold markRange in Hstep. inv_bind Hstep.
  injection Hstep as <-. simpl. apply lift_Ok in Hx0.
  eapply zupd_sameShape in Hx0; [|reflexivity]. unfold sameShape in *. congruence.
Qed.

Lemma InitCompactingFileInfo_structure s inProgress s' :
  InitCompactingFileInfo s inProgress = Ok s' -> structure s' = structure s.
Proof.
  unfold InitCompactingFileInfo. intros H. do 3 inv_bind H. injection H as <-.
  assert (H0 : sameShape (orderedIntervals s) (map resetInterval (orderedIntervals s))).
  { unfold sameShape. rewrite map_map. reflexivity. }
  assert (H1 : sameShape (orderedIntervals s) x).
  { eapply (foldM_inv (sameShape (orderedIntervals s))); [|exact H0|exact Hx].
    intros; eapply initFile_sameShape; eauto. }
  assert (H2 : sameShape (orderedIntervals s) x0).
  { eapply (foldM_inv (sameShape (orderedIntervals s))); [|exact H1|exact Hx0].
    intros; eapply initInProgress_sameShape; eauto. }
  assert (H3 : sameShape (orderedIntervals s) (snd x1)).
  { eapply (foldM_inv (fun st => sameShape (orderedIntervals s) (snd st)));
      [| |exact Hx1]; [|exact H2].
    intros; eapply propagateStep_sameShape; eauto. }
  unfold structure, setIntervals. simpl. rewrite H3. reflexivity.
Qed.

Lemma updateFile_sameShape arena ivs0 st p st' :
  sameShape ivs0 (snd st) -> updateFile arena st p = Ok st' -> sameShape ivs0 (snd st').
Proof.
  destruct st as [[mn mx] ivs]. simpl. intros H0 H. unfold updateFile in H.
  do 2 inv_bind H. injection H as <-. simpl.
  eapply (foldM_zupd_sameShape (fun _ => countCompacting) id); [|exact H0|exact Hx0].
  reflexivity.
Qed.

Lemma updateBase_sameShape ivs0 ivs i ivs' :
  sameShape ivs0 ivs -> updateBase ivs i = Ok ivs' -> sameShape ivs0 ivs'.
Proof.
  unfold updateBase. intros H0 H. do 2 inv_bind H. apply lift_Ok in Hx.
  eapply zupd_sameShape in Hx; [|reflexivity].
  eapply (foldM_zupd_sameShape (fun _ => setRangeBaseCompacting) id); [| |exact H].
  - reflexivity.
  - unfold sameShape in *. congruence.
Qed.

Lemma UpdateStateForStartedCompaction_structure s inputs isBase s' :
  UpdateStateForStartedCompaction s inputs isBase = Ok s' -> structure s' = structure s.
Proof.
  unfold UpdateStateForStartedCompaction. intros H. inv_bind H.
  destruct x as [[mn mx] ivs].
  assert (H1 : sameShape (orderedIntervals s) ivs).
  { change ivs with (snd (mn, mx, ivs)).
    eapply (foldM_inv (fun st => sameShape (orderedIntervals s) (snd st)));
      [| |exact Hx]; [|reflexivity].
    intros; eapply updateFile_sameShape; eauto. }
  destruct isBase.
  - inv_bind H. injection H as <-.
    assert (H2 : sameShape (orderedIntervals s) x).
    { eapply (foldM_inv (sameShape (orderedIntervals s))); [|exact H1|exact Hx0].
      intros; eapply updateBase_sameShape; eauto. }
    unfold structure, setIntervals. simpl. rewrite H2. reflexivity.
  - injection H as <-. unfold structure, setIntervals. simpl. rewrite H1. reflexivity.
Qed.

(** C9.  No call on a built engine changes its structure: the sublevels, the
    intervals as construction laid them out (index, start key, files, file
    count, estimated bytes, file interval range), the flush split keys and
    the file arena stay as they are.  Whatever does change is changed by
    [InitCompactingFileInfo] or [UpdateStateForStartedCompaction]: every other
    call leaves the engine as it found it. *)
Theorem structure_fixed_after_construction (call : engineCall) (s s' : L0Sublevels) :
  engineAfter call s = Ok s' ->
  structure s' = structure s /\
  (tracksCompactionState call = false -> s' = s).
Proof.
  destruct call; simpl; intros H.
  - split; [eapply InitCompactingFileInfo_structure; eassumption|discriminate].
  - split; [eapply UpdateStateForStartedCompaction_structure; eassumption|discriminate].
  - inv_bind H. injection H as <-. auto.
  - inv_bind H. injection H as <-. auto.
  - inv_bind H. injection H as <-. auto.
  - injection H as <-. auto.
  - injection H as <-. auto.
  - injection H as <-. auto.
Qed.

End Frame.

(** ** Concrete engines

    Files are written [l0file num smallest largest size seqNum compacting
    intraL0]; keys are ASCII and compared bytewise. *)

Definition userKey (s : string) : Key := list_byte_of_string s.

Definition l0file (num : Z) (smallest largest : string) (size seqNum : Z)
    (compacting intraL0 : bool) : FileMetadata :=
  mkFile num size seqNum seqNum
    (mkInternalKey (userKey smallest) 1) (mkInternalKey (userKey largest) 1)
    compacting intraL0 0 0 0 0.

(** Construction followed by [InitCompactingFileInfo] with no compaction in
    progress beyond what the files' flags say. *)
Definition builtEngine (fs : list FileMetadata) (flushSplitMaxBytes : Z)
    : result L0Sublevels :=
  let* s := NewL0Sublevels (E := bytesEnv) fs flushSplitMaxBytes in
  InitCompactingFileInfo (E := bytesEnv) s [].

Definition orEmpty (r : result L0Sublevels) : L0Sublevels :=
  match r with Ok s => s | _ => mkL0 [] 0 [] [] [] end.

(** Three files stacked over [a, d]. *)
Definition tallStack : L0Sublevels :=
  orEmpty (builtEngine [l0file 1 "a" "d" 100 1 false false;
                        l0file 2 "a" "d" 100 2 false false;
                        l0file 3 "a" "d" 100 3 false false] 1048576).

(** Two files over [a, d]; the upper one is part of an intra-L0 compaction. *)
Definition upperFileIntraCompacting : L0Sublevels :=
  orEmpty (builtEngine [l0file 1 "a" "d" 100 1 false false;
                        l0file 2 "a" "d" 100 2 true true] 1048576).

(** One file, newer than the earliest unflushed sequence number 15. *)
Definition oneUnflushedFile : L0Sublevels :=
  orEmpty (builtEngine [l0file 1 "a" "d" 100 20 false false] 1048576).


(** [a, b] below [a, f] below [e, f]. *)
Definition staircase : list FileMetadata :=
  [l0file 1 "a" "b" 10 1 false false;
   l0file 2 "a" "f" 10 2 false false;
   l0file 3 "e" "f" 10 3 false false].

(** A large file over [a, b] and a small one over [c, d]. *)
Definition oneHeavyInterval : list FileMetadata :=
  [l0file 1 "a" "b" 1000 1 false false; l0file 2 "c" "d" 10 2 false false].

Lemma addFile_included_unchanged_witness :
  addFile [l0file 1 "a" "d" 100 1 false false]
    (lcf.mk [0%nat] [true] 1 0 0 0 100 0 0 false 0 0 0 [0%nat]) 0%nat
  = Ok (lcf.mk [0%nat] [true] 1 0 0 0 100 0 0 false 0 0 0 [0%nat]).
Proof.
  apply (addFile_included_unchanged _ _ _ (l0file 1 "a" "d" 100 1 false false));
    reflexivity.
Defined.

Lemma picked_candidate_depth_witness :
  exists c, PickBaseCompaction (E := bytesEnv) tallStack 2 [] = Ok (Some c) /\
            2 <= lcf.seedIntervalStackDepthReduction c.
Proof.
  eexists. split; [vm_compute; reflexivity|].
  apply (picked_candidate_depth (E := bytesEnv) tallStack 2 [] 0).
  left. vm_compute. reflexivity.
Defined.

Lemma structure_fixed_after_construction_witness :
  exists s', engineAfter (E := bytesEnv) (CallInitCompactingFileInfo []) tallStack = Ok s' /\
             structure s' = structure tallStack.
Proof.
  eexists. split; [vm_compute; reflexivity|].
  apply (structure_fixed_after_construction (E := bytesEnv)
           (CallInitCompactingFileInfo []) tallStack).
  vm_compute. reflexivity.
Defined.

(** C1, at the failing input.  With two files over [a, d], the upper one in an
    intra-L0 compaction, [PickBaseCompaction] with depth 1 returns a candidate
    that holds the compacting file: the builder stacks the files of the seed
    interval without looking at their flags. *)
Example base_candidate_holds_compacting_file :
  exists c f,
    PickBaseCompaction (E := bytesEnv) upperFileIntraCompacting 1 [] = Ok (Some c) /\
    lcf.Files c = [0%nat; 1%nat] /\
    levelMetadata upperFileIntraCompacting !! 1%nat = Some f /\
    Compacting f = true /\ IsIntraL0Compacting f = true.
Proof.
  eexists. exists (setSpan (setL0Index 1 (l0file 2 "a" "d" 100 2 true true)) 0 0 1).
  split; [vm_compute; reflexivity|].
  split; [vm_compute; reflexivity|].
  split; [vm_compute; reflexivity|].
  split; reflexivity.
Qed.

(** ** The order on interval keys *)

Section KeyOrder.
Context `{E : Env}.

Lemma cmp_refl a : cmp a a = 0.
Proof. pose proof (cmp_sgn a a) as H. destruct (cmp a a); simpl in H; lia. Qed.

Lemma cmp_flip a b : (cmp a b < 0 <-> 0 < cmp b a) /\ (cmp a b = 0 <-> cmp b a = 0).
Proof.
  pose proof (cmp_sgn a b) as H.
  destruct (cmp a b), (cmp b a); simpl in H; split; split; intros; lia.
Qed.

Lemma cmp_lt_le a b c : cmp a b < 0 -> cmp b c <= 0 -> cmp a c < 0.
Proof.
  intros Hab Hbc. destruct (Z_lt_le_dec (cmp a c) 0) as [|Hac]; [assumption|].
  assert (Hca : cmp c a <= 0) by (destruct (cmp_flip a c) as [? ?]; lia).
  pose proof (cmp_trans b c a Hbc Hca).
  destruct (cmp_flip a b) as [? ?]. lia.
Qed.

Lemma cmp_le_lt a b c : cmp a b <= 0 -> cmp b c < 0 -> cmp a c < 0.
Proof.
  intros Hab Hbc. destruct (Z_lt_le_dec (cmp a c) 0) as [|Hac]; [assumption|].
  assert (Hca : cmp c a <= 0) by (destruct (cmp_flip a c) as [? ?]; lia).
  pose proof (cmp_trans c a b Hca Hab).
  destruct (cmp_flip b c) as [? ?]. lia.
Qed.

Lemma cmp_eq_eq a b c : cmp a b = 0 -> cmp b c = 0 -> cmp a c = 0.
Proof.
  intros Hab Hbc.
  assert (cmp a c <= 0) by (apply (cmp_trans a b c); lia).
  assert (cmp c a <= 0).
  { destruct (cmp_flip a b), (cmp_flip b c). apply (cmp_trans c b a); lia. }
  destruct (cmp_flip a c). lia.
Qed.

(** [intervalKeyCompare] read as a lexicographic order. *)
Lemma intervalKeyCompare_lt a b :
  intervalKeyCompare a b < 0 <->
  cmp (key a) (key b) < 0 \/
  (cmp (key a) (key b) = 0 /\ isLargest a = false /\ isLargest b = true).
Proof.
  unfold intervalKeyCompare.
  destruct (Z.eqb_spec (cmp (key a) (key b)) 0) as [H0|H0];
    destruct (isLargest a), (isLargest b); simpl; try rewrite H0; intuition (try lia; try congruence).
Qed.

Lemma intervalKeyCompare_eq a b :
  intervalKeyCompare a b = 0 <->
  cmp (key a) (key b) = 0 /\ isLargest a = isLargest b.
Proof.
  unfold intervalKeyCompare.
  destruct (Z.eqb_spec (cmp (key a) (key b)) 0) as [H0|H0];
    destruct (isLargest a), (isLargest b); simpl; try rewrite H0; intuition (try lia; try congruence).
Qed.

Lemma intervalKeyCompare_gt a b :
  0 < intervalKeyCompare a b <-> intervalKeyCompare b a < 0.
Proof.
  rewrite intervalKeyCompare_lt. unfold intervalKeyCompare.
  destruct (cmp_flip (key a) (key b)) as [H1 H2].
  destruct (Z.eqb_spec (cmp (key a) (key b)) 0) as [H0|H0];
    destruct (isLargest a), (isLargest b); simpl; try rewrite H0;
    intuition (try lia; try congruence).
Qed.

Lemma intervalKeyCompare_le a b :
  intervalKeyCompare a b <= 0 <->
  cmp (key a) (key b) < 0 \/
  (cmp (key a) (key b) = 0 /\ (isLargest a = true -> isLargest b = true)).
Proof.
  assert (intervalKeyCompare a b <= 0 <->
          intervalKeyCompare a b < 0 \/ intervalKeyCompare a b = 0) as -> by lia.
  rewrite intervalKeyCompare_lt, intervalKeyCompare_eq.
  destruct (isLargest a), (isLargest b); intuition (try lia; try congruence).
Qed.

Lemma intervalKeyCompare_refl a : intervalKeyCompare a a = 0.
Proof. apply intervalKeyCompare_eq. split; [apply cmp_refl|reflexivity]. Qed.

Lemma intervalKeyCompare_trans a b c :
  intervalKeyCompare a b <= 0 -> intervalKeyCompare b c <= 0 ->
  intervalKeyCompare a c <= 0.
Proof.
  rewrite !intervalKeyCompare_le.
  intros [Hab|[Hab Lab]] [Hbc|[Hbc Lbc]].
  - left. eapply cmp_lt_le; [eassumption|lia].
  - left. eapply cmp_lt_le; [eassumption|lia].
  - left. eapply cmp_le_lt; [|eassumption]. lia.
  - right. split; [eapply cmp_eq_eq; eassumption|auto].
Qed.

Lemma intervalKeyCompare_lt_le a b c :
  intervalKeyCompare a b < 0 -> intervalKeyCompare b c <= 0 ->
  intervalKeyCompare a c < 0.
Proof.
  intros Hab Hbc.
  destruct (Z_lt_le_dec (intervalKeyCompare a c) 0) as [|Hac]; [assumption|].
  assert (Hca : intervalKeyCompare c a <= 0).
  { destruct (Z.eq_dec (intervalKeyCompare a c) 0) as [H0|H0].
    - apply intervalKeyCompare_eq in H0 as [H1 H2].
      apply intervalKeyCompare_le. right. destruct (cmp_flip (key a) (key c)).
      split; [tauto|congruence].
    - assert (0 < intervalKeyCompare a c) as H by lia.
      apply intervalKeyCompare_gt in H. lia. }
  pose proof (intervalKeyCompare_trans _ _ _ Hbc Hca) as Hba.
  assert (0 < intervalKeyCompare b a) as H by (apply intervalKeyCompare_gt; exact Hab).
  lia.
Qed.

Lemma intervalKeyCompare_le_lt a b c :
  intervalKeyCompare a b <= 0 -> intervalKeyCompare b c < 0 ->
  intervalKeyCompare a c < 0.
Proof.
  intros Hab Hbc.
  destruct (Z_lt_le_dec (intervalKeyCompare a c) 0) as [|Hac]; [assumption|].
  assert (Hca : intervalKeyCompare c a <= 0).
  { destruct (Z.eq_dec (intervalKeyCompare a c) 0) as [H0|H0].
    - apply intervalKeyCompare_eq in H0 as [H1 H2].
      apply intervalKeyCompare_le. right. destruct (cmp_flip (key a) (key c)).
      split; [tauto|congruence].
    - assert (0 < intervalKeyCompare a c) as H by lia.
      apply intervalKeyCompare_gt in H. lia. }
  pose proof (intervalKeyCompare_trans _ _ _ Hca Hab) as Hcb.
  assert (0 < intervalKeyCompare c b) as H by (apply intervalKeyCompare_gt; exact Hbc).
  lia.
Qed.

Lemma intervalKeyCompare_eq_sym a b :
  intervalKeyCompare a b = 0 -> intervalKeyCompare b a = 0.
Proof.
  rewrite !intervalKeyCompare_eq. intros [H1 H2].
  destruct (cmp_flip (key a) (key b)). split; [tauto|congruence].
Qed.

Lemma intervalKeyCompare_total a b :
  intervalKeyCompare a b <= 0 \/ intervalKeyCompare b a < 0.
Proof.
  destruct (Z_le_gt_dec (intervalKeyCompare a b) 0); [left; assumption|].
  right. apply intervalKeyCompare_gt. lia.
Qed.

End KeyOrder.

(** ** sort.Search finds the first index at which a monotone predicate holds *)

Lemma search_loop_spec (f : Z -> bool) :
  forall fuel i j,
    i <= j -> j - i <= Z.of_nat fuel ->
    (forall x y, i <= x -> x <= y -> y < j -> f x = true -> f y = true) ->
    i <= search_loop fuel f i j <= j /\
    (forall x, i <= x < search_loop fuel f i j -> f x = false) /\
    (forall x, search_loop fuel f i j <= x < j -> f x = true).
Proof.
  induction fuel as [|fuel IH]; intros i j Hij Hfuel Hmono; simpl.
  - assert (i = j) as -> by lia. repeat split; intros; lia.
  - destruct (Z.ltb_spec i j) as [Hlt|Hge].
    2:{ repeat split; intros; lia. }
    assert (Hh : i <= (i + j) / 2 < j).
    { split; [apply Z.div_le_lower_bound|apply Z.div_lt_upper_bound]; lia. }
    destruct (f ((i + j) / 2)) eqn:Hf.
    + destruct (IH i ((i + j) / 2)) as (Hr & Hlo & Hhi); [lia|lia| |].
      { intros x y ? ? ?. apply Hmono; lia. }
      split; [lia|]. split; [exact Hlo|].
      intros x Hx. destruct (Z_lt_le_dec x ((i + j) / 2)).
      * apply Hhi. lia.
      * apply (Hmono ((i + j) / 2) x); [lia|lia|lia|exact Hf].
    + destruct (IH ((i + j) / 2 + 1) j) as (Hr & Hlo & Hhi); [lia|lia| |].
      { intros x y ? ? ?. apply Hmono; lia. }
      split; [lia|]. split; [|exact Hhi].
      intros x Hx. destruct (Z_lt_le_dec ((i + j) / 2) x).
      * apply Hlo. lia.
      * destruct (f x) eqn:Hfx; [|reflexivity].
        rewrite <- Hf. symmetry. apply (Hmono x ((i + j) / 2)); [lia|lia|lia|exact Hfx].
Qed.

Lemma zget_lookup {A} (l : list A) (i : nat) : zget l (Z.of_nat i) = l !! i.
Proof.
  unfold zget. destruct (Z.leb_spec 0 (Z.of_nat i)); [|lia]. rewrite Nat2Z.id. reflexivity.
Qed.

Lemma zget_in_range {A} (l : list A) (i : Z) :
  0 <= i < zlen l -> exists x, zget l i = Some x.
Proof.
  intros Hi. unfold zget, zlen in *. destruct (Z.leb_spec 0 i); [|lia].
  destruct (lookup_lt_is_Some_2 l (Z.to_nat i)) as [x Hx]; [lia|]. eauto.
Qed.

Lemma zget_range {A} (l : list A) (i : Z) x : zget l i = Some x -> 0 <= i < zlen l.
Proof.
  intros H. apply zget_Some in H as [? H]. apply lookup_lt_Some in H. unfold zlen. lia.
Qed.

Lemma searchIn_spec {A} (l : list A) (p : A -> bool) :
  (forall i j x y, (i <= j)%nat -> l !! i = Some x -> l !! j = Some y ->
                   p x = true -> p y = true) ->
  0 <= searchIn l p <= zlen l /\
  (forall i x, l !! i = Some x -> Z.of_nat i < searchIn l p -> p x = false) /\
  (forall i x, l !! i = Some x -> searchIn l p <= Z.of_nat i -> p x = true).
Proof.
  intros Hmono. unfold searchIn, sort_Search.
  destruct (search_loop_spec
              (fun i => match zget l i with Some x => p x | None => true end)
              (Z.to_nat (zlen l)) 0 (zlen l)) as (Hr & Hlo & Hhi).
  - unfold zlen. lia.
  - unfold zlen. lia.
  - intros x y Hx Hxy Hy.
    destruct (zget_in_range l x) as [a Ha]; [lia|].
    destruct (zget_in_range l y) as [b Hb]; [lia|].
    rewrite Ha, Hb. apply zget_Some in Ha as [_ Ha]. apply zget_Some in Hb as [_ Hb].
    apply (Hmono (Z.to_nat x) (Z.to_nat y)); [lia|assumption|assumption].
  - split; [exact Hr|]. split.
    + intros i x Hi Hlt. specialize (Hlo (Z.of_nat i) ltac:(lia)).
      rewrite zget_lookup, Hi in Hlo. exact Hlo.
    + intros i x Hi Hle. apply lookup_lt_Some in Hi as Hlen.
      assert (Hz : Z.of_nat i < zlen l) by (unfold zlen; lia).
      specialize (Hhi (Z.of_nat i) (conj Hle Hz)).
      rewrite zget_lookup, Hi in Hhi. exact Hhi.
Qed.

(** ** The interval keys are strictly increasing and hold every boundary *)

Section SortedKeys.
Context `{E : Env}.

Definition ikle (a b : intervalKey) : Prop := intervalKeyCompare a b <= 0.
Definition iklt (a b : intervalKey) : Prop := intervalKeyCompare a b < 0.

Lemma StronglySorted_impl {A} (R R' : A -> A -> Prop) l :
  (forall a b, R a b -> R' a b) -> StronglySorted R l -> StronglySorted R' l.
Proof.
  intros HR. induction 1 as [|a l Hs IH Hall]; constructor; [assumption|].
  eapply List.Forall_impl; [|exact Hall]. auto.
Qed.

Lemma StronglySorted_lookup {A} (R : A -> A -> Prop) l (i j : nat) x y :
  StronglySorted R l -> (i < j)%nat -> l !! i = Some x -> l !! j = Some y -> R x y.
Proof.
  intros Hs. revert i j. induction Hs as [|a l Hs IH Hall]; intros i j Hij Hi Hj.
  - discriminate.
  - destruct j as [|j]; [lia|]. simpl in Hj. destruct i as [|i].
    + simpl in Hi. injection Hi as ->.
      rewrite Forall_forall in Hall. apply Hall. eapply list_elem_of_lookup_2; eassumption.
    + simpl in Hi. apply (IH i j); [lia|assumption|assumption].
Qed.

Lemma go_sort_keys_sorted keys :
  StronglySorted ikle (go_sort (fun a b => intervalKeyCompare a b <? 0) keys).
Proof.
  pose proof (go_sort_sorted intervalKey (fun a b => intervalKeyCompare a b <? 0) keys)
    as Hs.
  eapply (StronglySorted_impl (fun a b => (intervalKeyCompare b a <? 0) = false)).
  { intros a b Hab. apply Z.ltb_ge in Hab. unfold ikle.
    destruct (intervalKeyCompare_total a b) as [|Hlt]; [assumption|lia]. }
  apply Sorted_StronglySorted.
  { intros a b c Hab Hbc. apply Z.ltb_ge in Hab, Hbc. apply Z.ltb_ge.
    destruct (Z_lt_le_dec (intervalKeyCompare c a) 0) as [Hca|]; [|assumption].
    destruct (intervalKeyCompare_total a b) as [Hle|Hlt]; [|lia].
    pose proof (intervalKeyCompare_lt_le _ _ _ Hca Hle). lia. }
  apply Hs.
  - intros a. rewrite intervalKeyCompare_refl. reflexivity.
  - intros a b c Hab Hbc. apply Z.ltb_lt in Hab, Hbc. apply Z.ltb_lt.
    eapply intervalKeyCompare_lt_le; [eassumption|lia].
  - intros a b c Hab Hbc. apply Z.ltb_ge in Hab, Hbc. apply Z.ltb_ge.
    destruct (Z_lt_le_dec (intervalKeyCompare a c) 0) as [Hac|]; [|assumption].
    destruct (intervalKeyCompare_total c b) as [Hle|Hlt]; [|lia].
    pose proof (intervalKeyCompare_lt_le _ _ _ Hac Hle). lia.
Qed.

Lemma dedup_loop_spec last rest :
  StronglySorted ikle (last :: rest) ->
  StronglySorted iklt (last :: dedup_loop last rest) /\
  (forall x, x ∈ rest ->
     exists y, y ∈ last :: dedup_loop last rest /\ intervalKeyCompare x y = 0) /\
  (forall y, y ∈ dedup_loop last rest -> y ∈ rest).
Proof.
  revert last. induction rest as [|k rest IH]; intros last Hs; simpl.
  - split; [repeat constructor|]. split; intros ? Hx; inversion Hx.
  - inversion Hs as [|? ? Hs' Hall]; subst.
    inversion Hs' as [|? ? Hs'' Hall']; subst.
    inversion Hall as [|? ? Hlk Hall'']; subst.
    destruct (Z.eqb_spec (intervalKeyCompare k last) 0) as [Heq|Hne].
    + destruct (IH last) as (H1 & H2 & H3); [constructor; assumption|].
      split; [exact H1|]. split.
      * intros x Hx. apply elem_of_cons in Hx as [->|Hx]; [|auto].
        exists last. split; [left|assumption].
      * intros y Hy. right. auto.
    + destruct (IH k Hs') as (H1 & H2 & H3).
      assert (Hlt : iklt last k).
      { unfold iklt, ikle in *.
        destruct (Z.eq_dec (intervalKeyCompare last k) 0) as [H0|H0]; [|lia].
        apply intervalKeyCompare_eq_sym in H0. contradiction. }
      split; [|split].
      * constructor; [exact H1|]. rewrite Forall_forall. intros y Hy.
        apply elem_of_cons in Hy as [->|Hy]; [exact Hlt|].
        inversion H1 as [|? ? _ Hk]; subst. rewrite Forall_forall in Hk.
        unfold iklt in *. eapply intervalKeyCompare_lt_le; [exact Hlt|].
        specialize (Hk y Hy). lia.
      * intros x Hx. apply elem_of_cons in Hx as [->|Hx].
        -- exists k. split; [right; left|apply intervalKeyCompare_refl].
        -- destruct (H2 x Hx) as (y & Hy & Hxy). exists y. split; [right; exact Hy|exact Hxy].
      * intros y Hy. apply elem_of_cons in Hy as [->|Hy]; [left|right; auto].
Qed.

Lemma sortAndDedup_spec keys :
  StronglySorted iklt (sortAndDedup keys) /\
  (forall x, x ∈ keys ->
     exists y, y ∈ sortAndDedup keys /\ intervalKeyCompare x y = 0).
Proof.
  unfold sortAndDedup.
  pose proof (go_sort_keys_sorted keys) as Hs.
  pose proof (go_sort_perm intervalKey (fun a b => intervalKeyCompare a b <? 0) keys) as Hp.
  destruct (go_sort (fun a b => intervalKeyCompare a b <? 0) keys) as [|k0 rest].
  - split; [constructor|]. intros x Hx. rewrite <- Hp in Hx. inversion Hx.
  - destruct (dedup_loop_spec k0 rest Hs) as (H1 & H2 & _).
    split; [exact H1|]. intros x Hx. rewrite <- Hp in Hx.
    apply elem_of_cons in Hx as [->|Hx]; [|auto].
    exists k0. split; [left|apply intervalKeyCompare_refl].
Qed.

(** Searching a sorted key list for a key it holds gives that key's place. *)
Lemma searchIn_key_exact keys k (j : nat) k' :
  StronglySorted iklt keys -> keys !! j = Some k' -> intervalKeyCompare k k' = 0 ->
  searchIn keys (fun x => intervalKeyCompare k x <=? 0) = Z.of_nat j.
Proof.
  intros Hs Hj Hk.
  destruct (searchIn_spec keys (fun x => intervalKeyCompare k x <=? 0)) as (Hr & Hlo & Hhi).
  { intros i1 i2 x y Hi Hx Hy Hp. apply Z.leb_le in Hp. apply Z.leb_le.
    destruct (decide (i1 = i2)) as [->|Hne]; [congruence|].
    pose proof (StronglySorted_lookup iklt keys i1 i2 x y Hs ltac:(lia) Hx Hy) as Hxy.
    unfold iklt in Hxy. pose proof (intervalKeyCompare_le_lt _ _ _ Hp Hxy). lia. }
  set (r := searchIn keys (fun x => intervalKeyCompare k x <=? 0)) in *.
  destruct (Z_lt_le_dec (Z.of_nat j) r) as [Hlt|Hle].
  - specialize (Hlo j k' Hj Hlt). apply Z.leb_gt in Hlo. lia.
  - destruct (Z.eq_dec r (Z.of_nat j)) as [|Hne]; [assumption|].
    destruct (zget_in_range keys r) as [x Hx].
    { apply lookup_lt_Some in Hj. unfold zlen. lia. }
    apply zget_Some in Hx as [H0 Hx].
    assert (Hrr : r <= Z.of_nat (Z.to_nat r)) by lia.
    pose proof (Hhi _ x Hx Hrr) as Hp. apply Z.leb_le in Hp.
    assert (Hrj : (Z.to_nat r < j)%nat) by lia.
    pose proof (StronglySorted_lookup iklt keys _ j x k' Hs Hrj Hx Hj) as Hxk.
    unfold iklt in Hxk. apply intervalKeyCompare_eq_sym in Hk.
    assert (Hk' : intervalKeyCompare k' k <= 0) by lia.
    pose proof (intervalKeyCompare_lt_le _ _ _ Hxk Hk') as Hxk2.
    assert (0 < intervalKeyCompare k x) by (apply intervalKeyCompare_gt; exact Hxk2).
    lia.
Qed.

End SortedKeys.

(** ** Loops over an index range that rewrite a slice in place *)

Section RangeLoops.
Context {A : Type}.

Lemma zget_middle (pre post : list A) (x : A) :
  zget (pre ++ x :: post) (zlen pre) = Some x.
Proof. unfold zlen. rewrite zget_lookup. apply list_lookup_middle. reflexivity. Qed.

Lemma insert_middle (pre post : list A) (x y : A) :
  <[Z.to_nat (zlen pre) := y]> (pre ++ x :: post) = (pre ++ [y]) ++ post.
Proof.
  unfold zlen. rewrite Nat2Z.id, insert_app_r_alt by lia.
  rewrite Nat.sub_diag. simpl. rewrite <- app_assoc. reflexivity.
Qed.

Lemma zlen_snoc (pre : list A) (y : A) : zlen (pre ++ [y]) = zlen pre + 1.
Proof. unfold zlen. rewrite length_app. simpl. lia. Qed.

Lemma seqZ_step (a : Z) (x : A) (l : list A) :
  seqZ a (zlen (x :: l)) = a :: seqZ (a + 1) (zlen l).
Proof.
  unfold zlen. simpl length. rewrite seqZ_cons by lia.
  f_equal. f_equal; lia.
Qed.

(** A loop that reads [l[i]], feeds it to an accumulator and stores [g l[i]]. *)
Lemma foldM_range_acc {S} (f : S * list A -> Z -> result (S * list A))
    (step : S -> A -> result S) (g : A -> A) :
  (forall acc l i,
     f (acc, l) i =
     let* x := lift (zget l i) in
     let* acc' := step acc x in Ok (acc', <[Z.to_nat i := g x]> l)) ->
  forall mid pre post acc,
    foldM f (seqZ (zlen pre) (zlen mid)) (acc, pre ++ mid ++ post) =
    let* acc' := foldM step mid acc in Ok (acc', pre ++ map g mid ++ post).
Proof.
  intros Hf. induction mid as [|x mid IH]; intros pre post acc.
  - reflexivity.
  - rewrite seqZ_step. simpl. rewrite Hf. rewrite zget_middle. simpl.
    destruct (step acc x) as [acc1| |]; simpl; try reflexivity.
    rewrite (insert_middle pre (mid ++ post) x (g x)).
    rewrite <- (zlen_snoc pre (g x)). rewrite IH.
    destruct (foldM step mid acc1); simpl; try reflexivity.
    rewrite <- app_assoc. reflexivity.
Qed.

(** The same loop without an accumulator. *)
Lemma foldM_range_upd (g : A -> A) :
  forall mid pre post,
    foldM (fun l i => lift (zupd l i g)) (seqZ (zlen pre) (zlen mid)) (pre ++ mid ++ post) =
    Ok (pre ++ map g mid ++ post).
Proof.
  induction mid as [|x mid IH]; intros pre post.
  - reflexivity.
  - rewrite seqZ_step. simpl. unfold zupd at 1. rewrite zget_middle. simpl.
    rewrite (insert_middle pre (mid ++ post) x (g x)).
    rewrite <- (zlen_snoc pre (g x)). rewrite IH.
    rewrite <- app_assoc. reflexivity.
Qed.

(** Cutting the slice [a..b] out of a list. *)
Lemma slice_split (l : list A) (a b : Z) :
  0 <= a -> a <= b + 1 -> b < zlen l ->
  exists pre mid post,
    l = pre ++ mid ++ post /\ zlen pre = a /\ zlen mid = b - a + 1.
Proof.
  intros Ha Hab Hb. unfold zlen in *.
  exists (take (Z.to_nat a) l), (take (Z.to_nat (b - a + 1)) (drop (Z.to_nat a) l)),
         (drop (Z.to_nat (b - a + 1)) (drop (Z.to_nat a) l)).
  split; [|split].
  - rewrite (take_drop (Z.to_nat (b - a + 1))), take_drop. reflexivity.
  - rewrite length_take. lia.
  - rewrite length_take, length_drop. lia.
Qed.

Lemma lookup_slice (pre mid post : list A) (i : nat) :
  (pre ++ mid ++ post) !! i =
  if decide (i < length pre)%nat then pre !! i
  else if decide (i < length pre + length mid)%nat then mid !! (i - length pre)%nat
  else post !! (i - length pre - length mid)%nat.
Proof.
  destruct (decide (i < length pre)%nat).
  - apply lookup_app_l. assumption.
  - rewrite lookup_app_r by lia.
    destruct (decide (i < length pre + length mid)%nat).
    + apply lookup_app_l. lia.
    + rewrite lookup_app_r by lia. reflexivity.
Qed.

End RangeLoops.

(** ** Construction: what one file does to the intervals *)

Section TouchSpan.

Definition slStep (arena : list FileMetadata) (sl : Z) (iv : fileInterval) : result Z :=
  match last (files iv) with
  | None => Ok sl
  | Some q =>
      let* g := deref arena q in
      Ok (if sl <=? subLevel g then subLevel g + 1 else sl)
  end.

Definition touch (mn mx interp : Z) (iv : fileInterval) : fileInterval :=
  mkInterval (index iv) (startKey iv) (isBaseCompacting iv)
    (if mn <? filesMinIntervalIndex iv then mn else filesMinIntervalIndex iv)
    (if filesMaxIntervalIndex iv <? mx then mx else filesMaxIntervalIndex iv)
    (intervalRangeIsBaseCompacting iv) (fileCount iv + 1)
    (compactingFileCount iv) (files iv)
    (uint64 (estimatedBytes iv + interp)).

Definition stack (p : fileRef) (iv : fileInterval) : fileInterval :=
  setFiles iv (files iv ++ [p]).

Lemma slice_map_lookup {A} (pre mid post : list A) (g : A -> A) (i : nat) :
  (pre ++ map g mid ++ post) !! i =
  if decide (length pre <= i < length pre + length mid)%nat
  then g <$> (pre ++ mid ++ post) !! i
  else (pre ++ mid ++ post) !! i.
Proof.
  rewrite !lookup_slice, length_map.
  destruct (decide (i < length pre)%nat), (decide (i < length pre + length mid)%nat),
    (decide (length pre <= i < length pre + length mid)%nat); try lia; try reflexivity.
  change (map g mid) with (g <$> mid). apply list_lookup_fmap.
Qed.

Lemma slice_elem {A} (pre mid post : list A) (x : A) :
  x ∈ mid <->
  exists i, (length pre <= i < length pre + length mid)%nat /\
            (pre ++ mid ++ post) !! i = Some x.
Proof.
  split.
  - intros Hx. apply list_elem_of_lookup in Hx as [j Hj].
    exists (length pre + j)%nat. apply lookup_lt_Some in Hj as Hlt. split; [lia|].
    rewrite lookup_app_r by lia. rewrite lookup_app_l by lia.
    replace (length pre + j - length pre)%nat with j by lia. exact Hj.
  - intros (i & Hi & Hx). rewrite lookup_slice in Hx.
    destruct (decide (i < length pre)%nat); [lia|].
    destruct (decide (i < length pre + length mid)%nat); [|lia].
    eapply list_elem_of_lookup_2; eassumption.
Qed.

(** The two passes of [NewL0Sublevels] over the span [mn..mx] of a file:
    every interval of the span is touched and gets the file on top of its
    stack; the sublevel comes out of the old tops of those stacks. *)
Lemma span_passes arena mn mx interp p ivs sl ivs2 :
  0 <= mn -> mn <= mx + 1 -> mx < zlen ivs ->
  (let* (sl, ivs1) := foldM (touchInterval arena mn mx interp) (zrange mn mx) (0, ivs) in
   let* ivs2 := foldM (appendFile p) (zrange mn mx) ivs1 in Ok (sl, ivs2)) = Ok (sl, ivs2) ->
  exists mid,
    foldM (slStep arena) mid 0 = Ok sl /\
    (forall iv, iv ∈ mid <->
       exists i : nat, mn <= Z.of_nat i <= mx /\ ivs !! i = Some iv) /\
    length ivs2 = length ivs /\
    (forall i : nat,
       ivs2 !! i = if decide (mn <= Z.of_nat i <= mx)
                   then (fun iv => stack p (touch mn mx interp iv)) <$> ivs !! i
                   else ivs !! i).
Proof.
  intros Hmn Hmx Hlen H.
  destruct (slice_split ivs mn mx Hmn Hmx Hlen) as (pre & mid & post & -> & Hpre & Hmid).
  assert (Hrange : zrange mn mx = seqZ (zlen pre) (zlen mid)).
  { unfold zrange. rewrite Hpre, Hmid. reflexivity. }
  rewrite Hrange in H.
  rewrite (foldM_range_acc (touchInterval arena mn mx interp) (slStep arena)
             (touch mn mx interp)) in H.
  2:{ intros acc l i. reflexivity. }
  inv_bind H. inv_bind Hx. injection Hx as <-. simpl in H. inv_bind H.
  injection H as -> <-.
  assert (Hmid' : zlen mid = zlen (map (touch mn mx interp) mid)).
  { unfold zlen. rewrite length_map. reflexivity. }
  rewrite Hmid' in Hx. unfold appendFile in Hx.
  rewrite (foldM_range_upd (fun iv => setFiles iv (files iv ++ [p]))) in Hx.
  injection Hx as <-.
  exists mid. split; [assumption|]. unfold zlen in *. split; [|split].
  - intros iv. rewrite (slice_elem pre mid post). split.
    + intros (i & Hi & Hiv). exists i. split; [lia|assumption].
    + intros (i & Hi & Hiv). exists i. split; [lia|assumption].
  - rewrite !length_app, !length_map. reflexivity.
  - intros i. rewrite map_map. rewrite slice_map_lookup.
    destruct (decide (length pre <= i < length pre + length mid)%nat),
      (decide (mn <= Z.of_nat i <= mx)); try lia; reflexivity.
Qed.

Lemma slStep_fold arena mid :
  forall acc sl,
    foldM (slStep arena) mid acc = Ok sl ->
    acc <= sl /\
    (forall iv q, iv ∈ mid -> last (files iv) = Some q ->
       exists g, arena !! q = Some g /\ subLevel g < sl) /\
    (sl = acc \/
     exists iv q g, iv ∈ mid /\ last (files iv) = Some q /\ arena !! q = Some g /\
                    sl = subLevel g + 1).
Proof.
  induction mid as [|iv mid IH]; intros acc sl H; simpl in H.
  - injection H as <-. split; [lia|]. split; [|left; reflexivity].
    intros ? ? Hin. inversion Hin.
  - inv_bind H. destruct (IH _ _ H) as (Hle & Hall & Hex).
    unfold slStep in Hx. destruct (last (files iv)) as [q|] eqn:Hlast.
    + inv_bind Hx. apply lift_Ok in Hx0. injection Hx as <-.
      assert (Hacc : acc <= (if acc <=? subLevel x0 then subLevel x0 + 1 else acc) /\
                     subLevel x0 < (if acc <=? subLevel x0 then subLevel x0 + 1 else acc)).
      { destruct (Z.leb_spec acc (subLevel x0)); lia. }
      split; [lia|]. split.
      * intros iv' q' Hin Hl. apply elem_of_cons in Hin as [->|Hin]; [|eauto].
        rewrite Hlast in Hl. injection Hl as <-. exists x0. split; [assumption|lia].
      * destruct Hex as [->|(iv' & q' & g & Hin & Hl & Hg & ->)].
        -- destruct (Z.leb_spec acc (subLevel x0)); [|left; reflexivity].
           right. exists iv, q, x0. repeat split; try assumption. left.
        -- right. exists iv', q', g. repeat split; try assumption. right. assumption.
    + injection Hx as <-. split; [assumption|]. split.
      * intros iv' q' Hin Hl. apply elem_of_cons in Hin as [->|Hin]; [congruence|eauto].
      * destruct Hex as [->|(iv' & q' & g & Hin & Hl & Hg & ->)]; [left; reflexivity|].
        right. exists iv', q', g. repeat split; try assumption. right. assumption.
Qed.

End TouchSpan.

(** ** Construction: the invariant of the loop over the files *)

Lemma filter_seq_snoc (g : nat -> bool) (p : nat) :
  List.filter g (seq 0 (S p)) = List.filter g (seq 0 p) ++ (if g p then [p] else []).
Proof.
  rewrite seq_S, List.filter_app. simpl. destruct (g p); reflexivity.
Qed.

Lemma filter_seq_elem (g : nat -> bool) (p q : nat) :
  q ∈ List.filter g (seq 0 p) <-> (q < p)%nat /\ g q = true.
Proof.
  rewrite list_elem_of_In, filter_In, in_seq. intuition lia.
Qed.

Lemma last_snoc_some {A} (l : list A) (x : A) : last (l ++ [x]) = Some x.
Proof. apply last_snoc. Qed.

Lemma filter_seq_last (g : nat -> bool) (p q : nat) :
  last (List.filter g (seq 0 p)) = Some q ->
  (q < p)%nat /\ g q = true /\ forall q', (q' < p)%nat -> g q' = true -> (q' <= q)%nat.
Proof.
  revert q. induction p as [|p IH]; intros q H.
  - discriminate.
  - rewrite filter_seq_snoc in H. destruct (g p) eqn:Hg.
    + rewrite last_snoc in H. injection H as <-.
      split; [lia|]. split; [assumption|]. intros; lia.
    + rewrite app_nil_r in H. destruct (IH q H) as (? & ? & Hmax).
      split; [lia|]. split; [assumption|].
      intros q' Hq' Hgq'. destruct (decide (q' = p)) as [->|]; [congruence|].
      apply Hmax; [lia|assumption].
Qed.

Lemma filter_seq_last_none (g : nat -> bool) (p : nat) :
  last (List.filter g (seq 0 p)) = None -> forall q, (q < p)%nat -> g q = false.
Proof.
  intros H q Hq. destruct (g q) eqn:Hg; [|reflexivity].
  assert (Hin : q ∈ List.filter g (seq 0 p)) by (apply filter_seq_elem; auto).
  destruct (List.filter g (seq 0 p)) as [|a l] using rev_ind.
  - inversion Hin.
  - rewrite last_snoc in H. discriminate.
Qed.

Section Construction.
Context `{E : Env}.
Variable keys : list intervalKey.
Variable arena0 : list FileMetadata.

Definition spanMin (f : FileMetadata) : Z :=
  searchIn keys (fun k => intervalKeyCompare (smallestIK f) k <=? 0).
Definition spanMax (f : FileMetadata) : Z :=
  searchIn keys (fun k => intervalKeyCompare (largestIK f) k <=? 0) - 1.

(** The span that construction gives to the file at arena position [q]. *)
Definition mnOf (q : nat) : Z :=
  match arena0 !! q with Some f => spanMin f | None => 0 end.
Definition mxOf (q : nat) : Z :=
  match arena0 !! q with Some f => spanMax f | None => 0 end.

Definition coversb (i : Z) (q : nat) : bool := (mnOf q <=? i) && (i <=? mxOf q).
Definition overlaps (q q' : nat) : Prop := mnOf q <= mxOf q' /\ mnOf q' <= mxOf q.
Definition before (q q' : nat) : Prop := mxOf q < mnOf q'.

(** The arena once the files in front have their sublevels [subs]. *)
Definition assign (subs : list Z) (q : nat) (f : FileMetadata) : FileMetadata :=
  match subs !! q with
  | Some sl => setSpan f (spanMin f) (spanMax f) sl
  | None => f
  end.

Record Built (subs : list Z) (s : L0Sublevels) : Prop := {
  B_arena : levelMetadata s = imap (assign subs) arena0;
  B_span : forall q, (q < length subs)%nat -> mnOf q <= mxOf q;
  B_ivs_len : length (orderedIntervals s) = length keys;
  B_ivs : forall (i : nat) iv, orderedIntervals s !! i = Some iv ->
      index iv = Z.of_nat i /\ keys !! i = Some (startKey iv) /\
      files iv = List.filter (coversb (Z.of_nat i)) (seq 0 (length subs)) /\
      fileCount iv = zlen (files iv) /\
      0 <= estimatedBytes iv < 2 ^ 64 /\
      compactingFileCount iv = 0 /\ isBaseCompacting iv = false /\
      intervalRangeIsBaseCompacting iv = false;
  B_sub_nonneg : forall q sl, subs !! q = Some sl -> 0 <= sl;
  B_sub_above : forall q q' sl sl',
      (q' < q)%nat -> subs !! q' = Some sl' -> subs !! q = Some sl ->
      overlaps q' q -> sl' < sl;
  B_sub_min : forall q sl, subs !! q = Some sl ->
      sl = 0 \/
      exists q' sl', (q' < q)%nat /\ subs !! q' = Some sl' /\ overlaps q' q /\ sl' + 1 = sl;
  B_levels : forall (sl : nat) fs, Levels s !! sl = Some fs ->
      fs <> [] /\ (forall q, q ∈ fs -> subs !! q = Some (Z.of_nat sl)) /\
      StronglySorted before fs;
  B_placed : forall q sl, subs !! q = Some sl ->
      exists fs, Levels s !! Z.to_nat sl = Some fs /\ q ∈ fs
}.

Lemma assign_snoc subs sl f0 :
  arena0 !! length subs = Some f0 ->
  imap (assign (subs ++ [sl])) arena0 =
  <[length subs := setSpan f0 (spanMin f0) (spanMax f0) sl]> (imap (assign subs) arena0).
Proof.
  intros Hf0. apply list_eq. intros q.
  rewrite list_lookup_imap.
  destruct (decide (q = length subs)) as [->|Hne].
  - rewrite list_lookup_insert_eq.
    2:{ rewrite length_imap. eapply lookup_lt_Some; eassumption. }
    rewrite Hf0. simpl. unfold assign. rewrite lookup_app_r by lia.
    rewrite Nat.sub_diag. reflexivity.
  - rewrite list_lookup_insert_ne by congruence. rewrite list_lookup_imap.
    destruct (arena0 !! q) as [f|]; [|reflexivity]. simpl. f_equal. unfold assign.
    destruct (decide (q < length subs)%nat).
    + rewrite lookup_app_l by lia. reflexivity.
    + rewrite !lookup_ge_None_2; [reflexivity|lia|rewrite length_app; simpl; lia].
Qed.

Lemma Built_arena_lookup subs s q g :
  Built subs s -> levelMetadata s !! q = Some g ->
  exists f0, arena0 !! q = Some f0 /\ g = assign subs q f0.
Proof.
  intros HB Hg. rewrite (B_arena _ _ HB), list_lookup_imap in Hg.
  destruct (arena0 !! q) as [f0|]; [|discriminate]. injection Hg as <-. eauto.
Qed.

Lemma Built_subLevel subs s q g sl :
  Built subs s -> levelMetadata s !! q = Some g -> subs !! q = Some sl ->
  subLevel g = sl /\ minIntervalIndex g = mnOf q /\ maxIntervalIndex g = mxOf q.
Proof.
  intros HB Hg Hsl. destruct (Built_arena_lookup _ _ _ _ HB Hg) as (f0 & Hf0 & ->).
  unfold assign, mnOf, mxOf. rewrite Hsl, Hf0. auto.
Qed.

Hypothesis spans_static : forall q f, arena0 !! q = Some f ->
  0 <= spanMin f /\ spanMin f <= spanMax f + 1 /\ spanMax f + 1 < zlen keys.

Lemma coversb_spec i q : coversb i q = true <-> mnOf q <= i <= mxOf q.
Proof. unfold coversb. rewrite andb_true_iff, !Z.leb_le. tauto. Qed.

Lemma Built_interval_at subs s (i : Z) :
  Built subs s -> 0 <= i < zlen keys ->
  exists iv, orderedIntervals s !! Z.to_nat i = Some iv.
Proof.
  intros HB Hi. apply lookup_lt_is_Some_2. rewrite (B_ivs_len _ _ HB).
  unfold zlen in Hi. lia.
Qed.

Lemma mnOf_static q : (q < length arena0)%nat -> 0 <= mnOf q /\ mxOf q + 1 < zlen keys.
Proof.
  intros Hq. destruct (lookup_lt_is_Some_2 arena0 q Hq) as [f Hf].
  unfold mnOf, mxOf. rewrite Hf. destruct (spans_static q f Hf) as (? & ? & ?). lia.
Qed.

(** The sublevel computed for the next file lies just above every older file
    that overlaps it, and no higher. *)
Lemma next_sublevel subs s mid sl :
  Built subs s ->
  (length subs < length arena0)%nat ->
  mnOf (length subs) <= mxOf (length subs) ->
  (forall iv, iv ∈ mid <->
     exists i : nat, mnOf (length subs) <= Z.of_nat i <= mxOf (length subs) /\
                     orderedIntervals s !! i = Some iv) ->
  foldM (slStep (levelMetadata s)) mid 0 = Ok sl ->
  0 <= sl /\
  (forall q' sl', subs !! q' = Some sl' -> overlaps q' (length subs) -> sl' < sl) /\
  (sl = 0 \/
   exists q' sl', (q' < length subs)%nat /\ subs !! q' = Some sl' /\
                  overlaps q' (length subs) /\ sl' + 1 = sl).
Proof.
  intros HB Hp Hspan Hmid Hfold.
  destruct (slStep_fold _ _ _ _ Hfold) as (Hle & Hall & Hex).
  destruct (mnOf_static _ Hp) as [Hmn0 Hmxn].
  split; [exact Hle|]. split.
  - intros q' sl' Hq' [Ho1 Ho2].
    apply lookup_lt_Some in Hq' as Hq'lt.
    pose proof (B_span _ _ HB q' Hq'lt) as Hq'span.
    set (i := Z.max (mnOf q') (mnOf (length subs))).
    assert (Hi : mnOf q' <= i <= mxOf q' /\ mnOf (length subs) <= i <= mxOf (length subs))
      by (unfold i; lia).
    destruct (Built_interval_at subs s i HB) as [iv Hiv]; [lia|].
    destruct (B_ivs _ _ HB _ _ Hiv) as (_ & _ & Hfiles & _).
    rewrite Z2Nat.id in Hfiles by lia.
    assert (Hin : iv ∈ mid).
    { apply Hmid. exists (Z.to_nat i). rewrite Z2Nat.id by lia. tauto. }
    assert (Hq'in : q' ∈ files iv).
    { rewrite Hfiles. apply filter_seq_elem. split; [assumption|].
      apply coversb_spec. tauto. }
    destruct (last (files iv)) as [q|] eqn:Hlast.
    2:{ apply last_None in Hlast. rewrite Hlast in Hq'in. inversion Hq'in. }
    destruct (Hall iv q Hin Hlast) as (g & Hg & Hgsl).
    rewrite Hfiles in Hlast. apply filter_seq_last in Hlast as (Hq & Hcov & Hmax).
    destruct (lookup_lt_is_Some_2 subs q Hq) as [slq Hslq].
    destruct (Built_subLevel _ _ _ _ _ HB Hg Hslq) as (Hsub & _ & _).
    specialize (Hmax q' Hq'lt ltac:(apply coversb_spec; tauto)).
    destruct (decide (q' = q)) as [->|Hne].
    + assert (sl' = slq) by congruence. lia.
    + apply coversb_spec in Hcov.
      assert (sl' < slq); [|lia].
      eapply (B_sub_above _ _ HB q q'); [lia|eassumption|eassumption|].
      unfold overlaps. lia.
  - destruct Hex as [->|(iv & q & g & Hin & Hlast & Hg & ->)]; [left; reflexivity|].
    right. apply Hmid in Hin as (i & Hi & Hiv).
    destruct (B_ivs _ _ HB _ _ Hiv) as (_ & _ & Hfiles & _).
    rewrite Hfiles in Hlast. apply filter_seq_last in Hlast as (Hq & Hcov & _).
    destruct (lookup_lt_is_Some_2 subs q Hq) as [slq Hslq].
    destruct (Built_subLevel _ _ _ _ _ HB Hg Hslq) as (Hsub & _ & _).
    apply coversb_spec in Hcov.
    exists q, slq. split; [assumption|]. split; [assumption|].
    split; [unfold overlaps; lia|lia].
Qed.

Lemma insertIntoSubLevel_spec arena fs p f :
  minIntervalIndex f = mnOf p ->
  (forall q, q ∈ fs -> exists g, arena !! q = Some g /\ minIntervalIndex g = mnOf q) ->
  StronglySorted before fs ->
  (forall q, q ∈ fs -> mnOf q <= mxOf q /\ ~ overlaps q p) ->
  mnOf p <= mxOf p ->
  exists l1 l2,
    insertIntoSubLevel arena fs p f = l1 ++ p :: l2 /\ fs = l1 ++ l2 /\
    StronglySorted before (l1 ++ p :: l2).
Proof.
  intros Hf Harena Hs Hfs Hp. unfold insertIntoSubLevel.
  set (pred := fun q => match arena !! q with
                        | Some g => minIntervalIndex f <? minIntervalIndex g
                        | None => true
                        end).
  assert (Hpred : forall q, q ∈ fs -> pred q = (mnOf p <? mnOf q)).
  { intros q Hq. unfold pred. destruct (Harena q Hq) as (g & -> & <-). rewrite Hf.
    reflexivity. }
  destruct (searchIn_spec fs pred) as (Hr & Hlo & Hhi).
  { intros i j x y Hij Hx Hy Hpx.
    destruct (decide (i = j)) as [->|Hne]; [congruence|].
    assert (Hxin : x ∈ fs) by (eapply list_elem_of_lookup_2; eassumption).
    assert (Hyin : y ∈ fs) by (eapply list_elem_of_lookup_2; eassumption).
    rewrite Hpred in * by assumption. apply Z.ltb_lt in Hpx. apply Z.ltb_lt.
    assert (Hij' : (i < j)%nat) by lia.
    pose proof (StronglySorted_lookup before fs i j x y Hs Hij' Hx Hy) as Hb.
    unfold before in Hb. destruct (Hfs x Hxin) as [? _]. lia. }
  set (idx := Z.to_nat (searchIn fs pred)).
  exists (take idx fs), (drop idx fs).
  split; [reflexivity|]. split; [symmetry; apply take_drop|].
  rewrite <- (take_drop idx fs) in Hs.
  apply StronglySorted_app_2.
  - intros x1 x2 Hx1 Hx2.
    apply elem_of_cons in Hx2 as [->|Hx2].
    + apply elem_of_take in Hx1 as (i & Hi & Hlt).
      assert (Hx1in : x1 ∈ fs) by (eapply list_elem_of_lookup_2; eassumption).
      assert (Hilt : Z.of_nat i < searchIn fs pred) by (unfold idx in Hlt; lia).
      specialize (Hlo i x1 Hi Hilt). rewrite Hpred in Hlo by assumption.
      apply Z.ltb_ge in Hlo. destruct (Hfs x1 Hx1in) as [? Hno].
      unfold before, overlaps in *. lia.
    + eapply StronglySorted_app_1_elem_of; eassumption.
  - eapply StronglySorted_app_1_l; eassumption.
  - apply StronglySorted_cons. split; [|eapply StronglySorted_app_1_r; eassumption].
    rewrite Forall_forall. intros x2 Hx2.
    apply list_elem_of_lookup in Hx2 as [i Hi]. rewrite lookup_drop in Hi.
    assert (Hx2in : x2 ∈ fs) by (eapply list_elem_of_lookup_2; eassumption).
    assert (Hige : searchIn fs pred <= Z.of_nat (idx + i)) by (unfold idx; lia).
    specialize (Hhi _ x2 Hi Hige). rewrite Hpred in Hhi by assumption.
    apply Z.ltb_lt in Hhi. destruct (Hfs x2 Hx2in) as [? Hno].
    unfold before, overlaps in *. lia.
Qed.

Lemma step_intervals subs s ivs2 sl interp :
  Built subs s ->
  (length subs < length arena0)%nat ->
  length ivs2 = length (orderedIntervals s) ->
  (forall i : nat,
     ivs2 !! i = if decide (mnOf (length subs) <= Z.of_nat i <= mxOf (length subs))
                 then (fun iv => stack (length subs)
                                   (touch (mnOf (length subs)) (mxOf (length subs)) interp iv))
                        <$> orderedIntervals s !! i
                 else orderedIntervals s !! i) ->
  forall (i : nat) iv, ivs2 !! i = Some iv ->
    index iv = Z.of_nat i /\ keys !! i = Some (startKey iv) /\
    files iv = List.filter (coversb (Z.of_nat i)) (seq 0 (length (subs ++ [sl]))) /\
    fileCount iv = zlen (files iv) /\
    0 <= estimatedBytes iv < 2 ^ 64 /\
    compactingFileCount iv = 0 /\ isBaseCompacting iv = false /\
    intervalRangeIsBaseCompacting iv = false.
Proof.
  intros HB Hp Hlen Hlook i iv Hiv. rewrite Hlook in Hiv.
  rewrite length_app. simpl length. rewrite Nat.add_1_r, filter_seq_snoc.
  destruct (decide (mnOf (length subs) <= Z.of_nat i <= mxOf (length subs))) as [Hin|Hout].
  - destruct (orderedIntervals s !! i) as [iv0|] eqn:Hiv0; [|discriminate].
    injection Hiv as <-.
    destruct (B_ivs _ _ HB _ _ Hiv0) as (H1 & H2 & H3 & H4 & H5 & H6 & H7 & H8).
    assert (Hc : coversb (Z.of_nat i) (length subs) = true) by (apply coversb_spec; exact Hin).
    rewrite Hc. simpl. rewrite H3 at 1. repeat split; try assumption.
    + rewrite H4. unfold zlen. rewrite length_app. simpl. lia.
    + unfold uint64. apply Z.mod_pos_bound. lia.
    + unfold uint64. apply Z.mod_pos_bound. lia.
  - destruct (B_ivs _ _ HB _ _ Hiv) as (H1 & H2 & H3 & H4 & H5 & H6 & H7 & H8).
    assert (Hc : coversb (Z.of_nat i) (length subs) = false).
    { destruct (coversb (Z.of_nat i) (length subs)) eqn:Hc; [|reflexivity].
      apply coversb_spec in Hc. contradiction. }
    rewrite Hc, app_nil_r. tauto.
Qed.

Lemma step_levels subs s sl f' arena' :
  Built subs s ->
  (length subs < length arena0)%nat ->
  mnOf (length subs) <= mxOf (length subs) ->
  0 <= sl <= zlen (Levels s) ->
  (forall q' sl', subs !! q' = Some sl' -> overlaps q' (length subs) -> sl' < sl) ->
  minIntervalIndex f' = mnOf (length subs) ->
  (forall q, (q < length subs)%nat -> arena' !! q = levelMetadata s !! q) ->
  let levels' :=
    if sl =? zlen (Levels s) then Levels s ++ [[length subs]]
    else alter (fun fs => insertIntoSubLevel arena' fs (length subs) f')
           (Z.to_nat sl) (Levels s) in
  (forall (sl0 : nat) fs, levels' !! sl0 = Some fs ->
     fs <> [] /\ (forall q, q ∈ fs -> (subs ++ [sl]) !! q = Some (Z.of_nat sl0)) /\
     StronglySorted before fs) /\
  (forall q sl0, (subs ++ [sl]) !! q = Some sl0 ->
     exists fs, levels' !! Z.to_nat sl0 = Some fs /\ q ∈ fs).
Proof.
  intros HB Hp Hspan Hsl Habove Hf' Harena' levels'.
  assert (Hold : forall q sl0, subs !! q = Some sl0 -> (subs ++ [sl]) !! q = Some sl0).
  { intros q sl0 Hq. apply lookup_app_l_Some. exact Hq. }
  assert (Hnew : (subs ++ [sl]) !! length subs = Some sl).
  { apply list_lookup_middle. reflexivity. }
  unfold levels'. unfold zlen in *.
  destruct (Z.eqb_spec sl (Z.of_nat (length (Levels s)))) as [Heq|Hne].
  - split.
    + intros sl0 fs Hfs. apply lookup_app_Some in Hfs as [Hfs|[Hge Hfs]].
      * destruct (B_levels _ _ HB _ _ Hfs) as (H1 & H2 & H3).
        split; [assumption|]. split; [|assumption]. intros q Hq. apply Hold. auto.
      * destruct (sl0 - length (Levels s))%nat as [|k] eqn:Hk; [|destruct k; discriminate].
        simpl in Hfs. injection Hfs as <-. split; [discriminate|]. split.
        -- intros q Hq. apply list_elem_of_singleton in Hq as ->. rewrite Hnew.
           f_equal. lia.
        -- repeat constructor.
    + intros q sl0 Hq. apply lookup_snoc_Some in Hq as [[_ Hq]|[-> <-]].
      * destruct (B_placed _ _ HB _ _ Hq) as (fs & Hfs & Hin).
        exists fs. split; [|assumption]. apply lookup_app_l_Some. exact Hfs.
      * exists [length subs]. split; [|left].
        rewrite Heq, Nat2Z.id. apply list_lookup_middle. reflexivity.
  - destruct (lookup_lt_is_Some_2 (Levels s) (Z.to_nat sl)) as [fs0 Hfs0]; [lia|].
    destruct (B_levels _ _ HB _ _ Hfs0) as (H1 & H2 & H3).
    rewrite Z2Nat.id in H2 by lia.
    destruct (insertIntoSubLevel_spec arena' fs0 (length subs) f') as (l1 & l2 & Hins & Hsplit & Hsorted);
      [assumption| |assumption| |assumption|].
    { intros q Hq. specialize (H2 q Hq). apply lookup_lt_Some in H2 as Hqlt.
      rewrite Harena' by assumption.
      destruct (lookup_lt_is_Some_2 (levelMetadata s) q) as [g Hg].
      { rewrite (B_arena _ _ HB), length_imap. lia. }
      exists g. split; [assumption|].
      destruct (Built_subLevel _ _ _ _ _ HB Hg H2) as (_ & ? & _). assumption. }
    { intros q Hq. specialize (H2 q Hq). apply lookup_lt_Some in H2 as Hqlt.
      split; [apply (B_span _ _ HB); assumption|].
      intros Hov. specialize (Habove q sl H2 Hov). lia. }
    assert (Hmem : forall q, q ∈ l1 ++ length subs :: l2 <-> q = length subs \/ q ∈ fs0).
    { intros q. rewrite Hsplit, !elem_of_app, elem_of_cons. tauto. }
    split.
    + intros sl0 fs Hfs. rewrite list_lookup_alter in Hfs.
      destruct (decide (Z.to_nat sl = sl0)) as [<-|Hne0].
      * rewrite Hfs0 in Hfs. simpl in Hfs. injection Hfs as <-. rewrite Hins.
        split; [destruct l1; discriminate|]. split; [|assumption].
        intros q Hq. apply Hmem in Hq as [->|Hq].
        -- rewrite Hnew. f_equal. lia.
        -- rewrite Z2Nat.id by lia. apply Hold. auto.
      * destruct (B_levels _ _ HB _ _ Hfs) as (H1' & H2' & H3').
        split; [assumption|]. split; [|assumption]. intros q Hq. apply Hold. auto.
    + intros q sl0 Hq. apply lookup_snoc_Some in Hq as [[_ Hq]|[-> <-]].
      * destruct (B_placed _ _ HB _ _ Hq) as (fs & Hfs & Hin).
        rewrite list_lookup_alter.
        destruct (decide (Z.to_nat sl = Z.to_nat sl0)) as [Heq0|Hne0].
        -- rewrite Hfs0. simpl. eexists. split; [reflexivity|]. rewrite Hins.
           apply Hmem. right. rewrite <- Heq0 in Hfs. congruence.
        -- exists fs. split; assumption.
      * rewrite list_lookup_alter_eq, Hfs0. simpl. eexists. split; [reflexivity|].
        rewrite Hins. apply Hmem. left. reflexivity.
Qed.

(** One iteration of the construction loop keeps the invariant. *)
Lemma addL0File_step subs s s' :
  Built subs s ->
  (length subs < length arena0)%nat ->
  addL0File keys s (length subs) = Ok s' ->
  exists sl, Built (subs ++ [sl]) s'.
Proof.
  intros HB Hp H. unfold addL0File in H.
  inv_bind H. apply lift_Ok in Hx.
  destruct (Built_arena_lookup _ _ _ _ HB Hx) as (f0 & Hf0 & Hxf).
  assert (Hnone : subs !! length subs = None) by (apply lookup_ge_None_2; lia).
  unfold assign in Hxf. rewrite Hnone in Hxf. subst x.
  cbv zeta in H. fold (spanMin f0) in H.
  replace (searchIn keys (fun k => intervalKeyCompare (largestIK f0) k <=? 0))
    with (spanMax f0 + 1) in H by (unfold spanMax; lia).
  replace (spanMax f0 + 1 - 1) with (spanMax f0) in H by lia.
  destruct (spans_static _ _ Hf0) as (Hmn0 & Hmnmx & Hmxn).
  assert (Hmn : mnOf (length subs) = spanMin f0) by (unfold mnOf; rewrite Hf0; reflexivity).
  assert (Hmx : mxOf (length subs) = spanMax f0) by (unfold mxOf; rewrite Hf0; reflexivity).
  destruct (spanMin f0 =? zlen keys); [discriminate|].
  destruct (spanMax f0 + 1 =? zlen keys); [discriminate|].
  destruct (Z.eqb_spec (uint64OfInt (spanMax f0 - spanMin f0 + 1)) 0) as [|Hw];
    [discriminate|].
  assert (Hspan : spanMin f0 <= spanMax f0).
  { unfold uint64OfInt in Hw.
    destruct (Z.ltb_spec (spanMax f0 - spanMin f0 + 1) 0); lia. }
  inv_bind H. destruct x as [sl ivs1]. inv_bind H.
  destruct (span_passes (levelMetadata s) (spanMin f0) (spanMax f0)
              (Size f0 / uint64OfInt (spanMax f0 - spanMin f0 + 1)) (length subs)
              (orderedIntervals s) sl x) as (mid & Hfold & Hmid & Hlen & Hlook);
    [lia|lia| | |].
  { unfold zlen in *. rewrite (B_ivs_len _ _ HB). lia. }
  { rewrite Hx0. simpl. rewrite Hx1. reflexivity. }
  rewrite <- Hmn, <- Hmx in Hmid, Hlook.
  destruct (next_sublevel subs s mid sl HB Hp ltac:(lia) Hmid Hfold) as (Hsl0 & Habove & Hmin).
  destruct (Z.ltb_spec (zlen (Levels s)) sl) as [|Hslle]; [discriminate|].
  injection H as <-.
  set (f' := setSpan f0 (spanMin f0) (spanMax f0) sl) in *.
  set (arena' := <[length subs := f']> (levelMetadata s)) in *.
  destruct (step_levels subs s sl f' arena' HB Hp ltac:(lia) ltac:(lia) Habove)
    as (Hlev & Hplaced).
  { unfold f'. simpl. symmetry. exact Hmn. }
  { intros q Hq. unfold arena'. apply list_lookup_insert_ne. lia. }
  exists sl. constructor; simpl.
  - unfold arena', f'. rewrite (B_arena _ _ HB). symmetry. apply assign_snoc. exact Hf0.
  - intros q Hq. rewrite length_app in Hq. simpl in Hq.
    destruct (decide (q = length subs)) as [->|Hne]; [lia|].
    apply (B_span _ _ HB). lia.
  - rewrite Hlen. apply (B_ivs_len _ _ HB).
  - eapply step_intervals; eassumption.
  - intros q sl0 Hq. apply lookup_snoc_Some in Hq as [[_ Hq]|[_ <-]];
      [eapply B_sub_nonneg; eassumption|assumption].
  - intros q q' sl0 sl0' Hlt Hq' Hq Hov.
    apply lookup_snoc_Some in Hq as [[_ Hq]|[-> <-]].
    + apply lookup_snoc_Some in Hq' as [[_ Hq']|[-> _]].
      * eapply (B_sub_above _ _ HB); eassumption.
      * apply lookup_lt_Some in Hq. lia.
    + apply lookup_snoc_Some in Hq' as [[_ Hq']|[-> _]]; [|lia].
      eapply Habove; eassumption.
  - intros q sl0 Hq. apply lookup_snoc_Some in Hq as [[_ Hq]|[-> <-]].
    + destruct (B_sub_min _ _ HB _ _ Hq) as [->|(q' & sl' & Hlt & Hq' & Hov & Heq)];
        [left; reflexivity|].
      right. exists q', sl'. split; [assumption|]. split; [|tauto].
      apply lookup_app_l_Some. exact Hq'.
    + destruct Hmin as [->|(q' & sl' & Hlt & Hq' & Hov & Heq)]; [left; reflexivity|].
      right. exists q', sl'. split; [assumption|]. split; [|tauto].
      apply lookup_app_l_Some. exact Hq'.
  - exact Hlev.
  - exact Hplaced.
Qed.

Lemma Built_initial :
  Built [] (mkL0 [] 0 arena0 (imap initialInterval keys) []).
Proof.
  constructor; simpl.
  - symmetry. apply list_eq. intros q. rewrite list_lookup_imap.
    destruct (arena0 !! q); reflexivity.
  - intros q Hq. lia.
  - apply length_imap.
  - intros i iv Hiv. rewrite list_lookup_imap in Hiv.
    destruct (keys !! i) as [k|]; [|discriminate]. injection Hiv as <-. simpl.
    repeat split; try reflexivity; lia.
  - intros q sl Hq. discriminate.
  - intros q q' sl sl' _ Hq'. discriminate.
  - intros q sl Hq. discriminate.
  - intros sl fs Hfs. discriminate.
  - intros q sl Hq. discriminate.
Qed.

Lemma addL0Files_built k :
  forall subs s s1,
    Built subs s ->
    (length subs + k = length arena0)%nat ->
    foldM (addL0File keys) (seq (length subs) k) s = Ok s1 ->
    exists subs', length subs' = length arena0 /\ Built subs' s1.
Proof.
  induction k as [|k IH]; intros subs s s1 HB Hlen H; simpl in H.
  - injection H as <-. exists subs. split; [lia|assumption].
  - inv_bind H. destruct (addL0File_step subs s x HB ltac:(lia) Hx) as (sl & HB').
    apply (IH (subs ++ [sl]) x s1 HB').
    + rewrite length_app. simpl. lia.
    + rewrite length_app. simpl. rewrite Nat.add_1_r. exact H.
Qed.

End Construction.

(** ** Construction: the spans of well-formed files *)

Section Spans.
Context `{E : Env}.

(** A file's smallest key does not come after its largest key. *)
Definition wfFile (f : FileMetadata) : Prop :=
  cmp (UserKey (Smallest f)) (UserKey (Largest f)) <= 0.

Definition arenaOf (levelMetadata0 : list FileMetadata) : list FileMetadata :=
  imap (fun i f => setL0Index (Z.of_nat i) f) levelMetadata0.

Definition keysOf (levelMetadata0 : list FileMetadata) : list intervalKey :=
  sortAndDedup (boundaryKeys (arenaOf levelMetadata0)).

Lemma arenaOf_lookup fs q f :
  arenaOf fs !! q = Some f ->
  exists f0, fs !! q = Some f0 /\ f = setL0Index (Z.of_nat q) f0.
Proof.
  unfold arenaOf. rewrite list_lookup_imap. destruct (fs !! q) as [f0|]; [|discriminate].
  intros [= <-]. eauto.
Qed.

Lemma boundaryKeys_elem fs f :
  f ∈ fs -> smallestIK f ∈ boundaryKeys fs /\ largestIK f ∈ boundaryKeys fs.
Proof.
  intros Hf. unfold boundaryKeys. rewrite !list_elem_of_In, !in_flat_map.
  apply list_elem_of_In in Hf. split; exists f; simpl; auto.
Qed.

Lemma keysOf_sorted fs : StronglySorted iklt (keysOf fs).
Proof. apply sortAndDedup_spec. Qed.

(** Both boundary keys of a file have their place among the interval keys,
    the smallest one first. *)
Lemma span_places fs q f :
  (forall f0, f0 ∈ fs -> wfFile f0) ->
  arenaOf fs !! q = Some f ->
  exists (js jl : nat) ks kl,
    keysOf fs !! js = Some ks /\ intervalKeyCompare (smallestIK f) ks = 0 /\
    keysOf fs !! jl = Some kl /\ intervalKeyCompare (largestIK f) kl = 0 /\
    (js <= jl)%nat /\
    spanMin (keysOf fs) f = Z.of_nat js /\ spanMax (keysOf fs) f = Z.of_nat jl - 1.
Proof.
  intros Hwf Hf.
  assert (Hin : f ∈ arenaOf fs) by (eapply list_elem_of_lookup_2; eassumption).
  destruct (boundaryKeys_elem _ _ Hin) as [Hs Hl].
  destruct (sortAndDedup_spec (boundaryKeys (arenaOf fs))) as [Hsorted Hall].
  destruct (Hall _ Hs) as (ks & Hks & Hsk). destruct (Hall _ Hl) as (kl & Hkl & Hlk).
  apply list_elem_of_lookup in Hks as [js Hjs]. apply list_elem_of_lookup in Hkl as [jl Hjl].
  exists js, jl, ks, kl. fold (keysOf fs) in *.
  split; [assumption|]. split; [assumption|]. split; [assumption|]. split; [assumption|].
  split.
  - destruct (arenaOf_lookup _ _ _ Hf) as (f0 & Hf0 & ->).
    assert (Hwf0 : wfFile f0) by (apply Hwf; eapply list_elem_of_lookup_2; eassumption).
    assert (Hsl : intervalKeyCompare (smallestIK (setL0Index (Z.of_nat q) f0))
                    (largestIK (setL0Index (Z.of_nat q) f0)) <= 0).
    { apply intervalKeyCompare_le. unfold wfFile in Hwf0. simpl.
      destruct (Z.eq_dec (cmp (UserKey (Smallest f0)) (UserKey (Largest f0))) 0);
        [right; split; [assumption|discriminate]|left; lia]. }
    destruct (le_lt_dec js jl) as [|Hlt]; [assumption|exfalso].
    pose proof (StronglySorted_lookup iklt _ jl js kl ks Hsorted Hlt Hjl Hjs) as Hkk.
    unfold iklt in Hkk.
    apply intervalKeyCompare_eq_sym in Hsk.
    assert (H1 : intervalKeyCompare ks (largestIK (setL0Index (Z.of_nat q) f0)) <= 0).
    { eapply intervalKeyCompare_trans; [|exact Hsl]. lia. }
    assert (H2 : intervalKeyCompare ks kl <= 0).
    { eapply intervalKeyCompare_trans; [exact H1|]. lia. }
    pose proof (intervalKeyCompare_lt_le _ _ _ Hkk H2) as H3.
    rewrite intervalKeyCompare_refl in H3. lia.
  - split.
    + apply (searchIn_key_exact _ _ _ ks); assumption.
    + unfold spanMax. rewrite (searchIn_key_exact _ _ jl kl); [reflexivity|assumption..].
Qed.

Lemma spans_static_wf fs :
  (forall f0, f0 ∈ fs -> wfFile f0) ->
  forall q f, arenaOf fs !! q = Some f ->
    0 <= spanMin (keysOf fs) f /\
    spanMin (keysOf fs) f <= spanMax (keysOf fs) f + 1 /\
    spanMax (keysOf fs) f + 1 < zlen (keysOf fs).
Proof.
  intros Hwf q f Hf.
  destruct (span_places fs q f Hwf Hf) as (js & jl & ks & kl & Hjs & _ & Hjl & _ & Hle & -> & ->).
  apply lookup_lt_Some in Hjl. unfold zlen. lia.
Qed.

(** What construction establishes. *)
Lemma NewL0Sublevels_built fs flushSplitMaxBytes s :
  (forall f0, f0 ∈ fs -> wfFile f0) ->
  NewL0Sublevels fs flushSplitMaxBytes = Ok s ->
  exists subs, length subs = length fs /\ Built (keysOf fs) (arenaOf fs) subs s.
Proof.
  intros Hwf H. unfold NewL0Sublevels in H. inv_bind H. injection H as <-.
  fold (arenaOf fs) in Hx. fold (keysOf fs) in Hx.
  destruct (addL0Files_built (keysOf fs) (arenaOf fs) (spans_static_wf fs Hwf)
              (length (arenaOf fs)) [] _ x (Built_initial _ _) eq_refl Hx)
    as (subs & Hlen & HB).
  exists subs. split; [rewrite Hlen; apply length_imap|].
  destruct HB. constructor; assumption.
Qed.

End Spans.

(** ** Sublevels after construction *)

Definition spansOverlap (f g : FileMetadata) : Prop :=
  minIntervalIndex f <= maxIntervalIndex g /\ minIntervalIndex g <= maxIntervalIndex f.

Section Sublevels.
Context `{E : Env}.

Lemma Built_file keys arena0 subs s q f :
  Built keys arena0 subs s -> length subs = length arena0 ->
  levelMetadata s !! q = Some f ->
  exists sl, subs !! q = Some sl /\ subLevel f = sl /\
             minIntervalIndex f = mnOf keys arena0 q /\
             maxIntervalIndex f = mxOf keys arena0 q /\
             mnOf keys arena0 q <= mxOf keys arena0 q.
Proof.
  intros HB Hlen Hf.
  assert (Hq : (q < length subs)%nat).
  { apply lookup_lt_Some in Hf. rewrite (B_arena _ _ _ _ HB), length_imap in Hf. lia. }
  destruct (lookup_lt_is_Some_2 subs q Hq) as [sl Hsl].
  destruct (Built_subLevel _ _ _ _ _ _ _ HB Hf Hsl) as (? & ? & ?).
  exists sl. repeat split; try assumption. apply (B_span _ _ _ _ HB). assumption.
Qed.

(** C4.  In a built engine the files of a sublevel come in ascending order
    of their interval spans and no two of them share an interval: a file
    earlier in [Levels[sl]] ends before a later one starts. *)
Theorem sublevel_files_ascending_disjoint (fs : list FileMetadata)
    (flushSplitMaxBytes : Z) (s : L0Sublevels) (sl i j : nat) (lvl : list fileRef)
    (p q : fileRef) (f g : FileMetadata) :
  (forall f0, f0 ∈ fs -> wfFile f0) ->
  NewL0Sublevels fs flushSplitMaxBytes = Ok s ->
  Levels s !! sl = Some lvl ->
  lvl !! i = Some p -> lvl !! j = Some q -> (i < j)%nat ->
  levelMetadata s !! p = Some f -> levelMetadata s !! q = Some g ->
  minIntervalIndex f <= maxIntervalIndex f /\
  maxIntervalIndex f < minIntervalIndex g /\
  minIntervalIndex g <= maxIntervalIndex g.
Proof.
  intros Hwf Hnew Hlvl Hp Hq Hij Hf Hg.
  destruct (NewL0Sublevels_built _ _ _ Hwf Hnew) as (subs & Hlen & HB).
  assert (Hlen' : length subs = length (arenaOf fs)).
  { rewrite Hlen. unfold arenaOf. symmetry. apply length_imap. }
  destruct (B_levels _ _ _ _ HB _ _ Hlvl) as (_ & _ & Hsorted).
  pose proof (StronglySorted_lookup _ _ _ _ _ _ Hsorted Hij Hp Hq) as Hbefore.
  destruct (Built_file _ _ _ _ _ _ HB Hlen' Hf) as (? & _ & _ & -> & -> & ?).
  destruct (Built_file _ _ _ _ _ _ HB Hlen' Hg) as (? & _ & _ & -> & -> & ?).
  unfold before in Hbefore. lia.
Qed.

(** C3, as the code has it.  A file's sublevel is the smallest one above the
    sublevels of all older files (files in front of it in the L0 order) whose
    interval span overlaps its own: it is above each of them, and it is 0 or
    one more than the sublevel of one of them. *)
Theorem sublevel_just_above_older_overlapping (fs : list FileMetadata)
    (flushSplitMaxBytes : Z) (s : L0Sublevels) (q : fileRef) (f : FileMetadata) :
  (forall f0, f0 ∈ fs -> wfFile f0) ->
  NewL0Sublevels fs flushSplitMaxBytes = Ok s ->
  levelMetadata s !! q = Some f ->
  0 <= subLevel f /\
  (forall q' f', (q' < q)%nat -> levelMetadata s !! q' = Some f' ->
                 spansOverlap f' f -> subLevel f' < subLevel f) /\
  (subLevel f = 0 \/
   exists q' f', (q' < q)%nat /\ levelMetadata s !! q' = Some f' /\
                 spansOverlap f' f /\ subLevel f' + 1 = subLevel f).
Proof.
  intros Hwf Hnew Hf.
  destruct (NewL0Sublevels_built _ _ _ Hwf Hnew) as (subs & Hlen & HB).
  assert (Hlen' : length subs = length (arenaOf fs)).
  { rewrite Hlen. unfold arenaOf. symmetry. apply length_imap. }
  destruct (Built_file _ _ _ _ _ _ HB Hlen' Hf) as (sl & Hsl & Hsub & Hmn & Hmx & _).
  split; [rewrite Hsub; eapply (B_sub_nonneg _ _ _ _ HB); eassumption|]. split.
  - intros q' f' Hlt Hf' [Ho1 Ho2].
    destruct (Built_file _ _ _ _ _ _ HB Hlen' Hf') as (sl' & Hsl' & Hsub' & Hmn' & Hmx' & _).
    rewrite Hsub, Hsub'. eapply (B_sub_above _ _ _ _ HB q q'); try eassumption.
    unfold overlaps. lia.
  - destruct (B_sub_min _ _ _ _ HB _ _ Hsl) as [H0|(q' & sl' & Hlt & Hsl' & [Ho1 Ho2] & Heq)].
    + left. congruence.
    + right. apply lookup_lt_Some in Hsl' as Hq'.
      destruct (lookup_lt_is_Some_2 (levelMetadata s) q') as [f' Hf'].
      { rewrite (B_arena _ _ _ _ HB), length_imap. lia. }
      destruct (Built_file _ _ _ _ _ _ HB Hlen' Hf') as (sl'' & Hsl'' & Hsub' & Hmn' & Hmx' & _).
      exists q', f'. split; [assumption|]. split; [assumption|].
      split; [unfold spansOverlap; lia|]. congruence.
Qed.

End Sublevels.

Ltac wf_files :=
  let f0 := fresh "f0" in
  let H := fresh "H" in
  intros f0 H; repeat (apply elem_of_cons in H as [->|H]);
  [vm_compute; discriminate..|inversion H].

Definition staircaseEngine : L0Sublevels :=
  orEmpty (NewL0Sublevels (E := bytesEnv) staircase 100).

(** Two files side by side in one sublevel. *)
Definition sideBySide : list FileMetadata :=
  [l0file 1 "a" "b" 10 1 false false; l0file 2 "c" "d" 10 2 false false].

Lemma sublevel_files_ascending_disjoint_witness :
  0 <= 0 /\ 0 < 2 /\ 2 <= 2.
Proof.
  apply (sublevel_files_ascending_disjoint (E := bytesEnv) sideBySide 100
           (orEmpty (NewL0Sublevels (E := bytesEnv) sideBySide 100))
           0%nat 0%nat 1%nat [0%nat; 1%nat] 0%nat 1%nat
           (setSpan (setL0Index 0 (l0file 1 "a" "b" 10 1 false false)) 0 0 0)
           (setSpan (setL0Index 1 (l0file 2 "c" "d" 10 2 false false)) 2 2 0)).
  - wf_files.
  - vm_compute. reflexivity.
  - vm_compute. reflexivity.
  - reflexivity.
  - reflexivity.
  - lia.
  - vm_compute. reflexivity.
  - vm_compute. reflexivity.
Defined.

Lemma sublevel_just_above_older_overlapping_witness :
  exists f, levelMetadata staircaseEngine !! 2%nat = Some f /\
    (subLevel f = 0 \/
     exists q' f', (q' < 2)%nat /\ levelMetadata staircaseEngine !! q' = Some f' /\
                   spansOverlap f' f /\ subLevel f' + 1 = subLevel f).
Proof.
  eexists. split; [vm_compute; reflexivity|].
  apply (sublevel_just_above_older_overlapping (E := bytesEnv) staircase 100
           staircaseEngine 2%nat).
  - wf_files.
  - vm_compute. reflexivity.
  - vm_compute. reflexivity.
Defined.

(** C3 as stated fails on the staircase [a,b] / [a,f] / [e,f]: the third
    file sits in sublevel 2 although sublevel 0 holds no file that overlaps
    it. *)
Lemma sublevel_not_lowest_free :
  exists f lvl,
    NewL0Sublevels (E := bytesEnv) staircase 100 = Ok staircaseEngine /\
    levelMetadata staircaseEngine !! 2%nat = Some f /\
    subLevel f = 2 /\
    Levels staircaseEngine !! 0%nat = Some lvl /\
    forall q g, q ∈ lvl -> levelMetadata staircaseEngine !! q = Some g ->
                ~ spansOverlap g f.
Proof.
  exists (setSpan (setL0Index 2 (l0file 3 "e" "f" 10 3 false false)) 2 2 2), [0%nat].
  split; [vm_compute; reflexivity|].
  split; [vm_compute; reflexivity|].
  split; [reflexivity|].
  split; [vm_compute; reflexivity|].
  intros q g Hq Hg. apply list_elem_of_singleton in Hq as ->.
  vm_compute in Hg. injection Hg as <-. unfold spansOverlap. simpl. lia.
Qed.

(** ** Flush split keys *)

(** The test that makes the walk record a split key at an interval. *)
Definition splitsHere (threshold : Z) (splits : list Key) (cum : Z) (iv : fileInterval)
    : bool :=
  (0 <? threshold) && (uint64 threshold <? cum) &&
  match last splits with
  | None => true
  | Some k => negb (bool_decide (key (startKey iv) = k))
  end.

(** The positions (loop indices) at which the walk records a split key, for
    the walk that stands at index [i] with [splits] recorded and [cum] bytes
    accumulated. *)
Fixpoint splitPositions (threshold : Z) (ivs : list fileInterval) (i : nat)
    (splits : list Key) (cum : Z) : list nat :=
  match ivs with
  | [] => []
  | iv :: rest =>
      if splitsHere threshold splits cum iv
      then i :: splitPositions threshold rest (S i) (splits ++ [key (startKey iv)])
                  (uint64 (0 + estimatedBytes iv))
      else splitPositions threshold rest (S i) splits (uint64 (cum + estimatedBytes iv))
  end.

Definition flushSplitPositions (flushSplitMaxBytes : Z) (s : L0Sublevels) : list nat :=
  splitPositions (effectiveFlushSplitMaxBytes flushSplitMaxBytes s)
    (orderedIntervals s) 0 [] 0.

Definition keysAt (ivs : list fileInterval) (positions : list nat) : list Key :=
  omap (fun p => (fun iv => key (startKey iv)) <$> ivs !! p) positions.

(** The stretches between consecutive split positions, from [start] to the
    end of the intervals. *)
Fixpoint segments (start : nat) (positions : list nat) (stop : nat) : list (nat * nat) :=
  match positions with
  | [] => [(start, stop)]
  | p :: ps => (start, p) :: segments p ps stop
  end.

Definition sumZ (l : list Z) : Z := fold_right Z.add 0 l.

Definition bytesBetween (ivs : list fileInterval) (a b : nat) : Z :=
  sumZ (map estimatedBytes (drop a (take b ivs))).

Section FlushSplit.

Lemma flushSplitStep_eq threshold splits cum iv :
  flushSplitStep threshold (splits, cum) iv =
  if splitsHere threshold splits cum iv
  then (splits ++ [key (startKey iv)], uint64 (0 + estimatedBytes iv))
  else (splits, uint64 (cum + estimatedBytes iv)).
Proof.
  unfold flushSplitStep, splitsHere.
  destruct ((0 <? threshold) && (uint64 threshold <? cum) &&
            match last splits with
            | Some k => negb (bool_decide (key (startKey iv) = k))
            | None => true
            end); reflexivity.
Qed.

Lemma sumZ_app l1 l2 : sumZ (l1 ++ l2) = sumZ l1 + sumZ l2.
Proof. induction l1 as [|x l1 IH]; simpl; [reflexivity|]. rewrite IH. lia. Qed.

Variable ivs : list fileInterval.
Variable T : Z.
Hypothesis T_range : T < 2 ^ 63.
Hypothesis est_range : forall iv, iv ∈ ivs -> 0 <= estimatedBytes iv <= T.
Hypothesis keys_adjacent : forall (i j : nat) iv iv',
  ivs !! i = Some iv -> ivs !! j = Some iv' -> (i < j)%nat ->
  key (startKey iv) = key (startKey iv') -> j = S i.

Lemma flushSplit_walk rest :
  forall done splits cum (lp : nat),
    ivs = done ++ rest ->
    cum = sumZ (map estimatedBytes (drop lp done)) ->
    0 <= cum <= 2 * T ->
    (lp <= length done)%nat ->
    (last splits = None \/
     ((lp < length done)%nat /\
      exists iv, ivs !! lp = Some iv /\ last splits = Some (key (startKey iv)))) ->
    (forall a b, (a, b) ∈ segments lp (splitPositions T rest (length done) splits cum)
                              (length ivs) ->
                 bytesBetween ivs a b <= 2 * T) /\
    fst (fold_left (flushSplitStep T) rest (splits, cum)) =
    splits ++ keysAt ivs (splitPositions T rest (length done) splits cum).
Proof.
  induction rest as [|iv rest IH]; intros done splits cum lp Hivs Hcum Hbound Hlp Hlast.
  - simpl. rewrite app_nil_r in Hivs. subst done. split.
    + intros a b Hab. apply list_elem_of_singleton in Hab. injection Hab as -> ->.
      unfold bytesBetween. rewrite firstn_all. lia.
    + unfold keysAt. simpl. rewrite app_nil_r. reflexivity.
  - assert (Hiv : ivs !! length done = Some iv).
    { rewrite Hivs. apply list_lookup_middle. reflexivity. }
    assert (Hest : 0 <= estimatedBytes iv <= T).
    { apply est_range. eapply list_elem_of_lookup_2; eassumption. }
    assert (Hivs' : ivs = (done ++ [iv]) ++ rest) by (rewrite <- app_assoc; exact Hivs).
    assert (Hlen' : length (done ++ [iv]) = S (length done))
      by (rewrite length_app; simpl; lia).
    cbn [fold_left splitPositions]. rewrite flushSplitStep_eq.
    destruct (splitsHere T splits cum iv) eqn:Hsplit.
    + destruct (IH (done ++ [iv]) (splits ++ [key (startKey iv)])
                  (uint64 (0 + estimatedBytes iv)) (length done) Hivs')
        as [Hseg Hkeys].
      * rewrite drop_app_length. simpl. unfold uint64. rewrite Z.mod_small; lia.
      * unfold uint64. rewrite Z.mod_small; lia.
      * lia.
      * right. split; [lia|]. exists iv. split; [assumption|]. apply last_snoc.
      * rewrite Hlen' in Hseg, Hkeys. split.
        -- intros a b Hab. simpl in Hab. apply elem_of_cons in Hab as [Hab|Hab]; [|auto].
           injection Hab as -> ->. unfold bytesBetween.
           rewrite Hivs, take_app_length. lia.
        -- rewrite Hkeys, <- app_assoc. unfold keysAt. simpl. rewrite Hiv. reflexivity.
    + assert (Hsum : cum + estimatedBytes iv <= 2 * T).
      { unfold splitsHere in Hsplit.
        destruct (Z.ltb_spec 0 T) as [HT|HT]; [|lia].
        destruct (Z.ltb_spec (uint64 T) cum) as [Hgt|Hle].
        2:{ unfold uint64 in Hle. rewrite Z.mod_small in Hle by lia. lia. }
        simpl in Hsplit.
        destruct Hlast as [Hnone|(Hlt & iv0 & Hiv0 & Hsome)].
        { rewrite Hnone in Hsplit. discriminate. }
        rewrite Hsome in Hsplit. apply negb_false_iff, bool_decide_eq_true in Hsplit.
        symmetry in Hsplit.
        pose proof (keys_adjacent _ _ _ _ Hiv0 Hiv Hlt Hsplit) as Hadj.
        assert (Hdrop : drop lp done = [iv0]).
        { rewrite Hivs in Hiv0. rewrite lookup_app_l in Hiv0 by lia.
          apply (drop_S done iv0 lp) in Hiv0 as Hd. rewrite Hd.
          rewrite drop_ge by lia. reflexivity. }
        rewrite Hdrop in Hcum. simpl in Hcum.
        assert (0 <= estimatedBytes iv0 <= T).
        { apply est_range. eapply list_elem_of_lookup_2; eassumption. }
        lia. }
      destruct (IH (done ++ [iv]) splits (uint64 (cum + estimatedBytes iv)) lp Hivs')
        as [Hseg Hkeys].
      * rewrite drop_app_le by lia. rewrite map_app, sumZ_app. simpl.
        unfold uint64. rewrite Z.mod_small by lia. lia.
      * unfold uint64. rewrite Z.mod_small; lia.
      * lia.
      * destruct Hlast as [Hnone|(Hlt & iv0 & Hiv0 & Hsome)]; [left; assumption|].
        right. split; [lia|]. eauto.
      * rewrite Hlen' in Hseg, Hkeys. split; assumption.
Qed.

End FlushSplit.

Section FlushSplitEngine.
Context `{E : Env}.

Lemma NewL0Sublevels_splits fs flushSplitMaxBytes s :
  NewL0Sublevels fs flushSplitMaxBytes = Ok s ->
  flushSplitUserKeys s =
  fst (flushSplitWalk (effectiveFlushSplitMaxBytes flushSplitMaxBytes s) (orderedIntervals s)).
Proof.
  unfold NewL0Sublevels. intros H. inv_bind H. injection H as <-. reflexivity.
Qed.

Lemma Built_keys_adjacent keys arena0 subs s :
  StronglySorted iklt keys -> Built keys arena0 subs s ->
  forall (i j : nat) iv iv',
    orderedIntervals s !! i = Some iv -> orderedIntervals s !! j = Some iv' ->
    (i < j)%nat -> key (startKey iv) = key (startKey iv') -> j = S i.
Proof.
  intros Hsorted HB i j iv iv' Hi Hj Hij Hkey.
  destruct (decide (j = S i)) as [|Hne]; [assumption|exfalso].
  destruct (B_ivs _ _ _ _ HB _ _ Hi) as (_ & Hki & _).
  destruct (B_ivs _ _ _ _ HB _ _ Hj) as (_ & Hkj & _).
  destruct (lookup_lt_is_Some_2 keys (S i)) as [km Hkm].
  { apply lookup_lt_Some in Hkj. lia. }
  pose proof (StronglySorted_lookup iklt keys i (S i) _ _ Hsorted ltac:(lia) Hki Hkm) as H1.
  assert (Hij' : (S i < j)%nat) by lia.
  pose proof (StronglySorted_lookup iklt keys (S i) j _ _ Hsorted Hij' Hkm Hkj) as H2.
  unfold iklt in H1, H2. apply intervalKeyCompare_lt in H1, H2.
  assert (H0 : cmp (key (startKey iv)) (key (startKey iv')) = 0)
    by (rewrite Hkey; apply cmp_refl).
  destruct H1 as [H1|(H1 & _ & H1L)].
  - assert (cmp (key km) (key (startKey iv')) <= 0) by (destruct H2; lia).
    pose proof (cmp_lt_le _ _ _ H1 ltac:(eassumption)). lia.
  - destruct H2 as [H2|(_ & H2L & _)]; [|congruence].
    assert (H1' : cmp (key (startKey iv)) (key km) <= 0) by lia.
    pose proof (cmp_le_lt _ _ _ H1' H2). lia.
Qed.

(** C5, as the code has it.  When no single interval is estimated above the
    effective threshold [flushSplitMaxBytes * number of sublevels] (and that
    product fits an [int64]), the estimated bytes of the intervals between
    two consecutive split positions, or between an end of the engine and the
    nearest split position, are at most twice the threshold.  The split keys
    of the engine are the start keys at those positions. *)
Theorem flush_split_segments_bounded (fs : list FileMetadata) (flushSplitMaxBytes : Z)
    (s : L0Sublevels) :
  (forall f0, f0 ∈ fs -> wfFile f0) ->
  NewL0Sublevels fs flushSplitMaxBytes = Ok s ->
  0 < flushSplitMaxBytes ->
  flushSplitMaxBytes * zlen (Levels s) < 2 ^ 63 ->
  (forall iv, iv ∈ orderedIntervals s ->
              estimatedBytes iv <= flushSplitMaxBytes * zlen (Levels s)) ->
  FlushSplitKeys s = keysAt (orderedIntervals s) (flushSplitPositions flushSplitMaxBytes s) /\
  forall a b,
    (a, b) ∈ segments 0 (flushSplitPositions flushSplitMaxBytes s)
               (length (orderedIntervals s)) ->
    bytesBetween (orderedIntervals s) a b <= 2 * (flushSplitMaxBytes * zlen (Levels s)).
Proof.
  intros Hwf Hnew HT Hfit Hest.
  destruct (NewL0Sublevels_built _ _ _ Hwf Hnew) as (subs & Hlen & HB).
  pose proof (NewL0Sublevels_splits _ _ _ Hnew) as Hsplits.
  assert (Heff : effectiveFlushSplitMaxBytes flushSplitMaxBytes s
                 = flushSplitMaxBytes * zlen (Levels s)).
  { unfold effectiveFlushSplitMaxBytes, int64. rewrite Z.mod_small; [lia|].
    unfold zlen in *. nia. }
  destruct (flushSplit_walk (orderedIntervals s) (flushSplitMaxBytes * zlen (Levels s))
              Hfit) with (rest := orderedIntervals s) (done := @nil fileInterval)
              (splits := @nil Key) (cum := 0) (lp := 0%nat) as [Hseg Hkeys].
  - intros iv Hiv. split; [|auto].
    apply list_elem_of_lookup in Hiv as [i Hi].
    destruct (B_ivs _ _ _ _ HB _ _ Hi) as (_ & _ & _ & _ & ? & _). lia.
  - eapply Built_keys_adjacent; [apply keysOf_sorted|eassumption].
  - reflexivity.
  - reflexivity.
  - unfold zlen. nia.
  - simpl. lia.
  - left. reflexivity.
  - unfold FlushSplitKeys, flushSplitPositions. rewrite Hsplits, Heff.
    simpl in Hseg, Hkeys. split; [exact Hkeys|exact Hseg].
Qed.

End FlushSplitEngine.

Definition heavyEngine : L0Sublevels :=
  orEmpty (NewL0Sublevels (E := bytesEnv) oneHeavyInterval 1).

(** C5 as stated fails with a large file over [a, b], a small one over
    [c, d] and a threshold of one byte: the walk can split only after the
    interval that crossed the threshold, so the stretch before the first
    split key holds 1000 estimated bytes against a bound of 2. *)
Lemma flush_split_bound_exceeded :
  NewL0Sublevels (E := bytesEnv) oneHeavyInterval 1 = Ok heavyEngine /\
  FlushSplitKeys heavyEngine = [userKey "b"; userKey "d"] /\
  flushSplitPositions 1 heavyEngine = [1%nat; 3%nat] /\
  (0%nat, 1%nat) ∈ segments 0 (flushSplitPositions 1 heavyEngine)
                     (length (orderedIntervals heavyEngine)) /\
  2 * (1 * zlen (Levels heavyEngine)) < bytesBetween (orderedIntervals heavyEngine) 0 1.
Proof.
  split; [vm_compute; reflexivity|].
  split; [vm_compute; reflexivity|].
  split; [vm_compute; reflexivity|].
  split; [vm_compute; left|vm_compute; reflexivity].
Qed.

(** Three small files side by side under a threshold of 15 bytes. *)
Definition threeSmall : list FileMetadata :=
  [l0file 1 "a" "b" 10 1 false false; l0file 2 "c" "d" 10 2 false false;
   l0file 3 "e" "f" 10 3 false false].

Definition threeSmallEngine : L0Sublevels :=
  orEmpty (NewL0Sublevels (E := bytesEnv) threeSmall 15).

Lemma flush_split_segments_bounded_witness :
  bytesBetween (orderedIntervals threeSmallEngine) 0 3 <= 2 * (15 * 1).
Proof.
  destruct (flush_split_segments_bounded (E := bytesEnv) threeSmall 15 threeSmallEngine)
    as [_ H].
  - wf_files.
  - vm_compute. reflexivity.
  - lia.
  - vm_compute. reflexivity.
  - intros iv Hiv. vm_compute in Hiv.
    repeat (apply elem_of_cons in Hiv as [->|Hiv]); try (vm_compute; discriminate).
    inversion Hiv.
  - apply (H 0%nat 3%nat). vm_compute. left.
Defined.

(** ** Read amplification *)

(** A file holds user key [k]: its smallest key is at or before [k], and [k]
    is before its largest key, or is its largest key and that key is not the
    exclusive range-delete sentinel. *)
Definition overlapsKey `{E : Env} (k : Key) (f : FileMetadata) : bool :=
  (cmp (UserKey (Smallest f)) k <=? 0) &&
  ((cmp k (UserKey (Largest f)) <? 0) ||
   ((cmp k (UserKey (Largest f)) =? 0) &&
    negb (Trailer (Largest f) =? InternalKeyRangeDeleteSentinel))).

(** Sublevel [sl] holds a file with user key [k]. *)
Definition touchedb `{E : Env} (s : L0Sublevels) (k : Key) (sl : nat) : bool :=
  match Levels s !! sl with
  | Some lvl =>
      existsb (fun q => match levelMetadata s !! q with
                        | Some f => overlapsKey k f
                        | None => false
                        end) lvl
  | None => false
  end.

(** The number of distinct sublevels that hold a file with user key [k]. *)
Definition sublevelsTouching `{E : Env} (s : L0Sublevels) (k : Key) : Z :=
  zlen (List.filter (touchedb s k) (seq 0 (length (Levels s)))).

Lemma ReadAmplification_max s :
  0 <= ReadAmplification s /\
  (forall iv, iv ∈ orderedIntervals s -> fileCount iv <= ReadAmplification s) /\
  (ReadAmplification s = 0 \/
   exists iv, iv ∈ orderedIntervals s /\ fileCount iv = ReadAmplification s).
Proof.
  unfold ReadAmplification.
  enough (forall ivs amp,
            amp <= fold_left (fun amp iv => if amp <? fileCount iv then fileCount iv else amp)
                     ivs amp /\
            (forall iv, iv ∈ ivs ->
               fileCount iv <= fold_left (fun amp iv => if amp <? fileCount iv
                                                        then fileCount iv else amp) ivs amp) /\
            (fold_left (fun amp iv => if amp <? fileCount iv then fileCount iv else amp)
               ivs amp = amp \/
             exists iv, iv ∈ ivs /\
               fileCount iv = fold_left (fun amp iv => if amp <? fileCount iv
                                                       then fileCount iv else amp) ivs amp))
    as H by apply H.
  induction ivs as [|iv ivs IH]; intros amp; simpl.
  - split; [lia|]. split; [|left; reflexivity]. intros ? Hin. inversion Hin.
  - destruct (IH (if amp <? fileCount iv then fileCount iv else amp)) as (H1 & H2 & H3).
    assert (Hstep : amp <= (if amp <? fileCount iv then fileCount iv else amp) /\
                    fileCount iv <= (if amp <? fileCount iv then fileCount iv else amp))
      by (destruct (Z.ltb_spec amp (fileCount iv)); lia).
    split; [lia|]. split.
    + intros iv' Hin. apply elem_of_cons in Hin as [->|Hin]; [lia|auto].
    + destruct H3 as [H3|(iv' & Hin & H3)].
      * destruct (Z.ltb_spec amp (fileCount iv)).
        -- right. exists iv. split; [left|congruence].
        -- left. assumption.
      * right. exists iv'. split; [right; assumption|assumption].
Qed.

Lemma filter_length_le {A} (g1 g2 : A -> bool) (l : list A) :
  (forall x, x ∈ l -> g1 x = true -> g2 x = true) ->
  (length (List.filter g1 l) <= length (List.filter g2 l))%nat.
Proof.
  induction l as [|x l IH]; intros H; simpl; [lia|].
  assert (IH' : (length (List.filter g1 l) <= length (List.filter g2 l))%nat).
  { apply IH. intros y Hy. apply H. right. assumption. }
  destruct (g1 x) eqn:H1.
  - rewrite (H x ltac:(left) H1). simpl. lia.
  - destruct (g2 x); simpl; lia.
Qed.

Section ReadAmp.
Context `{E : Env}.

Definition pointKey (k : Key) : intervalKey := mkIntervalKey k false.

Lemma overlapsKey_spec k f :
  overlapsKey k f = true <->
  intervalKeyCompare (smallestIK f) (pointKey k) <= 0 /\
  intervalKeyCompare (pointKey k) (largestIK f) < 0.
Proof.
  unfold overlapsKey. rewrite intervalKeyCompare_le, intervalKeyCompare_lt.
  unfold smallestIK, largestIK, pointKey. simpl.
  rewrite andb_true_iff, orb_true_iff, andb_true_iff, Z.leb_le, Z.ltb_lt, Z.eqb_eq.
  destruct (negb (Trailer (Largest f) =? InternalKeyRangeDeleteSentinel));
    intuition (try lia; try congruence).
Qed.

Lemma overlapsKey_setSpan k f mn mx sl : overlapsKey k (setSpan f mn mx sl) = overlapsKey k f.
Proof. reflexivity. Qed.

(** The index just past the interval that holds user key [k]. *)
Definition pointEnd (keys : list intervalKey) (k : Key) : Z :=
  searchIn keys (fun x => intervalKeyCompare (pointKey k) x <? 0).

Lemma pointEnd_spec keys k :
  StronglySorted iklt keys ->
  0 <= pointEnd keys k <= zlen keys /\
  (forall (j : nat) x, keys !! j = Some x -> Z.of_nat j < pointEnd keys k ->
                       intervalKeyCompare x (pointKey k) <= 0) /\
  (forall (j : nat) x, keys !! j = Some x -> pointEnd keys k <= Z.of_nat j ->
                       intervalKeyCompare (pointKey k) x < 0).
Proof.
  intros Hsorted.
  destruct (searchIn_spec keys (fun x => intervalKeyCompare (pointKey k) x <? 0))
    as (Hr & Hlo & Hhi).
  { intros i j x y Hij Hx Hy Hp. apply Z.ltb_lt in Hp. apply Z.ltb_lt.
    destruct (decide (i = j)) as [->|Hne]; [congruence|].
    assert (Hij' : (i < j)%nat) by lia.
    pose proof (StronglySorted_lookup iklt keys i j x y Hsorted Hij' Hx Hy) as Hxy.
    unfold iklt in Hxy. eapply intervalKeyCompare_lt_le; [exact Hp|lia]. }
  split; [exact Hr|]. split.
  - intros j x Hj Hlt. specialize (Hlo j x Hj Hlt). apply Z.ltb_ge in Hlo.
    destruct (intervalKeyCompare_total x (pointKey k)) as [|Hgt]; [assumption|lia].
  - intros j x Hj Hle. specialize (Hhi j x Hj Hle). apply Z.ltb_lt in Hhi. exact Hhi.
Qed.

Variable fs : list FileMetadata.
Hypothesis fs_wf : forall f0, f0 ∈ fs -> wfFile f0.

(** A file holds [k] exactly when its span covers the interval of [k]. *)
Lemma overlapsKey_covers k q f :
  arenaOf fs !! q = Some f ->
  overlapsKey k f = true <->
  coversb (keysOf fs) (arenaOf fs) (pointEnd (keysOf fs) k - 1) q = true.
Proof.
  intros Hf.
  destruct (span_places fs q f fs_wf Hf)
    as (js & jl & ks & kl & Hjs & Hsk & Hjl & Hlk & Hle & Hmn & Hmx).
  destruct (pointEnd_spec (keysOf fs) k (keysOf_sorted fs)) as (Hr & Hlo & Hhi).
  rewrite overlapsKey_spec, coversb_spec. unfold mnOf, mxOf. rewrite Hf, Hmn, Hmx.
  pose proof (intervalKeyCompare_eq_sym _ _ Hsk) as Hks.
  pose proof (intervalKeyCompare_eq_sym _ _ Hlk) as Hkl.
  split.
  - intros [H1 H2]. split.
    + destruct (Z_lt_le_dec (Z.of_nat js) (pointEnd (keysOf fs) k)) as [|Hge]; [lia|exfalso].
      specialize (Hhi js ks Hjs Hge).
      assert (H3 : intervalKeyCompare ks (pointKey k) <= 0).
      { eapply intervalKeyCompare_trans; [|exact H1]. lia. }
      pose proof (intervalKeyCompare_lt_le _ _ _ Hhi H3) as H4.
      rewrite intervalKeyCompare_refl in H4. lia.
    + destruct (Z_lt_le_dec (Z.of_nat jl) (pointEnd (keysOf fs) k)) as [Hlt|]; [exfalso|lia].
      specialize (Hlo jl kl Hjl Hlt).
      assert (H3 : intervalKeyCompare (largestIK f) (pointKey k) <= 0).
      { eapply intervalKeyCompare_trans; [|exact Hlo]. lia. }
      pose proof (intervalKeyCompare_lt_le _ _ _ H2 H3) as H4.
      rewrite intervalKeyCompare_refl in H4. lia.
  - intros [H1 H2]. split.
    + eapply intervalKeyCompare_trans; [|apply (Hlo js ks Hjs); lia]. lia.
    + eapply intervalKeyCompare_lt_le; [apply (Hhi jl kl Hjl); lia|]. lia.
Qed.

(** A file whose span covers interval [i] holds the start key of [i]. *)
Lemma covers_overlaps_startKey (i : nat) ki q f :
  keysOf fs !! i = Some ki ->
  arenaOf fs !! q = Some f ->
  coversb (keysOf fs) (arenaOf fs) (Z.of_nat i) q = true ->
  overlapsKey (key ki) f = true.
Proof.
  intros Hi Hf Hcov.
  destruct (span_places fs q f fs_wf Hf)
    as (js & jl & ks & kl & Hjs & Hsk & Hjl & Hlk & Hle & Hmn & Hmx).
  apply coversb_spec in Hcov. unfold mnOf, mxOf in Hcov. rewrite Hf, Hmn, Hmx in Hcov.
  pose proof (keysOf_sorted fs) as Hsorted.
  apply overlapsKey_spec. split.
  - assert (H1 : intervalKeyCompare ks ki <= 0).
    { destruct (decide (js = i)) as [->|Hne].
      - assert (ks = ki) by congruence. subst. rewrite intervalKeyCompare_refl. lia.
      - assert (Hlt : (js < i)%nat) by lia.
        pose proof (StronglySorted_lookup iklt _ js i ks ki Hsorted Hlt Hjs Hi) as H.
        unfold iklt in H. lia. }
    assert (H2 : intervalKeyCompare (smallestIK f) ki <= 0).
    { eapply intervalKeyCompare_trans; [|exact H1]. lia. }
    apply intervalKeyCompare_le in H2. apply intervalKeyCompare_le.
    unfold smallestIK, pointKey in *. simpl in *.
    destruct H2 as [H2|[H2 _]]; [left; assumption|right; split; [assumption|discriminate]].
  - assert (Hlt : (i < jl)%nat) by lia.
    pose proof (StronglySorted_lookup iklt _ i jl ki kl Hsorted Hlt Hi Hjl) as H.
    unfold iklt in H. pose proof (intervalKeyCompare_eq_sym _ _ Hlk) as Hkl.
    assert (H2 : intervalKeyCompare ki (largestIK f) < 0).
    { eapply intervalKeyCompare_lt_le; [exact H|lia]. }
    apply intervalKeyCompare_lt in H2. apply intervalKeyCompare_lt.
    unfold pointKey. simpl.
    destruct H2 as [H2|(H2 & _ & H3)]; [left; assumption|right; auto].
Qed.

End ReadAmp.

Section ReadAmpCount.
Context `{E : Env}.
Variable fs : list FileMetadata.
Hypothesis fs_wf : forall f0, f0 ∈ fs -> wfFile f0.
Variable subs : list Z.
Variable s : L0Sublevels.
Hypothesis HB : Built (keysOf fs) (arenaOf fs) subs s.
Hypothesis Hlen : length subs = length (arenaOf fs).

Let covers (i : Z) (q : nat) : bool := coversb (keysOf fs) (arenaOf fs) i q.
Let subNat (q : nat) : nat := Z.to_nat (default 0 (subs !! q)).

Lemma engine_overlapsKey k q f :
  levelMetadata s !! q = Some f ->
  overlapsKey k f = covers (pointEnd (keysOf fs) k - 1) q.
Proof.
  intros Hf. destruct (Built_arena_lookup _ _ _ _ _ _ HB Hf) as (f0 & Hf0 & ->).
  assert (Hsame : overlapsKey k (assign (keysOf fs) subs q f0) = overlapsKey k f0).
  { unfold assign. destruct (subs !! q); reflexivity. }
  rewrite Hsame. pose proof (overlapsKey_covers fs fs_wf k q f0 Hf0) as Hiff.
  unfold covers. destruct (overlapsKey k f0), (coversb _ _ _ q); try reflexivity.
  - symmetry. apply Hiff. reflexivity.
  - apply Hiff. reflexivity.
Qed.

Lemma touchedb_iff k sl :
  touchedb s k sl = true <->
  exists q, (q < length subs)%nat /\ subNat q = sl /\
            covers (pointEnd (keysOf fs) k - 1) q = true.
Proof.
  unfold touchedb. split.
  - destruct (Levels s !! sl) as [lvl|] eqn:Hlvl; [|discriminate].
    intros H. apply existsb_exists in H as (q & Hq & Hov).
    apply list_elem_of_In in Hq.
    destruct (B_levels _ _ _ _ HB _ _ Hlvl) as (_ & Hsub & _).
    specialize (Hsub q Hq). exists q.
    split; [eapply lookup_lt_Some; eassumption|].
    split; [unfold subNat; rewrite Hsub; simpl; lia|].
    destruct (levelMetadata s !! q) as [f|] eqn:Hf; [|discriminate].
    rewrite <- (engine_overlapsKey k q f Hf). exact Hov.
  - intros (q & Hq & Hsl & Hcov).
    destruct (lookup_lt_is_Some_2 subs q Hq) as [slz Hslz].
    destruct (B_placed _ _ _ _ HB _ _ Hslz) as (lvl & Hlvl & Hin).
    assert (Hsl' : Z.to_nat slz = sl) by (unfold subNat in Hsl; rewrite Hslz in Hsl; exact Hsl).
    rewrite Hsl' in Hlvl. rewrite Hlvl. apply existsb_exists. exists q.
    split; [apply list_elem_of_In; exact Hin|].
    destruct (lookup_lt_is_Some_2 (levelMetadata s) q) as [f Hf].
    { rewrite (B_arena _ _ _ _ HB), length_imap. lia. }
    rewrite Hf, (engine_overlapsKey k q f Hf). exact Hcov.
Qed.

(** The sublevels that hold [k] are as many as the files that hold [k]:
    files over one interval sit in distinct sublevels. *)
Lemma sublevelsTouching_count k :
  sublevelsTouching s k =
  zlen (List.filter (covers (pointEnd (keysOf fs) k - 1)) (seq 0 (length subs))).
Proof.
  unfold sublevelsTouching, zlen. f_equal.
  set (idx := pointEnd (keysOf fs) k - 1).
  rewrite <- (length_fmap subNat (List.filter (covers idx) (seq 0 (length subs)))).
  apply Permutation_length. apply NoDup_Permutation.
  - apply NoDup_ListNoDup, List.NoDup_filter, NoDup_ListNoDup, NoDup_seq.
  - apply NoDup_fmap_2_strong;
      [|apply NoDup_ListNoDup, List.NoDup_filter, NoDup_ListNoDup, NoDup_seq].
    intros x y Hx Hy Hxy.
    apply filter_seq_elem in Hx as [Hx Hcx]. apply filter_seq_elem in Hy as [Hy Hcy].
    destruct (lookup_lt_is_Some_2 subs x Hx) as [slx Hslx].
    destruct (lookup_lt_is_Some_2 subs y Hy) as [sly Hsly].
    unfold subNat in Hxy. rewrite Hslx, Hsly in Hxy. simpl in Hxy.
    pose proof (B_sub_nonneg _ _ _ _ HB _ _ Hslx).
    pose proof (B_sub_nonneg _ _ _ _ HB _ _ Hsly).
    unfold covers in *. apply coversb_spec in Hcx, Hcy.
    destruct (lt_eq_lt_dec x y) as [[Hlt|Heq]|Hgt]; [exfalso| assumption |exfalso].
    + assert (slx < sly); [|lia].
      eapply (B_sub_above _ _ _ _ HB y x); try eassumption. unfold overlaps. lia.
    + assert (sly < slx); [|lia].
      eapply (B_sub_above _ _ _ _ HB x y); try eassumption. unfold overlaps. lia.
  - intros sl. rewrite list_elem_of_fmap. rewrite list_elem_of_In, filter_In, in_seq.
    rewrite touchedb_iff. fold idx. split.
    + intros (_ & q & Hq & Hsl & Hcov). exists q. split; [auto|].
      apply filter_seq_elem. auto.
    + intros (q & Hsl & Hin). apply filter_seq_elem in Hin as [Hq Hcov].
      assert (Hex : exists q, (q < length subs)%nat /\ subNat q = sl /\ covers idx q = true)
        by (exists q; auto).
      split; [|exact Hex].
      apply touchedb_iff in Hex. unfold touchedb in Hex.
      destruct (Levels s !! sl) eqn:Hl; [|discriminate].
      apply lookup_lt_Some in Hl. lia.
Qed.

Lemma fileCount_count (i : nat) iv :
  orderedIntervals s !! i = Some iv ->
  fileCount iv = zlen (List.filter (covers (Z.of_nat i)) (seq 0 (length subs))).
Proof.
  intros Hiv. destruct (B_ivs _ _ _ _ HB _ _ Hiv) as (_ & _ & Hfiles & Hcount & _).
  rewrite Hcount, Hfiles. reflexivity.
Qed.

Lemma sublevelsTouching_le k : sublevelsTouching s k <= ReadAmplification s.
Proof.
  rewrite sublevelsTouching_count.
  destruct (ReadAmplification_max s) as (H0 & Hmax & _).
  destruct (pointEnd_spec (keysOf fs) k (keysOf_sorted fs)) as (Hr & _ & _).
  destruct (Z.eq_dec (pointEnd (keysOf fs) k) 0) as [Hz|Hnz].
  - rewrite Hz. change (0 - 1) with (-1).
    assert (Hnil : List.filter (covers (-1)) (seq 0 (length subs)) = []).
    { destruct (List.filter (covers (-1)) (seq 0 (length subs))) as [|q l] eqn:Hf;
        [reflexivity|exfalso].
      assert (Hq : q ∈ List.filter (covers (-1)) (seq 0 (length subs)))
        by (rewrite Hf; left).
      apply filter_seq_elem in Hq as [Hq Hcov]. unfold covers in Hcov.
      apply coversb_spec in Hcov.
      destruct (mnOf_static (keysOf fs) (arenaOf fs) (spans_static_wf fs fs_wf) q); lia. }
    rewrite Hnil. unfold zlen. simpl. exact H0.
  - destruct (lookup_lt_is_Some_2 (orderedIntervals s)
                (Z.to_nat (pointEnd (keysOf fs) k - 1))) as [iv Hiv].
    { rewrite (B_ivs_len _ _ _ _ HB). unfold zlen in Hr. lia. }
    pose proof (fileCount_count _ _ Hiv) as Hc. rewrite Z2Nat.id in Hc by lia.
    rewrite <- Hc. apply Hmax. eapply list_elem_of_lookup_2; eassumption.
Qed.

Lemma sublevelsTouching_attained :
  exists k, sublevelsTouching s k = ReadAmplification s.
Proof.
  destruct (ReadAmplification_max s) as (H0 & Hmax & [Hz|(iv & Hin & Hiv)]).
  - exists []. pose proof (sublevelsTouching_le []) as Hle.
    unfold sublevelsTouching, zlen in *. lia.
  - apply list_elem_of_lookup in Hin as [i Hi].
    destruct (B_ivs _ _ _ _ HB _ _ Hi) as (_ & Hkey & _).
    exists (key (startKey iv)).
    pose proof (sublevelsTouching_le (key (startKey iv))) as Hle.
    enough (fileCount iv <= sublevelsTouching s (key (startKey iv))) by lia.
    rewrite (fileCount_count _ _ Hi), sublevelsTouching_count. unfold zlen.
    apply inj_le. apply filter_length_le.
    intros q Hq Hcov. apply list_elem_of_In, in_seq in Hq.
    destruct (lookup_lt_is_Some_2 (arenaOf fs) q) as [f Hf]; [lia|].
    unfold covers. apply (overlapsKey_covers fs fs_wf _ q f Hf).
    eapply covers_overlaps_startKey; eassumption.
Qed.

End ReadAmpCount.

Section ReadAmpTheorem.
Context `{E : Env}.

(** C6.  [ReadAmplification] is the largest file count of an interval, and
    that is the largest number of distinct sublevels holding a file with one
    and the same user key: no user key is held in more sublevels, and some
    user key is held in that many. *)
Theorem read_amplification_max_sublevels (fs : list FileMetadata)
    (flushSplitMaxBytes : Z) (s : L0Sublevels) :
  (forall f0, f0 ∈ fs -> wfFile f0) ->
  NewL0Sublevels fs flushSplitMaxBytes = Ok s ->
  (forall iv, iv ∈ orderedIntervals s -> fileCount iv <= ReadAmplification s) /\
  (ReadAmplification s = 0 \/
   exists iv, iv ∈ orderedIntervals s /\ fileCount iv = ReadAmplification s) /\
  (forall k, sublevelsTouching s k <= ReadAmplification s) /\
  (exists k, sublevelsTouching s k = ReadAmplification s).
Proof.
  intros Hwf Hnew.
  destruct (NewL0Sublevels_built _ _ _ Hwf Hnew) as (subs & Hlen & HB).
  assert (Hlen' : length subs = length (arenaOf fs)).
  { rewrite Hlen. unfold arenaOf. symmetry. apply length_imap. }
  destruct (ReadAmplification_max s) as (_ & H1 & H2).
  split; [exact H1|]. split; [exact H2|]. split.
  - intros k. eapply sublevelsTouching_le; eassumption.
  - eapply sublevelsTouching_attained; eassumption.
Qed.

End ReadAmpTheorem.

Lemma read_amplification_max_sublevels_witness :
  ReadAmplification staircaseEngine = 2 /\
  sublevelsTouching (E := bytesEnv) staircaseEngine (userKey "a") <= 2.
Proof.
  split; [vm_compute; reflexivity|].
  destruct (read_amplification_max_sublevels (E := bytesEnv) staircase 100 staircaseEngine)
    as (_ & _ & H & _).
  - wf_files.
  - vm_compute. reflexivity.
  - apply (H (userKey "a")).
Defined.

(** ** Well-formed engines

    What the pickers rely on: handles point into the arena, spans and
    sublevels are in range, and every interval stacks, oldest first, files
    whose spans cover it. *)

Record wfEngine (s : L0Sublevels) : Prop := {
  W_file : forall q f, levelMetadata s !! q = Some f ->
      l0Index f = Z.of_nat q /\
      0 <= minIntervalIndex f /\ minIntervalIndex f <= maxIntervalIndex f /\
      maxIntervalIndex f + 1 < zlen (orderedIntervals s) /\
      0 <= subLevel f < zlen (Levels s);
  W_level : forall (sl : nat) lvl q, Levels s !! sl = Some lvl -> q ∈ lvl ->
      (q < length (levelMetadata s))%nat;
  W_iv : forall (i : nat) iv, orderedIntervals s !! i = Some iv ->
      index iv = Z.of_nat i /\ fileCount iv = zlen (files iv) /\
      StronglySorted lt (files iv) /\
      forall q, q ∈ files iv ->
        exists f, levelMetadata s !! q = Some f /\
                  minIntervalIndex f <= Z.of_nat i <= maxIntervalIndex f
}.

Lemma filter_seq_sorted (g : nat -> bool) (n : nat) :
  StronglySorted lt (List.filter g (seq 0 n)).
Proof.
  induction n as [|n IH]; [constructor|].
  rewrite filter_seq_snoc. apply StronglySorted_app_2; [|exact IH|].
  - intros x y Hx Hy. apply filter_seq_elem in Hx as [Hx _].
    destruct (g n); [|inversion Hy]. apply list_elem_of_singleton in Hy as ->. exact Hx.
  - destruct (g n); repeat constructor.
Qed.

Section WellFormed.
Context `{E : Env}.

Lemma Built_wfEngine fs subs s :
  (forall f0, f0 ∈ fs -> wfFile f0) ->
  Built (keysOf fs) (arenaOf fs) subs s -> length subs = length (arenaOf fs) ->
  wfEngine s.
Proof.
  intros Hwf HB Hlen. constructor.
  - intros q f Hf.
    destruct (Built_file _ _ _ _ _ _ HB Hlen Hf) as (sl & Hsl & Hsub & Hmn & Hmx & Hspan).
    destruct (Built_arena_lookup _ _ _ _ _ _ HB Hf) as (f0 & Hf0 & Hfa).
    destruct (arenaOf_lookup _ _ _ Hf0) as (f00 & _ & Hf00).
    assert (Hq : (q < length (arenaOf fs))%nat) by (eapply lookup_lt_Some; eassumption).
    destruct (mnOf_static _ _ (spans_static_wf fs Hwf) q Hq) as [H0 Hn].
    destruct (B_placed _ _ _ _ HB _ _ Hsl) as (lvl & Hlvl & _).
    apply lookup_lt_Some in Hlvl.
    pose proof (B_sub_nonneg _ _ _ _ HB _ _ Hsl).
    split.
    { subst f f0. unfold assign. rewrite Hsl. reflexivity. }
    unfold zlen. rewrite (B_ivs_len _ _ _ _ HB).
    unfold zlen in Hn. repeat split; lia.
  - intros sl lvl q Hlvl Hq.
    destruct (B_levels _ _ _ _ HB _ _ Hlvl) as (_ & Hsub & _).
    specialize (Hsub q Hq). apply lookup_lt_Some in Hsub.
    rewrite (B_arena _ _ _ _ HB), length_imap. lia.
  - intros i iv Hiv.
    destruct (B_ivs _ _ _ _ HB _ _ Hiv) as (Hidx & _ & Hfiles & Hcount & _).
    split; [assumption|]. split; [assumption|]. split.
    + rewrite Hfiles. apply filter_seq_sorted.
    + intros q Hq. rewrite Hfiles in Hq. apply filter_seq_elem in Hq as [Hq Hcov].
      destruct (lookup_lt_is_Some_2 (levelMetadata s) q) as [f Hf].
      { rewrite (B_arena _ _ _ _ HB), length_imap. lia. }
      exists f. split; [assumption|].
      destruct (Built_file _ _ _ _ _ _ HB Hlen Hf) as (_ & _ & _ & -> & -> & _).
      apply coversb_spec in Hcov. exact Hcov.
Qed.

Lemma NewL0Sublevels_wfEngine fs flushSplitMaxBytes s :
  (forall f0, f0 ∈ fs -> wfFile f0) ->
  NewL0Sublevels fs flushSplitMaxBytes = Ok s -> wfEngine s.
Proof.
  intros Hwf Hnew.
  destruct (NewL0Sublevels_built _ _ _ Hwf Hnew) as (subs & Hlen & HB).
  eapply Built_wfEngine; [eassumption|eassumption|].
  rewrite Hlen. unfold arenaOf. symmetry. apply length_imap.
Qed.

(** The arena keeps the order and the sequence numbers of the input. *)
Lemma NewL0Sublevels_seqnums fs flushSplitMaxBytes s q f :
  (forall f0, f0 ∈ fs -> wfFile f0) ->
  NewL0Sublevels fs flushSplitMaxBytes = Ok s ->
  levelMetadata s !! q = Some f ->
  exists f0, fs !! q = Some f0 /\ LargestSeqNum f = LargestSeqNum f0 /\
             Compacting f = Compacting f0 /\
             IsIntraL0Compacting f = IsIntraL0Compacting f0.
Proof.
  intros Hwf Hnew Hf.
  destruct (NewL0Sublevels_built _ _ _ Hwf Hnew) as (subs & Hlen & HB).
  destruct (Built_arena_lookup _ _ _ _ _ _ HB Hf) as (f0 & Hf0 & ->).
  destruct (arenaOf_lookup _ _ _ Hf0) as (f00 & Hf00 & ->).
  exists f00. split; [assumption|]. unfold assign.
  destruct (subs !! q); auto.
Qed.

End WellFormed.

Lemma structure_fields s s' :
  structure s' = structure s ->
  Levels s' = Levels s /\
  map intervalStructure (orderedIntervals s') = map intervalStructure (orderedIntervals s) /\
  levelMetadata s' = levelMetadata s.
Proof. unfold structure. intros H. injection H. intros. auto. Qed.

Lemma structure_lookup s s' (i : nat) iv' :
  structure s' = structure s -> orderedIntervals s' !! i = Some iv' ->
  exists iv, orderedIntervals s !! i = Some iv /\
             index iv' = index iv /\ files iv' = files iv /\
             fileCount iv' = fileCount iv.
Proof.
  intros Hs Hiv'. destruct (structure_fields _ _ Hs) as (_ & Hivs & _).
  assert (Hl : (intervalStructure <$> orderedIntervals s') !! i
               = (intervalStructure <$> orderedIntervals s) !! i)
    by (change (map intervalStructure (orderedIntervals s') !! i
                = map intervalStructure (orderedIntervals s) !! i); rewrite Hivs; reflexivity).
  rewrite !list_lookup_fmap, Hiv' in Hl. simpl in Hl.
  destruct (orderedIntervals s !! i) as [iv|]; [|discriminate].
  exists iv. split; [reflexivity|]. injection Hl. intros. auto.
Qed.

Lemma wfEngine_structure s s' :
  structure s' = structure s -> wfEngine s -> wfEngine s'.
Proof.
  intros Hs HW.
  destruct (structure_fields _ _ Hs) as (Hlev & Hivs & Har).
  assert (Hlen : zlen (orderedIntervals s') = zlen (orderedIntervals s)).
  { unfold zlen. apply (f_equal length) in Hivs. rewrite !length_map in Hivs. lia. }
  constructor.
  - intros q f Hf. rewrite Har in Hf. rewrite Hlev, Hlen. apply (W_file _ HW). exact Hf.
  - intros sl lvl q Hlvl Hq. rewrite Hlev in Hlvl. rewrite Har. eapply (W_level _ HW); eassumption.
  - intros i iv' Hiv'. destruct (structure_lookup _ _ _ _ Hs Hiv') as (iv & Hiv & Hi & Hf & Hc).
    destruct (W_iv _ HW _ _ Hiv) as (H1 & H2 & H3 & H4).
    rewrite Hi, Hf, Hc, Har. auto.
Qed.

(** ** Loops over an index range, by induction on the index *)

Lemma zrange_cons a b : a <= b -> zrange a b = a :: zrange (a + 1) b.
Proof.
  intros Hab. unfold zrange. rewrite seqZ_cons by lia. f_equal. f_equal; lia.
Qed.

Lemma zrange_nil a b : b < a -> zrange a b = [].
Proof. intros Hab. unfold zrange. apply seqZ_nil. lia. Qed.

Lemma foldM_zrange_ind {S} (P : Z -> S -> Prop) (f : S -> Z -> result S) (b : Z) :
  (forall i s s', i <= b -> P i s -> f s i = Ok s' -> P (i + 1) s') ->
  forall (n : nat) a s s',
    Z.of_nat n = b - a + 1 ->
    P a s -> foldM f (zrange a b) s = Ok s' -> P (b + 1) s'.
Proof.
  intros Hstep. induction n as [|n IH]; intros a s s' Hn Ha H.
  - rewrite zrange_nil in H by lia. injection H as <-.
    replace (b + 1) with a by lia. exact Ha.
  - rewrite zrange_cons in H by lia. simpl in H. inv_bind H.
    apply (IH (a + 1) x s'); [lia| |exact H].
    eapply Hstep; [|exact Ha|exact Hx]. lia.
Qed.

Lemma foldM_zrange_inv {S} (P : Z -> S -> Prop) (f : S -> Z -> result S) (a b : Z) s s' :
  a <= b + 1 ->
  (forall i s s', a <= i <= b -> P i s -> f s i = Ok s' -> P (i + 1) s') ->
  P a s -> foldM f (zrange a b) s = Ok s' -> P (b + 1) s'.
Proof.
  intros Hab Hstep Ha H.
  apply (foldM_zrange_ind (fun i s => a <= i /\ P i s) f b) with
    (n := Z.to_nat (b - a + 1)) (a := a) (s := s) (s' := s'); [|lia|split; [lia|exact Ha]|exact H].
  intros i s0 s0' Hi [Hai HP] Hf. split; [lia|]. eapply Hstep; [|exact HP|exact Hf]. lia.
Qed.

Lemma foldM_zrange_total {S} (P : Z -> S -> Prop) (f : S -> Z -> result S) (b : Z) :
  (forall i s, i <= b -> P i s -> exists s', f s i = Ok s' /\ P (i + 1) s') ->
  forall (n : nat) a s,
    Z.of_nat n = b - a + 1 ->
    P a s -> exists s', foldM f (zrange a b) s = Ok s' /\ P (b + 1) s'.
Proof.
  intros Hstep. induction n as [|n IH]; intros a s Hn Ha.
  - rewrite zrange_nil by lia. exists s. split; [reflexivity|].
    replace (b + 1) with a by lia. exact Ha.
  - rewrite zrange_cons by lia. simpl.
    destruct (Hstep a s ltac:(lia) Ha) as (s1 & Hf & H1). rewrite Hf. simpl.
    apply (IH (a + 1) s1); [lia|exact H1].
Qed.

Lemma foldM_zrange_ok {S} (P : Z -> S -> Prop) (f : S -> Z -> result S) (a b : Z) s :
  a <= b + 1 ->
  (forall i s, a <= i <= b -> P i s -> exists s', f s i = Ok s' /\ P (i + 1) s') ->
  P a s -> exists s', foldM f (zrange a b) s = Ok s' /\ P (b + 1) s'.
Proof.
  intros Hab Hstep Ha.
  destruct (foldM_zrange_total (fun i s => a <= i /\ P i s) f b) with
    (n := Z.to_nat (b - a + 1)) (a := a) (s := s) as (s' & H & _ & HP);
    [|lia|split; [lia|exact Ha]|eauto].
  intros i s0 Hi [Hai HP]. destruct (Hstep i s0 ltac:(lia) HP) as (s0' & Hf & HP').
  exists s0'. split; [exact Hf|]. split; [lia|exact HP'].
Qed.

(** ** The state that InitCompactingFileInfo leaves *)

Section InitState.
Context `{E : Env}.

Lemma zupd_forall (Q : fileInterval -> Prop) ivs i g ivs' :
  (forall iv, Q iv -> Q (g iv)) ->
  (forall iv, iv ∈ ivs -> Q iv) ->
  zupd ivs i g = Some ivs' -> forall iv, iv ∈ ivs' -> Q iv.
Proof.
  intros Hg Hall H iv Hiv. apply zupd_Some in H as (x & _ & Hx & ->).
  apply list_elem_of_lookup in Hiv as [j Hj].
  apply list_lookup_insert_Some in Hj as [(_ & Heq & _)|[_ Hj]].
  - subst iv. apply Hg, Hall. eapply list_elem_of_lookup_2; eassumption.
  - apply Hall. eapply list_elem_of_lookup_2; eassumption.
Qed.

Lemma InitCompactingFileInfo_counts s inProgress s' :
  InitCompactingFileInfo s inProgress = Ok s' ->
  forall iv, iv ∈ orderedIntervals s' -> 0 <= compactingFileCount iv.
Proof.
  unfold InitCompactingFileInfo. intros H. do 3 inv_bind H. injection H as <-. simpl.
  set (Q := fun iv => 0 <= compactingFileCount iv).
  assert (H0 : forall iv, iv ∈ map resetInterval (orderedIntervals s) -> Q iv).
  { intros iv Hiv. change (iv ∈ resetInterval <$> orderedIntervals s) in Hiv.
    apply list_elem_of_fmap in Hiv as (iv0 & -> & _). unfold Q. simpl. lia. }
  assert (H1 : forall iv, iv ∈ x -> Q iv).
  { eapply (foldM_inv (fun ivs => forall iv, iv ∈ ivs -> Q iv)); [|exact H0|exact Hx].
    intros ivs f ivs' Hivs Hf. unfold initFile in Hf.
    destruct (Compacting f); [|injection Hf as <-; exact Hivs].
    eapply (foldM_inv (fun ivs => forall iv, iv ∈ ivs -> Q iv)); [|exact Hivs|exact Hf].
    intros ivs1 i ivs1' Hivs1 Hm. unfold markFileCompacting in Hm. apply lift_Ok in Hm.
    eapply zupd_forall; [|exact Hivs1|exact Hm].
    intros iv. unfold Q. destruct (IsIntraL0Compacting f); simpl; lia. }
  assert (H2 : forall iv, iv ∈ x0 -> Q iv).
  { eapply (foldM_inv (fun ivs => forall iv, iv ∈ ivs -> Q iv)); [|exact H1|exact Hx0].
    intros ivs c ivs' Hivs Hc. unfold initInProgress in Hc.
    eapply (foldM_inv (fun ivs => forall iv, iv ∈ ivs -> Q iv)); [|exact Hivs|exact Hc].
    intros ivs1 i ivs1' Hivs1 Hm. simpl in Hm. destruct (IsIntraL0 c).
    - inv_bind Hm. injection Hm as <-. exact Hivs1.
    - apply lift_Ok in Hm. eapply zupd_forall; [|exact Hivs1|exact Hm].
      intros iv. unfold Q. simpl. lia. }
  eapply (foldM_inv (fun st => forall iv, iv ∈ snd st -> Q iv)); [| |exact Hx1]; [|exact H2].
  intros st i st' Hst Hp. unfold propagateStep in Hp. inv_bind Hp.
  destruct (isBaseCompacting x2); [|injection Hp as <-; exact Hst].
  eapply (foldM_inv (fun st => forall iv, iv ∈ snd st -> Q iv)); [|exact Hst|exact Hp].
  intros st1 j st1' Hst1 Hm. unfold markRange in Hm. inv_bind Hm. injection Hm as <-.
  simpl. apply lift_Ok in Hx3. eapply zupd_forall; [|exact Hst1|exact Hx3].
  intros iv. unfold Q. simpl. lia.
Qed.

End InitState.

(** ** Soundness of intra-L0 candidates *)

Lemma seedPosition_lookup fs_rev p k :
  seedPosition fs_rev p = Ok k -> reverse fs_rev !! k = Some p.
Proof.
  induction fs_rev as [|q rest IH]; simpl; intros H; [discriminate|].
  rewrite reverse_cons. destruct (Nat.eqb_spec q p) as [->|Hne].
  - injection H as <-. rewrite <- length_reverse. apply list_lookup_middle. reflexivity.
  - apply lookup_app_l_Some. auto.
Qed.

Lemma scored_elem {A} (g : nat -> A -> list intervalAndScore) (l : list A) si :
  si ∈ concat (imap g l) -> exists (i : nat) x, l !! i = Some x /\ si ∈ g i x.
Proof.
  intros H. apply list_elem_of_In, in_concat in H as (ys & Hys & Hsi).
  apply list_elem_of_In, list_elem_of_lookup in Hys as [i Hi].
  rewrite list_lookup_imap in Hi. destruct (l !! i) as [x|] eqn:Hx; [|discriminate].
  injection Hi as <-. exists i, x. split; [exact Hx|]. apply list_elem_of_In. exact Hsi.
Qed.

Section IntraSound.
Context `{E : Env}.
Variable s : L0Sublevels.
Hypothesis HW : wfEngine s.
Hypothesis Hcount : forall iv, iv ∈ orderedIntervals s -> 0 <= compactingFileCount iv.
Hypothesis Hseq : forall (q q' : nat) f f',
  (q <= q')%nat -> levelMetadata s !! q = Some f -> levelMetadata s !! q' = Some f' ->
  LargestSeqNum f <= LargestSeqNum f'.
Variable eus m : Z.
Hypothesis Hm : 1 <= m.

(** A file that an intra-L0 compaction may take. *)
Definition flushedIdle (p : fileRef) : Prop :=
  exists f, levelMetadata s !! p = Some f /\ LargestSeqNum f < eus /\ Compacting f = false.

Definition intraSound (c : L0CompactionFiles) : Prop :=
  (forall p, p ∈ lcf.Files c -> flushedIdle p) /\
  lcf.isIntraL0 c = true /\ lcf.earliestUnflushedSeqNum c = eus /\
  lcf.seedIntervalMaxLevel c = zlen (Levels s) - 1 /\
  lcf.seedIntervalMinLevel c <= lcf.seedIntervalMaxLevel c.

Lemma addFile_intraSound c p c' :
  intraSound c -> flushedIdle p -> addFile (levelMetadata s) c p = Ok c' -> intraSound c'.
Proof.
  intros (Hfiles & Hintra & Heus & Hmax & Hmin) Hp H.
  destruct (addFile_cases _ _ _ _ H) as (f & Hf & [[_ ->]|[_ (fi & _ & ->)]]).
  - repeat split; assumption.
  - repeat split; simpl; try assumption.
    intros q Hq. apply elem_of_app in Hq as [Hq|Hq]; [auto|].
    apply list_elem_of_singleton in Hq as ->. exact Hp.
Qed.

Lemma intraSeedLoop_result fs_rev :
  forall f sdr considered f' sdr' considered',
    intraSeedLoop (levelMetadata s) eus fs_rev f sdr considered = Ok (f', sdr', considered') ->
    (fs_rev = [] /\ f' = f /\ sdr' = sdr) \/
    (exists p g, f' = Some p /\ p ∈ fs_rev /\ levelMetadata s !! p = Some g /\
       (Compacting g = true \/ sdr' = 0 \/
        (LargestSeqNum g < eus /\ Compacting g = false) \/
        sdr' = sdr - zlen fs_rev)).
Proof.
  induction fs_rev as [|p rest IH]; intros f sdr considered f' sdr' considered' H; simpl in H.
  - left. injection H as <- <- <-. auto.
  - right. inv_bind H. apply lift_Ok in Hx.
    destruct (Compacting x) eqn:Hcomp.
    { injection H as <- <- <-. exists p, x. split; [reflexivity|]. split; [left|].
      split; [assumption|left; assumption]. }
    inv_bind H.
    destruct (Z.leb_spec eus (LargestSeqNum x)) as [Hge|Hlt].
    + destruct (Z.eqb_spec (sdr - 1) 0) as [H0|H0].
      * injection H as <- <- <-. exists p, x. split; [reflexivity|]. split; [left|].
        split; [assumption|right; left; assumption].
      * destruct (IH _ _ _ _ _ _ H) as [(-> & -> & ->)|(p' & g & -> & Hin & Hg & Hcases)].
        -- exists p, x. split; [reflexivity|]. split; [left|]. split; [assumption|].
           right. right. right. unfold zlen. simpl. lia.
        -- exists p', g. split; [reflexivity|]. split; [right; assumption|].
           split; [assumption|].
           destruct Hcases as [?|[?|[?|Hs]]]; auto.
           right. right. right. unfold zlen in *. simpl length. lia.
    + injection H as <- <- <-. exists p, x. split; [reflexivity|]. split; [left|].
      split; [assumption|right; right; left; split; assumption].
Qed.

Lemma intraLoop_sound fs_rev :
  forall c last last',
    (forall p, p ∈ fs_rev ->
       exists f, levelMetadata s !! p = Some f /\ LargestSeqNum f < eus) ->
    intraSound c ->
    (forall lc, last = Some lc -> intraSound lc) ->
    intraLoop s eus m fs_rev c last = Ok last' ->
    forall lc, last' = Some lc -> intraSound lc.
Proof.
  induction fs_rev as [|p2 rest IH]; intros c last last' Hfs Hc Hlast H; simpl in H.
  - injection H as <-. exact Hlast.
  - inv_bind H. apply lift_Ok in Hx.
    destruct (Compacting x) eqn:Hcomp; [injection H as <-; exact Hlast|].
    inv_bind H. inv_bind H. destruct x1 as [ok c3].
    destruct (Hfs p2 ltac:(left)) as (f2 & Hf2 & Hseq2).
    assert (f2 = x) by congruence. subst f2.
    destruct (W_file _ HW _ _ Hx) as (_ & _ & _ & _ & Hsl).
    assert (Hc1 : intraSound (stackOne c (subLevel x) (lcf.seedIntervalMaxLevel c))).
    { destruct Hc as (Hfiles & Hintra & Heus & Hmax & Hmin).
      repeat split; simpl; try assumption. lia. }
    assert (Hc2 : intraSound x0).
    { eapply addFile_intraSound; [exact Hc1| |exact Hx0]. exists x. auto. }
    assert (Hc3 : intraSound c3).
    { eapply (extendLevels_inv intraSound (levelMetadata s) eus); [|reflexivity|exact Hc2|exact Hx1].
      intros c0 p f c0' Hc0 Hp Hcp Hsp Hadd.
      eapply addFile_intraSound; [exact Hc0| |exact Hadd]. exists f. auto. }
    assert (Hrest : forall p, p ∈ rest ->
              exists f, levelMetadata s !! p = Some f /\ LargestSeqNum f < eus)
      by (intros q Hq; apply Hfs; right; exact Hq).
    destruct ok; simpl in H; [|injection H as <-; exact Hlast].
    destruct last as [lc0|].
    + destruct (growthCapReached lc0 c3 m); [injection H as <-; exact Hlast|].
      eapply (IH c3 (Some c3)); [exact Hrest|exact Hc3| |exact H].
      intros lc [= <-]. exact Hc3.
    + eapply (IH c3 (Some c3)); [exact Hrest|exact Hc3| |exact H].
      intros lc [= <-]. exact Hc3.
Qed.

Lemma remarkFiles_intraSound lc c :
  intraSound lc -> remarkFiles (levelMetadata s) lc = Ok c -> intraSound c.
Proof.
  intros Hlc H. apply remarkFiles_shape in H as (fi & ->). exact Hlc.
Qed.

Lemma intraL0CompactionUsingSeed_sound p (i : nat) iv c :
  orderedIntervals s !! i = Some iv ->
  flushedIdle p ->
  intraL0CompactionUsingSeed s p (Z.of_nat i) eus m = Ok (Some c) ->
  intraSound c.
Proof.
  intros Hiv Hp H. unfold intraL0CompactionUsingSeed in H.
  apply bind_Ok in H as (fp & Hfp & H). apply lift_Ok in Hfp.
  apply bind_Ok in H as (c1 & Hc1 & H).
  apply bind_Ok in H as (iv' & Hiv' & H). apply lift_Ok in Hiv'.
  rewrite zget_lookup, Hiv in Hiv'. injection Hiv' as <-.
  apply bind_Ok in H as (slIndex & Hpos & H).
  apply bind_Ok in H as (last & Hloop & H).
  apply bind_Ok in H as (kept & Hfin & H).
  destruct kept as [lc|]; [|discriminate].
  apply bind_Ok in H as ([ok c'] & Hrect & H). injection H as <-.
  apply seedPosition_lookup in Hpos. rewrite reverse_involutive in Hpos.
  destruct (W_iv _ HW _ _ Hiv) as (_ & _ & Hsorted & Hcov).
  destruct Hp as (fp' & Hfp' & Hseqp & Hcompp).
  assert (fp' = fp) by congruence. subst fp'.
  assert (Hc0 : intraSound c1).
  { eapply addFile_intraSound; [| |exact Hc1];
      [|exists fp; split; [assumption|split; assumption]].
    unfold intraSound. simpl.
    split; [intros q Hq; inversion Hq|].
    split; [reflexivity|]. split; [reflexivity|]. split; [reflexivity|].
    destruct (W_file _ HW _ _ Hfp) as (_ & _ & _ & _ & Hsl). lia. }
  assert (Hlast : forall lc0, last = Some lc0 -> intraSound lc0).
  { eapply (intraLoop_sound _ c1 None); [|exact Hc0|discriminate|exact Hloop].
    intros q Hq. rewrite elem_of_reverse in Hq. apply elem_of_take in Hq as (j & Hj & Hjlt).
    assert (Hqin : q ∈ files iv) by (eapply list_elem_of_lookup_2; eassumption).
    destruct (Hcov q Hqin) as (fq & Hfq & _). exists fq. split; [assumption|].
    assert (Hle : (q <= p)%nat).
    { destruct (decide (j = slIndex)) as [->|Hne]; [assert (q = p) by congruence; lia|].
      assert (Hjx : (j < slIndex)%nat) by lia.
      pose proof (StronglySorted_lookup lt _ j slIndex q p Hsorted Hjx Hj Hpos). lia. }
    pose proof (Hseq q p fq fp Hle Hfq Hfp). lia. }
  apply finishCandidate_Some in Hfin as (lc0 & -> & _ & Hre).
  assert (Hlc : intraSound lc)
    by (eapply remarkFiles_intraSound; [apply Hlast; reflexivity|exact Hre]).
  eapply (extendCandidateToRectangle_inv intraSound (levelMetadata s));
    [| |reflexivity|exact Hlc|exact Hrect].
  - intros c0 q f c0' Hc0' Hq Hcq Hsq Hadd.
    eapply addFile_intraSound; [exact Hc0'| |exact Hadd].
    destruct Hc0' as (_ & Hintra & Heus & _). rewrite Hintra, Heus in Hsq. simpl in Hsq.
    apply Z.leb_gt in Hsq. exists f. auto.
  - intros c0 Hc0'. exact Hc0'.
Qed.

Lemma pickIntraLoop_sound scored :
  forall considered c,
    (forall si, si ∈ scored ->
       exists (i : nat) iv, interval si = Z.of_nat i /\ orderedIntervals s !! i = Some iv /\
                            score si = fileCount iv - compactingFileCount iv) ->
    pickIntraLoop s eus m scored considered = Ok (Some c) ->
    intraSound c.
Proof.
  induction scored as [|si scored IH]; intros considered c Hscored H; simpl in H;
    [discriminate|].
  assert (Hrest : forall si0, si0 ∈ scored ->
            exists (i : nat) iv, interval si0 = Z.of_nat i /\ orderedIntervals s !! i = Some iv /\
                                 score si0 = fileCount iv - compactingFileCount iv)
    by (intros si0 Hin; apply Hscored; right; exact Hin).
  destruct (Hscored si ltac:(left)) as (i & iv & Hi & Hiv & Hscore).
  inv_bind H. apply lift_Ok in Hx. rewrite Hi, zget_lookup, Hiv in Hx. injection Hx as <-.
  inv_bind H. destruct x; [eauto|].
  inv_bind H. destruct x as [[f sdr] considered'].
  destruct (Z.ltb_spec sdr m) as [|Hsdr]; [eauto|].
  destruct f as [p|]; [|discriminate].
  inv_bind H. apply lift_Ok in Hx1.
  destruct (Compacting x) eqn:Hcomp; [eauto|].
  inv_bind H. destruct x0 as [c0|]; [|eauto].
  injection H as <-.
  destruct (W_iv _ HW _ _ Hiv) as (Hidx & Hfc & _ & _).
  rewrite Hidx in Hx2.
  eapply intraL0CompactionUsingSeed_sound; [exact Hiv| |exact Hx2].
  exists x. split; [assumption|]. split; [|assumption].
  destruct (intraSeedLoop_result _ _ _ _ _ _ _ Hx0)
    as [(_ & Hnone & _)|(p' & g & Hp' & Hin & Hg & Hcases)]; [discriminate|].
  injection Hp' as <-. assert (g = x) by congruence. subst g.
  pose proof (Hcount iv ltac:(eapply list_elem_of_lookup_2; eassumption)) as Hcfc.
  destruct Hcases as [?|[?|[[? _]|Hs]]]; [congruence|lia|assumption|].
  unfold zlen in *. rewrite length_reverse in Hs. lia.
Qed.

End IntraSound.

(** The L0 files are handed over ordered by sequence number. *)
Definition seqSorted (fs : list FileMetadata) : Prop :=
  forall (i j : nat) f g, (i <= j)%nat -> fs !! i = Some f -> fs !! j = Some g ->
                          LargestSeqNum f <= LargestSeqNum g.

Section IntraTheorem.
Context `{E : Env}.

Lemma scoreIntra_elem s m si :
  si ∈ scoreIntra s m ->
  exists (i : nat) iv, interval si = Z.of_nat i /\ orderedIntervals s !! i = Some iv /\
                       score si = fileCount iv - compactingFileCount iv /\ m <= score si.
Proof.
  intros H. apply scored_elem in H as (i & iv & Hiv & Hsi).
  cbv zeta in Hsi.
  destruct (Z.ltb_spec (fileCount iv - compactingFileCount iv) m); [inversion Hsi|].
  apply list_elem_of_singleton in Hsi as ->. exists i, iv. simpl. auto.
Qed.

(** Where the intra-L0 soundness holds.  On an engine built from files
    ordered by sequence number, after [InitCompactingFileInfo], and for a
    minimum depth of at least 1: every file of a candidate that
    [PickIntraL0Compaction] returns has
    [largestSeqNum < earliestUnflushedSeqNum] and is not compacting, and
    [seedIntervalMinLevel <= seedIntervalMaxLevel]. *)
Theorem intra_candidate_sound (fs : list FileMetadata) (flushSplitMaxBytes : Z)
    (s0 : L0Sublevels) (inProgress : list L0Compaction) (s : L0Sublevels)
    (earliestUnflushed minCompactionDepth : Z) (c : L0CompactionFiles) :
  (forall f0, f0 ∈ fs -> wfFile f0) ->
  seqSorted fs ->
  NewL0Sublevels fs flushSplitMaxBytes = Ok s0 ->
  InitCompactingFileInfo s0 inProgress = Ok s ->
  1 <= minCompactionDepth ->
  PickIntraL0Compaction s earliestUnflushed minCompactionDepth = Ok (Some c) ->
  (forall p, p ∈ lcf.Files c ->
     exists f, levelMetadata s !! p = Some f /\
               LargestSeqNum f < earliestUnflushed /\ Compacting f = false) /\
  lcf.seedIntervalMinLevel c <= lcf.seedIntervalMaxLevel c.
Proof.
  intros Hwf Hsorted Hnew Hinit Hm Hpick.
  pose proof (InitCompactingFileInfo_structure _ _ _ Hinit) as Hstruct.
  destruct (structure_fields _ _ Hstruct) as (_ & _ & Harena).
  assert (HW : wfEngine s).
  { eapply wfEngine_structure; [exact Hstruct|].
    eapply NewL0Sublevels_wfEngine; eassumption. }
  assert (Hcount : forall iv, iv ∈ orderedIntervals s -> 0 <= compactingFileCount iv)
    by (eapply InitCompactingFileInfo_counts; eassumption).
  assert (Hseq : forall (q q' : nat) f f',
             (q <= q')%nat -> levelMetadata s !! q = Some f ->
             levelMetadata s !! q' = Some f' -> LargestSeqNum f <= LargestSeqNum f').
  { intros q q' f f' Hq Hf Hf'. rewrite Harena in Hf, Hf'.
    destruct (NewL0Sublevels_seqnums _ _ _ _ _ Hwf Hnew Hf) as (f0 & Hf0 & -> & _).
    destruct (NewL0Sublevels_seqnums _ _ _ _ _ Hwf Hnew Hf') as (f0' & Hf0' & -> & _).
    eapply Hsorted; eassumption. }
  assert (Hsound : intraSound s earliestUnflushed c).
  { unfold PickIntraL0Compaction in Hpick.
    eapply (pickIntraLoop_sound s HW Hcount Hseq earliestUnflushed minCompactionDepth Hm);
      [|exact Hpick].
    intros si Hsi.
    rewrite (go_sort_perm intervalAndScore byDecreasingScore) in Hsi.
    apply scoreIntra_elem in Hsi as (i & iv & ? & ? & ? & _). exists i, iv. auto. }
  destruct Hsound as (Hfiles & _ & _ & _ & Hlevels). split; [exact Hfiles|exact Hlevels].
Qed.

End IntraTheorem.

Ltac seq_sorted :=
  let i := fresh "i" in
  let j := fresh "j" in
  let Hi := fresh "Hi" in
  let Hj := fresh "Hj" in
  intros i j ? ? ? Hi Hj;
  repeat (destruct i as [|i]; [|try discriminate Hi]);
  repeat (destruct j as [|j]; [|try discriminate Hj]);
  try lia; simpl in Hi, Hj; try discriminate;
  injection Hi as <-; injection Hj as <-; simpl; lia.

Definition tallStackFiles : list FileMetadata :=
  [l0file 1 "a" "d" 100 1 false false;
   l0file 2 "a" "d" 100 2 false false;
   l0file 3 "a" "d" 100 3 false false].

Lemma intra_candidate_sound_witness :
  exists c, PickIntraL0Compaction (E := bytesEnv) tallStack 15 2 = Ok (Some c) /\
            lcf.seedIntervalMinLevel c <= lcf.seedIntervalMaxLevel c.
Proof.
  eexists. split; [vm_compute; reflexivity|].
  apply (intra_candidate_sound (E := bytesEnv) tallStackFiles 1048576
           (orEmpty (NewL0Sublevels (E := bytesEnv) tallStackFiles 1048576)) []
           tallStack 15 2).
  - wf_files.
  - seq_sorted.
  - vm_compute. reflexivity.
  - vm_compute. reflexivity.
  - lia.
  - vm_compute. reflexivity.
Defined.

(** C2, at the failing input.  With one file of largest sequence number 20,
    [PickIntraL0Compaction] with earliest unflushed sequence number 15 and
    minimum depth 0 returns a candidate that holds the file: the seed search
    stops at the unflushed file when its depth budget reaches 0, the budget
    test [0 < 0] lets it through, and the builder adds the seed without
    looking at its sequence number. *)
Lemma intra_candidate_holds_unflushed_file :
  exists c f,
    builtEngine [l0file 1 "a" "d" 100 20 false false] 1048576 = Ok oneUnflushedFile /\
    PickIntraL0Compaction (E := bytesEnv) oneUnflushedFile 15 0 = Ok (Some c) /\
    lcf.Files c = [0%nat] /\
    levelMetadata oneUnflushedFile !! 0%nat = Some f /\
    15 <= LargestSeqNum f.
Proof.
  eexists. exists (setSpan (setL0Index 0 (l0file 1 "a" "d" 100 20 false false)) 0 0 0).
  split; [vm_compute; reflexivity|].
  split; [vm_compute; reflexivity|].
  split; [vm_compute; reflexivity|].
  split; [vm_compute; reflexivity|].
  simpl. lia.
Qed.

(** ** The pickers always return

    On a well-formed engine no slice index of the pickers is out of range
    and no file reference dangles, so both return a result. *)

Lemma foldM_total {A S} (P : S -> Prop) (f : S -> A -> result S) (l : list A) :
  (forall s a, a ∈ l -> P s -> exists s', f s a = Ok s' /\ P s') ->
  forall s, P s -> exists s', foldM f l s = Ok s' /\ P s'.
Proof.
  induction l as [|a l IH]; intros Hstep s Hs; simpl.
  - eauto.
  - destruct (Hstep s a ltac:(left) Hs) as (s1 & Hf & H1). rewrite Hf. simpl.
    apply IH; [|exact H1]. intros s0 a0 Ha0. apply Hstep. right. exact Ha0.
Qed.

Lemma zrange_bounds a b : Forall (fun i => a <= i <= b) (zrange a b).
Proof.
  apply Forall_forall. intros i Hi. unfold zrange in Hi.
  apply elem_of_seqZ in Hi. lia.
Qed.

Lemma markBit_total (b : bitSet) i :
  0 <= i < zlen b -> exists b', markBit b i = Ok b' /\ length b' = length b.
Proof.
  intros Hi. unfold markBit, zupd.
  destruct (zget_in_range b i Hi) as [x Hx]. rewrite Hx. simpl.
  eexists. split; [reflexivity|]. apply length_insert.
Qed.


Section Totality.
Context `{E : Env}.
Variable s : L0Sublevels.
Hypothesis HW : wfEngine s.

Definition validRef (p : fileRef) : Prop := (p < length (levelMetadata s))%nat.

(** What a candidate under construction keeps. *)
Record candOk (c : L0CompactionFiles) : Prop := {
  K_included : length (lcf.FilesIncluded c) = length (levelMetadata s);
  K_files : Forall validRef (lcf.Files c);
  K_min : 0 <= lcf.minIntervalIndex c;
  K_span : lcf.minIntervalIndex c <= lcf.maxIntervalIndex c;
  K_max : lcf.maxIntervalIndex c + 1 < zlen (orderedIntervals s);
  K_level : 0 <= lcf.seedIntervalMinLevel c < zlen (Levels s)
}.

Lemma deref_total p :
  validRef p -> exists f, deref (levelMetadata s) p = Ok f /\ levelMetadata s !! p = Some f.
Proof.
  intros Hp. destruct (lookup_lt_is_Some_2 _ _ Hp) as [f Hf].
  exists f. unfold deref. rewrite Hf. auto.
Qed.

Lemma level_files_valid sl fs :
  zget (Levels s) sl = Some fs -> Forall validRef fs.
Proof.
  intros H. apply zget_Some in H as [_ H]. apply Forall_forall. intros q Hq.
  eapply (W_level _ HW); eassumption.
Qed.


Lemma addFile_total c p :
  candOk c -> validRef p ->
  exists c', addFile (levelMetadata s) c p = Ok c' /\ candOk c'.
Proof.
  intros Hc Hp. destruct (deref_total p Hp) as (f & Hd & Hf).
  destruct (W_file _ HW _ _ Hf) as (Hidx & Hmin & Hle & Hmax & _).
  unfold addFile. rewrite Hd. cbn [bind].
  assert (Hr : 0 <= l0Index f < zlen (lcf.FilesIncluded c)).
  { unfold zlen. rewrite (K_included _ Hc), Hidx. unfold validRef in Hp. lia. }
  destruct (zget_in_range _ _ Hr) as [included Hinc]. rewrite Hinc. cbn [bind lift].
  destruct included; [eauto|].
  destruct (markBit_total _ _ Hr) as (fi & Hfi & Hlen). rewrite Hfi. cbn [bind].
  eexists. split; [reflexivity|]. destruct Hc. constructor; simpl.
  - congruence.
  - apply Forall_app. split; [assumption|]. constructor; [exact Hp|constructor].
  - destruct (minIntervalIndex f <? lcf.minIntervalIndex c); lia.
  - destruct (Z.ltb_spec (minIntervalIndex f) (lcf.minIntervalIndex c));
      destruct (Z.ltb_spec (lcf.maxIntervalIndex c) (maxIntervalIndex f)); lia.
  - destruct (lcf.maxIntervalIndex c <? maxIntervalIndex f); lia.
  - assumption.
Qed.




Lemma stackOne_candOk c minLevel maxLevel :
  candOk c -> 0 <= minLevel < zlen (Levels s) -> candOk (stackOne c minLevel maxLevel).
Proof. intros [] Hl. constructor; simpl; assumption. Qed.




Lemma remarkFiles_total c :
  candOk c -> exists c', remarkFiles (levelMetadata s) c = Ok c' /\ candOk c'.
Proof.
  intros Hc. unfold remarkFiles.
  destruct (foldM_total (fun b : bitSet => length b = length (levelMetadata s))
              (fun b p => let* f := deref (levelMetadata s) p in markBit b (l0Index f))
              (lcf.Files c)) with (s := clearAllBits (lcf.FilesIncluded c))
    as (fi & Hfi & Hlen).
  - intros b p Hp Hb.
    assert (Hv : validRef p) by (eapply Forall_forall; [apply (K_files _ Hc)|exact Hp]).
    destruct (deref_total p Hv) as (f & Hd & Hf). rewrite Hd. cbn [bind].
    destruct (W_file _ HW _ _ Hf) as (Hidx & _).
    destruct (markBit_total b (l0Index f)) as (b' & Hb' & Hlen').
    { unfold zlen. rewrite Hb, Hidx. unfold validRef in Hv. lia. }
    exists b'. split; [exact Hb'|congruence].
  - unfold clearAllBits. rewrite length_map. apply (K_included _ Hc).
  - rewrite Hfi. cbn [bind]. eexists. split; [reflexivity|].
    destruct Hc. constructor; simpl; assumption.
Qed.


Lemma newBitSet_length n : 0 <= n -> zlen (newBitSet n) = n.
Proof. intros Hn. unfold newBitSet, zlen. rewrite length_replicate. lia. Qed.

Lemma seed_candOk p f minLevel maxLevel intervalIndex isIntra earliestUnflushed :
  levelMetadata s !! p = Some f -> 0 <= minLevel < zlen (Levels s) ->
  candOk (lcf.mk [] (newBitSet (zlen (levelMetadata s))) 0 minLevel maxLevel intervalIndex 0
            (minIntervalIndex f) (maxIntervalIndex f) isIntra earliestUnflushed 0 0 []).
Proof.
  intros Hf Hl. destruct (W_file _ HW _ _ Hf) as (_ & Hmin & Hle & Hmax & _).
  constructor; simpl; try assumption; try lia.
  - unfold newBitSet, zlen. rewrite length_replicate. lia.
  - constructor.
Qed.







(** *** Intra-L0 *)




(** *** The rectangle *)

Definition scanOk (fs : list fileRef) (k : Z) (st : Z * Z * Z * Z) : Prop :=
  let '(_, _, firstIndex, lastIndex) := st in
  (firstIndex = -1 \/ 0 <= firstIndex <= lastIndex) /\ lastIndex < k /\ lastIndex < zlen fs.

Lemma scanOk_end fs k st : scanOk fs k st -> scanOk fs (zlen fs) st.
Proof. destruct st as [[[mn mx] firstIndex] lastIndex]. simpl. tauto. Qed.

Lemma rectScan_total fs :
  Forall validRef fs ->
  forall (n k : nat) st,
    (length fs - k <= n)%nat -> scanOk fs (Z.of_nat k) st ->
    exists st', rectScan (levelMetadata s) (drop k (indexed fs)) st = Ok st' /\
                scanOk fs (zlen fs) st'.
Proof.
  intros Hfs. induction n as [|n IH]; intros k st Hn Hok.
  - rewrite drop_ge by (unfold indexed; rewrite length_imap; lia).
    exists st. split; [reflexivity|]. eapply scanOk_end. exact Hok.
  - destruct (fs !! k) as [p|] eqn:Hp.
    2:{ apply lookup_ge_None in Hp.
        rewrite drop_ge by (unfold indexed; rewrite length_imap; lia).
        exists st. split; [reflexivity|]. eapply scanOk_end. exact Hok. }
    rewrite (drop_S (indexed fs) (Z.of_nat k, p) k)
      by (unfold indexed; rewrite list_lookup_imap, Hp; reflexivity).
    destruct st as [[[mn mx] firstIndex] lastIndex]. cbn [rectScan].
    destruct (deref_total p) as (f & Hd & Hf).
    { eapply Forall_lookup_1; eassumption. }
    rewrite Hd. cbn [bind].
    assert (Hk : Z.of_nat k < zlen fs).
    { apply lookup_lt_Some in Hp. unfold zlen. lia. }
    destruct (mx <? minIntervalIndex f).
    { eexists. split; [reflexivity|]. eapply scanOk_end. exact Hok. }
    simpl in Hok. destruct Hok as (Hfirst & Hlast & Hlast').
    destruct (_ || _).
    + apply IH; [lia|]. simpl. split; [exact Hfirst|]. lia.
    + apply IH; [lia|]. simpl.
      destruct (Z.eqb_spec firstIndex (-1)); split; try lia.
Qed.

(** The file at position [j] of a sublevel is not compacting. *)
Definition idle (fs : list fileRef) (j : Z) : Prop :=
  exists p f, zget fs j = Some p /\ levelMetadata s !! p = Some f /\ Compacting f = false.

Definition runOk (fs : list fileRef) (firstIndex i : Z) (r : runState) : Prop :=
  (nonCompactingFirst r = -1 \/
   (firstIndex <= nonCompactingFirst r < i /\
    forall j, nonCompactingFirst r <= j < i -> idle fs j)) /\
  (candidateNonCompactingFirst r = -1 \/
   (firstIndex <= candidateNonCompactingFirst r /\
    candidateNonCompactingFirst r <= candidateNonCompactingLast r /\
    candidateNonCompactingLast r < i /\
    forall j, candidateNonCompactingFirst r <= j <= candidateNonCompactingLast r ->
              idle fs j)).

Lemma runStep_total fs included firstIndex i r :
  Forall validRef fs -> length included = length (levelMetadata s) ->
  0 <= firstIndex <= i -> i < zlen fs -> runOk fs firstIndex i r ->
  exists r', runStep (levelMetadata s) included fs r i = Ok r' /\
             runOk fs firstIndex (i + 1) r'.
Proof.
  intros Hfs Hlen Hfirst Hi (Hcur & Hcand). unfold runStep.
  destruct (zget_in_range fs i ltac:(lia)) as [p Hp]. rewrite Hp. cbn [bind lift].
  destruct (deref_total p) as (f & Hd & Hf).
  { apply zget_Some in Hp as [_ Hp]. eapply Forall_lookup_1; eassumption. }
  rewrite Hd. cbn [bind].
  assert (Hcand' : candidateNonCompactingFirst r = -1 \/
            (firstIndex <= candidateNonCompactingFirst r /\
             candidateNonCompactingFirst r <= candidateNonCompactingLast r /\
             candidateNonCompactingLast r < i + 1 /\
             forall j, candidateNonCompactingFirst r <= j <= candidateNonCompactingLast r ->
                       idle fs j)).
  { destruct Hcand as [Hc|(H1 & H2 & H3 & H4)]; [left; exact Hc|right].
    split; [exact H1|]. split; [exact H2|]. split; [lia|exact H4]. }
  destruct (Compacting f) eqn:Hcomp.
  - destruct (Z.eqb_spec (nonCompactingFirst r) (-1)) as [Hnone|Hsome]; cbn [negb andb].
    { eexists. split; [reflexivity|]. split; [left; reflexivity|exact Hcand']. }
    destruct (takesRun r (i - 1)).
    + eexists. split; [reflexivity|]. split; [left; reflexivity|]. right. simpl.
      destruct Hcur as [Hc|(H1 & H2)]; [contradiction|].
      split; [lia|]. split; [lia|]. split; [lia|]. intros j Hj. apply H2. lia.
    + eexists. split; [reflexivity|]. split; [left; reflexivity|exact Hcand'].
  - destruct (W_file _ HW _ _ Hf) as (Hidx & _).
    destruct (zget_in_range included (l0Index f)) as [picked Hpicked].
    { rewrite Hidx. unfold zlen. rewrite Hlen. apply lookup_lt_Some in Hf. lia. }
    rewrite Hpicked. cbn [bind lift].
    eexists. split; [reflexivity|]. split; [|exact Hcand']. right. simpl.
    assert (Hidle : idle fs i) by (exists p, f; auto).
    destruct (Z.eqb_spec (nonCompactingFirst r) (-1)) as [Hnone|Hsome].
    + split; [lia|]. intros j Hj. replace j with i by lia. exact Hidle.
    + destruct Hcur as [Hc|(H1 & H2)]; [contradiction|].
      split; [lia|]. intros j Hj. destruct (Z.eq_dec j i) as [->|Hne]; [exact Hidle|].
      apply H2. lia.
Qed.

Lemma closeRun_ok fs firstIndex lastIndex r :
  runOk fs firstIndex (lastIndex + 1) r ->
  candidateNonCompactingFirst (closeRun r lastIndex) = -1 \/
  (firstIndex <= candidateNonCompactingFirst (closeRun r lastIndex) /\
   candidateNonCompactingFirst (closeRun r lastIndex)
     <= candidateNonCompactingLast (closeRun r lastIndex) /\
   candidateNonCompactingLast (closeRun r lastIndex) <= lastIndex /\
   forall j, candidateNonCompactingFirst (closeRun r lastIndex) <= j
               <= candidateNonCompactingLast (closeRun r lastIndex) -> idle fs j).
Proof.
  intros (Hcur & Hcand). unfold closeRun.
  destruct (Z.eqb_spec (nonCompactingFirst r) (-1)) as [Hnone|Hsome]; cbn [negb andb].
  - destruct Hcand as [Hc|(H1 & H2 & H3 & H4)]; [left; exact Hc|right].
    split; [exact H1|]. split; [exact H2|]. split; [lia|exact H4].
  - destruct (takesRun r lastIndex).
    + right. simpl. destruct Hcur as [Hc|(H1 & H2)]; [contradiction|].
      split; [lia|]. split; [lia|]. split; [lia|]. intros j Hj. apply H2. lia.
    + destruct Hcand as [Hc|(H1 & H2 & H3 & H4)]; [left; exact Hc|right].
      split; [exact H1|]. split; [exact H2|]. split; [lia|exact H4].
Qed.

Lemma rectAdd_total fs addedCount c idx :
  candOk c -> idle fs idx ->
  exists st', rectAdd (levelMetadata s) fs (addedCount, c) idx = Ok st' /\ candOk (snd st').
Proof.
  intros Hc (p & f & Hp & Hf & Hcomp). unfold rectAdd.
  rewrite Hp. cbn [bind lift]. unfold deref at 1. rewrite Hf. cbn [bind lift].
  rewrite Hcomp.
  destruct (_ && _); [eexists; split; [reflexivity|exact Hc]|].
  destruct (W_file _ HW _ _ Hf) as (Hidx & _).
  assert (Hv : validRef p) by (eapply lookup_lt_Some; exact Hf).
  destruct (zget_in_range (lcf.FilesIncluded c) (l0Index f)) as [included Hinc].
  { rewrite Hidx. unfold zlen. rewrite (K_included _ Hc). unfold validRef in Hv. lia. }
  rewrite Hinc. cbn [bind lift].
  destruct included; [eexists; split; [reflexivity|exact Hc]|].
  destruct (addFile_total c p Hc Hv) as (c' & Hadd & Hc'). rewrite Hadd. cbn [bind].
  eexists. split; [reflexivity|exact Hc'].
Qed.

Lemma neighbour_total fs j (g : FileMetadata -> Z) :
  Forall validRef fs -> 0 <= j < zlen fs ->
  exists v, (let* p := lift (zget fs j) in
             let* f := deref (levelMetadata s) p in Ok (g f)) = Ok v.
Proof.
  intros Hfs Hj. destruct (zget_in_range fs j Hj) as [p Hp]. rewrite Hp. cbn [bind lift].
  destruct (deref_total p) as (f & Hd & _).
  { apply zget_Some in Hp as [_ Hp]. eapply Forall_lookup_1; eassumption. }
  rewrite Hd. cbn [bind]. eauto.
Qed.






End Totality.

(** ** InitCompactingFileInfo marks the intervals under base compactions *)


Section InitMarks.
Context `{E : Env}.

Definition markedAt (ivs : list fileInterval) (i : nat) : Prop :=
  exists iv, ivs !! i = Some iv /\ isBaseCompacting iv = true.

Definition marksKept (ivs ivs' : list fileInterval) : Prop :=
  forall i, markedAt ivs i -> markedAt ivs' i.

Lemma zupd_marksKept ivs j g ivs' :
  (forall iv, isBaseCompacting iv = true -> isBaseCompacting (g iv) = true) ->
  zupd ivs j g = Some ivs' -> marksKept ivs ivs'.
Proof.
  intros Hg H i (iv & Hiv & Hibc). apply zupd_Some in H as (x & _ & Hx & ->).
  destruct (Nat.eq_dec i (Z.to_nat j)) as [->|Hne].
  - exists (g x). split; [apply list_lookup_insert_eq; eapply lookup_lt_Some; exact Hx|].
    apply Hg. congruence.
  - exists iv. split; [|exact Hibc]. rewrite list_lookup_insert_ne by congruence. exact Hiv.
Qed.

Lemma zupd_marks ivs j g ivs' :
  (forall iv, isBaseCompacting (g iv) = true) ->
  zupd ivs j g = Some ivs' -> markedAt ivs' (Z.to_nat j).
Proof.
  intros Hg H. apply zupd_Some in H as (x & _ & Hx & ->).
  exists (g x). split; [apply list_lookup_insert_eq; eapply lookup_lt_Some; exact Hx|].
  apply Hg.
Qed.








End InitMarks.

(** ** The pickers report no error *)

Section PickersReturn.
Context `{E : Env}.








End PickersReturn.

(** An Lbase file over [a, z] that is compacting. *)
Definition lbaseCompactingFile : FileMetadata := l0file 9 "a" "z" 100 0 true false.


Definition pickedOrNone (r : result (option L0CompactionFiles))
    : option L0CompactionFiles :=
  match r with Ok c => c | _ => None end.

(** The Lbase conflict check at work: the three stacked files make a base
    compaction when the Lbase file under them is idle, and none when it is
    compacting. *)
Example lbase_conflict_gives_no_candidate :
  PickBaseCompaction (E := bytesEnv) tallStack 1 [lbaseCompactingFile] = Ok None /\
  option_map lcf.Files
    (pickedOrNone (PickBaseCompaction (E := bytesEnv) tallStack 1
                     [l0file 9 "a" "z" 100 0 false false]))
  = Some [0%nat; 1%nat; 2%nat].
Proof. split; vm_compute; reflexivity. Qed.


(** * Further properties of the engine *)

(** ** Interval keys *)

Section KeyOrderFacts.
Context `{E : Env}.

(** X1.  [intervalKeyCompare] is a total preorder on interval keys that
    refines the user-key order: any two keys are comparable, the order is
    transitive, swapping the arguments swaps the sign, two keys compare
    equal exactly when their user keys compare equal and their [isLargest]
    flags agree, and at one user key the start bound sorts before the end
    bound. *)
Theorem intervalKeyCompare_total_preorder (a b c : intervalKey) :
  (intervalKeyCompare a b <= 0 \/ intervalKeyCompare b a <= 0) /\
  (intervalKeyCompare a b <= 0 -> intervalKeyCompare b c <= 0 ->
   intervalKeyCompare a c <= 0) /\
  (intervalKeyCompare a b < 0 <-> 0 < intervalKeyCompare b a) /\
  (intervalKeyCompare a b = 0 <-> cmp (key a) (key b) = 0 /\ isLargest a = isLargest b) /\
  intervalKeyCompare (mkIntervalKey (key a) false) (mkIntervalKey (key a) true) < 0.
Proof.
  split.
  { destruct (intervalKeyCompare_total a b) as [H|H]; [left; exact H|right; lia]. }
  split; [apply intervalKeyCompare_trans|].
  split; [symmetry; apply intervalKeyCompare_gt|].
  split; [apply intervalKeyCompare_eq|].
  apply intervalKeyCompare_lt. right. simpl. split; [apply cmp_refl|auto].
Qed.

(** X2.  [sortAndDedup] returns the keys strictly increasing under
    [intervalKeyCompare]; every input key has an equal key in the result,
    every key of the result is an input key, and the result is empty only
    for empty input. *)
Theorem sortAndDedup_strictly_increasing (keys : list intervalKey) :
  StronglySorted iklt (sortAndDedup keys) /\
  (forall x, x ∈ keys ->
     exists y, y ∈ sortAndDedup keys /\ intervalKeyCompare x y = 0) /\
  (forall y, y ∈ sortAndDedup keys -> y ∈ keys) /\
  (sortAndDedup keys = [] <-> keys = []).
Proof.
  destruct (sortAndDedup_spec keys) as (Hsorted & Hcover).
  split; [exact Hsorted|]. split; [exact Hcover|].
  pose proof (go_sort_keys_sorted keys) as Hs.
  pose proof (go_sort_perm intervalKey (fun a b => intervalKeyCompare a b <? 0) keys) as Hp.
  unfold sortAndDedup in *.
  destruct (go_sort (fun a b => intervalKeyCompare a b <? 0) keys) as [|k0 rest].
  - apply Permutation_nil in Hp. subst keys.
    split; [intros y Hy; inversion Hy|split; reflexivity].
  - split.
    + destruct (dedup_loop_spec k0 rest Hs) as (_ & _ & Hsub).
      intros y Hy. rewrite <- Hp. apply elem_of_cons in Hy as [->|Hy]; [left|right; auto].
    + split; [discriminate|]. intros ->. apply Permutation_sym, Permutation_nil in Hp.
      discriminate.
Qed.

(** X3.  [insertIntoSubLevel] puts the file behind every file of the
    sublevel that does not start after it and before every file that does:
    a sublevel ordered by [minIntervalIndex] stays ordered, and no file is
    lost or doubled. *)
Theorem insertIntoSubLevel_sorted_insert (arena : list FileMetadata)
    (fs : list fileRef) (p : fileRef) (f : FileMetadata) :
  (forall q, q ∈ fs -> is_Some (arena !! q)) ->
  (forall (i j : nat) q q' g g',
     (i <= j)%nat -> fs !! i = Some q -> fs !! j = Some q' ->
     arena !! q = Some g -> arena !! q' = Some g' ->
     minIntervalIndex g <= minIntervalIndex g') ->
  exists l1 l2,
    insertIntoSubLevel arena fs p f = l1 ++ p :: l2 /\ fs = l1 ++ l2 /\
    (forall q g, q ∈ l1 -> arena !! q = Some g ->
                 minIntervalIndex g <= minIntervalIndex f) /\
    (forall q g, q ∈ l2 -> arena !! q = Some g ->
                 minIntervalIndex f < minIntervalIndex g).
Proof.
  intros Hsome Hsorted. unfold insertIntoSubLevel.
  set (pred := fun q => match arena !! q with
                        | Some g => minIntervalIndex f <? minIntervalIndex g
                        | None => true
                        end).
  destruct (searchIn_spec fs pred) as (Hrange & Hbefore & Hafter).
  { intros i j q q' Hij Hq Hq' Hpq. unfold pred in *.
    destruct (Hsome q ltac:(eapply list_elem_of_lookup_2; exact Hq)) as [g Hg].
    destruct (arena !! q') as [g'|] eqn:Hg'; [|reflexivity].
    rewrite Hg in Hpq. pose proof (Hsorted i j q q' g g' Hij Hq Hq' Hg Hg').
    apply Z.ltb_lt in Hpq. apply Z.ltb_lt. lia. }
  exists (take (Z.to_nat (searchIn fs pred)) fs), (drop (Z.to_nat (searchIn fs pred)) fs).
  split; [reflexivity|]. split; [symmetry; apply take_drop|]. split.
  - intros q g Hq Hg. apply list_elem_of_lookup in Hq as [i Hi].
    apply lookup_take_Some in Hi as [Hi Hlt].
    pose proof (Hbefore i q Hi ltac:(lia)) as Hp. unfold pred in Hp. rewrite Hg in Hp.
    apply Z.ltb_ge in Hp. exact Hp.
  - intros q g Hq Hg. apply list_elem_of_lookup in Hq as [i Hi].
    rewrite lookup_drop in Hi.
    pose proof (Hafter _ q Hi ltac:(lia)) as Hp. unfold pred in Hp. rewrite Hg in Hp.
    apply Z.ltb_lt in Hp. exact Hp.
Qed.

End KeyOrderFacts.

(** ** Bit sets *)

(** X4.  [markBits b start end] on a range inside the set (or an empty
    range) sets the bits of [start, end) and leaves every other bit and the
    length as they were. *)
Theorem markBits_sets_range (b : bitSet) (start end_ : Z) :
  (start < end_ -> 0 <= start /\ end_ <= zlen b) ->
  exists b', markBits b start end_ = Ok b' /\ length b' = length b /\
    forall i, zget b' i = if (start <=? i) && (i <? end_) then zget (map (fun _ => true) b) i
                          else zget b i.
Proof.
  intros Hrange. unfold markBits.
  destruct (Z.lt_ge_cases start end_) as [Hlt|Hge].
  2:{ rewrite zrange_nil by lia. exists b. split; [reflexivity|]. split; [reflexivity|].
      intros i. destruct (Z.leb_spec start i); destruct (Z.ltb_spec i end_);
        try reflexivity. lia. }
  destruct (Hrange Hlt) as [H0 H1].
  destruct (foldM_zrange_ok
              (fun k b' => length b' = length b /\
                 forall i, zget b' i = if (start <=? i) && (i <? k)
                                       then zget (map (fun _ => true) b) i else zget b i)
              markBit start (end_ - 1) b) as (b' & Hb' & Hlen & Hbits); [lia| |  |].
  - intros k b0 Hk (Hlen0 & Hbits0). unfold markBit, zupd.
    destruct (zget_in_range b0 k) as [x Hx]; [unfold zlen in *; lia|].
    rewrite Hx. simpl. eexists. split; [reflexivity|].
    split; [rewrite length_insert; exact Hlen0|].
    intros i. unfold zget at 1. destruct (Z.leb_spec 0 i) as [Hi|Hi].
    + destruct (Z.eq_dec i k) as [->|Hne].
      * rewrite list_lookup_insert_eq by (unfold zlen in *; lia).
        destruct (Z.leb_spec start k); [|lia]. destruct (Z.ltb_spec k (k + 1)); [|lia].
        simpl. unfold zget. destruct (Z.leb_spec 0 k); [|lia].
        rewrite list_lookup_fmap.
        destruct (lookup_lt_is_Some_2 b (Z.to_nat k)) as [y Hy]; [unfold zlen in *; lia|].
        rewrite Hy. reflexivity.
      * rewrite list_lookup_insert_ne by lia.
        pose proof (Hbits0 i) as Hi0. unfold zget at 1 in Hi0.
        destruct (Z.leb_spec 0 i); [|lia]. rewrite Hi0.
        destruct (Z.leb_spec start i); destruct (Z.ltb_spec i k);
          destruct (Z.ltb_spec i (k + 1)); simpl; try reflexivity; lia.
    + pose proof (Hbits0 i) as Hi0. unfold zget at 1 in Hi0.
      destruct (Z.leb_spec 0 i); [lia|]. rewrite Hi0.
      destruct (Z.leb_spec start i); destruct (Z.ltb_spec i k);
        destruct (Z.ltb_spec i (k + 1)); simpl; try reflexivity; lia.
  - split; [reflexivity|]. intros i.
    destruct (Z.leb_spec start i); destruct (Z.ltb_spec i start); simpl; try reflexivity. lia.
  - exists b'. split; [exact Hb'|]. split; [exact Hlen|].
    intros i. rewrite Hbits. replace (end_ - 1 + 1) with end_ by lia. reflexivity.
Qed.

(** X5.  [markBits] over a non-empty range that leaves the set panics with
    an index out of range. *)
Theorem markBits_out_of_range (b : bitSet) (start end_ : Z) :
  start < end_ -> start < 0 \/ zlen b < end_ -> markBits b start end_ = Panic.
Proof.
  intros Hlt Hout. unfold markBits.
  assert (Hgen : forall (n : nat) a b0,
            Z.of_nat n = end_ - a -> a < end_ -> length b0 = length b ->
            a < 0 \/ zlen b < end_ -> foldM markBit (zrange a (end_ - 1)) b0 = Panic).
  { induction n as [|n IH]; intros a b0 Hn Ha Hlen Ho; [lia|].
    rewrite zrange_cons by lia. simpl. unfold markBit at 1, zupd.
    destruct (zget b0 a) as [x|] eqn:Hx; [|reflexivity]. simpl.
    apply zget_range in Hx.
    apply IH; [lia|unfold zlen in *; lia|rewrite length_insert; exact Hlen|].
    right. unfold zlen in *. lia. }
  apply (Hgen (Z.to_nat (end_ - start))); [lia|exact Hlt|reflexivity|exact Hout].
Qed.

Definition spannedFile (num : Z) (mn mx sl : Z) : FileMetadata :=
  setSpan (l0file num "a" "b" 10 num false false) mn mx sl.

Lemma insertIntoSubLevel_sorted_insert_witness :
  exists l1 l2,
    insertIntoSubLevel [spannedFile 1 0 1 0; spannedFile 2 4 5 0] [0%nat; 1%nat] 2%nat
      (spannedFile 3 2 3 0) = l1 ++ 2%nat :: l2 /\
    [0%nat; 1%nat] = l1 ++ l2 /\
    (forall q g, q ∈ l1 -> [spannedFile 1 0 1 0; spannedFile 2 4 5 0] !! q = Some g ->
                 minIntervalIndex g <= minIntervalIndex (spannedFile 3 2 3 0)) /\
    (forall q g, q ∈ l2 -> [spannedFile 1 0 1 0; spannedFile 2 4 5 0] !! q = Some g ->
                 minIntervalIndex (spannedFile 3 2 3 0) < minIntervalIndex g).
Proof.
  apply insertIntoSubLevel_sorted_insert.
  - intros q Hq. repeat (apply elem_of_cons in Hq as [->|Hq]);
      [eexists; reflexivity..|inversion Hq].
  - intros i j q q' g g' Hij Hq Hq' Hg Hg'.
    destruct i as [|[|i]]; destruct j as [|[|j]]; try discriminate; try lia;
      injection Hq as <-; injection Hq' as <-;
      injection Hg as <-; injection Hg' as <-; simpl; lia.
Defined.

Lemma markBits_sets_range_witness :
  exists b', markBits [false; false; false] 1 2 = Ok b' /\
    length b' = length [false; false; false] /\
    forall i, zget b' i = if (1 <=? i) && (i <? 2)
                          then zget (map (fun _ => true) [false; false; false]) i
                          else zget [false; false; false] i.
Proof.
  apply markBits_sets_range. intros _. split; [lia|unfold zlen; simpl; lia].
Defined.

Lemma markBits_out_of_range_witness : markBits [false] 0 2 = Panic.
Proof.
  apply markBits_out_of_range; [lia|right; unfold zlen; simpl; lia].
Defined.

(** ** Construction returns *)

Section ConstructionReturns.
Context `{E : Env}.
Variable keys : list intervalKey.
Variable arena0 : list FileMetadata.
Hypothesis spans_static : forall q f, arena0 !! q = Some f ->
  0 <= spanMin keys f /\ spanMin keys f <= spanMax keys f + 1 /\
  spanMax keys f + 1 < zlen keys.

Lemma slStep_total arena mid :
  (forall iv q, iv ∈ mid -> last (files iv) = Some q -> is_Some (arena !! q)) ->
  forall acc, exists sl, foldM (slStep arena) mid acc = Ok sl.
Proof.
  induction mid as [|iv mid IH]; intros Hall acc; simpl; [eauto|].
  assert (Hstep : exists sl1, slStep arena acc iv = Ok sl1).
  { unfold slStep. destruct (last (files iv)) as [q|] eqn:Hlast; [|eauto].
    destruct (Hall iv q ltac:(left) Hlast) as [g Hg].
    unfold deref. rewrite Hg. simpl. eauto. }
  destruct Hstep as [sl1 Hsl1]. rewrite Hsl1. simpl.
  apply IH. intros iv' q Hin. apply Hall. right. exact Hin.
Qed.

Lemma span_passes_total arena mn mx interp p ivs :
  0 <= mn -> mn <= mx + 1 -> mx < zlen ivs ->
  (forall (i : nat) iv q, mn <= Z.of_nat i <= mx -> ivs !! i = Some iv ->
                          last (files iv) = Some q -> is_Some (arena !! q)) ->
  exists sl ivs2,
    (let* (sl, ivs1) := foldM (touchInterval arena mn mx interp) (zrange mn mx) (0, ivs) in
     let* ivs2 := foldM (appendFile p) (zrange mn mx) ivs1 in Ok (sl, ivs2)) = Ok (sl, ivs2).
Proof.
  intros Hmn Hmx Hlen Hall.
  destruct (slice_split ivs mn mx Hmn Hmx Hlen) as (pre & mid & post & -> & Hpre & Hmid).
  assert (Hrange : zrange mn mx = seqZ (zlen pre) (zlen mid)).
  { unfold zrange. rewrite Hpre, Hmid. reflexivity. }
  rewrite Hrange.
  rewrite (foldM_range_acc (touchInterval arena mn mx interp) (slStep arena)
             (touch mn mx interp)).
  2:{ intros acc l i. reflexivity. }
  destruct (slStep_total arena mid) with (acc := 0) as [sl Hsl].
  { intros iv q Hin Hlast. apply (slice_elem pre mid post) in Hin as (i & Hi & Hiv).
    apply (Hall i iv q); [unfold zlen in *; lia|exact Hiv|exact Hlast]. }
  rewrite Hsl. cbn [bind].
  assert (Hmid' : zlen mid = zlen (map (touch mn mx interp) mid)).
  { unfold zlen. rewrite length_map. reflexivity. }
  rewrite Hmid'. unfold appendFile.
  rewrite (foldM_range_upd (fun iv => setFiles iv (files iv ++ [p]))).
  cbn [bind]. eauto.
Qed.

(** One file of the construction loop: it is placed, or its span is empty
    and the division of its size panics. *)
Lemma addL0File_returns subs s f0 :
  Built keys arena0 subs s ->
  arena0 !! length subs = Some f0 ->
  (spanMin keys f0 <= spanMax keys f0 ->
   exists s', addL0File keys s (length subs) = Ok s') /\
  (spanMin keys f0 = spanMax keys f0 + 1 -> addL0File keys s (length subs) = Panic).
Proof.
  intros HB Hf0.
  assert (Hp : (length subs < length arena0)%nat) by (eapply lookup_lt_Some; exact Hf0).
  assert (Hnone : subs !! length subs = None) by (apply lookup_ge_None_2; lia).
  assert (Harena : levelMetadata s !! length subs = Some f0).
  { rewrite (B_arena _ _ _ _ HB), list_lookup_imap, Hf0. simpl. unfold assign.
    rewrite Hnone. reflexivity. }
  destruct (spans_static _ _ Hf0) as (Hmn0 & Hmnmx & Hmxn).
  assert (Hmn : mnOf keys arena0 (length subs) = spanMin keys f0)
    by (unfold mnOf; rewrite Hf0; reflexivity).
  assert (Hmx : mxOf keys arena0 (length subs) = spanMax keys f0)
    by (unfold mxOf; rewrite Hf0; reflexivity).
  unfold addL0File, deref. rewrite Harena. cbn [bind lift]. cbv zeta.
  fold (spanMin keys f0).
  replace (searchIn keys (fun k => intervalKeyCompare (largestIK f0) k <=? 0))
    with (spanMax keys f0 + 1) by (unfold spanMax; lia).
  replace (spanMax keys f0 + 1 - 1) with (spanMax keys f0) by lia.
  destruct (Z.eqb_spec (spanMin keys f0) (zlen keys)); [lia|].
  destruct (Z.eqb_spec (spanMax keys f0 + 1) (zlen keys)); [lia|].
  split.
  - intros Hspan.
    destruct (Z.eqb_spec (uint64OfInt (spanMax keys f0 - spanMin keys f0 + 1)) 0) as [Hw|_].
    { exfalso. unfold uint64OfInt in Hw.
      destruct (Z.ltb_spec (spanMax keys f0 - spanMin keys f0 + 1) 0); lia. }
    destruct (span_passes_total (levelMetadata s) (spanMin keys f0) (spanMax keys f0)
                (Size f0 / uint64OfInt (spanMax keys f0 - spanMin keys f0 + 1))
                (length subs) (orderedIntervals s)) as (sl & ivs2 & Hpass); [lia|lia| | |].
    { unfold zlen in *. rewrite (B_ivs_len _ _ _ _ HB). lia. }
    { intros i iv q Hi Hiv Hlast.
      destruct (B_ivs _ _ _ _ HB _ _ Hiv) as (_ & _ & Hfiles & _).
      rewrite Hfiles in Hlast. apply filter_seq_last in Hlast as (Hq & _).
      apply lookup_lt_is_Some_2. rewrite (B_arena _ _ _ _ HB), length_imap. lia. }
    assert (Hivs : spanMax keys f0 < zlen (orderedIntervals s)).
    { unfold zlen in *. rewrite (B_ivs_len _ _ _ _ HB). lia. }
    destruct (span_passes (levelMetadata s) (spanMin keys f0) (spanMax keys f0)
                (Size f0 / uint64OfInt (spanMax keys f0 - spanMin keys f0 + 1))
                (length subs) (orderedIntervals s) sl ivs2 Hmn0 Hmnmx Hivs Hpass)
      as (mid & Hfold & Hmid & _).
    rewrite <- Hmn, <- Hmx in Hmid.
    destruct (next_sublevel keys arena0 spans_static subs s mid sl HB Hp ltac:(lia)
                Hmid Hfold) as (Hsl0 & _ & Hmin).
    apply bind_Ok in Hpass as ([sl1 ivs1] & Htouch & Hpass).
    apply bind_Ok in Hpass as (ivs2' & Happend & Hpass). injection Hpass as -> ->.
    rewrite Htouch. cbn [bind]. rewrite Happend. cbn [bind].
    destruct (Z.ltb_spec (zlen (Levels s)) sl) as [Hbeyond|_]; [|eauto].
    exfalso. destruct Hmin as [->|(q' & sl' & _ & Hq' & _ & Hsl')].
    + unfold zlen in Hbeyond. lia.
    + destruct (B_placed _ _ _ _ HB _ _ Hq') as (fs & Hfs & _).
      apply lookup_lt_Some in Hfs.
      pose proof (B_sub_nonneg _ _ _ _ HB _ _ Hq'). unfold zlen in Hbeyond. lia.
  - intros Hempty. replace (spanMax keys f0 - spanMin keys f0 + 1) with 0 by lia.
    reflexivity.
Qed.

Lemma addL0Files_return k :
  forall subs s,
    Built keys arena0 subs s ->
    (length subs + k = length arena0)%nat ->
    (exists s1, foldM (addL0File keys) (seq (length subs) k) s = Ok s1) /\
    (forall q f, arena0 !! q = Some f -> (length subs <= q)%nat ->
                 spanMin keys f <= spanMax keys f)
    \/
    foldM (addL0File keys) (seq (length subs) k) s = Panic /\
    (exists q f, arena0 !! q = Some f /\ spanMin keys f = spanMax keys f + 1).
Proof.
  induction k as [|k IH]; intros subs s HB Hlen; simpl.
  - left. split; [eauto|]. intros q f Hf Hq. apply lookup_lt_Some in Hf. lia.
  - destruct (lookup_lt_is_Some_2 arena0 (length subs)) as [f0 Hf0]; [lia|].
    destruct (addL0File_returns subs s f0 HB Hf0) as [Hok Hpanic].
    destruct (spans_static _ _ Hf0) as (_ & Hle & _).
    destruct (Z.eq_dec (spanMin keys f0) (spanMax keys f0 + 1)) as [Hempty|Hproper].
    { right. rewrite (Hpanic Hempty). split; [reflexivity|eauto]. }
    destruct (Hok ltac:(lia)) as [s' Hs']. rewrite Hs'. cbn [bind].
    destruct (addL0File_step keys arena0 spans_static subs s s' HB ltac:(lia) Hs')
      as (sl & HB').
    destruct (IH (subs ++ [sl]) s' HB') as [[Hrest Hall]|Hrest].
    + rewrite length_app. simpl. lia.
    + left. rewrite length_app, Nat.add_1_r in Hrest. split; [exact Hrest|].
      intros q f Hf Hq. destruct (decide (q = length subs)) as [->|Hne].
      * assert (f = f0) by congruence. subst f. lia.
      * apply (Hall q f Hf). rewrite length_app. simpl. lia.
    + right. rewrite length_app, Nat.add_1_r in Hrest. exact Hrest.
Qed.

End ConstructionReturns.

Section NewL0SublevelsReturns.
Context `{E : Env}.

(** The span of a file is empty exactly when its two bounds are the same
    interval key. *)
Lemma span_proper_iff fs q f :
  (forall f0, f0 ∈ fs -> wfFile f0) ->
  arenaOf fs !! q = Some f ->
  (spanMin (keysOf fs) f <= spanMax (keysOf fs) f <->
   intervalKeyCompare (smallestIK f) (largestIK f) < 0) /\
  (spanMin (keysOf fs) f = spanMax (keysOf fs) f + 1 <->
   intervalKeyCompare (smallestIK f) (largestIK f) = 0).
Proof.
  intros Hwf Hf.
  destruct (span_places fs q f Hwf Hf)
    as (js & jl & ks & kl & Hjs & Hsk & Hjl & Hlk & Hle & -> & ->).
  pose proof (keysOf_sorted fs) as Hsorted.
  assert (Hiff : (js < jl)%nat <-> intervalKeyCompare (smallestIK f) (largestIK f) < 0).
  { split.
    - intros Hlt.
      pose proof (StronglySorted_lookup iklt _ js jl ks kl Hsorted Hlt Hjs Hjl) as Hkk.
      unfold iklt in Hkk.
      eapply intervalKeyCompare_le_lt; [rewrite Hsk; lia|].
      eapply intervalKeyCompare_lt_le; [exact Hkk|].
      apply intervalKeyCompare_eq_sym in Hlk. lia.
    - intros Hlt. destruct (decide (js = jl)) as [->|Hne]; [|lia]. exfalso.
      assert (ks = kl) by congruence. subst kl.
      assert (H1 : intervalKeyCompare ks (largestIK f) < 0).
      { eapply intervalKeyCompare_le_lt; [|exact Hlt].
        apply intervalKeyCompare_eq_sym in Hsk. lia. }
      assert (H2 : intervalKeyCompare ks ks < 0).
      { eapply intervalKeyCompare_lt_le; [exact H1|lia]. }
      rewrite intervalKeyCompare_refl in H2. lia. }
  split; [rewrite <- Hiff; lia|].
  split.
  - intros Heq. assert (js = jl) by lia. subst jl.
    assert (ks = kl) by congruence. subst kl.
    destruct (Z.lt_trichotomy (intervalKeyCompare (smallestIK f) (largestIK f)) 0)
      as [Hlt|[Heq0|Hgt]]; [apply Hiff in Hlt; lia|exact Heq0|].
    exfalso. apply intervalKeyCompare_gt in Hgt.
    assert (H1 : intervalKeyCompare (largestIK f) ks < 0).
    { eapply intervalKeyCompare_lt_le; [exact Hgt|lia]. }
    lia.
  - intros Heq. destruct (decide (js = jl)) as [->|Hne]; [lia|].
    assert (Hlt : (js < jl)%nat) by lia. apply Hiff in Hlt. lia.
Qed.

(** X6.  [NewL0Sublevels] never returns one of its two errors for files
    whose smallest user key does not sort after the largest: it returns an
    engine when every file's smallest bound sorts strictly before its
    largest bound, and it panics on the division by the span width when
    some file's span is empty (its largest key is a range-delete sentinel at
    its smallest user key). *)
Theorem NewL0Sublevels_returns_or_panics (fs : list FileMetadata) (flushSplitMaxBytes : Z) :
  (forall f0, f0 ∈ fs -> wfFile f0) ->
  (exists s, NewL0Sublevels fs flushSplitMaxBytes = Ok s) /\
  (forall f0, f0 ∈ fs -> intervalKeyCompare (smallestIK f0) (largestIK f0) < 0)
  \/
  NewL0Sublevels fs flushSplitMaxBytes = Panic /\
  (exists f0, f0 ∈ fs /\ intervalKeyCompare (smallestIK f0) (largestIK f0) = 0).
Proof.
  intros Hwf. unfold NewL0Sublevels.
  fold (arenaOf fs). fold (keysOf fs).
  destruct (addL0Files_return (keysOf fs) (arenaOf fs) (spans_static_wf fs Hwf)
              (length (arenaOf fs)) [] _ (Built_initial _ _) eq_refl)
    as [[[s1 Hs1] Hall]|[Hpanic (q & f & Hf & Hempty)]].
  - left. simpl in Hs1. rewrite Hs1. cbn [bind]. split; [eauto|].
    intros f0 Hf0. apply list_elem_of_lookup in Hf0 as [q Hq].
    assert (Hf : arenaOf fs !! q = Some (setL0Index (Z.of_nat q) f0)).
    { unfold arenaOf. rewrite list_lookup_imap, Hq. reflexivity. }
    pose proof (Hall q _ Hf ltac:(simpl; lia)) as Hspan.
    apply (span_proper_iff fs q _ Hwf Hf) in Hspan. exact Hspan.
  - right. simpl in Hpanic. rewrite Hpanic. split; [reflexivity|].
    destruct (arenaOf_lookup _ _ _ Hf) as (f0 & Hf0 & ->).
    exists f0. split; [eapply list_elem_of_lookup_2; exact Hf0|].
    apply (span_proper_iff fs q _ Hwf Hf) in Hempty. exact Hempty.
Qed.

End NewL0SublevelsReturns.

Lemma NewL0Sublevels_returns_or_panics_witness :
  (exists s, NewL0Sublevels (E := bytesEnv) staircase 100 = Ok s) /\
  (forall f0, f0 ∈ staircase ->
     intervalKeyCompare (E := bytesEnv) (smallestIK f0) (largestIK f0) < 0)
  \/
  NewL0Sublevels (E := bytesEnv) staircase 100 = Panic /\
  (exists f0, f0 ∈ staircase /\
     intervalKeyCompare (E := bytesEnv) (smallestIK f0) (largestIK f0) = 0).
Proof.
  apply (NewL0Sublevels_returns_or_panics (E := bytesEnv) staircase 100). wf_files.
Defined.

(** ** The structure that construction leaves *)

Lemma StronglySorted_impl_elem {A} (R R' : A -> A -> Prop) (l : list A) :
  (forall a b, a ∈ l -> b ∈ l -> R a b -> R' a b) ->
  StronglySorted R l -> StronglySorted R' l.
Proof.
  intros Himpl Hs. induction Hs as [|x l Hs IH Hall]; [constructor|].
  constructor.
  - apply IH. intros a b Ha Hb. apply Himpl; right; assumption.
  - apply Forall_forall. intros y Hy. apply Himpl; [left|right; exact Hy|].
    eapply Forall_forall in Hall; eassumption.
Qed.

Lemma stacked_length {A} (g : A -> Z) (l : list A) :
  StronglySorted (fun p q => g p < g q) l ->
  forall a n, (forall p, p ∈ l -> a <= g p < n) -> a <= n -> zlen l <= n - a.
Proof.
  induction 1 as [|x l Hs IH Hall]; intros a n Hrange Han.
  - unfold zlen. simpl. lia.
  - pose proof (Hrange x ltac:(left)) as Hx.
    assert (Hl : zlen l <= n - (g x + 1)).
    { apply IH; [|lia]. intros p Hp. pose proof (Hrange p ltac:(right; exact Hp)).
      eapply Forall_forall in Hall; [|exact Hp]. lia. }
    unfold zlen in *. simpl. lia.
Qed.

Section BuiltStructure.
Context `{E : Env}.
Variable fs : list FileMetadata.
Variable flushSplitMaxBytes : Z.
Variable s : L0Sublevels.
Hypothesis fs_wf : forall f0, f0 ∈ fs -> wfFile f0.
Hypothesis Hnew : NewL0Sublevels fs flushSplitMaxBytes = Ok s.

Lemma built_subs :
  exists subs, length subs = length (arenaOf fs) /\ Built (keysOf fs) (arenaOf fs) subs s.
Proof.
  destruct (NewL0Sublevels_built _ _ _ fs_wf Hnew) as (subs & Hlen & HB).
  exists subs. split; [|exact HB]. rewrite Hlen. unfold arenaOf. symmetry. apply length_imap.
Qed.

Lemma interval_files_spec (i : nat) iv :
  orderedIntervals s !! i = Some iv ->
  fileCount iv = zlen (files iv) /\
  (forall q, q ∈ files iv <->
     exists f, levelMetadata s !! q = Some f /\
               minIntervalIndex f <= Z.of_nat i <= maxIntervalIndex f) /\
  StronglySorted (fun p q =>
      (p < q)%nat /\
      forall f g, levelMetadata s !! p = Some f -> levelMetadata s !! q = Some g ->
                  subLevel f < subLevel g) (files iv).
Proof.
  intros Hiv. destruct built_subs as (subs & Hlen & HB).
  destruct (B_ivs _ _ _ _ HB _ _ Hiv) as (_ & _ & Hfiles & Hcount & _).
  split; [exact Hcount|]. split.
  - intros q. rewrite Hfiles, filter_seq_elem. split.
    + intros [Hq Hcov]. destruct (lookup_lt_is_Some_2 (levelMetadata s) q) as [f Hf].
      { rewrite (B_arena _ _ _ _ HB), length_imap. lia. }
      exists f. split; [exact Hf|].
      destruct (Built_file _ _ _ _ _ _ HB Hlen Hf) as (_ & _ & _ & -> & -> & _).
      apply coversb_spec in Hcov. exact Hcov.
    + intros (f & Hf & Hcov).
      destruct (Built_file _ _ _ _ _ _ HB Hlen Hf) as (sl & Hsl & _ & Hmn & Hmx & _).
      split; [eapply lookup_lt_Some; exact Hsl|]. apply coversb_spec. lia.
  - rewrite Hfiles.
    eapply StronglySorted_impl_elem; [|apply filter_seq_sorted].
    intros p q Hp Hq Hpq. split; [exact Hpq|]. intros f g Hf Hg.
    apply filter_seq_elem in Hp as [_ Hp]. apply filter_seq_elem in Hq as [_ Hq].
    apply coversb_spec in Hp. apply coversb_spec in Hq.
    destruct (Built_file _ _ _ _ _ _ HB Hlen Hf) as (slp & Hslp & <- & _).
    destruct (Built_file _ _ _ _ _ _ HB Hlen Hg) as (slq & Hslq & <- & _).
    eapply (B_sub_above _ _ _ _ HB q p); [exact Hpq|exact Hslp|exact Hslq|].
    unfold overlaps. lia.
Qed.

End BuiltStructure.

Section BuiltTheorems.
Context `{E : Env}.

(** X7.  After construction, the files of an interval are exactly the
    files whose span holds the interval, [fileCount] is their number, and
    they are listed from the oldest up, in strictly increasing sublevel. *)
Theorem interval_files_by_increasing_sublevel (fs : list FileMetadata)
    (flushSplitMaxBytes : Z) (s : L0Sublevels) :
  (forall f0, f0 ∈ fs -> wfFile f0) ->
  NewL0Sublevels fs flushSplitMaxBytes = Ok s ->
  (forall (i : nat) iv, orderedIntervals s !! i = Some iv ->
     fileCount iv = zlen (files iv) /\
     forall q, q ∈ files iv <->
       exists f, levelMetadata s !! q = Some f /\
                 minIntervalIndex f <= Z.of_nat i <= maxIntervalIndex f) /\
  (forall (i a b : nat) iv p q f g,
     orderedIntervals s !! i = Some iv ->
     files iv !! a = Some p -> files iv !! b = Some q -> (a < b)%nat ->
     levelMetadata s !! p = Some f -> levelMetadata s !! q = Some g ->
     (p < q)%nat /\ subLevel f < subLevel g).
Proof.
  intros fs_wf Hnew.
  split.
  - intros i iv Hiv. destruct (interval_files_spec fs flushSplitMaxBytes s fs_wf Hnew i iv Hiv) as (H1 & H2 & _). auto.
  - intros i a b iv p q f g Hiv Hp Hq Hab Hf Hg.
    destruct (interval_files_spec fs flushSplitMaxBytes s fs_wf Hnew i iv Hiv) as (_ & _ & Hsorted).
    destruct (StronglySorted_lookup _ _ _ _ _ _ Hsorted Hab Hp Hq) as [Hlt Hsub].
    split; [exact Hlt|]. apply Hsub; assumption.
Qed.

(** X8.  After construction every file is stored in the sublevel that it
    records, and in no other place: no sublevel is empty, no sublevel holds
    a file twice, and a file found in [Levels[sl]] has [subLevel = sl]. *)
Theorem levels_hold_each_file_once (fs : list FileMetadata)
    (flushSplitMaxBytes : Z) (s : L0Sublevels) :
  (forall f0, f0 ∈ fs -> wfFile f0) ->
  NewL0Sublevels fs flushSplitMaxBytes = Ok s ->
  (forall q f, levelMetadata s !! q = Some f ->
     0 <= subLevel f /\
     exists lvl, Levels s !! Z.to_nat (subLevel f) = Some lvl /\ q ∈ lvl) /\
  (forall (sl : nat) lvl, Levels s !! sl = Some lvl ->
     lvl <> [] /\ NoDup lvl /\
     forall q, q ∈ lvl ->
       exists f, levelMetadata s !! q = Some f /\ subLevel f = Z.of_nat sl).
Proof.
  intros fs_wf Hnew.
  destruct (built_subs fs flushSplitMaxBytes s fs_wf Hnew) as (subs & Hlen & HB). split.
  - intros q f Hf.
    destruct (Built_file _ _ _ _ _ _ HB Hlen Hf) as (sl & Hsl & <- & _).
    split; [eapply B_sub_nonneg; eassumption|].
    eapply B_placed; eassumption.
  - intros sl lvl Hlvl. destruct (B_levels _ _ _ _ HB _ _ Hlvl) as (Hne & Hsub & Hsorted).
    split; [exact Hne|]. split.
    + apply NoDup_alt. intros a b q Ha Hb.
      destruct (Nat.lt_trichotomy a b) as [Hlt|[Heq|Hgt]]; [exfalso|exact Heq|exfalso].
      * pose proof (StronglySorted_lookup _ _ _ _ _ _ Hsorted Hlt Ha Hb) as Hbefore.
        pose proof (Hsub q ltac:(eapply list_elem_of_lookup_2; exact Ha)) as Hq.
        apply lookup_lt_Some in Hq. pose proof (B_span _ _ _ _ HB q Hq).
        unfold before in Hbefore. lia.
      * pose proof (StronglySorted_lookup _ _ _ _ _ _ Hsorted Hgt Hb Ha) as Hbefore.
        pose proof (Hsub q ltac:(eapply list_elem_of_lookup_2; exact Ha)) as Hq.
        apply lookup_lt_Some in Hq. pose proof (B_span _ _ _ _ HB q Hq).
        unfold before in Hbefore. lia.
    + intros q Hq. pose proof (Hsub q Hq) as Hsl.
      destruct (lookup_lt_is_Some_2 (levelMetadata s) q) as [f Hf].
      { rewrite (B_arena _ _ _ _ HB), length_imap, <- Hlen. eapply lookup_lt_Some. exact Hsl. }
      exists f. split; [exact Hf|].
      destruct (Built_file _ _ _ _ _ _ HB Hlen Hf) as (sl' & Hsl' & <- & _). congruence.
Qed.

(** X9.  After construction each file overlaps perfectly with a run of
    intervals: the interval at its [minIntervalIndex] starts at its smallest
    bound, the interval after its [maxIntervalIndex] starts at its largest
    bound, and its [l0Index] is its place in the L0 order. *)
Theorem file_bounds_are_interval_starts (fs : list FileMetadata)
    (flushSplitMaxBytes : Z) (s : L0Sublevels) :
  (forall f0, f0 ∈ fs -> wfFile f0) ->
  NewL0Sublevels fs flushSplitMaxBytes = Ok s ->
  (forall q f, levelMetadata s !! q = Some f ->
     l0Index f = Z.of_nat q /\
     0 <= minIntervalIndex f <= maxIntervalIndex f /\
     exists first next,
       orderedIntervals s !! Z.to_nat (minIntervalIndex f) = Some first /\
       intervalKeyCompare (smallestIK f) (startKey first) = 0 /\
       orderedIntervals s !! Z.to_nat (maxIntervalIndex f + 1) = Some next /\
       intervalKeyCompare (largestIK f) (startKey next) = 0) /\
  length (levelMetadata s) = length fs.
Proof.
  intros fs_wf Hnew.
  destruct (built_subs fs flushSplitMaxBytes s fs_wf Hnew) as (subs & Hlen & HB). split.
  2:{ rewrite (B_arena _ _ _ _ HB), length_imap. unfold arenaOf. apply length_imap. }
  intros q f Hf.
  destruct (Built_file _ _ _ _ _ _ HB Hlen Hf) as (sl & Hsl & Hsub & Hmn & Hmx & Hspan).
  destruct (Built_arena_lookup _ _ _ _ _ _ HB Hf) as (f0 & Hf0 & Hfa).
  destruct (arenaOf_lookup _ _ _ Hf0) as (f00 & _ & Hf00).
  destruct (span_places fs q f0 fs_wf Hf0)
    as (js & jl & ks & kl & Hjs & Hsk & Hjl & Hlk & Hle & Hsmin & Hsmax).
  assert (Hmn' : minIntervalIndex f = Z.of_nat js).
  { rewrite Hmn. unfold mnOf. rewrite Hf0. exact Hsmin. }
  assert (Hmx' : maxIntervalIndex f = Z.of_nat jl - 1).
  { rewrite Hmx. unfold mxOf. rewrite Hf0. exact Hsmax. }
  assert (Hkeys : smallestIK f = smallestIK f0 /\ largestIK f = largestIK f0).
  { subst f. unfold assign. rewrite Hsl. split; reflexivity. }
  destruct Hkeys as [Hks Hkl].
  split; [subst f f0; unfold assign; rewrite Hsl; reflexivity|].
  split; [lia|].
  destruct (lookup_lt_is_Some_2 (orderedIntervals s) js) as [first Hfirst].
  { rewrite (B_ivs_len _ _ _ _ HB). eapply lookup_lt_Some. exact Hjs. }
  destruct (lookup_lt_is_Some_2 (orderedIntervals s) jl) as [next Hnext].
  { rewrite (B_ivs_len _ _ _ _ HB). eapply lookup_lt_Some. exact Hjl. }
  destruct (B_ivs _ _ _ _ HB _ _ Hfirst) as (_ & Hkf & _).
  destruct (B_ivs _ _ _ _ HB _ _ Hnext) as (_ & Hkn & _).
  exists first, next. rewrite Hmn', Hmx', Hks, Hkl.
  replace (Z.of_nat jl - 1 + 1) with (Z.of_nat jl) by lia. rewrite !Nat2Z.id.
  split; [exact Hfirst|]. split; [congruence|]. split; [exact Hnext|congruence].
Qed.

(** X10.  After construction the intervals are in strictly increasing key
    order, one per distinct file bound; an interval's [index] is its place;
    and the last interval, which only marks the end, holds no file. *)
Theorem intervals_in_key_order (fs : list FileMetadata)
    (flushSplitMaxBytes : Z) (s : L0Sublevels) :
  (forall f0, f0 ∈ fs -> wfFile f0) ->
  NewL0Sublevels fs flushSplitMaxBytes = Ok s ->
  StronglySorted iklt (map startKey (orderedIntervals s)) /\
  (forall (i : nat) iv, orderedIntervals s !! i = Some iv ->
     index iv = Z.of_nat i /\
     exists f, f ∈ fs /\ (startKey iv = smallestIK f \/ startKey iv = largestIK f)) /\
  (forall f, f ∈ fs ->
     exists iv, iv ∈ orderedIntervals s /\
                intervalKeyCompare (smallestIK f) (startKey iv) = 0) /\
  (forall iv, last (orderedIntervals s) = Some iv -> files iv = []).
Proof.
  intros fs_wf Hnew.
  destruct (built_subs fs flushSplitMaxBytes s fs_wf Hnew) as (subs & Hlen & HB).
  assert (Hkeys : map startKey (orderedIntervals s) = keysOf fs).
  { apply list_eq. intros i. rewrite list_lookup_fmap.
    destruct (orderedIntervals s !! i) as [iv|] eqn:Hiv; simpl.
    - destruct (B_ivs _ _ _ _ HB _ _ Hiv) as (_ & Hk & _). congruence.
    - symmetry. apply lookup_ge_None. apply lookup_ge_None in Hiv.
      rewrite <- (B_ivs_len _ _ _ _ HB). exact Hiv. }
  split; [rewrite Hkeys; apply keysOf_sorted|]. split; [|split].
  - intros i iv Hiv. destruct (B_ivs _ _ _ _ HB _ _ Hiv) as (Hidx & Hk & _).
    split; [exact Hidx|].
    assert (Hin : startKey iv ∈ boundaryKeys (arenaOf fs)).
    { apply sortAndDedup_strictly_increasing. eapply list_elem_of_lookup_2. exact Hk. }
    unfold boundaryKeys in Hin. apply list_elem_of_In, in_flat_map in Hin as (f & Hf & Hin).
    apply list_elem_of_In, list_elem_of_lookup in Hf as [q Hq].
    destruct (arenaOf_lookup _ _ _ Hq) as (f0 & Hf0 & ->).
    exists f0. split; [eapply list_elem_of_lookup_2; exact Hf0|].
    simpl in Hin. destruct Hin as [<-|[<-|[]]]; [left|right]; reflexivity.
  - intros f Hf. apply list_elem_of_lookup in Hf as [q Hq].
    assert (Hfa : arenaOf fs !! q = Some (setL0Index (Z.of_nat q) f)).
    { unfold arenaOf. rewrite list_lookup_imap, Hq. reflexivity. }
    destruct (span_places fs q _ fs_wf Hfa) as (js & _ & ks & _ & Hjs & Hsk & _).
    destruct (lookup_lt_is_Some_2 (orderedIntervals s) js) as [iv Hiv].
    { rewrite (B_ivs_len _ _ _ _ HB). eapply lookup_lt_Some. exact Hjs. }
    destruct (B_ivs _ _ _ _ HB _ _ Hiv) as (_ & Hk & _).
    exists iv. split; [eapply list_elem_of_lookup_2; exact Hiv|].
    assert (ks = startKey iv) by congruence. subst ks. exact Hsk.
  - intros iv Hlast. rewrite last_lookup in Hlast.
    destruct (B_ivs _ _ _ _ HB _ _ Hlast) as (_ & _ & Hfiles & _).
    rewrite Hfiles. apply list_eq. intros a. rewrite lookup_nil.
    destruct (List.filter _ _ !! a) as [q|] eqn:Hq; [exfalso|reflexivity].
    apply list_elem_of_lookup_2, filter_seq_elem in Hq as [Hq Hcov].
    apply coversb_spec in Hcov.
    destruct (mnOf_static _ _ (spans_static_wf fs fs_wf) q ltac:(lia)) as [_ Hmx].
    apply lookup_lt_Some in Hlast. rewrite (B_ivs_len _ _ _ _ HB) in Hlast.
    unfold zlen in Hmx. rewrite (B_ivs_len _ _ _ _ HB) in Hcov. lia.
Qed.

(** X11.  After construction the read amplification is at most the number
    of sublevels, and at least 1 as soon as there is a file. *)
Theorem ReadAmplification_le_sublevels (fs : list FileMetadata)
    (flushSplitMaxBytes : Z) (s : L0Sublevels) :
  (forall f0, f0 ∈ fs -> wfFile f0) ->
  NewL0Sublevels fs flushSplitMaxBytes = Ok s ->
  ReadAmplification s <= zlen (Levels s) /\
  (fs <> [] -> 1 <= ReadAmplification s).
Proof.
  intros fs_wf Hnew.
  destruct (built_subs fs flushSplitMaxBytes s fs_wf Hnew) as (subs & Hlen & HB).
  destruct (ReadAmplification_max s) as (H0 & Hall & Hex). split.
  - destruct Hex as [->|(iv & Hiv & <-)]; [unfold zlen; lia|].
    apply list_elem_of_lookup in Hiv as [i Hiv].
    destruct (interval_files_spec fs flushSplitMaxBytes s fs_wf Hnew i iv Hiv) as (-> & Hmem & Hsorted).
    set (g := fun q => match levelMetadata s !! q with
                       | Some f => subLevel f | None => 0 end).
    replace (zlen (Levels s)) with (zlen (Levels s) - 0) by lia.
    apply (stacked_length g); [| |unfold zlen; lia].
    + eapply StronglySorted_impl_elem; [|exact Hsorted].
      intros p q Hp Hq [_ Hsub]. apply Hmem in Hp as (f & Hf & _).
      apply Hmem in Hq as (f' & Hf' & _). unfold g. rewrite Hf, Hf'. apply Hsub; assumption.
    + intros p Hp. apply Hmem in Hp as (f & Hf & _). unfold g. rewrite Hf.
      destruct (Built_file _ _ _ _ _ _ HB Hlen Hf) as (sl & Hsl & <- & _).
      pose proof (B_sub_nonneg _ _ _ _ HB _ _ Hsl).
      destruct (B_placed _ _ _ _ HB _ _ Hsl) as (lvl & Hlvl & _).
      apply lookup_lt_Some in Hlvl. unfold zlen. lia.
  - intros Hne.
    assert (Hpos : (0 < length (arenaOf fs))%nat).
    { unfold arenaOf. rewrite length_imap. destruct fs; [congruence|simpl; lia]. }
    destruct (lookup_lt_is_Some_2 (levelMetadata s) 0%nat) as [f Hf].
    { rewrite (B_arena _ _ _ _ HB), length_imap. exact Hpos. }
    destruct (Built_file _ _ _ _ _ _ HB Hlen Hf) as (sl & Hsl & _ & Hmn & Hmx & Hspan).
    destruct (mnOf_static _ _ (spans_static_wf fs fs_wf) 0%nat Hpos) as [Hmn0 Hmxn].
    destruct (Built_interval_at _ _ subs s (mnOf (keysOf fs) (arenaOf fs) 0%nat) HB)
      as [iv Hiv]; [lia|].
    destruct (interval_files_spec fs flushSplitMaxBytes s fs_wf Hnew _ iv Hiv) as (Hcount & Hmem & _).
    assert (Hin : 0%nat ∈ files iv).
    { apply Hmem. exists f. split; [exact Hf|]. lia. }
    pose proof (Hall iv ltac:(eapply list_elem_of_lookup_2; exact Hiv)) as Hle.
    rewrite Hcount in Hle. destruct (files iv); [inversion Hin|].
    unfold zlen in Hle. simpl in Hle. lia.
Qed.

End BuiltTheorems.

Lemma interval_files_by_increasing_sublevel_witness :
  (forall (i : nat) iv, orderedIntervals staircaseEngine !! i = Some iv ->
     fileCount iv = zlen (files iv) /\
     forall q, q ∈ files iv <->
       exists f, levelMetadata staircaseEngine !! q = Some f /\
                 minIntervalIndex f <= Z.of_nat i <= maxIntervalIndex f) /\
  (forall (i a b : nat) iv p q f g,
     orderedIntervals staircaseEngine !! i = Some iv ->
     files iv !! a = Some p -> files iv !! b = Some q -> (a < b)%nat ->
     levelMetadata staircaseEngine !! p = Some f ->
     levelMetadata staircaseEngine !! q = Some g ->
     (p < q)%nat /\ subLevel f < subLevel g).
Proof.
  apply (interval_files_by_increasing_sublevel (E := bytesEnv) staircase 100 staircaseEngine).
  - wf_files.
  - vm_compute. reflexivity.
Defined.

Lemma levels_hold_each_file_once_witness :
  (forall q f, levelMetadata staircaseEngine !! q = Some f ->
     0 <= subLevel f /\
     exists lvl, Levels staircaseEngine !! Z.to_nat (subLevel f) = Some lvl /\ q ∈ lvl) /\
  (forall (sl : nat) lvl, Levels staircaseEngine !! sl = Some lvl ->
     lvl <> [] /\ NoDup lvl /\
     forall q, q ∈ lvl ->
       exists f, levelMetadata staircaseEngine !! q = Some f /\ subLevel f = Z.of_nat sl).
Proof.
  apply (levels_hold_each_file_once (E := bytesEnv) staircase 100 staircaseEngine).
  - wf_files.
  - vm_compute. reflexivity.
Defined.

Lemma file_bounds_are_interval_starts_witness :
  (forall q f, levelMetadata staircaseEngine !! q = Some f ->
     l0Index f = Z.of_nat q /\
     0 <= minIntervalIndex f <= maxIntervalIndex f /\
     exists first next,
       orderedIntervals staircaseEngine !! Z.to_nat (minIntervalIndex f) = Some first /\
       intervalKeyCompare (E := bytesEnv) (smallestIK f) (startKey first) = 0 /\
       orderedIntervals staircaseEngine !! Z.to_nat (maxIntervalIndex f + 1) = Some next /\
       intervalKeyCompare (E := bytesEnv) (largestIK f) (startKey next) = 0) /\
  length (levelMetadata staircaseEngine) = length staircase.
Proof.
  apply (file_bounds_are_interval_starts (E := bytesEnv) staircase 100 staircaseEngine).
  - wf_files.
  - vm_compute. reflexivity.
Defined.

Lemma intervals_in_key_order_witness :
  StronglySorted (iklt (E := bytesEnv)) (map startKey (orderedIntervals staircaseEngine)) /\
  (forall (i : nat) iv, orderedIntervals staircaseEngine !! i = Some iv ->
     index iv = Z.of_nat i /\
     exists f, f ∈ staircase /\ (startKey iv = smallestIK f \/ startKey iv = largestIK f)) /\
  (forall f, f ∈ staircase ->
     exists iv, iv ∈ orderedIntervals staircaseEngine /\
                intervalKeyCompare (E := bytesEnv) (smallestIK f) (startKey iv) = 0) /\
  (forall iv, last (orderedIntervals staircaseEngine) = Some iv -> files iv = []).
Proof.
  apply (intervals_in_key_order (E := bytesEnv) staircase 100 staircaseEngine).
  - wf_files.
  - vm_compute. reflexivity.
Defined.

Lemma ReadAmplification_le_sublevels_witness :
  ReadAmplification staircaseEngine <= zlen (Levels staircaseEngine) /\
  (staircase <> [] -> 1 <= ReadAmplification staircaseEngine).
Proof.
  apply (ReadAmplification_le_sublevels (E := bytesEnv) staircase 100 staircaseEngine).
  - wf_files.
  - vm_compute. reflexivity.
Defined.

(** ** The compaction state *)

Lemma fold_max_spec {A} (h : A -> Z) (l : list A) :
  forall a,
    a <= fold_left (fun m x => if m <? h x then h x else m) l a /\
    (forall x, x ∈ l -> h x <= fold_left (fun m x => if m <? h x then h x else m) l a) /\
    (fold_left (fun m x => if m <? h x then h x else m) l a = a \/
     exists x, x ∈ l /\ h x = fold_left (fun m x => if m <? h x then h x else m) l a).
Proof.
  induction l as [|y l IH]; intros a; simpl.
  - split; [lia|]. split; [|left; reflexivity]. intros ? Hin. inversion Hin.
  - destruct (IH (if a <? h y then h y else a)) as (H1 & H2 & H3).
    assert (Hstep : a <= (if a <? h y then h y else a) /\
                    h y <= (if a <? h y then h y else a))
      by (destruct (Z.ltb_spec a (h y)); lia).
    split; [lia|]. split.
    + intros x Hin. apply elem_of_cons in Hin as [->|Hin]; [lia|auto].
    + destruct H3 as [H3|(x & Hin & H3)].
      * destruct (Z.ltb_spec a (h y)).
        -- right. exists y. split; [left|congruence].
        -- left. assumption.
      * right. exists x. split; [right; assumption|assumption].
Qed.

Lemma MaxDepthAfterOngoingCompactions_max s :
  0 <= MaxDepthAfterOngoingCompactions s /\
  (forall iv, iv ∈ orderedIntervals s ->
     fileCount iv - compactingFileCount iv <= MaxDepthAfterOngoingCompactions s) /\
  (MaxDepthAfterOngoingCompactions s = 0 \/
   exists iv, iv ∈ orderedIntervals s /\
     fileCount iv - compactingFileCount iv = MaxDepthAfterOngoingCompactions s).
Proof.
  apply (fold_max_spec (fun iv => fileCount iv - compactingFileCount iv)
           (orderedIntervals s) 0).
Qed.

Lemma map_lookup_eq {A B} (h : A -> B) (l l' : list A) (i : nat) x' :
  map h l' = map h l -> l' !! i = Some x' -> exists x, l !! i = Some x /\ h x' = h x.
Proof.
  intros Hmap Hx'. apply (f_equal (fun m => m !! i)) in Hmap.
  change (map h l') with (h <$> l') in Hmap. change (map h l) with (h <$> l) in Hmap.
  rewrite !list_lookup_fmap, Hx' in Hmap. simpl in Hmap.
  destruct (l !! i) as [x|]; [|discriminate]. injection Hmap as Heq. eauto.
Qed.

Lemma zupd_map_id {A B} (h : A -> B) (l : list A) i g l' :
  (forall x, h (g x) = h x) -> zupd l i g = Some l' -> map h l' = map h l.
Proof.
  intros Hg H. apply zupd_Some in H as (x & _ & Hx & ->).
  change (h <$> <[Z.to_nat i := g x]> l = h <$> l).
  rewrite list_fmap_insert, Hg. apply list_insert_id.
  rewrite list_lookup_fmap, Hx. reflexivity.
Qed.

Lemma ReadAmplification_fileCounts s s' :
  map fileCount (orderedIntervals s') = map fileCount (orderedIntervals s) ->
  ReadAmplification s' = ReadAmplification s.
Proof.
  unfold ReadAmplification. generalize 0.
  generalize (orderedIntervals s). generalize (orderedIntervals s').
  induction l as [|x l IH]; intros [|y l0] a Hmap; try discriminate; [reflexivity|].
  simpl in *. injection Hmap as Hxy Hmap. rewrite Hxy. apply IH. exact Hmap.
Qed.

Lemma structure_fileCounts s s' :
  structure s' = structure s ->
  map fileCount (orderedIntervals s') = map fileCount (orderedIntervals s).
Proof.
  intros Hs. destruct (structure_fields _ _ Hs) as (_ & Hivs & _).
  apply (f_equal (map (fun t : Z * intervalKey * list fileRef * Z * Z * Z * Z =>
                         let '(_, _, _, fc, _, _, _) := t in fc))) in Hivs.
  rewrite !map_map in Hivs. exact Hivs.
Qed.

Section CompactionState.
Context `{E : Env}.

Lemma resetInterval_structure iv iv' :
  intervalStructure iv' = intervalStructure iv -> resetInterval iv' = resetInterval iv.
Proof.
  destruct iv, iv'. unfold intervalStructure, resetInterval, setCompacting. simpl.
  intros [= -> -> -> -> -> -> ->]. reflexivity.
Qed.

Lemma InitCompactingFileInfo_structure_only s s' inProgress :
  structure s' = structure s ->
  InitCompactingFileInfo s' inProgress = InitCompactingFileInfo s inProgress.
Proof.
  intros Hs. unfold structure in Hs. injection Hs as HL Hivs Hsplit Harena Hbytes.
  assert (Hreset : map resetInterval (orderedIntervals s')
                   = map resetInterval (orderedIntervals s)).
  { apply list_eq. intros i.
    change ((resetInterval <$> orderedIntervals s') !! i
            = (resetInterval <$> orderedIntervals s) !! i).
    rewrite !list_lookup_fmap.
    destruct (orderedIntervals s' !! i) as [iv'|] eqn:Hi'.
    - destruct (map_lookup_eq intervalStructure _ _ i iv' Hivs Hi') as (iv & Hi & Heq).
      rewrite Hi. simpl. f_equal. apply resetInterval_structure. exact Heq.
    - apply lookup_ge_None in Hi'. apply (f_equal length) in Hivs.
      rewrite !length_map in Hivs. rewrite lookup_ge_None_2 by lia. reflexivity. }
  unfold InitCompactingFileInfo. cbv zeta. rewrite Hreset, Harena.
  destruct (foldM initFile _ _) as [ivs1| |]; simpl; try reflexivity.
  destruct (foldM initInProgress _ _) as [ivs2| |]; simpl; try reflexivity.
  destruct (foldM propagateStep _ _) as [st| |]; simpl; try reflexivity.
  unfold setIntervals. rewrite HL, Hbytes, Harena, Hsplit. reflexivity.
Qed.

(** X12.  [InitCompactingFileInfo] reads none of the compaction-state
    fields: on two engines that differ only in [compactingFileCount],
    [isBaseCompacting] and [intervalRangeIsBaseCompacting] it gives the same
    result.  So initialising again, after [InitCompactingFileInfo] or after
    [UpdateStateForStartedCompaction], gives what initialising the first
    engine gives. *)
Theorem InitCompactingFileInfo_starts_afresh (s : L0Sublevels)
    (inProgress : list L0Compaction) :
  (forall s', structure s' = structure s ->
     InitCompactingFileInfo s' inProgress = InitCompactingFileInfo s inProgress) /\
  (forall inProgress0 s1, InitCompactingFileInfo s inProgress0 = Ok s1 ->
     InitCompactingFileInfo s1 inProgress = InitCompactingFileInfo s inProgress) /\
  (forall inputs isBase s1, UpdateStateForStartedCompaction s inputs isBase = Ok s1 ->
     InitCompactingFileInfo s1 inProgress = InitCompactingFileInfo s inProgress).
Proof.
  split; [intros s' Hs; apply InitCompactingFileInfo_structure_only; exact Hs|]. split.
  - intros inProgress0 s1 H. apply InitCompactingFileInfo_structure_only.
    eapply InitCompactingFileInfo_structure. exact H.
  - intros inputs isBase s1 H. apply InitCompactingFileInfo_structure_only.
    eapply UpdateStateForStartedCompaction_structure. exact H.
Qed.

(** X13.  After [InitCompactingFileInfo] the depth that remains once the
    ongoing compactions are done lies between 0 and the read amplification,
    and the read amplification is what it was. *)
Theorem MaxDepthAfterOngoingCompactions_bounds (s : L0Sublevels)
    (inProgress : list L0Compaction) (s' : L0Sublevels) :
  InitCompactingFileInfo s inProgress = Ok s' ->
  0 <= MaxDepthAfterOngoingCompactions s' <= ReadAmplification s' /\
  ReadAmplification s' = ReadAmplification s.
Proof.
  intros Hinit.
  destruct (MaxDepthAfterOngoingCompactions_max s') as (H0 & _ & Hex).
  destruct (ReadAmplification_max s') as (Hr0 & Hall & _).
  split; [split; [exact H0|]|].
  - destruct Hex as [->|(iv & Hiv & <-)]; [exact Hr0|].
    pose proof (InitCompactingFileInfo_counts _ _ _ Hinit iv Hiv).
    pose proof (Hall iv Hiv). lia.
  - apply ReadAmplification_fileCounts, structure_fileCounts.
    eapply InitCompactingFileInfo_structure. exact Hinit.
Qed.

End CompactionState.

Lemma MaxDepthAfterOngoingCompactions_bounds_witness :
  0 <= MaxDepthAfterOngoingCompactions tallStack <= ReadAmplification tallStack /\
  ReadAmplification tallStack
  = ReadAmplification (orEmpty (NewL0Sublevels (E := bytesEnv) tallStackFiles 1048576)).
Proof.
  apply (MaxDepthAfterOngoingCompactions_bounds (E := bytesEnv)
           (orEmpty (NewL0Sublevels (E := bytesEnv) tallStackFiles 1048576)) [] tallStack).
  vm_compute. reflexivity.
Defined.

(** *** Counting compacting files *)

Definition spanHolds (mn mx : Z) (i : nat) : bool :=
  (mn <=? Z.of_nat i) && (Z.of_nat i <=? mx).

(** [counted n ivs ivs'] : the intervals are those of [ivs] with
    [compactingFileCount] raised by [n i] at place [i]. *)
Definition counted (n : nat -> Z) (ivs ivs' : list fileInterval) : Prop :=
  length ivs' = length ivs /\
  forall (i : nat) iv', ivs' !! i = Some iv' ->
    exists iv, ivs !! i = Some iv /\
               compactingFileCount iv' = compactingFileCount iv + n i.

Lemma counted_same ivs ivs' :
  map compactingFileCount ivs' = map compactingFileCount ivs -> counted (fun _ => 0) ivs ivs'.
Proof.
  intros Hmap. split.
  - apply (f_equal length) in Hmap. rewrite !length_map in Hmap. exact Hmap.
  - intros i iv' Hiv'.
    destruct (map_lookup_eq compactingFileCount _ _ i iv' Hmap Hiv') as (iv & Hiv & Heq).
    exists iv. split; [exact Hiv|lia].
Qed.

Lemma counted_trans n1 n2 n ivs1 ivs2 ivs3 :
  (forall i, n i = n1 i + n2 i) ->
  counted n1 ivs1 ivs2 -> counted n2 ivs2 ivs3 -> counted n ivs1 ivs3.
Proof.
  intros Hn [Hl1 H1] [Hl2 H2]. split; [congruence|].
  intros i iv3 Hiv3. destruct (H2 i iv3 Hiv3) as (iv2 & Hiv2 & Hc2).
  destruct (H1 i iv2 Hiv2) as (iv1 & Hiv1 & Hc1). exists iv1. split; [exact Hiv1|].
  rewrite Hn. lia.
Qed.

Lemma count_span_fold (g : fileInterval -> fileInterval) mn mx ivs ivs' :
  (forall iv, compactingFileCount (g iv) = compactingFileCount iv + 1) ->
  foldM (fun ivs i => lift (zupd ivs i g)) (zrange mn mx) ivs = Ok ivs' ->
  counted (fun i => if spanHolds mn mx i then 1 else 0) ivs ivs'.
Proof.
  intros Hg H. destruct (Z.le_gt_cases mn (mx + 1)) as [Hle|Hgt].
  2:{ rewrite zrange_nil in H by lia. injection H as <-. split; [reflexivity|].
      intros i iv Hiv. exists iv. split; [exact Hiv|]. unfold spanHolds.
      destruct (Z.leb_spec mn (Z.of_nat i)); destruct (Z.leb_spec (Z.of_nat i) mx);
        simpl; lia. }
  assert (HP : counted (fun i => if (mn <=? Z.of_nat i) && (Z.of_nat i <? mx + 1)
                                 then 1 else 0) ivs ivs').
  { eapply (foldM_zrange_inv
              (fun k ivs1 => counted (fun i => if (mn <=? Z.of_nat i) && (Z.of_nat i <? k)
                                               then 1 else 0) ivs ivs1));
      [exact Hle| | |exact H].
    - intros k ivs1 ivs1' Hk [Hlen Hcount] Hstep. apply lift_Ok in Hstep.
      apply zupd_Some in Hstep as (x & Hk0 & Hx & ->). split.
      + rewrite length_insert. exact Hlen.
      + intros i iv' Hiv'.
        destruct (decide (i = Z.to_nat k)) as [->|Hne].
        * rewrite list_lookup_insert_eq in Hiv' by (eapply lookup_lt_Some; exact Hx).
          injection Hiv' as <-. destruct (Hcount _ _ Hx) as (iv & Hiv & Hc).
          exists iv. split; [exact Hiv|]. rewrite Hg, Hc, Z2Nat.id by lia.
          destruct (Z.leb_spec mn k); destruct (Z.ltb_spec k k);
            destruct (Z.ltb_spec k (k + 1)); simpl; lia.
        * rewrite list_lookup_insert_ne in Hiv' by congruence.
          destruct (Hcount _ _ Hiv') as (iv & Hiv & Hc).
          exists iv. split; [exact Hiv|]. rewrite Hc.
          destruct (Z.leb_spec mn (Z.of_nat i)); destruct (Z.ltb_spec (Z.of_nat i) k);
            destruct (Z.ltb_spec (Z.of_nat i) (k + 1)); simpl; lia.
    - split; [reflexivity|]. intros i iv Hiv. exists iv. split; [exact Hiv|].
      destruct (Z.leb_spec mn (Z.of_nat i)); destruct (Z.ltb_spec (Z.of_nat i) mn);
        simpl; lia. }
  destruct HP as [Hlen Hcount]. split; [exact Hlen|].
  intros i iv' Hiv'. destruct (Hcount i iv' Hiv') as (iv & Hiv & Hc).
  exists iv. split; [exact Hiv|]. rewrite Hc. unfold spanHolds.
  destruct (Z.leb_spec mn (Z.of_nat i)); destruct (Z.ltb_spec (Z.of_nat i) (mx + 1));
    destruct (Z.leb_spec (Z.of_nat i) mx); simpl; lia.
Qed.

(** The file at place [q] is compacting and its span holds interval [i]. *)
Definition compactingOver (arena : list FileMetadata) (i : nat) (q : nat) : bool :=
  match arena !! q with
  | Some f => Compacting f && spanHolds (minIntervalIndex f) (maxIntervalIndex f) i
  | None => false
  end.

Lemma initFile_counted ivs f ivs' :
  initFile ivs f = Ok ivs' ->
  counted (fun i => if Compacting f && spanHolds (minIntervalIndex f) (maxIntervalIndex f) i
                    then 1 else 0) ivs ivs'.
Proof.
  unfold initFile. destruct (Compacting f); simpl.
  - intros H. unfold markFileCompacting in H.
    eapply (count_span_fold (fun iv => if IsIntraL0Compacting f then countCompacting iv
                                       else setBaseCompacting (countCompacting iv)));
      [|exact H].
    intros iv. destruct (IsIntraL0Compacting f); reflexivity.
  - intros [= <-]. split; [reflexivity|]. intros i iv Hiv. exists iv. split; [exact Hiv|lia].
Qed.

Lemma initFiles_counted arena rest :
  forall done ivs ivs',
    arena = done ++ rest ->
    foldM initFile rest ivs = Ok ivs' ->
    counted (fun i => zlen (List.filter (compactingOver arena i)
                              (seq (length done) (length rest)))) ivs ivs'.
Proof.
  induction rest as [|f rest IH]; intros done ivs ivs' Harena H; simpl in H.
  - injection H as <-. split; [reflexivity|]. intros i iv Hiv. exists iv.
    split; [exact Hiv|]. unfold zlen. simpl. lia.
  - inv_bind H. apply initFile_counted in Hx.
    specialize (IH (done ++ [f]) x ivs').
    rewrite <- app_assoc in IH. specialize (IH Harena H).
    eapply counted_trans; [|exact Hx|exact IH].
    intros i. cbn [length seq List.filter]. rewrite length_app. simpl.
    replace (length done + 1)%nat with (S (length done)) by lia.
    unfold compactingOver at 1. rewrite Harena, list_lookup_middle by reflexivity.
    destruct (Compacting f && spanHolds (minIntervalIndex f) (maxIntervalIndex f) i);
      unfold zlen; simpl; lia.
Qed.

Lemma filter_filter_and {A} (f g : A -> bool) (l : list A) :
  List.filter f (List.filter g l) = List.filter (fun x => g x && f x) l.
Proof.
  induction l as [|x l IH]; [reflexivity|]. simpl.
  destruct (g x); simpl; [destruct (f x)|]; rewrite IH; reflexivity.
Qed.

Lemma filter_pointwise {A} (f g : A -> bool) (l : list A) :
  (forall x, f x = g x) -> List.filter f l = List.filter g l.
Proof.
  intros Hfg. induction l as [|x l IH]; [reflexivity|]. simpl. rewrite Hfg, IH. reflexivity.
Qed.

Definition isCompacting (s : L0Sublevels) (q : fileRef) : bool :=
  match levelMetadata s !! q with Some f => Compacting f | None => false end.

Section InitCounts.
Context `{E : Env}.

Lemma InitCompactingFileInfo_counted s inProgress s' :
  InitCompactingFileInfo s inProgress = Ok s' ->
  forall (i : nat) iv', orderedIntervals s' !! i = Some iv' ->
    compactingFileCount iv'
    = zlen (List.filter (compactingOver (levelMetadata s) i)
              (seq 0 (length (levelMetadata s)))).
Proof.
  unfold InitCompactingFileInfo. intros H. do 3 inv_bind H. injection H as <-. simpl.
  pose proof (initFiles_counted (levelMetadata s) (levelMetadata s) [] _ _ eq_refl Hx) as H1.
  assert (H2 : map compactingFileCount x0 = map compactingFileCount x).
  { eapply (foldM_inv (fun ivs => map compactingFileCount ivs = map compactingFileCount x));
      [|reflexivity|exact Hx0].
    intros ivs c ivs' Hivs Hc. unfold initInProgress in Hc.
    eapply (foldM_inv (fun ivs => map compactingFileCount ivs = map compactingFileCount x));
      [|exact Hivs|exact Hc].
    intros ivs1 j ivs1' Hivs1 Hstep. simpl in Hstep. destruct (IsIntraL0 c).
    - inv_bind Hstep. injection Hstep as <-. exact Hivs1.
    - apply lift_Ok in Hstep. rewrite <- Hivs1.
      eapply zupd_map_id; [|exact Hstep]. reflexivity. }
  assert (H3 : map compactingFileCount (snd x1) = map compactingFileCount x0).
  { eapply (foldM_inv (fun st => map compactingFileCount (snd st)
                                 = map compactingFileCount x0) propagateStep _ (0, x0));
      [|reflexivity|exact Hx1].
    intros st j st' Hst Hstep. unfold propagateStep in Hstep. inv_bind Hstep.
    destruct (isBaseCompacting x2); [|injection Hstep as <-; exact Hst].
    eapply (foldM_inv (fun st => map compactingFileCount (snd st)
                                 = map compactingFileCount x0)); [|exact Hst|exact Hstep].
    intros st1 k st1' Hst1 Hm. unfold markRange in Hm. inv_bind Hm. injection Hm as <-.
    simpl. apply lift_Ok in Hx3. rewrite <- Hst1.
    eapply zupd_map_id; [|exact Hx3]. reflexivity. }
  intros i iv' Hiv'.
  destruct (map_lookup_eq compactingFileCount _ _ i iv' H3 Hiv') as (iv2 & Hiv2 & ->).
  destruct (map_lookup_eq compactingFileCount _ _ i iv2 H2 Hiv2) as (iv1 & Hiv1 & ->).
  destruct H1 as [_ H1]. destruct (H1 i iv1 Hiv1) as (iv0 & Hiv0 & ->).
  change (map resetInterval (orderedIntervals s)) with (resetInterval <$> orderedIntervals s)
    in Hiv0.
  rewrite list_lookup_fmap in Hiv0.
  destruct (orderedIntervals s !! i); [|discriminate]. injection Hiv0 as <-. simpl. lia.
Qed.

(** X14.  After construction and [InitCompactingFileInfo], the
    [compactingFileCount] of every interval is the number of the interval's
    files that are compacting; it lies between 0 and [fileCount]. *)
Theorem compactingFileCount_counts_compacting_files (fs : list FileMetadata)
    (flushSplitMaxBytes : Z) (s0 : L0Sublevels) (inProgress : list L0Compaction)
    (s : L0Sublevels) (i : nat) (iv : fileInterval) :
  (forall f0, f0 ∈ fs -> wfFile f0) ->
  NewL0Sublevels fs flushSplitMaxBytes = Ok s0 ->
  InitCompactingFileInfo s0 inProgress = Ok s ->
  orderedIntervals s !! i = Some iv ->
  compactingFileCount iv = zlen (List.filter (isCompacting s) (files iv)) /\
  0 <= compactingFileCount iv <= fileCount iv.
Proof.
  intros Hwf Hnew Hinit Hiv.
  destruct (built_subs fs flushSplitMaxBytes s0 Hwf Hnew) as (subs & Hlen & HB).
  pose proof (InitCompactingFileInfo_structure _ _ _ Hinit) as Hstruct.
  destruct (structure_fields _ _ Hstruct) as (_ & Hivs & Harena).
  destruct (map_lookup_eq intervalStructure _ _ i iv Hivs Hiv) as (iv0 & Hiv0 & Hshape).
  unfold intervalStructure in Hshape. injection Hshape as _ _ Hfiles Hcount _ _ _.
  destruct (B_ivs _ _ _ _ HB _ _ Hiv0) as (_ & _ & Hfiles0 & Hcount0 & _).
  assert (Heq : compactingFileCount iv = zlen (List.filter (isCompacting s) (files iv))).
  { rewrite (InitCompactingFileInfo_counted _ _ _ Hinit i iv Hiv).
    rewrite Hfiles, Hfiles0, filter_filter_and. unfold zlen. f_equal. f_equal.
    replace (length (levelMetadata s0)) with (length subs)
      by (rewrite (B_arena _ _ _ _ HB), length_imap; exact Hlen).
    apply filter_pointwise. intros q.
    unfold compactingOver, isCompacting. rewrite Harena.
    destruct (levelMetadata s0 !! q) as [f|] eqn:Hf; [|symmetry; apply andb_false_r].
    destruct (Built_file _ _ _ _ _ _ HB Hlen Hf) as (_ & _ & _ & Hmn & Hmx & _).
    unfold spanHolds, coversb. rewrite Hmn, Hmx. apply andb_comm. }
  split; [exact Heq|]. rewrite Heq, Hcount, Hcount0, <- Hfiles. unfold zlen.
  pose proof (List.filter_length_le (isCompacting s) (files iv)). lia.
Qed.

End InitCounts.

Definition intervalAt (s : L0Sublevels) (i : nat) : fileInterval :=
  default (mkInterval 0 (mkIntervalKey [] false) false 0 0 false 0 0 [] 0)
    (orderedIntervals s !! i).

Lemma compactingFileCount_counts_compacting_files_witness :
  compactingFileCount (intervalAt upperFileIntraCompacting 0)
  = zlen (List.filter (isCompacting upperFileIntraCompacting)
            (files (intervalAt upperFileIntraCompacting 0))) /\
  0 <= compactingFileCount (intervalAt upperFileIntraCompacting 0)
    <= fileCount (intervalAt upperFileIntraCompacting 0).
Proof.
  apply (compactingFileCount_counts_compacting_files (E := bytesEnv)
           [l0file 1 "a" "d" 100 1 false false; l0file 2 "a" "d" 100 2 true true] 1048576
           (orEmpty (NewL0Sublevels (E := bytesEnv)
                       [l0file 1 "a" "d" 100 1 false false;
                        l0file 2 "a" "d" 100 2 true true] 1048576))
           [] upperFileIntraCompacting 0).
  - wf_files.
  - vm_compute. reflexivity.
  - vm_compute. reflexivity.
  - vm_compute. reflexivity.
Defined.

(** *** UpdateStateForStartedCompaction *)

(** The input file [p] spans interval [i]. *)
Definition inputOver (arena : list FileMetadata) (i : nat) (p : fileRef) : bool :=
  match arena !! p with
  | Some f => spanHolds (minIntervalIndex f) (maxIntervalIndex f) i
  | None => false
  end.

Section UpdateState.
Context `{E : Env}.

(** X15.  With no input file, [UpdateStateForStartedCompaction] leaves
    the engine as it is for an intra-L0 compaction, and for a base
    compaction it panics: the interval range is still [-1, 0] and
    [orderedIntervals[-1]] is read. *)
Theorem UpdateStateForStartedCompaction_no_inputs (s : L0Sublevels)
    (inputs : list (list fileRef)) :
  concat inputs = [] ->
  UpdateStateForStartedCompaction s inputs false = Ok s /\
  UpdateStateForStartedCompaction s inputs true = Panic.
Proof.
  intros Hnone. unfold UpdateStateForStartedCompaction. rewrite Hnone. simpl.
  split; [destruct s; reflexivity|].
  change (zrange (-1) 0) with [-1; 0]. reflexivity.
Qed.

Lemma updateFile_counted arena st p st' :
  updateFile arena st p = Ok st' ->
  counted (fun i => if inputOver arena i p then 1 else 0) (snd st) (snd st') /\
  exists f, arena !! p = Some f /\
    fst (fst st') = (if (minIntervalIndex f <? fst (fst st)) || (fst (fst st) =? -1)
                     then minIntervalIndex f else fst (fst st)) /\
    snd (fst st') = (if snd (fst st) <? maxIntervalIndex f
                     then maxIntervalIndex f else snd (fst st)).
Proof.
  destruct st as [[mn mx] ivs]. unfold updateFile. intros H.
  inv_bind H. apply lift_Ok in Hx. inv_bind H. injection H as <-. simpl.
  split; [|exists x; auto].
  unfold inputOver. rewrite Hx.
  eapply (count_span_fold countCompacting); [|exact Hx0]. reflexivity.
Qed.

Lemma updateFiles_counted arena ps :
  forall st st',
    foldM (updateFile arena) ps st = Ok st' ->
    counted (fun i => zlen (List.filter (inputOver arena i) ps)) (snd st) (snd st').
Proof.
  induction ps as [|p ps IH]; intros st st' H; simpl in H.
  - injection H as <-. split; [reflexivity|]. intros i iv Hiv. exists iv.
    split; [exact Hiv|]. unfold zlen. simpl. lia.
  - inv_bind H. apply updateFile_counted in Hx as [Hx _].
    eapply counted_trans; [|exact Hx|apply IH; exact H].
    intros i. simpl. destruct (inputOver arena i p); unfold zlen; simpl; lia.
Qed.

Lemma updateBase_counts ivs i ivs' :
  updateBase ivs i = Ok ivs' ->
  map compactingFileCount ivs' = map compactingFileCount ivs.
Proof.
  unfold updateBase. intros H. do 2 inv_bind H. apply lift_Ok in Hx.
  apply (zupd_map_id compactingFileCount) in Hx; [|reflexivity]. rewrite <- Hx.
  eapply (foldM_inv (fun l => map compactingFileCount l = map compactingFileCount x));
    [|reflexivity|exact H].
  intros l j l' Hl Hstep. apply lift_Ok in Hstep. rewrite <- Hl.
  eapply zupd_map_id; [|exact Hstep]. reflexivity.
Qed.

Lemma UpdateStateForStartedCompaction_counted s inputs isBase s' :
  UpdateStateForStartedCompaction s inputs isBase = Ok s' ->
  counted (fun i => zlen (List.filter (inputOver (levelMetadata s) i) (concat inputs)))
    (orderedIntervals s) (orderedIntervals s').
Proof.
  unfold UpdateStateForStartedCompaction. intros H. inv_bind H.
  destruct x as [[mn mx] ivs]. apply updateFiles_counted in Hx. simpl in Hx.
  destruct isBase.
  - inv_bind H. injection H as <-. simpl.
    assert (Hsame : map compactingFileCount x = map compactingFileCount ivs).
    { eapply (foldM_inv (fun l => map compactingFileCount l = map compactingFileCount ivs));
        [|reflexivity|exact Hx0].
      intros l j l' Hl Hstep. rewrite <- Hl. eapply updateBase_counts. exact Hstep. }
    eapply counted_trans; [|exact Hx|apply counted_same; exact Hsame].
    intros i. simpl. lia.
  - injection H as <-. simpl. exact Hx.
Qed.

Lemma UpdateStateForStartedCompaction_counts_inputs_aux (s : L0Sublevels)
    (inputs : list (list fileRef)) (isBase : bool) (s' : L0Sublevels) :
  UpdateStateForStartedCompaction s inputs isBase = Ok s' ->
  length (orderedIntervals s') = length (orderedIntervals s) /\
  forall (i : nat) iv', orderedIntervals s' !! i = Some iv' ->
    exists iv, orderedIntervals s !! i = Some iv /\
      fileCount iv' = fileCount iv /\
      compactingFileCount iv'
      = compactingFileCount iv
        + zlen (List.filter (inputOver (levelMetadata s) i) (concat inputs)).
Proof.
  intros H. destruct (UpdateStateForStartedCompaction_counted _ _ _ _ H) as [Hlen Hcount].
  split; [exact Hlen|]. intros i iv' Hiv'.
  destruct (Hcount i iv' Hiv') as (iv & Hiv & Hc). exists iv. split; [exact Hiv|].
  split; [|exact Hc].
  pose proof (structure_fileCounts _ _ (UpdateStateForStartedCompaction_structure _ _ _ _ H))
    as Hfc.
  destruct (map_lookup_eq fileCount _ _ i iv' Hfc Hiv') as (iv0 & Hiv0 & Heq). congruence.
Qed.

(** X16.  [UpdateStateForStartedCompaction] raises the
    [compactingFileCount] of every interval by the number of input files
    whose span holds the interval (a file listed twice counts twice) and
    leaves [fileCount] as it is. *)
Theorem UpdateStateForStartedCompaction_counts_inputs (s : L0Sublevels)
    (inputs : list (list fileRef)) (isBase : bool) (s' : L0Sublevels) :
  UpdateStateForStartedCompaction s inputs isBase = Ok s' ->
  length (orderedIntervals s') = length (orderedIntervals s) /\
  forall (i : nat) iv', orderedIntervals s' !! i = Some iv' ->
    exists iv, orderedIntervals s !! i = Some iv /\
      fileCount iv' = fileCount iv /\
      compactingFileCount iv'
      = compactingFileCount iv
        + zlen (List.filter (inputOver (levelMetadata s) i) (concat inputs)).
Proof. apply UpdateStateForStartedCompaction_counts_inputs_aux. Qed.

(** X17.  Starting a compaction never raises
    [MaxDepthAfterOngoingCompactions] and leaves [ReadAmplification] as it
    is. *)
Theorem UpdateStateForStartedCompaction_lowers_depth (s : L0Sublevels)
    (inputs : list (list fileRef)) (isBase : bool) (s' : L0Sublevels) :
  UpdateStateForStartedCompaction s inputs isBase = Ok s' ->
  MaxDepthAfterOngoingCompactions s' <= MaxDepthAfterOngoingCompactions s /\
  ReadAmplification s' = ReadAmplification s.
Proof.
  intros H. split.
  - destruct (UpdateStateForStartedCompaction_counts_inputs_aux s inputs isBase s' H)
      as [_ Haux].
    destruct (MaxDepthAfterOngoingCompactions_max s') as (_ & _ & Hex).
    destruct (MaxDepthAfterOngoingCompactions_max s) as (H0 & Hall & _).
    destruct Hex as [->|(iv' & Hiv' & <-)]; [exact H0|].
    apply list_elem_of_lookup in Hiv' as [i Hiv'].
    destruct (Haux i iv' Hiv') as (iv & Hiv & Hfc & Hc).
    pose proof (Hall iv ltac:(eapply list_elem_of_lookup_2; exact Hiv)).
    unfold zlen in Hc. lia.
  - apply ReadAmplification_fileCounts, structure_fileCounts.
    eapply UpdateStateForStartedCompaction_structure. exact H.
Qed.

End UpdateState.

Definition tallStackStarted : L0Sublevels :=
  orEmpty (UpdateStateForStartedCompaction tallStack [[0%nat; 1%nat]] true).

Lemma UpdateStateForStartedCompaction_no_inputs_witness :
  UpdateStateForStartedCompaction tallStack [[]; []] false = Ok tallStack /\
  UpdateStateForStartedCompaction tallStack [[]; []] true = Panic.
Proof.
  apply UpdateStateForStartedCompaction_no_inputs. reflexivity.
Defined.

Lemma UpdateStateForStartedCompaction_counts_inputs_witness :
  length (orderedIntervals tallStackStarted) = length (orderedIntervals tallStack) /\
  forall (i : nat) iv', orderedIntervals tallStackStarted !! i = Some iv' ->
    exists iv, orderedIntervals tallStack !! i = Some iv /\
      fileCount iv' = fileCount iv /\
      compactingFileCount iv'
      = compactingFileCount iv
        + zlen (List.filter (inputOver (levelMetadata tallStack) i)
                  (concat [[0%nat; 1%nat]])).
Proof.
  apply (UpdateStateForStartedCompaction_counts_inputs tallStack
           [[0%nat; 1%nat]] true tallStackStarted).
  vm_compute. reflexivity.
Defined.

Lemma UpdateStateForStartedCompaction_lowers_depth_witness :
  MaxDepthAfterOngoingCompactions tallStackStarted
    <= MaxDepthAfterOngoingCompactions tallStack /\
  ReadAmplification tallStackStarted = ReadAmplification tallStack.
Proof.
  apply (UpdateStateForStartedCompaction_lowers_depth tallStack
           [[0%nat; 1%nat]] true tallStackStarted).
  vm_compute. reflexivity.
Defined.

Section UpdateMarks.
Context `{E : Env}.

Lemma updateFiles_bounds arena ps :
  (forall p f, p ∈ ps -> arena !! p = Some f -> 0 <= minIntervalIndex f) ->
  forall st st',
    foldM (updateFile arena) ps st = Ok st' ->
    fst (fst st) = -1 \/ 0 <= fst (fst st) ->
    (fst (fst st') = -1 \/ 0 <= fst (fst st')) /\
    snd (fst st) <= snd (fst st') /\
    (0 <= fst (fst st) -> 0 <= fst (fst st') <= fst (fst st)) /\
    forall p f, p ∈ ps -> arena !! p = Some f ->
      0 <= fst (fst st') <= minIntervalIndex f /\ maxIntervalIndex f <= snd (fst st').
Proof.
  induction ps as [|p ps IH]; intros Hpos st st' H Hst; simpl in H.
  - injection H as <-. split; [exact Hst|]. split; [lia|]. split; [lia|].
    intros p f Hp. inversion Hp.
  - inv_bind H. destruct (updateFile_counted _ _ _ _ Hx) as (_ & f & Hf & Hmn & Hmx).
    pose proof (Hpos p f ltac:(left) Hf) as Hf0.
    assert (Hmn1 : 0 <= fst (fst x) <= minIntervalIndex f /\
                   (0 <= fst (fst st) -> fst (fst x) <= fst (fst st))).
    { rewrite Hmn. destruct (Z.ltb_spec (minIntervalIndex f) (fst (fst st)));
        destruct (Z.eqb_spec (fst (fst st)) (-1)); simpl; lia. }
    assert (Hmx1 : maxIntervalIndex f <= snd (fst x) /\ snd (fst st) <= snd (fst x)).
    { rewrite Hmx. destruct (Z.ltb_spec (snd (fst st)) (maxIntervalIndex f)); lia. }
    assert (Hpos' : forall q g, q ∈ ps -> arena !! q = Some g -> 0 <= minIntervalIndex g)
      by (intros q g Hq Hg; apply (Hpos q g); [right; exact Hq|exact Hg]).
    destruct (IH Hpos' x st' H ltac:(lia)) as (H1 & H2 & H3 & H4).
    split; [exact H1|]. split; [lia|]. split; [lia|].
    intros q g Hq Hg. apply elem_of_cons in Hq as [->|Hq]; [|apply (H4 q g); assumption].
    assert (g = f) by congruence. subst g. lia.
Qed.

Lemma updateFile_flags arena st p st' :
  updateFile arena st p = Ok st' ->
  map isBaseCompacting (snd st') = map isBaseCompacting (snd st) /\
  map intervalRangeIsBaseCompacting (snd st')
  = map intervalRangeIsBaseCompacting (snd st).
Proof.
  destruct st as [[mn mx] ivs]. unfold updateFile. intros H.
  do 2 inv_bind H. injection H as <-. simpl. split.
  - eapply (foldM_inv (fun l => map isBaseCompacting l = map isBaseCompacting ivs));
      [|reflexivity|exact Hx0].
    intros l j l' Hl Hstep. apply lift_Ok in Hstep. rewrite <- Hl.
    eapply zupd_map_id; [|exact Hstep]. reflexivity.
  - eapply (foldM_inv (fun l => map intervalRangeIsBaseCompacting l
                                = map intervalRangeIsBaseCompacting ivs));
      [|reflexivity|exact Hx0].
    intros l j l' Hl Hstep. apply lift_Ok in Hstep. rewrite <- Hl.
    eapply zupd_map_id; [|exact Hstep]. reflexivity.
Qed.

Lemma updateFiles_flags arena ps :
  forall st st',
    foldM (updateFile arena) ps st = Ok st' ->
    map isBaseCompacting (snd st') = map isBaseCompacting (snd st) /\
    map intervalRangeIsBaseCompacting (snd st')
    = map intervalRangeIsBaseCompacting (snd st).
Proof.
  induction ps as [|p ps IH]; intros st st' H; simpl in H.
  - injection H as <-. auto.
  - inv_bind H. destruct (updateFile_flags _ _ _ _ Hx) as [H1 H2].
    destruct (IH _ _ H) as [H3 H4]. split; congruence.
Qed.

Lemma updateBase_marks ivs k ivs' :
  updateBase ivs k = Ok ivs' -> markedAt ivs' (Z.to_nat k) /\ marksKept ivs ivs'.
Proof.
  unfold updateBase. intros H. do 2 inv_bind H. apply lift_Ok in Hx.
  assert (Hkept : marksKept x ivs').
  { eapply (foldM_inv (marksKept x)); [|intros i Hi; exact Hi|exact H].
    intros l j l' Hl Hstep i Hi. apply lift_Ok in Hstep.
    eapply zupd_marksKept; [|exact Hstep|apply Hl; exact Hi]. intros iv Hiv. exact Hiv. }
  split.
  - apply Hkept. eapply zupd_marks; [|exact Hx]. reflexivity.
  - intros i Hi. apply Hkept. eapply zupd_marksKept; [|exact Hx|exact Hi].
    intros iv _. reflexivity.
Qed.

(** X18.  [UpdateStateForStartedCompaction] for a base compaction marks
    [isBaseCompacting] on every interval under an input file (and on every
    interval between the input files), and never clears the mark; for an
    intra-L0 compaction it leaves [isBaseCompacting] and
    [intervalRangeIsBaseCompacting] of every interval as they are. *)
Theorem UpdateStateForStartedCompaction_marks_base (s : L0Sublevels)
    (inputs : list (list fileRef)) (isBase : bool) (s' : L0Sublevels) :
  UpdateStateForStartedCompaction s inputs isBase = Ok s' ->
  (forall p f, p ∈ concat inputs -> levelMetadata s !! p = Some f ->
               0 <= minIntervalIndex f) ->
  (isBase = true ->
   forall p f (i : nat) iv',
     p ∈ concat inputs -> levelMetadata s !! p = Some f ->
     minIntervalIndex f <= Z.of_nat i <= maxIntervalIndex f ->
     orderedIntervals s' !! i = Some iv' -> isBaseCompacting iv' = true) /\
  (forall (i : nat) iv iv',
     orderedIntervals s !! i = Some iv -> isBaseCompacting iv = true ->
     orderedIntervals s' !! i = Some iv' -> isBaseCompacting iv' = true) /\
  (isBase = false ->
   map isBaseCompacting (orderedIntervals s') = map isBaseCompacting (orderedIntervals s) /\
   map intervalRangeIsBaseCompacting (orderedIntervals s')
   = map intervalRangeIsBaseCompacting (orderedIntervals s)).
Proof.
  unfold UpdateStateForStartedCompaction. intros H Hpos. inv_bind H.
  destruct x as [[mn mx] ivs].
  destruct (updateFiles_flags _ _ _ _ Hx) as [Hflags Hrange]. simpl in Hflags, Hrange.
  destruct (updateFiles_bounds _ _ Hpos _ _ Hx ltac:(left; reflexivity))
    as (_ & _ & _ & Hbounds). simpl in Hbounds.
  assert (Hkept0 : marksKept (orderedIntervals s) ivs).
  { intros i (iv & Hiv & Hibc).
    assert (Hl : (isBaseCompacting <$> ivs) !! i = (isBaseCompacting <$> orderedIntervals s) !! i)
      by (f_equal; exact Hflags).
    rewrite !list_lookup_fmap, Hiv in Hl. simpl in Hl.
    destruct (ivs !! i) as [iv1|] eqn:Hiv1; [|discriminate]. injection Hl as Hl.
    exists iv1. split; [exact Hiv1|congruence]. }
  destruct isBase.
  - inv_bind H. injection H as <-. simpl.
    assert (Hkept : marksKept ivs x).
    { eapply (foldM_inv (marksKept ivs)); [|intros i Hi; exact Hi|exact Hx0].
      intros l j l' Hl Hstep i Hi. apply updateBase_marks in Hstep as [_ Hstep].
      apply Hstep, Hl, Hi. }
    split; [|split; [|discriminate]].
    + intros _ p f i iv' Hp Hf Hi Hiv'.
      destruct (Hbounds p f Hp Hf) as [Hmn Hmx].
      assert (HP : forall j : nat, mn <= Z.of_nat j < mx + 1 -> markedAt x j).
      { eapply (foldM_zrange_inv
                  (fun k l => forall j : nat, mn <= Z.of_nat j < k -> markedAt l j));
          [| | |exact Hx0]; [lia| |intros j Hj; lia].
        intros k l l' Hk Hl Hstep j Hj. apply updateBase_marks in Hstep as [Hnew Hkeep].
        destruct (Z.eq_dec (Z.of_nat j) k) as [<-|Hne].
        - rewrite Nat2Z.id in Hnew. exact Hnew.
        - apply Hkeep, Hl. lia. }
      destruct (HP i ltac:(lia)) as (iv1 & Hiv1 & Hibc). congruence.
    + intros i iv iv' Hiv Hibc Hiv'.
      destruct (Hkept i (Hkept0 i (ex_intro _ iv (conj Hiv Hibc)))) as (iv1 & Hiv1 & H1).
      congruence.
  - injection H as <-. simpl. split; [discriminate|]. split; [|auto].
    intros i iv iv' Hiv Hibc Hiv'.
    destruct (Hkept0 i (ex_intro _ iv (conj Hiv Hibc))) as (iv1 & Hiv1 & H1). congruence.
Qed.

End UpdateMarks.

Lemma UpdateStateForStartedCompaction_marks_base_witness :
  (true = true ->
   forall p f (i : nat) iv',
     p ∈ concat [[0%nat; 1%nat]] -> levelMetadata tallStack !! p = Some f ->
     minIntervalIndex f <= Z.of_nat i <= maxIntervalIndex f ->
     orderedIntervals tallStackStarted !! i = Some iv' -> isBaseCompacting iv' = true) /\
  (forall (i : nat) iv iv',
     orderedIntervals tallStack !! i = Some iv -> isBaseCompacting iv = true ->
     orderedIntervals tallStackStarted !! i = Some iv' -> isBaseCompacting iv' = true) /\
  (true = false ->
   map isBaseCompacting (orderedIntervals tallStackStarted)
   = map isBaseCompacting (orderedIntervals tallStack) /\
   map intervalRangeIsBaseCompacting (orderedIntervals tallStackStarted)
   = map intervalRangeIsBaseCompacting (orderedIntervals tallStack)).
Proof.
  apply (UpdateStateForStartedCompaction_marks_base tallStack
           [[0%nat; 1%nat]] true tallStackStarted).
  - vm_compute. reflexivity.
  - intros p f Hp Hf. simpl in Hp.
    repeat (apply elem_of_cons in Hp as [->|Hp]);
      [injection Hf as <-; vm_compute; discriminate..|inversion Hp].
Defined.

(** ** Candidates that the pickers return *)

(** A property of candidates that every step of the builders keeps holds
    for the candidate that a picker returns. *)
Section PickedInvariant.
Context `{E : Env}.
Variable s : L0Sublevels.
Variable P : L0CompactionFiles -> Prop.
Hypothesis P_add : forall c p f c',
  P c -> levelMetadata s !! p = Some f -> addFile (levelMetadata s) c p = Ok c' -> P c'.
Hypothesis P_stack_base : forall c p f,
  P c -> levelMetadata s !! p = Some f ->
  P (stackOne c (lcf.seedIntervalMinLevel c) (subLevel f)).
Hypothesis P_stack_intra : forall c p f,
  P c -> levelMetadata s !! p = Some f ->
  P (stackOne c (subLevel f) (lcf.seedIntervalMaxLevel c)).
Hypothesis P_pre : forall c, P c -> P (setPreExtension c).
Hypothesis P_remark : forall c c',
  P c -> remarkFiles (levelMetadata s) c = Ok c' -> P c'.
Hypothesis P_seed : forall p f (i : nat) iv b isIntra eus,
  orderedIntervals s !! i = Some iv -> p ∈ files iv -> levelMetadata s !! p = Some f ->
  b = 0 \/ b = zlen (Levels s) - 1 ->
  P (lcf.mk [] (newBitSet (zlen (levelMetadata s))) 0 0 b (index iv) 0
       (minIntervalIndex f) (maxIntervalIndex f) isIntra eus 0 0 []).

Definition keptP (o : option L0CompactionFiles) : Prop := forall lc, o = Some lc -> P lc.

Lemma keptP_Some c : P c -> keptP (Some c).
Proof. intros Hc lc [= <-]. exact Hc. Qed.

Lemma P_add_any c p c' : P c -> addFile (levelMetadata s) c p = Ok c' -> P c'.
Proof.
  intros Hc H. destruct (addFile_cases _ _ _ _ H) as (f & Hf & _). eapply P_add; eassumption.
Qed.

Lemma extendLevels_keeps earliestUnflushed levels c ok c' :
  P c -> extendLevels s earliestUnflushed levels c = Ok (ok, c') -> P c'.
Proof.
  intros Hc H.
  eapply (extendLevels_inv P (levelMetadata s) earliestUnflushed); [|reflexivity|exact Hc|exact H].
  intros c0 p f c0' Hc0 Hf _ _ Hadd. eapply P_add; eassumption.
Qed.

Lemma baseLoop_keeps minCompactionDepth fs :
  forall c lastCandidate r,
    P c -> keptP lastCandidate ->
    baseLoop s minCompactionDepth fs c lastCandidate = Ok r -> keptP r.
Proof.
  induction fs as [|p fs IH]; intros c lastCandidate r Hc Hlast H; simpl in H.
  - injection H as <-. exact Hlast.
  - apply bind_Ok in H as (f2 & Hf2 & H). apply lift_Ok in Hf2.
    apply bind_Ok in H as (c2 & Hc2 & H).
    apply bind_Ok in H as ([ok c3] & Hext & H).
    assert (HP3 : P c3).
    { eapply extendLevels_keeps; [|exact Hext]. eapply P_add_any; [|exact Hc2].
      eapply P_stack_base; eassumption. }
    destruct ok; simpl in H; [|injection H as <-; exact Hlast].
    destruct lastCandidate as [lc|].
    + destruct (growthCapReached lc c3 minCompactionDepth);
        [injection H as <-; exact Hlast|].
      eapply IH; [exact HP3|apply keptP_Some; exact HP3|exact H].
    + eapply IH; [exact HP3|apply keptP_Some; exact HP3|exact H].
Qed.

Lemma finishCandidate_keeps minCompactionDepth lastCandidate r :
  keptP lastCandidate -> finishCandidate s minCompactionDepth lastCandidate = Ok r -> keptP r.
Proof.
  intros Hlast H c ->. apply finishCandidate_Some in H as (lc & -> & _ & Hre).
  eapply P_remark; [apply Hlast; reflexivity|exact Hre].
Qed.

Lemma baseCompactionUsingSeed_keeps p (i : nat) iv minCompactionDepth r :
  orderedIntervals s !! i = Some iv -> p ∈ files iv ->
  baseCompactionUsingSeed s p (index iv) minCompactionDepth = Ok r -> keptP r.
Proof.
  intros Hiv Hp H. unfold baseCompactionUsingSeed in H.
  apply bind_Ok in H as (f & Hf & H). apply lift_Ok in Hf.
  apply bind_Ok in H as (c & Hc & H). apply bind_Ok in H as (iv' & Hiv' & H).
  apply bind_Ok in H as (last & Hloop & H).
  eapply finishCandidate_keeps; [|exact H].
  eapply baseLoop_keeps; [| |exact Hloop]; [|discriminate].
  eapply P_add_any; [|exact Hc]. eapply P_seed; [eassumption..|left; reflexivity].
Qed.

Lemma pickBaseLoop_keeps minCompactionDepth baseFiles scored :
  forall considered c,
    pickBaseLoop s minCompactionDepth baseFiles scored considered = Ok (Some c) -> P c.
Proof.
  induction scored as [|si scored IH]; intros considered c H; simpl in H; [discriminate|].
  apply bind_Ok in H as (iv & Hiv & H). apply lift_Ok in Hiv.
  apply zget_Some in Hiv as [_ Hiv].
  apply bind_Ok in H as (seen & Hseen & H). destruct seen; [eauto|].
  apply bind_Ok in H as (p & Hp & H). apply lift_Ok in Hp.
  apply bind_Ok in H as (f & Hf & H). apply bind_Ok in H as (considered' & Hmark & H).
  destruct (Compacting f).
  { destruct (IsIntraL0Compacting f); [eauto|discriminate]. }
  apply bind_Ok in H as (r & Hr & H). destruct r as [c0|]; [|eauto].
  apply bind_Ok in H as (b & Hb & H). destruct b; [eauto|]. injection H as <-.
  eapply (baseCompactionUsingSeed_keeps p _ iv); [exact Hiv| |exact Hr|reflexivity].
  destruct (files iv) as [|q rest]; [discriminate|]. injection Hp as <-. left.
Qed.

Lemma intraLoop_keeps earliestUnflushed minCompactionDepth fs_rev :
  forall c lastCandidate r,
    P c -> keptP lastCandidate ->
    intraLoop s earliestUnflushed minCompactionDepth fs_rev c lastCandidate = Ok r ->
    keptP r.
Proof.
  induction fs_rev as [|p fs IH]; intros c lastCandidate r Hc Hlast H; simpl in H.
  - injection H as <-. exact Hlast.
  - apply bind_Ok in H as (f2 & Hf2 & H). apply lift_Ok in Hf2.
    destruct (Compacting f2); [injection H as <-; exact Hlast|].
    apply bind_Ok in H as (c2 & Hc2 & H).
    apply bind_Ok in H as ([ok c3] & Hext & H).
    assert (HP3 : P c3).
    { eapply extendLevels_keeps; [|exact Hext]. eapply P_add_any; [|exact Hc2].
      eapply P_stack_intra; eassumption. }
    destruct ok; simpl in H; [|injection H as <-; exact Hlast].
    destruct lastCandidate as [lc|].
    + destruct (growthCapReached lc c3 minCompactionDepth);
        [injection H as <-; exact Hlast|].
      eapply IH; [exact HP3|apply keptP_Some; exact HP3|exact H].
    + eapply IH; [exact HP3|apply keptP_Some; exact HP3|exact H].
Qed.

Lemma rectangle_keeps mn mx c isBase ok c' :
  P c -> extendCandidateToRectangle s mn mx c isBase = Ok (ok, c') -> P c'.
Proof.
  intros Hc H.
  eapply (extendCandidateToRectangle_inv P (levelMetadata s));
    [|exact P_pre|reflexivity|exact Hc|exact H].
  intros c0 p f c0' Hc0 Hf _ _ Hadd. eapply P_add; eassumption.
Qed.

Lemma intraL0CompactionUsingSeed_keeps p (i : nat) iv earliestUnflushed minCompactionDepth r :
  orderedIntervals s !! i = Some iv -> p ∈ files iv ->
  intraL0CompactionUsingSeed s p (index iv) earliestUnflushed minCompactionDepth = Ok r ->
  keptP r.
Proof.
  intros Hiv Hp H. unfold intraL0CompactionUsingSeed in H.
  apply bind_Ok in H as (f & Hf & H). apply lift_Ok in Hf.
  apply bind_Ok in H as (c & Hc & H). apply bind_Ok in H as (iv' & Hiv' & H).
  apply bind_Ok in H as (k & Hk & H). apply bind_Ok in H as (last & Hloop & H).
  apply bind_Ok in H as (kept & Hfin & H).
  assert (Hkept : keptP kept).
  { eapply finishCandidate_keeps; [|exact Hfin].
    eapply intraLoop_keeps; [| |exact Hloop]; [|discriminate].
    eapply P_add_any; [|exact Hc]. eapply P_seed; [eassumption..|right; reflexivity]. }
  destruct kept as [lc|]; [|injection H as <-; discriminate].
  apply bind_Ok in H as ([ok lc'] & Hrect & H). injection H as <-.
  apply keptP_Some. eapply rectangle_keeps; [|exact Hrect]. apply Hkept. reflexivity.
Qed.

Lemma intraSeedLoop_elem earliestUnflushed fs_rev :
  forall f sdr considered p sdr' considered',
    intraSeedLoop (levelMetadata s) earliestUnflushed fs_rev f sdr considered
      = Ok (Some p, sdr', considered') ->
    p ∈ fs_rev \/ f = Some p.
Proof.
  induction fs_rev as [|q rest IH]; intros f sdr considered p sdr' considered' H; simpl in H.
  - injection H as -> _ _. right. reflexivity.
  - apply bind_Ok in H as (g & Hg & H).
    destruct (Compacting g); [injection H as <- _ _; left; left|].
    apply bind_Ok in H as (considered1 & Hmark & H).
    destruct (earliestUnflushed <=? LargestSeqNum g).
    + destruct (sdr - 1 =? 0); [injection H as <- _ _; left; left|].
      destruct (IH _ _ _ _ _ _ H) as [Hin|[= <-]]; left; [right; exact Hin|left].
    + injection H as <- _ _. left. left.
Qed.

Lemma pickIntraLoop_keeps earliestUnflushed minCompactionDepth scored :
  forall considered c,
    pickIntraLoop s earliestUnflushed minCompactionDepth scored considered = Ok (Some c) ->
    P c.
Proof.
  induction scored as [|si scored IH]; intros considered c H; simpl in H; [discriminate|].
  apply bind_Ok in H as (iv & Hiv & H). apply lift_Ok in Hiv.
  apply zget_Some in Hiv as [_ Hiv].
  apply bind_Ok in H as (seen & Hseen & H). destruct seen; [eauto|].
  apply bind_Ok in H as ([[f sdr] considered'] & Hseed & H).
  destruct (sdr <? minCompactionDepth); [eauto|].
  destruct f as [p|]; [|discriminate].
  apply bind_Ok in H as (g & Hg & H). destruct (Compacting g); [eauto|].
  apply bind_Ok in H as (r & Hr & H). destruct r as [c0|]; [|eauto]. injection H as <-.
  eapply (intraL0CompactionUsingSeed_keeps p _ iv); [exact Hiv| |exact Hr|reflexivity].
  apply intraSeedLoop_elem in Hseed as [Hin|Hin]; [|discriminate].
  rewrite elem_of_reverse in Hin. exact Hin.
Qed.

Lemma picked_keeps minCompactionDepth baseFiles earliestUnflushed c :
  PickBaseCompaction s minCompactionDepth baseFiles = Ok (Some c) \/
  PickIntraL0Compaction s earliestUnflushed minCompactionDepth = Ok (Some c) ->
  P c.
Proof.
  intros [H|H].
  - eapply pickBaseLoop_keeps. exact H.
  - eapply pickIntraLoop_keeps. exact H.
Qed.

End PickedInvariant.

Definition sizeOf (arena : list FileMetadata) (p : fileRef) : Z :=
  match arena !! p with Some f => Size f | None => 0 end.

(** The sum of the sizes of the files [l]. *)
Definition filesBytes (arena : list FileMetadata) (l : list fileRef) : Z :=
  sumZ (map (sizeOf arena) l).

(** What the fields of a candidate say about its files. *)
Record candSound (s : L0Sublevels) (c : L0CompactionFiles) : Prop := {
  S_nodup : NoDup (lcf.Files c);
  S_marks : forall q : nat,
      zget (lcf.FilesIncluded c) (Z.of_nat q) = Some true <-> q ∈ lcf.Files c;
  S_len : length (lcf.FilesIncluded c) = length (levelMetadata s);
  S_bytes : lcf.fileBytes c = uint64 (filesBytes (levelMetadata s) (lcf.Files c));
  S_span : forall p f, p ∈ lcf.Files c -> levelMetadata s !! p = Some f ->
      lcf.minIntervalIndex c <= minIntervalIndex f /\
      maxIntervalIndex f <= lcf.maxIntervalIndex c;
  S_seed : lcf.minIntervalIndex c <= lcf.seedInterval c <= lcf.maxIntervalIndex c
}.

Lemma zget_insert_nat {A} (l : list A) (p q : nat) (x : A) :
  (p < length l)%nat ->
  zget (<[p := x]> l) (Z.of_nat q) = if decide (q = p) then Some x else zget l (Z.of_nat q).
Proof.
  intros Hp. rewrite !zget_lookup. destruct (decide (q = p)) as [->|Hne].
  - apply list_lookup_insert_eq. exact Hp.
  - apply list_lookup_insert_ne. congruence.
Qed.

Section CandidateSound.
Context `{E : Env}.
Variable s : L0Sublevels.
Hypothesis HW : wfEngine s.

Lemma candSound_add c p f c' :
  candSound s c -> levelMetadata s !! p = Some f ->
  addFile (levelMetadata s) c p = Ok c' -> candSound s c'.
Proof.
  intros Hc Hf H.
  destruct (addFile_cases _ _ _ _ H) as (f' & Hf' & [[_ ->]|[Hinc (fi & Hm & ->)]]);
    [exact Hc|].
  assert (f' = f) by congruence. subst f'.
  destruct (W_file _ HW _ _ Hf) as (Hidx & _).
  unfold markBit in Hm. apply lift_Ok in Hm. rewrite Hidx in Hm, Hinc.
  apply zupd_Some in Hm as (b & _ & Hb & ->). rewrite Nat2Z.id in Hb |- *.
  assert (Hp : (p < length (lcf.FilesIncluded c))%nat) by (eapply lookup_lt_Some; exact Hb).
  assert (Hnotin : p ∉ lcf.Files c).
  { intros Hin. apply (S_marks _ _ Hc) in Hin. congruence. }
  destruct Hc as [Hnd Hmarks Hlen Hbytes Hspan Hseed]. constructor; simpl.
  - apply NoDup_app. split; [exact Hnd|]. split; [|apply NoDup_singleton].
    intros q Hq Hq'. apply list_elem_of_singleton in Hq'. subst q. contradiction.
  - intros q. rewrite zget_insert_nat by exact Hp. rewrite elem_of_app, list_elem_of_singleton.
    destruct (decide (q = p)) as [->|Hne]; [tauto|]. rewrite Hmarks. tauto.
  - rewrite length_insert. exact Hlen.
  - rewrite Hbytes. unfold filesBytes, uint64. rewrite map_app, sumZ_app. simpl.
    unfold sizeOf at 3. rewrite Hf. rewrite Z.add_0_r. apply Zplus_mod_idemp_l.
  - intros q g Hq Hg. apply elem_of_app in Hq as [Hq|Hq].
    + destruct (Hspan q g Hq Hg).
      destruct (Z.ltb_spec (minIntervalIndex f) (lcf.minIntervalIndex c));
        destruct (Z.ltb_spec (lcf.maxIntervalIndex c) (maxIntervalIndex f)); lia.
    + apply list_elem_of_singleton in Hq. subst q. assert (g = f) by congruence. subst g.
      destruct (Z.ltb_spec (minIntervalIndex f) (lcf.minIntervalIndex c));
        destruct (Z.ltb_spec (lcf.maxIntervalIndex c) (maxIntervalIndex f)); lia.
  - destruct (Z.ltb_spec (minIntervalIndex f) (lcf.minIntervalIndex c));
      destruct (Z.ltb_spec (lcf.maxIntervalIndex c) (maxIntervalIndex f)); lia.
Qed.

Lemma remark_marks l :
  forall b0 b,
    foldM (fun b p => let* f := deref (levelMetadata s) p in markBit b (l0Index f)) l b0
      = Ok b ->
    length b = length b0 /\
    forall q : nat, zget b (Z.of_nat q) = Some true <->
                    zget b0 (Z.of_nat q) = Some true \/ q ∈ l.
Proof.
  induction l as [|p l IH]; intros b0 b H; simpl in H.
  - injection H as <-. split; [reflexivity|]. intros q. split; [auto|].
    intros [Hq|Hq]; [exact Hq|inversion Hq].
  - apply bind_Ok in H as (b1 & Hb1 & H). apply bind_Ok in Hb1 as (f & Hf & Hb1).
    apply lift_Ok in Hf. destruct (W_file _ HW _ _ Hf) as (Hidx & _).
    unfold markBit in Hb1. apply lift_Ok in Hb1. rewrite Hidx in Hb1.
    apply zupd_Some in Hb1 as (x & _ & Hx & ->). rewrite Nat2Z.id in Hx, H.
    destruct (IH _ _ H) as [Hlen Hmarks]. split; [rewrite Hlen; apply length_insert|].
    intros q. rewrite Hmarks, zget_insert_nat by (eapply lookup_lt_Some; exact Hx).
    rewrite elem_of_cons. destruct (decide (q = p)) as [->|Hne]; [tauto|]. tauto.
Qed.

Lemma candSound_remark c c' :
  candSound s c -> remarkFiles (levelMetadata s) c = Ok c' -> candSound s c'.
Proof.
  intros Hc H. unfold remarkFiles in H. apply bind_Ok in H as (fi & Hfi & H).
  injection H as <-. destruct (remark_marks _ _ _ Hfi) as [Hlen Hmarks].
  destruct Hc as [Hnd _ Hlen0 Hbytes Hspan Hseed]. constructor; simpl; try assumption.
  - intros q. rewrite Hmarks. split; [|auto]. intros [Hq|Hq]; [|exact Hq]. exfalso.
    unfold clearAllBits in Hq. rewrite zget_lookup in Hq.
    change (map (fun _ : bool => false) (lcf.FilesIncluded c))
      with ((fun _ : bool => false) <$> lcf.FilesIncluded c) in Hq.
    rewrite list_lookup_fmap in Hq.
    destruct (lcf.FilesIncluded c !! q); discriminate.
  - rewrite Hlen. unfold clearAllBits. rewrite length_map. exact Hlen0.
Qed.

Lemma candSound_seed p f (i : nat) iv b isIntra eus :
  orderedIntervals s !! i = Some iv -> p ∈ files iv -> levelMetadata s !! p = Some f ->
  b = 0 \/ b = zlen (Levels s) - 1 ->
  candSound s (lcf.mk [] (newBitSet (zlen (levelMetadata s))) 0 0 b (index iv) 0
                 (minIntervalIndex f) (maxIntervalIndex f) isIntra eus 0 0 []).
Proof.
  intros Hiv Hp Hf _. destruct (W_iv _ HW _ _ Hiv) as (Hidx & _ & _ & Hcov).
  destruct (Hcov p Hp) as (f' & Hf' & Hspan). assert (f' = f) by congruence. subst f'.
  constructor; simpl.
  - apply NoDup_nil_2.
  - intros q. split; [|intros Hq; inversion Hq]. unfold newBitSet.
    rewrite zget_lookup. intros Hq. apply lookup_replicate in Hq as [Hq _]. discriminate.
  - unfold newBitSet, zlen. rewrite length_replicate. lia.
  - reflexivity.
  - intros q g Hq. inversion Hq.
  - lia.
Qed.

Lemma picked_candSound minCompactionDepth baseFiles earliestUnflushed c :
  PickBaseCompaction s minCompactionDepth baseFiles = Ok (Some c) \/
  PickIntraL0Compaction s earliestUnflushed minCompactionDepth = Ok (Some c) ->
  candSound s c.
Proof.
  apply (picked_keeps s (candSound s)).
  - apply candSound_add.
  - intros c0 p f [ ] _. constructor; simpl; assumption.
  - intros c0 p f [ ] _. constructor; simpl; assumption.
  - intros c0 [ ]. constructor; simpl; assumption.
  - apply candSound_remark.
  - apply candSound_seed.
Qed.

End CandidateSound.

Definition pickedOr (r : result (option L0CompactionFiles)) : L0CompactionFiles :=
  match r with
  | Ok (Some c) => c
  | _ => lcf.mk [] [] 0 0 0 0 0 0 0 false 0 0 0 []
  end.

Section PickedTheorems.
Context `{E : Env}.

Lemma built_structure_wfEngine fs flushSplitMaxBytes s0 s :
  (forall f0, f0 ∈ fs -> wfFile f0) ->
  NewL0Sublevels fs flushSplitMaxBytes = Ok s0 ->
  structure s = structure s0 -> wfEngine s.
Proof.
  intros Hwf Hnew Hs. eapply wfEngine_structure; [exact Hs|].
  eapply NewL0Sublevels_wfEngine; eassumption.
Qed.

(** X19.  On an engine with the structure that [NewL0Sublevels] built
    (so also after [InitCompactingFileInfo] and
    [UpdateStateForStartedCompaction]), a candidate returned by
    [PickBaseCompaction] or [PickIntraL0Compaction] holds no file twice,
    and [FilesIncluded] has one bit per L0 file, set exactly for the files
    in [Files]. *)
Theorem picked_candidate_files_marked (fs : list FileMetadata) (flushSplitMaxBytes : Z)
    (s0 s : L0Sublevels) (minCompactionDepth earliestUnflushed : Z)
    (baseFiles : list FileMetadata) (c : L0CompactionFiles) :
  (forall f0, f0 ∈ fs -> wfFile f0) ->
  NewL0Sublevels fs flushSplitMaxBytes = Ok s0 ->
  structure s = structure s0 ->
  PickBaseCompaction s minCompactionDepth baseFiles = Ok (Some c) \/
  PickIntraL0Compaction s earliestUnflushed minCompactionDepth = Ok (Some c) ->
  NoDup (lcf.Files c) /\
  length (lcf.FilesIncluded c) = length fs /\
  forall q : nat, zget (lcf.FilesIncluded c) (Z.of_nat q) = Some true <-> q ∈ lcf.Files c.
Proof.
  intros Hwf Hnew Hs Hpick.
  pose proof (built_structure_wfEngine _ _ _ _ Hwf Hnew Hs) as HW.
  destruct (picked_candSound s HW _ _ _ _ Hpick) as [Hnd Hmarks Hlen _ _ _].
  split; [exact Hnd|]. split; [|exact Hmarks].
  rewrite Hlen. destruct (structure_fields _ _ Hs) as (_ & _ & ->).
  destruct (NewL0Sublevels_built _ _ _ Hwf Hnew) as (subs & _ & HB).
  rewrite (B_arena _ _ _ _ HB), length_imap. unfold arenaOf. apply length_imap.
Qed.

(** X20.  On such an engine, a candidate returned by a picker has
    [fileBytes] equal to the sum of the sizes of its files (modulo 2^64),
    its interval range [minIntervalIndex, maxIntervalIndex] covers the span
    of each of its files, and the seed interval lies in that range. *)
Theorem picked_candidate_bytes_and_range (fs : list FileMetadata) (flushSplitMaxBytes : Z)
    (s0 s : L0Sublevels) (minCompactionDepth earliestUnflushed : Z)
    (baseFiles : list FileMetadata) (c : L0CompactionFiles) :
  (forall f0, f0 ∈ fs -> wfFile f0) ->
  NewL0Sublevels fs flushSplitMaxBytes = Ok s0 ->
  structure s = structure s0 ->
  PickBaseCompaction s minCompactionDepth baseFiles = Ok (Some c) \/
  PickIntraL0Compaction s earliestUnflushed minCompactionDepth = Ok (Some c) ->
  lcf.fileBytes c = uint64 (filesBytes (levelMetadata s) (lcf.Files c)) /\
  lcf.minIntervalIndex c <= lcf.seedInterval c <= lcf.maxIntervalIndex c /\
  forall p, p ∈ lcf.Files c ->
    exists f, levelMetadata s !! p = Some f /\
              lcf.minIntervalIndex c <= minIntervalIndex f /\
              maxIntervalIndex f <= lcf.maxIntervalIndex c.
Proof.
  intros Hwf Hnew Hs Hpick.
  pose proof (built_structure_wfEngine _ _ _ _ Hwf Hnew Hs) as HW.
  destruct (picked_candSound s HW _ _ _ _ Hpick) as [_ Hmarks Hlen Hbytes Hspan Hseed].
  split; [exact Hbytes|]. split; [exact Hseed|].
  intros p Hp. apply Hmarks in Hp as Hbit. apply zget_range in Hbit.
  destruct (lookup_lt_is_Some_2 (levelMetadata s) p) as [f Hf].
  { unfold zlen in Hbit. rewrite Hlen in Hbit. lia. }
  exists f. split; [exact Hf|]. apply (Hspan p f Hp Hf).
Qed.

End PickedTheorems.

Lemma picked_candidate_files_marked_witness :
  NoDup (lcf.Files (pickedOr (PickBaseCompaction (E := bytesEnv) tallStack 2 []))) /\
  length (lcf.FilesIncluded (pickedOr (PickBaseCompaction (E := bytesEnv) tallStack 2 [])))
  = length tallStackFiles /\
  forall q : nat,
    zget (lcf.FilesIncluded (pickedOr (PickBaseCompaction (E := bytesEnv) tallStack 2 [])))
      (Z.of_nat q) = Some true <->
    q ∈ lcf.Files (pickedOr (PickBaseCompaction (E := bytesEnv) tallStack 2 [])).
Proof.
  apply (picked_candidate_files_marked (E := bytesEnv) tallStackFiles 1048576
           (orEmpty (NewL0Sublevels (E := bytesEnv) tallStackFiles 1048576)) tallStack
           2 0 []).
  - wf_files.
  - vm_compute. reflexivity.
  - vm_compute. reflexivity.
  - left. vm_compute. reflexivity.
Defined.

Lemma picked_candidate_bytes_and_range_witness :
  lcf.fileBytes (pickedOr (PickIntraL0Compaction (E := bytesEnv) tallStack 15 2))
  = uint64 (filesBytes (levelMetadata tallStack)
              (lcf.Files (pickedOr (PickIntraL0Compaction (E := bytesEnv) tallStack 15 2)))) /\
  lcf.minIntervalIndex (pickedOr (PickIntraL0Compaction (E := bytesEnv) tallStack 15 2))
    <= lcf.seedInterval (pickedOr (PickIntraL0Compaction (E := bytesEnv) tallStack 15 2))
    <= lcf.maxIntervalIndex (pickedOr (PickIntraL0Compaction (E := bytesEnv) tallStack 15 2)) /\
  forall p, p ∈ lcf.Files (pickedOr (PickIntraL0Compaction (E := bytesEnv) tallStack 15 2)) ->
    exists f, levelMetadata tallStack !! p = Some f /\
      lcf.minIntervalIndex (pickedOr (PickIntraL0Compaction (E := bytesEnv) tallStack 15 2))
        <= minIntervalIndex f /\
      maxIntervalIndex f
        <= lcf.maxIntervalIndex (pickedOr (PickIntraL0Compaction (E := bytesEnv) tallStack 15 2)).
Proof.
  apply (picked_candidate_bytes_and_range (E := bytesEnv) tallStackFiles 1048576
           (orEmpty (NewL0Sublevels (E := bytesEnv) tallStackFiles 1048576)) tallStack
           2 15 []).
  - wf_files.
  - vm_compute. reflexivity.
  - vm_compute. reflexivity.
  - right. vm_compute. reflexivity.
Defined.

(** ** ExtendL0ForBaseCompactionTo *)

Section RectangleState.
Context `{E : Env}.
Variable s : L0Sublevels.
Variable Q : Z * L0CompactionFiles -> Prop.
Hypothesis Q_add : forall fs st idx st',
  Q st -> rectAdd (levelMetadata s) fs st idx = Ok st' -> Q st'.

Lemma rectLevels_state fuel :
  forall sl increment endLevel mn mx n c r,
    Q (n, c) -> rectLevels fuel s sl increment endLevel mn mx n c = Ok r -> Q r.
Proof.
  induction fuel as [|fuel IH]; intros sl increment endLevel mn mx n c r HQ H;
    cbn [rectLevels] in H; [discriminate|].
  destruct (sl =? endLevel); [injection H as <-; exact HQ|].
  apply bind_Ok in H as (fs & Hfs & H).
  apply bind_Ok in H as ([[[mn1 mx1] firstIndex] lastIndex] & Hscan & H).
  destruct (mx1 <? mn1); [injection H as <-; exact HQ|].
  destruct (firstIndex <? 0); [eapply IH; eassumption|].
  apply bind_Ok in H as (run & Hrun & H).
  destruct (candidateNonCompactingFirst (closeRun run lastIndex) =? -1);
    [injection H as <-; exact HQ|].
  apply bind_Ok in H as (mn2 & Hmn2 & H). apply bind_Ok in H as (mx2 & Hmx2 & H).
  apply bind_Ok in H as ([n2 c2] & Hadd & H).
  eapply IH; [|exact H].
  eapply (foldM_inv Q); [|exact HQ|exact Hadd].
  intros st a st' Hst Hstep. eapply Q_add; eassumption.
Qed.

End RectangleState.

(** What the rectangle extension has done to the candidate [c0] so far:
    [added] files appended, counted by the first component. *)
Definition appended (arena : list FileMetadata) (c0 : L0CompactionFiles)
    (added : list fileRef) (st : Z * L0CompactionFiles) : Prop :=
  lcf.Files (snd st) = lcf.Files c0 ++ added /\
  fst st = zlen added /\
  (forall p, p ∈ added -> exists f, arena !! p = Some f /\ Compacting f = false) /\
  lcf.seedInterval (snd st) = lcf.seedInterval c0 /\
  lcf.seedIntervalStackDepthReduction (snd st) = lcf.seedIntervalStackDepthReduction c0 /\
  lcf.seedIntervalMinLevel (snd st) = lcf.seedIntervalMinLevel c0 /\
  lcf.seedIntervalMaxLevel (snd st) = lcf.seedIntervalMaxLevel c0.

Section ExtendAppends.
Context `{E : Env}.

Lemma rectAdd_appended arena c0 fs st idx st' :
  (exists added, appended arena c0 added st) ->
  rectAdd arena fs st idx = Ok st' ->
  exists added, appended arena c0 added st'.
Proof.
  destruct st as [n c]. intros (added & Hfiles & Hn & Hidle & Hrest) H. simpl in *.
  unfold rectAdd in H. apply bind_Ok in H as (p & Hp & H).
  apply bind_Ok in H as (f & Hf & H). apply lift_Ok in Hf.
  destruct (Compacting f) eqn:Hcomp; [discriminate|].
  destruct (lcf.isIntraL0 c && _).
  { injection H as <-. exists added. exact (conj Hfiles (conj Hn (conj Hidle Hrest))). }
  apply bind_Ok in H as (included & Hinc & H). apply lift_Ok in Hinc.
  destruct included.
  { injection H as <-. exists added. exact (conj Hfiles (conj Hn (conj Hidle Hrest))). }
  apply bind_Ok in H as (c' & Hadd & H). injection H as <-.
  destruct (addFile_cases _ _ _ _ Hadd) as (f' & Hf' & [[Hi _]|[_ (fi & _ & ->)]]).
  { assert (f' = f) by congruence. subst f'. congruence. }
  exists (added ++ [p]). unfold appended. simpl.
  split; [rewrite Hfiles, app_assoc; reflexivity|].
  split; [rewrite zlen_snoc; lia|]. split; [|exact Hrest].
  intros q Hq. apply elem_of_app in Hq as [Hq|Hq]; [apply Hidle; exact Hq|].
  apply list_elem_of_singleton in Hq. subst q. eauto.
Qed.

(** X21.  [ExtendL0ForBaseCompactionTo] only appends to the candidate:
    the files it had stay in front in their order, every file added is not
    compacting, the seed interval and its levels and depth are unchanged,
    and the boolean returned is true exactly when a file was added. *)
Theorem ExtendL0ForBaseCompactionTo_only_appends (s : L0Sublevels)
    (smallest largest : InternalKey) (c : L0CompactionFiles) (ok : bool)
    (c' : L0CompactionFiles) :
  ExtendL0ForBaseCompactionTo s smallest largest c = Ok (ok, c') ->
  exists added,
    lcf.Files c' = lcf.Files c ++ added /\
    (ok = true <-> added <> []) /\
    (forall p, p ∈ added ->
       exists f, levelMetadata s !! p = Some f /\ Compacting f = false) /\
    lcf.seedInterval c' = lcf.seedInterval c /\
    lcf.seedIntervalStackDepthReduction c' = lcf.seedIntervalStackDepthReduction c /\
    lcf.seedIntervalMinLevel c' = lcf.seedIntervalMinLevel c /\
    lcf.seedIntervalMaxLevel c' = lcf.seedIntervalMaxLevel c.
Proof.
  unfold ExtendL0ForBaseCompactionTo. cbv zeta.
  destruct (_ <? _).
  { intros [= <- <-]. exists []. rewrite app_nil_r.
    split; [reflexivity|]. split; [split; [discriminate|congruence]|].
    split; [intros p Hp; inversion Hp|auto]. }
  unfold extendCandidateToRectangle. cbv zeta. intros H.
  apply bind_Ok in H as ([n c1] & Hrect & H). injection H as <- <-.
  assert (H0 : exists added, appended (levelMetadata s) c added (0, setPreExtension c)).
  { exists []. unfold appended. simpl. rewrite app_nil_r.
    split; [reflexivity|]. split; [reflexivity|].
    split; [intros p Hp; inversion Hp|auto]. }
  destruct (rectLevels_state s (fun st => exists added, appended (levelMetadata s) c added st)
              (rectAdd_appended (levelMetadata s) c) _ _ _ _ _ _ _ _ _ H0 Hrect)
    as (added & Hfiles & Hn & Hidle & Hrest).
  simpl in *. exists added. split; [exact Hfiles|]. split; [|split; [exact Hidle|exact Hrest]].
  rewrite Hn. unfold zlen. destruct added; simpl.
  - split; [discriminate|congruence].
  - split; [discriminate|]. intros _. apply Z.ltb_lt. lia.
Qed.

End ExtendAppends.

Section ExtendReturns.
Context `{E : Env}.
Variable s : L0Sublevels.
Hypothesis HW : wfEngine s.

(** A candidate whose indices all lie inside the engine. *)
Definition levelsOk (c : L0CompactionFiles) : Prop :=
  candOk s c /\ 0 <= lcf.seedIntervalMaxLevel c < zlen (Levels s).

Lemma picked_levelsOk minCompactionDepth baseFiles earliestUnflushed c :
  PickBaseCompaction s minCompactionDepth baseFiles = Ok (Some c) \/
  PickIntraL0Compaction s earliestUnflushed minCompactionDepth = Ok (Some c) ->
  levelsOk c.
Proof.
  apply (picked_keeps s levelsOk).
  - intros c0 p f c0' [Hc0 Hmax] Hf Hadd.
    destruct (addFile_total s HW c0 p Hc0 ltac:(eapply lookup_lt_Some; exact Hf))
      as (c1 & Hadd1 & Hc1).
    assert (c0' = c1) by congruence. subst c1. split; [exact Hc1|].
    destruct (addFile_cases _ _ _ _ Hadd) as (f' & _ & [[_ ->]|[_ (fi & _ & ->)]]);
      exact Hmax.
  - intros c0 p f [Hc0 Hmax] Hf. destruct (W_file _ HW _ _ Hf) as (_ & _ & _ & _ & Hsub).
    split; [apply stackOne_candOk; [exact Hc0|apply (K_level _ _ Hc0)]|exact Hsub].
  - intros c0 p f [Hc0 Hmax] Hf. destruct (W_file _ HW _ _ Hf) as (_ & _ & _ & _ & Hsub).
    split; [apply stackOne_candOk; [exact Hc0|exact Hsub]|exact Hmax].
  - intros c0 [Hc0 Hmax]. split; [|exact Hmax].
    destruct Hc0. constructor; simpl; assumption.
  - intros c0 c0' [Hc0 Hmax] Hre.
    destruct (remarkFiles_total s HW c0 Hc0) as (c1 & Hre1 & Hc1).
    assert (c0' = c1) by congruence. subst c1. split; [exact Hc1|].
    apply remarkFiles_shape in Hre as (fi & ->). exact Hmax.
  - intros p f i iv b isIntra eus Hiv Hp Hf Hb.
    destruct (W_file _ HW _ _ Hf) as (_ & _ & _ & _ & Hsub).
    split; [apply (seed_candOk s HW p f); [exact Hf|lia]|]. simpl. lia.
Qed.

Lemma rectLevels_returns increment endLevel (fuel : nat) :
  (increment = 1 /\ endLevel <= zlen (Levels s)) \/ (increment = -1 /\ -1 <= endLevel) ->
  forall sl mn mx addedCount c,
    0 <= (endLevel - sl) * increment < Z.of_nat fuel ->
    (sl = endLevel \/ 0 <= sl < zlen (Levels s)) ->
    candOk s c ->
    exists r, rectLevels fuel s sl increment endLevel mn mx addedCount c = Ok r /\
              candOk s (snd r).
Proof.
  intros Hdir. induction fuel as [|fuel IH]; intros sl mn mx addedCount c Hm Hsl Hc; [lia|].
  cbn [rectLevels].
  destruct (Z.eqb_spec sl endLevel) as [Heq|Hne]; [eexists; split; [reflexivity|exact Hc]|].
  destruct Hsl as [Hsl|Hsl]; [contradiction|].
  assert (Hnext : 0 <= (endLevel - (sl + increment)) * increment < Z.of_nat fuel /\
                  (sl + increment = endLevel \/ 0 <= sl + increment < zlen (Levels s))).
  { destruct Hdir as [[-> Hend]|[-> Hend]]; split; lia. }
  destruct Hnext as [Hm' Hsl'].
  destruct (zget_in_range (Levels s) sl Hsl) as [fs Hfs]. rewrite Hfs. cbn [bind lift].
  pose proof (level_files_valid s HW sl fs Hfs) as Hvalid.
  destruct (rectScan_total s fs Hvalid (length fs)
              (Z.to_nat (searchIn fs (fun q => mn <=? maxIndexOf (levelMetadata s) q)))
              (mn, mx, -1, -1)) as (st & Hscan & Hok).
  { lia. }
  { simpl. split; [left; reflexivity|]. unfold zlen. lia. }
  rewrite Hscan. cbn [bind]. destruct st as [[[mn1 mx1] firstIndex] lastIndex].
  simpl in Hok. destruct Hok as (Hfirst & _ & Hlast).
  destruct (mx1 <? mn1); [eexists; split; [reflexivity|exact Hc]|].
  destruct (Z.ltb_spec firstIndex 0) as [Hneg|Hpos].
  { apply IH; [exact Hm'|exact Hsl'|exact Hc]. }
  destruct Hfirst as [Hf|Hfirst]; [lia|].
  destruct (foldM_zrange_ok (fun i r => runOk s fs firstIndex i r)
              (runStep (levelMetadata s) (lcf.FilesIncluded c) fs) firstIndex lastIndex
              (mkRun (-1) false (-1) (-1) false)) as (r & Hrun & Hr).
  { lia. }
  { intros i r Hi Hr.
    apply (runStep_total s HW); [exact Hvalid|apply (K_included _ _ Hc)|lia|lia|exact Hr]. }
  { split; left; reflexivity. }
  rewrite Hrun. cbn [bind].
  pose proof (closeRun_ok s fs firstIndex lastIndex r Hr) as Hclose.
  set (r' := closeRun r lastIndex) in *.
  destruct (Z.eqb_spec (candidateNonCompactingFirst r') (-1)) as [Hnone|Hsome];
    [eexists; split; [reflexivity|exact Hc]|].
  destruct Hclose as [Hnone|(H1 & H2 & H3 & H4)]; [contradiction|].
  match goal with
  | |- context [bind ?m _] => assert (exists v, m = Ok v) as [mn2 Hmn2]
  end.
  { destruct (Z.ltb_spec firstIndex (candidateNonCompactingFirst r')); [|eauto].
    apply (neighbour_total s fs _ (fun f => maxIntervalIndex f + 1)); [exact Hvalid|lia]. }
  rewrite Hmn2. cbn [bind].
  match goal with
  | |- context [bind ?m _] => assert (exists v, m = Ok v) as [mx2 Hmx2]
  end.
  { destruct (Z.ltb_spec (candidateNonCompactingLast r') lastIndex); [|eauto].
    apply (neighbour_total s fs _ (fun f => minIntervalIndex f - 1)); [exact Hvalid|lia]. }
  rewrite Hmx2. cbn [bind].
  destruct (foldM_zrange_ok (fun _ st => candOk s (snd st)) (rectAdd (levelMetadata s) fs)
              (candidateNonCompactingFirst r') (candidateNonCompactingLast r')
              (addedCount, c)) as ([addedCount' c'] & Hadd & Hc'); [lia| |exact Hc|].
  { intros i [n0 c0] Hi Hc0. apply (rectAdd_total s HW); [exact Hc0|apply H4; lia]. }
  rewrite Hadd. cbn [bind]. apply IH; [exact Hm'|exact Hsl'|exact Hc'].
Qed.

Lemma ExtendL0ForBaseCompactionTo_returns smallest largest c :
  levelsOk c ->
  exists ok c', ExtendL0ForBaseCompactionTo s smallest largest c = Ok (ok, c').
Proof.
  intros [Hc Hmax]. unfold ExtendL0ForBaseCompactionTo. cbv zeta.
  destruct (_ <? _); [eauto|].
  unfold extendCandidateToRectangle. cbv zeta.
  assert (Hc' : candOk s (setPreExtension c)) by (destruct Hc; constructor; simpl; assumption).
  match goal with
  | |- context [rectLevels ?fuel s ?sl0 ?inc ?e ?mn0 ?mx0 ?n0 ?c1] =>
      pose proof (fun Hd => rectLevels_returns inc e fuel Hd sl0 mn0 mx0 n0 c1) as Hret
  end.
  destruct Hret as ([n' c'] & Hrect & _).
  - left. split; [reflexivity|]. simpl. lia.
  - simpl. unfold zlen in *. lia.
  - right. lia.
  - exact Hc'.
  - rewrite Hrect. cbn [bind]. eauto.
Qed.

End ExtendReturns.

Section ExtendTheorem.
Context `{E : Env}.

(** X22.  On an engine with the structure that [NewL0Sublevels] built,
    [ExtendL0ForBaseCompactionTo] on a candidate that [PickBaseCompaction]
    returned always returns: no index leaves the engine and the panic on a
    compacting file in the chosen run cannot fire.  The extended candidate
    still holds no file twice, [FilesIncluded] still marks exactly its
    files, and [fileBytes] is still the sum of their sizes. *)
Theorem ExtendL0ForBaseCompactionTo_returns_sound (fs : list FileMetadata)
    (flushSplitMaxBytes : Z) (s0 s : L0Sublevels) (minCompactionDepth : Z)
    (baseFiles : list FileMetadata) (c : L0CompactionFiles)
    (smallest largest : InternalKey) :
  (forall f0, f0 ∈ fs -> wfFile f0) ->
  NewL0Sublevels fs flushSplitMaxBytes = Ok s0 ->
  structure s = structure s0 ->
  PickBaseCompaction s minCompactionDepth baseFiles = Ok (Some c) ->
  exists ok c',
    ExtendL0ForBaseCompactionTo s smallest largest c = Ok (ok, c') /\
    NoDup (lcf.Files c') /\
    (forall q : nat,
       zget (lcf.FilesIncluded c') (Z.of_nat q) = Some true <-> q ∈ lcf.Files c') /\
    lcf.fileBytes c' = uint64 (filesBytes (levelMetadata s) (lcf.Files c')).
Proof.
  intros Hwf Hnew Hs Hpick.
  pose proof (built_structure_wfEngine _ _ _ _ Hwf Hnew Hs) as HW.
  pose proof (picked_levelsOk s HW minCompactionDepth baseFiles 0 c (or_introl Hpick)) as Hok.
  pose proof (picked_candSound s HW minCompactionDepth baseFiles 0 c (or_introl Hpick))
    as Hsound.
  destruct (ExtendL0ForBaseCompactionTo_returns s HW smallest largest c Hok)
    as (ok & c' & Hext).
  exists ok, c'. split; [exact Hext|].
  assert (Hsound' : candSound s c').
  { unfold ExtendL0ForBaseCompactionTo in Hext. cbv zeta in Hext.
    destruct (_ <? _) in Hext; [injection Hext as _ <-; exact Hsound|].
    eapply (rectangle_keeps s (candSound s)); [| |exact Hsound|exact Hext].
    - apply candSound_add. exact HW.
    - intros c0 [ ]. constructor; simpl; assumption. }
  destruct Hsound' as [Hnd Hmarks _ Hbytes _ _]. auto.
Qed.

End ExtendTheorem.

Definition sideBySideEngine : L0Sublevels := orEmpty (builtEngine sideBySide 1048576).

(** A key of invalid kind: no bound on that side. *)
Definition unbounded : InternalKey := mkInternalKey [] InternalKeyKindInvalid.

Definition sideBySideCandidate : L0CompactionFiles :=
  pickedOr (PickBaseCompaction (E := bytesEnv) sideBySideEngine 1 []).

Definition extendedOr (r : result (bool * L0CompactionFiles)) : bool * L0CompactionFiles :=
  match r with
  | Ok x => x
  | _ => (false, lcf.mk [] [] 0 0 0 0 0 0 0 false 0 0 0 [])
  end.

Definition sideBySideExtended : bool * L0CompactionFiles :=
  extendedOr (ExtendL0ForBaseCompactionTo (E := bytesEnv) sideBySideEngine unbounded unbounded
                sideBySideCandidate).

Lemma ExtendL0ForBaseCompactionTo_only_appends_witness :
  exists added,
    lcf.Files (snd sideBySideExtended) = lcf.Files sideBySideCandidate ++ added /\
    (fst sideBySideExtended = true <-> added <> []) /\
    (forall p, p ∈ added ->
       exists f, levelMetadata sideBySideEngine !! p = Some f /\ Compacting f = false) /\
    lcf.seedInterval (snd sideBySideExtended) = lcf.seedInterval sideBySideCandidate /\
    lcf.seedIntervalStackDepthReduction (snd sideBySideExtended)
    = lcf.seedIntervalStackDepthReduction sideBySideCandidate /\
    lcf.seedIntervalMinLevel (snd sideBySideExtended)
    = lcf.seedIntervalMinLevel sideBySideCandidate /\
    lcf.seedIntervalMaxLevel (snd sideBySideExtended)
    = lcf.seedIntervalMaxLevel sideBySideCandidate.
Proof.
  apply (ExtendL0ForBaseCompactionTo_only_appends (E := bytesEnv) sideBySideEngine
           unbounded unbounded sideBySideCandidate).
  vm_compute. reflexivity.
Defined.

Lemma ExtendL0ForBaseCompactionTo_returns_sound_witness :
  exists ok c',
    ExtendL0ForBaseCompactionTo (E := bytesEnv) sideBySideEngine unbounded unbounded
      sideBySideCandidate = Ok (ok, c') /\
    NoDup (lcf.Files c') /\
    (forall q : nat,
       zget (lcf.FilesIncluded c') (Z.of_nat q) = Some true <-> q ∈ lcf.Files c') /\
    lcf.fileBytes c' = uint64 (filesBytes (levelMetadata sideBySideEngine) (lcf.Files c')).
Proof.
  apply (ExtendL0ForBaseCompactionTo_returns_sound (E := bytesEnv) sideBySide 1048576
           (orEmpty (NewL0Sublevels (E := bytesEnv) sideBySide 1048576)) sideBySideEngine
           1 [] sideBySideCandidate unbounded unbounded).
  - wf_files.
  - vm_compute. reflexivity.
  - vm_compute. reflexivity.
  - vm_compute. reflexivity.
Defined.

(** ** Pickers and the remaining depth *)

Lemma concat_imap_nil {A B} (g : nat -> A -> list B) (l : list A) :
  (forall i x, l !! i = Some x -> g i x = []) -> concat (imap g l) = [].
Proof.
  revert g. induction l as [|x l IH]; intros g Hg; [reflexivity|]. simpl.
  rewrite (Hg 0%nat x eq_refl). simpl. apply IH. intros i y Hy. apply (Hg (S i) y Hy).
Qed.

Section ShallowEngine.
Context `{E : Env}.

(** X23.  When the minimum depth asked for exceeds
    [MaxDepthAfterOngoingCompactions], no interval is deep enough to seed a
    compaction and both pickers return no candidate and no error, whatever
    the other arguments. *)
Theorem pickers_none_when_shallow (s : L0Sublevels) (minCompactionDepth : Z)
    (baseFiles : list FileMetadata) (earliestUnflushed : Z) :
  MaxDepthAfterOngoingCompactions s < minCompactionDepth ->
  PickBaseCompaction s minCompactionDepth baseFiles = Ok None /\
  PickIntraL0Compaction s earliestUnflushed minCompactionDepth = Ok None.
Proof.
  intros Hdepth. destruct (MaxDepthAfterOngoingCompactions_max s) as (_ & Hall & _).
  assert (Hlow : forall (i : nat) iv, orderedIntervals s !! i = Some iv ->
            (fileCount iv - compactingFileCount iv <? minCompactionDepth) = true).
  { intros i iv Hiv. apply Z.ltb_lt.
    pose proof (Hall iv ltac:(eapply list_elem_of_lookup_2; exact Hiv)). lia. }
  split.
  - unfold PickBaseCompaction.
    assert (Hnone : scoreBase s minCompactionDepth = []).
    { unfold scoreBase. apply concat_imap_nil. intros i iv Hiv. cbv zeta.
      rewrite (Hlow i iv Hiv), orb_true_r. reflexivity. }
    rewrite Hnone.
    pose proof (go_sort_perm intervalAndScore byDecreasingScore []) as Hp.
    apply Permutation_sym, Permutation_nil in Hp. rewrite Hp. reflexivity.
  - unfold PickIntraL0Compaction.
    assert (Hnone : scoreIntra s minCompactionDepth = []).
    { unfold scoreIntra. apply concat_imap_nil. intros i iv Hiv. cbv zeta.
      rewrite (Hlow i iv Hiv). reflexivity. }
    rewrite Hnone.
    pose proof (go_sort_perm intervalAndScore byDecreasingScore []) as Hp.
    apply Permutation_sym, Permutation_nil in Hp. rewrite Hp. reflexivity.
Qed.

End ShallowEngine.

Lemma pickers_none_when_shallow_witness :
  PickBaseCompaction (E := bytesEnv) tallStack 4 [] = Ok None /\
  PickIntraL0Compaction (E := bytesEnv) tallStack 15 4 = Ok None.
Proof.
  apply (pickers_none_when_shallow (E := bytesEnv)). vm_compute. reflexivity.
Defined.

(** ** Flush split keys *)

Definition adjacentDistinct (l : list Key) : Prop :=
  forall (i : nat) a b, l !! i = Some a -> l !! S i = Some b -> a <> b.

Lemma adjacentDistinct_snoc (l : list Key) (k : Key) :
  adjacentDistinct l ->
  match last l with Some k' => k <> k' | None => True end ->
  adjacentDistinct (l ++ [k]).
Proof.
  intros Hl Hlast i a b Ha Hb.
  destruct (decide (S i < length l)%nat) as [Hlt|Hge].
  - rewrite lookup_app_l in Ha by lia. rewrite lookup_app_l in Hb by lia. eauto.
  - apply lookup_lt_Some in Hb as Hb'. rewrite length_app in Hb'. simpl in Hb'.
    assert (Hi : S i = length l) by lia.
    rewrite lookup_app_l in Ha by lia. rewrite lookup_app_r in Hb by lia.
    replace (S i - length l)%nat with 0%nat in Hb by lia. injection Hb as <-.
    rewrite last_lookup in Hlast. replace (pred (length l)) with i in Hlast by lia.
    rewrite Ha in Hlast. congruence.
Qed.

Lemma flushSplit_fold threshold ivs :
  forall splits cum,
    adjacentDistinct splits ->
    exists extra,
      fst (fold_left (flushSplitStep threshold) ivs (splits, cum)) = splits ++ extra /\
      sublist extra (map (fun iv => key (startKey iv)) ivs) /\
      adjacentDistinct (splits ++ extra) /\
      (threshold <= 0 -> extra = []).
Proof.
  induction ivs as [|iv ivs IH]; intros splits cum Hadj; cbn [fold_left map].
  - exists []. rewrite app_nil_r. split; [reflexivity|]. split; [constructor|]. auto.
  - rewrite flushSplitStep_eq. unfold splitsHere.
    destruct (Z.ltb_spec 0 threshold) as [Hpos|Hneg]; simpl.
    2:{ destruct (IH splits (uint64 (cum + estimatedBytes iv)) Hadj)
          as (extra & Hfold & Hsub & Hadj' & Hnil).
        exists extra. split; [exact Hfold|]. split; [apply sublist_cons; exact Hsub|].
        split; [exact Hadj'|]. intros _. apply Hnil. lia. }
    destruct (uint64 threshold <? cum); simpl.
    2:{ destruct (IH splits (uint64 (cum + estimatedBytes iv)) Hadj)
          as (extra & Hfold & Hsub & Hadj' & Hnil).
        exists extra. split; [exact Hfold|]. split; [apply sublist_cons; exact Hsub|].
        split; [exact Hadj'|]. intros Hle. lia. }
    destruct (match last splits with
              | Some k => negb (bool_decide (key (startKey iv) = k))
              | None => true
              end) eqn:Hlast.
    + assert (Hadj1 : adjacentDistinct (splits ++ [key (startKey iv)])).
      { apply adjacentDistinct_snoc; [exact Hadj|].
        destruct (last splits) as [k|]; [|exact I].
        apply negb_true_iff, bool_decide_eq_false in Hlast. exact Hlast. }
      destruct (IH (splits ++ [key (startKey iv)]) (uint64 (0 + estimatedBytes iv)) Hadj1)
        as (extra & Hfold & Hsub & Hadj' & Hnil).
      exists (key (startKey iv) :: extra). rewrite Hfold, <- app_assoc. simpl.
      split; [reflexivity|]. split; [apply sublist_skip; exact Hsub|].
      split; [rewrite <- app_assoc in Hadj'; exact Hadj'|]. intros Hle. lia.
    + destruct (IH splits (uint64 (cum + estimatedBytes iv)) Hadj)
        as (extra & Hfold & Hsub & Hadj' & Hnil).
      exists extra. split; [exact Hfold|]. split; [apply sublist_cons; exact Hsub|].
      split; [exact Hadj'|]. intros Hle. lia.
Qed.

Section FlushSplitKeysFacts.
Context `{E : Env}.

(** X24.  The flush split keys are start keys of intervals after the
    first one, taken in interval order, and no two neighbours among them
    are the same key; there is none when [flushSplitMaxBytes] is not
    positive. *)
Theorem FlushSplitKeys_are_interval_starts (fs : list FileMetadata)
    (flushSplitMaxBytes : Z) (s : L0Sublevels) :
  NewL0Sublevels fs flushSplitMaxBytes = Ok s ->
  sublist (FlushSplitKeys s)
    (tail (map (fun iv => key (startKey iv)) (orderedIntervals s))) /\
  adjacentDistinct (FlushSplitKeys s) /\
  (flushSplitMaxBytes <= 0 -> - 2 ^ 63 <= flushSplitMaxBytes * zlen (Levels s) ->
   FlushSplitKeys s = []).
Proof.
  intros Hnew. unfold FlushSplitKeys. rewrite (NewL0Sublevels_splits _ _ _ Hnew).
  unfold flushSplitWalk. set (T := effectiveFlushSplitMaxBytes flushSplitMaxBytes s).
  assert (Hadj0 : adjacentDistinct []) by (intros i a b Ha; discriminate).
  destruct (orderedIntervals s) as [|iv0 ivs].
  { simpl. split; [constructor|]. split; [exact Hadj0|reflexivity]. }
  cbn [fold_left map tail]. rewrite flushSplitStep_eq. unfold splitsHere.
  replace (uint64 T <? 0) with false.
  2:{ symmetry. apply Z.ltb_ge. unfold uint64. apply Z.mod_pos_bound. lia. }
  rewrite andb_false_r. simpl.
  destruct (flushSplit_fold T ivs [] (uint64 (0 + estimatedBytes iv0)) Hadj0)
    as (extra & Hfold & Hsub & Hadj & Hnil).
  rewrite Hfold. simpl in *. split; [exact Hsub|]. split; [exact Hadj|].
  intros Hle Hlow. apply Hnil. unfold T, effectiveFlushSplitMaxBytes, int64.
  assert (Hz : 0 <= zlen (Levels s)) by (unfold zlen; lia).
  assert (Hprod : flushSplitMaxBytes * zlen (Levels s) <= 0) by nia.
  rewrite Z.mod_small by lia. lia.
Qed.

End FlushSplitKeysFacts.

Lemma FlushSplitKeys_are_interval_starts_witness :
  sublist (FlushSplitKeys heavyEngine)
    (tail (map (fun iv => key (startKey iv)) (orderedIntervals heavyEngine))) /\
  adjacentDistinct (FlushSplitKeys heavyEngine) /\
  (1 <= 0 -> - 2 ^ 63 <= 1 * zlen (Levels heavyEngine) -> FlushSplitKeys heavyEngine = []).
Proof.
  apply (FlushSplitKeys_are_interval_starts (E := bytesEnv) oneHeavyInterval 1 heavyEngine).
  vm_compute. reflexivity.
Defined.

(** ** Construction: the total size and the interval ranges of the files *)

Lemma search_loop_bounds (f : Z -> bool) :
  forall fuel i j, i <= j -> i <= search_loop fuel f i j <= j.
Proof.
  induction fuel as [|fuel IH]; intros i j Hij; simpl; [lia|].
  destruct (Z.ltb_spec i j) as [Hlt|Hge]; [|lia].
  assert (Hh : i <= (i + j) / 2 < j).
  { split; [apply Z.div_le_lower_bound|apply Z.div_lt_upper_bound]; lia. }
  destruct (f ((i + j) / 2)).
  - specialize (IH i ((i + j) / 2)). lia.
  - specialize (IH ((i + j) / 2 + 1) j). lia.
Qed.

Lemma searchIn_bounds {A} (l : list A) (p : A -> bool) : 0 <= searchIn l p <= zlen l.
Proof. unfold searchIn, sort_Search. apply search_loop_bounds. unfold zlen. lia. Qed.

Section ConstructionBytes.
Context `{E : Env}.
Variable keys : list intervalKey.
Variable arena0 : list FileMetadata.

Definition sized (n : nat) (s : L0Sublevels) : Prop :=
  map Size (levelMetadata s) = map Size arena0 /\
  fileBytes s = uint64 (sumZ (map Size (take n arena0))).

Lemma addL0File_sized n s s' :
  sized n s -> addL0File keys s n = Ok s' -> sized (S n) s'.
Proof.
  intros [Hsizes Hbytes] H. unfold addL0File in H.
  inv_bind H. apply lift_Ok in Hx. cbv zeta in H.
  repeat match type of H with
         | (if ?b then _ else _) = Ok _ => destruct b; [discriminate|]
         end.
  inv_bind H. destruct x0 as [sl ivs1]. inv_bind H.
  match type of H with
  | (if ?b then _ else _) = Ok _ => destruct b; [discriminate|]
  end.
  injection H as <-. unfold sized. simpl.
  assert (Hsize : exists f0, arena0 !! n = Some f0 /\ Size f0 = Size x).
  { pose proof (f_equal (fun l => l !! n) Hsizes) as Hn. simpl in Hn.
    rewrite !list_lookup_fmap, Hx in Hn. simpl in Hn.
    destruct (arena0 !! n) as [f0|]; [|discriminate].
    exists f0. split; [reflexivity|]. simpl in Hn. congruence. }
  destruct Hsize as (f0 & Hf0 & Hsz). split.
  - rewrite <- Hsizes. apply list_eq. intros q. rewrite !list_lookup_fmap.
    destruct (decide (q = n)) as [->|Hne].
    + rewrite list_lookup_insert_eq by (eapply lookup_lt_Some; eassumption).
      rewrite Hx. reflexivity.
    + rewrite list_lookup_insert_ne by congruence. reflexivity.
  - rewrite Hbytes, (take_S_r _ _ _ Hf0), map_app, sumZ_app. simpl. rewrite Hsz.
    unfold uint64. rewrite Zplus_mod_idemp_l. f_equal. lia.
Qed.

Lemma addL0Files_sized k :
  forall n s s1,
    sized n s -> foldM (addL0File keys) (seq n k) s = Ok s1 -> sized (n + k) s1.
Proof.
  induction k as [|k IH]; intros n s s1 Hs H; simpl in H.
  - injection H as <-. rewrite Nat.add_0_r. exact Hs.
  - inv_bind H. replace (n + S k)%nat with (S n + k)%nat by lia.
    eapply IH; [|exact H]. eapply addL0File_sized; eassumption.
Qed.

End ConstructionBytes.

Section ConstructionRanges.
Context `{E : Env}.
Variable keys : list intervalKey.
Variable arena0 : list FileMetadata.
Hypothesis spans_static : forall q f, arena0 !! q = Some f ->
  0 <= spanMin keys f /\ spanMin keys f <= spanMax keys f + 1 /\
  spanMax keys f + 1 < zlen keys.

(** The range of intervals that the files of an interval reach. *)
Record ranged (s : L0Sublevels) : Prop := {
  R_cover : forall (i : nat) iv, orderedIntervals s !! i = Some iv ->
      filesMinIntervalIndex iv <= Z.of_nat i <= filesMaxIntervalIndex iv;
  R_hold : forall (i : nat) iv q, orderedIntervals s !! i = Some iv -> q ∈ files iv ->
      filesMinIntervalIndex iv <= mnOf keys arena0 q /\
      mxOf keys arena0 q <= filesMaxIntervalIndex iv;
  R_low : forall (i : nat) iv, orderedIntervals s !! i = Some iv ->
      filesMinIntervalIndex iv = Z.of_nat i \/
      exists q, q ∈ files iv /\ mnOf keys arena0 q = filesMinIntervalIndex iv;
  R_high : forall (i : nat) iv, orderedIntervals s !! i = Some iv ->
      filesMaxIntervalIndex iv = Z.of_nat i \/
      exists q, q ∈ files iv /\ mxOf keys arena0 q = filesMaxIntervalIndex iv
}.

(** What one iteration of the construction loop does to the intervals. *)
Lemma addL0File_intervals subs s s' :
  Built keys arena0 subs s ->
  (length subs < length arena0)%nat ->
  addL0File keys s (length subs) = Ok s' ->
  exists interp,
    mnOf keys arena0 (length subs) <= mxOf keys arena0 (length subs) /\
    forall i : nat,
      orderedIntervals s' !! i =
      if decide (mnOf keys arena0 (length subs) <= Z.of_nat i
                 <= mxOf keys arena0 (length subs))
      then (fun iv => stack (length subs)
                        (touch (mnOf keys arena0 (length subs))
                           (mxOf keys arena0 (length subs)) interp iv))
             <$> orderedIntervals s !! i
      else orderedIntervals s !! i.
Proof.
  intros HB Hp H. unfold addL0File in H.
  inv_bind H. apply lift_Ok in Hx.
  destruct (Built_arena_lookup _ _ _ _ _ _ HB Hx) as (f0 & Hf0 & Hxf).
  assert (Hnone : subs !! length subs = None) by (apply lookup_ge_None_2; lia).
  unfold assign in Hxf. rewrite Hnone in Hxf. subst x.
  cbv zeta in H. fold (spanMin keys f0) in H.
  replace (searchIn keys (fun k => intervalKeyCompare (largestIK f0) k <=? 0))
    with (spanMax keys f0 + 1) in H by (unfold spanMax; lia).
  replace (spanMax keys f0 + 1 - 1) with (spanMax keys f0) in H by lia.
  destruct (spans_static _ _ Hf0) as (Hmn0 & Hmnmx & Hmxn).
  assert (Hmn : mnOf keys arena0 (length subs) = spanMin keys f0)
    by (unfold mnOf; rewrite Hf0; reflexivity).
  assert (Hmx : mxOf keys arena0 (length subs) = spanMax keys f0)
    by (unfold mxOf; rewrite Hf0; reflexivity).
  destruct (spanMin keys f0 =? zlen keys); [discriminate|].
  destruct (spanMax keys f0 + 1 =? zlen keys); [discriminate|].
  destruct (Z.eqb_spec (uint64OfInt (spanMax keys f0 - spanMin keys f0 + 1)) 0) as [|Hw];
    [discriminate|].
  assert (Hspan : spanMin keys f0 <= spanMax keys f0).
  { unfold uint64OfInt in Hw.
    destruct (Z.ltb_spec (spanMax keys f0 - spanMin keys f0 + 1) 0); lia. }
  inv_bind H. destruct x as [sl ivs1]. inv_bind H.
  destruct (span_passes (levelMetadata s) (spanMin keys f0) (spanMax keys f0)
              (Size f0 / uint64OfInt (spanMax keys f0 - spanMin keys f0 + 1)) (length subs)
              (orderedIntervals s) sl x) as (mid & Hfold & Hmid & Hlen & Hlook);
    [lia|lia| | |].
  { unfold zlen in *. rewrite (B_ivs_len _ _ _ _ HB). lia. }
  { rewrite Hx0. simpl. rewrite Hx1. reflexivity. }
  destruct (zlen (Levels s) <? sl); [discriminate|].
  injection H as <-. simpl.
  exists (Size f0 / uint64OfInt (spanMax keys f0 - spanMin keys f0 + 1)).
  rewrite Hmn, Hmx. split; [exact Hspan|exact Hlook].
Qed.

Lemma addL0File_ranged subs s s' :
  Built keys arena0 subs s -> ranged s ->
  (length subs < length arena0)%nat ->
  addL0File keys s (length subs) = Ok s' -> ranged s'.
Proof.
  intros HB HR Hp H.
  destruct (addL0File_intervals subs s s' HB Hp H) as (interp & Hspan & Hlook).
  set (p := length subs) in *.
  assert (Hstep : forall (i : nat) iv, orderedIntervals s' !! i = Some iv ->
            (orderedIntervals s !! i = Some iv /\
             ~ (mnOf keys arena0 p <= Z.of_nat i <= mxOf keys arena0 p)) \/
            exists iv0, orderedIntervals s !! i = Some iv0 /\
              mnOf keys arena0 p <= Z.of_nat i <= mxOf keys arena0 p /\
              files iv = files iv0 ++ [p] /\
              filesMinIntervalIndex iv =
                Z.min (mnOf keys arena0 p) (filesMinIntervalIndex iv0) /\
              filesMaxIntervalIndex iv =
                Z.max (mxOf keys arena0 p) (filesMaxIntervalIndex iv0)).
  { intros i iv Hiv. rewrite Hlook in Hiv.
    destruct (decide (mnOf keys arena0 p <= Z.of_nat i <= mxOf keys arena0 p)) as [Hin|Hout];
      [right|left; split; assumption].
    destruct (orderedIntervals s !! i) as [iv0|]; [|discriminate].
    injection Hiv as <-. exists iv0. split; [reflexivity|]. split; [exact Hin|].
    simpl. split; [reflexivity|]. split.
    - destruct (Z.ltb_spec (mnOf keys arena0 p) (filesMinIntervalIndex iv0)); lia.
    - destruct (Z.ltb_spec (filesMaxIntervalIndex iv0) (mxOf keys arena0 p)); lia. }
  constructor.
  - intros i iv Hiv.
    destruct (Hstep i iv Hiv) as [[Hold _]|(iv0 & Hold & Hin & _ & -> & ->)].
    + apply (R_cover _ HR _ _ Hold).
    + pose proof (R_cover _ HR _ _ Hold). lia.
  - intros i iv q Hiv Hq.
    destruct (Hstep i iv Hiv) as [[Hold _]|(iv0 & Hold & Hin & Hfiles & -> & ->)].
    + apply (R_hold _ HR _ _ _ Hold Hq).
    + rewrite Hfiles in Hq. apply elem_of_app in Hq as [Hq|Hq].
      * pose proof (R_hold _ HR _ _ _ Hold Hq). lia.
      * apply list_elem_of_singleton in Hq as ->. lia.
  - intros i iv Hiv.
    destruct (Hstep i iv Hiv) as [[Hold _]|(iv0 & Hold & Hin & Hfiles & -> & _)].
    + apply (R_low _ HR _ _ Hold).
    + destruct (Z.min_spec (mnOf keys arena0 p) (filesMinIntervalIndex iv0))
        as [[_ ->]|[_ ->]].
      * right. exists p. split; [|reflexivity]. rewrite Hfiles, elem_of_app.
        right. apply list_elem_of_singleton. reflexivity.
      * destruct (R_low _ HR _ _ Hold) as [Hi|(q & Hq & Hmn)]; [left; exact Hi|].
        right. exists q. split; [|exact Hmn]. rewrite Hfiles, elem_of_app. left. exact Hq.
  - intros i iv Hiv.
    destruct (Hstep i iv Hiv) as [[Hold _]|(iv0 & Hold & Hin & Hfiles & _ & ->)].
    + apply (R_high _ HR _ _ Hold).
    + destruct (Z.max_spec (mxOf keys arena0 p) (filesMaxIntervalIndex iv0))
        as [[_ ->]|[_ ->]].
      * destruct (R_high _ HR _ _ Hold) as [Hi|(q & Hq & Hmx)]; [left; exact Hi|].
        right. exists q. split; [|exact Hmx]. rewrite Hfiles, elem_of_app. left. exact Hq.
      * right. exists p. split; [|reflexivity]. rewrite Hfiles, elem_of_app.
        right. apply list_elem_of_singleton. reflexivity.
Qed.

Lemma ranged_initial : ranged (mkL0 [] 0 arena0 (imap initialInterval keys) []).
Proof.
  constructor; simpl; intros i iv; rewrite list_lookup_imap;
    destruct (keys !! i) as [k|]; try discriminate.
  - intros [= <-]. simpl. lia.
  - intros q [= <-]. simpl. intros Hq. inversion Hq.
  - intros [= <-]. left. reflexivity.
  - intros [= <-]. left. reflexivity.
Qed.

Lemma addL0Files_ranged k :
  forall subs s s1,
    Built keys arena0 subs s -> ranged s ->
    (length subs + k = length arena0)%nat ->
    foldM (addL0File keys) (seq (length subs) k) s = Ok s1 -> ranged s1.
Proof.
  induction k as [|k IH]; intros subs s s1 HB HR Hlen H; simpl in H.
  - injection H as <-. exact HR.
  - inv_bind H.
    destruct (addL0File_step keys arena0 spans_static subs s x HB ltac:(lia) Hx) as (sl & HB').
    apply (IH (subs ++ [sl]) x s1 HB').
    + eapply addL0File_ranged; [exact HB|exact HR|lia|exact Hx].
    + rewrite length_app. simpl. lia.
    + rewrite length_app. simpl. rewrite Nat.add_1_r. exact H.
Qed.

End ConstructionRanges.

Section BuiltRanges.
Context `{E : Env}.

Lemma NewL0Sublevels_ranged fs flushSplitMaxBytes s :
  (forall f0, f0 ∈ fs -> wfFile f0) ->
  NewL0Sublevels fs flushSplitMaxBytes = Ok s ->
  ranged (keysOf fs) (arenaOf fs) s.
Proof.
  intros Hwf H. unfold NewL0Sublevels in H. inv_bind H. injection H as <-.
  fold (arenaOf fs) in Hx. fold (keysOf fs) in Hx.
  pose proof (addL0Files_ranged (keysOf fs) (arenaOf fs) (spans_static_wf fs Hwf)
                (length (arenaOf fs)) [] _ x (Built_initial _ _) (ranged_initial _ _)
                eq_refl Hx) as HR.
  destruct HR. constructor; assumption.
Qed.

(** X25.  [NewL0Sublevels] leaves the size of every file as it was, and
    the [fileBytes] of the engine it returns is the sum of the sizes of
    the files, modulo 2^64. *)
Theorem fileBytes_is_total_size (fs : list FileMetadata) (flushSplitMaxBytes : Z)
    (s : L0Sublevels) :
  NewL0Sublevels fs flushSplitMaxBytes = Ok s ->
  map Size (levelMetadata s) = map Size fs /\
  fileBytes s = uint64 (sumZ (map Size fs)).
Proof.
  intros H. unfold NewL0Sublevels in H. inv_bind H. injection H as <-. simpl.
  fold (arenaOf fs) in Hx.
  assert (Hsizes : map Size (arenaOf fs) = map Size fs).
  { apply list_eq. intros q. unfold arenaOf.
    rewrite !list_lookup_fmap, list_lookup_imap. destruct (fs !! q); reflexivity. }
  pose proof (fun Hs0 => addL0Files_sized (sortAndDedup (boundaryKeys (arenaOf fs)))
                            (arenaOf fs) (length (arenaOf fs)) 0 _ x Hs0 Hx) as Hsized.
  destruct Hsized as [Hs Hb]; [split; reflexivity|].
  simpl in Hb. rewrite firstn_all in Hb. rewrite Hs, Hb, Hsizes. split; reflexivity.
Qed.

(** The range of intervals recorded for an interval, in terms of the spans
    of its files. *)
Lemma built_interval_range (fs : list FileMetadata) (flushSplitMaxBytes : Z)
    (s : L0Sublevels) :
  (forall f0, f0 ∈ fs -> wfFile f0) ->
  NewL0Sublevels fs flushSplitMaxBytes = Ok s ->
  (forall (i : nat) iv, orderedIntervals s !! i = Some iv ->
     0 <= filesMinIntervalIndex iv <= Z.of_nat i /\
     Z.of_nat i <= filesMaxIntervalIndex iv < zlen (orderedIntervals s) /\
     forall q f, q ∈ files iv -> levelMetadata s !! q = Some f ->
       filesMinIntervalIndex iv <= minIntervalIndex f /\
       maxIntervalIndex f <= filesMaxIntervalIndex iv) /\
  (forall (i : nat) iv, orderedIntervals s !! i = Some iv ->
     (filesMinIntervalIndex iv = Z.of_nat i \/
      exists q f, q ∈ files iv /\ levelMetadata s !! q = Some f /\
                  minIntervalIndex f = filesMinIntervalIndex iv) /\
     (filesMaxIntervalIndex iv = Z.of_nat i \/
      exists q f, q ∈ files iv /\ levelMetadata s !! q = Some f /\
                  maxIntervalIndex f = filesMaxIntervalIndex iv)).
Proof.
  intros Hwf Hnew.
  pose proof (NewL0Sublevels_ranged fs flushSplitMaxBytes s Hwf Hnew) as HR.
  pose proof (NewL0Sublevels_wfEngine fs flushSplitMaxBytes s Hwf Hnew) as HW.
  destruct (NewL0Sublevels_built fs flushSplitMaxBytes s Hwf Hnew) as (subs & Hlen & HB).
  assert (Hlen' : length subs = length (arenaOf fs)).
  { rewrite Hlen. unfold arenaOf. symmetry. apply length_imap. }
  assert (Hfile : forall (i : nat) iv q, orderedIntervals s !! i = Some iv -> q ∈ files iv ->
            exists f, levelMetadata s !! q = Some f /\
                      minIntervalIndex f = mnOf (keysOf fs) (arenaOf fs) q /\
                      maxIntervalIndex f = mxOf (keysOf fs) (arenaOf fs) q /\
                      0 <= minIntervalIndex f /\
                      maxIntervalIndex f + 1 < zlen (orderedIntervals s)).
  { intros i iv q Hiv Hq.
    destruct (W_iv _ HW _ _ Hiv) as (_ & _ & _ & Hfiles).
    destruct (Hfiles q Hq) as (f & Hf & _). exists f. split; [exact Hf|].
    destruct (Built_file _ _ _ _ _ _ HB Hlen' Hf) as (_ & _ & _ & Hmn & Hmx & _).
    destruct (W_file _ HW _ _ Hf) as (_ & H0 & _ & Hn & _). tauto. }
  assert (Hlow : forall (i : nat) iv, orderedIntervals s !! i = Some iv ->
            filesMinIntervalIndex iv = Z.of_nat i \/
            exists q f, q ∈ files iv /\ levelMetadata s !! q = Some f /\
                        minIntervalIndex f = filesMinIntervalIndex iv).
  { intros i iv Hiv. destruct (R_low _ _ _ HR _ _ Hiv) as [Hi|(q & Hq & Hmn)];
      [left; exact Hi|right].
    destruct (Hfile i iv q Hiv Hq) as (f & Hf & Hfmn & _).
    exists q, f. split; [exact Hq|]. split; [exact Hf|]. congruence. }
  assert (Hhigh : forall (i : nat) iv, orderedIntervals s !! i = Some iv ->
            filesMaxIntervalIndex iv = Z.of_nat i \/
            exists q f, q ∈ files iv /\ levelMetadata s !! q = Some f /\
                        maxIntervalIndex f = filesMaxIntervalIndex iv).
  { intros i iv Hiv. destruct (R_high _ _ _ HR _ _ Hiv) as [Hi|(q & Hq & Hmx)];
      [left; exact Hi|right].
    destruct (Hfile i iv q Hiv Hq) as (f & Hf & _ & Hfmx & _).
    exists q, f. split; [exact Hq|]. split; [exact Hf|]. congruence. }
  split; [|intros i iv Hiv; split; [apply Hlow|apply Hhigh]; exact Hiv].
  intros i iv Hiv.
  pose proof (R_cover _ _ _ HR _ _ Hiv) as Hcover.
  apply lookup_lt_Some in Hiv as Hi.
  split; [|split].
  - split; [|lia]. destruct (Hlow i iv Hiv) as [->|(q & f & Hq & Hf & <-)]; [lia|].
    destruct (Hfile i iv q Hiv Hq) as (f' & Hf' & _ & _ & H0 & _).
    assert (f' = f) by congruence. subst f'. exact H0.
  - split; [lia|]. destruct (Hhigh i iv Hiv) as [->|(q & f & Hq & Hf & <-)];
      [unfold zlen; lia|].
    destruct (Hfile i iv q Hiv Hq) as (f' & Hf' & _ & _ & _ & Hn).
    assert (f' = f) by congruence. subst f'. lia.
  - intros q f Hq Hf.
    destruct (Hfile i iv q Hiv Hq) as (f' & Hf' & Hmn & Hmx & _).
    assert (f' = f) by congruence. subst f'. rewrite Hmn, Hmx.
    apply (R_hold _ _ _ HR _ _ _ Hiv Hq).
Qed.

(** X26.  After construction, [filesMinIntervalIndex] and
    [filesMaxIntervalIndex] of an interval are interval indices on either
    side of the interval's own index that enclose the span of every file of
    the interval; each of them is the interval's own index or is reached by
    the span of one of the interval's files. *)
Theorem interval_files_range (fs : list FileMetadata) (flushSplitMaxBytes : Z)
    (s : L0Sublevels) :
  (forall f0, f0 ∈ fs -> wfFile f0) ->
  NewL0Sublevels fs flushSplitMaxBytes = Ok s ->
  (forall (i : nat) iv, orderedIntervals s !! i = Some iv ->
     0 <= filesMinIntervalIndex iv <= Z.of_nat i /\
     Z.of_nat i <= filesMaxIntervalIndex iv < zlen (orderedIntervals s) /\
     forall q f, q ∈ files iv -> levelMetadata s !! q = Some f ->
       filesMinIntervalIndex iv <= minIntervalIndex f /\
       maxIntervalIndex f <= filesMaxIntervalIndex iv) /\
  (forall (i : nat) iv, orderedIntervals s !! i = Some iv ->
     (filesMinIntervalIndex iv = Z.of_nat i \/
      exists q f, q ∈ files iv /\ levelMetadata s !! q = Some f /\
                  minIntervalIndex f = filesMinIntervalIndex iv) /\
     (filesMaxIntervalIndex iv = Z.of_nat i \/
      exists q f, q ∈ files iv /\ levelMetadata s !! q = Some f /\
                  maxIntervalIndex f = filesMaxIntervalIndex iv)).
Proof. apply built_interval_range. Qed.

End BuiltRanges.

Lemma fileBytes_is_total_size_witness :
  map Size (levelMetadata staircaseEngine) = map Size staircase /\
  fileBytes staircaseEngine = uint64 (sumZ (map Size staircase)).
Proof.
  apply (fileBytes_is_total_size (E := bytesEnv) staircase 100 staircaseEngine).
  vm_compute. reflexivity.
Defined.

Lemma interval_files_range_witness :
  (forall (i : nat) iv, orderedIntervals staircaseEngine !! i = Some iv ->
     0 <= filesMinIntervalIndex iv <= Z.of_nat i /\
     Z.of_nat i <= filesMaxIntervalIndex iv < zlen (orderedIntervals staircaseEngine) /\
     forall q f, q ∈ files iv -> levelMetadata staircaseEngine !! q = Some f ->
       filesMinIntervalIndex iv <= minIntervalIndex f /\
       maxIntervalIndex f <= filesMaxIntervalIndex iv) /\
  (forall (i : nat) iv, orderedIntervals staircaseEngine !! i = Some iv ->
     (filesMinIntervalIndex iv = Z.of_nat i \/
      exists q f, q ∈ files iv /\ levelMetadata staircaseEngine !! q = Some f /\
                  minIntervalIndex f = filesMinIntervalIndex iv) /\
     (filesMaxIntervalIndex iv = Z.of_nat i \/
      exists q f, q ∈ files iv /\ levelMetadata staircaseEngine !! q = Some f /\
                  maxIntervalIndex f = filesMaxIntervalIndex iv)).
Proof.
  apply (interval_files_range (E := bytesEnv) staircase 100 staircaseEngine).
  - wf_files.
  - vm_compute. reflexivity.
Defined.

(** ** The state calls return on a built engine *)

(** Every interval's file range lies among the intervals. *)
Definition reach (ivs : list fileInterval) : Prop :=
  forall iv, iv ∈ ivs ->
    0 <= filesMinIntervalIndex iv /\ filesMaxIntervalIndex iv < zlen ivs.

Lemma sameShape_zlen ivs0 ivs : sameShape ivs0 ivs -> zlen ivs = zlen ivs0.
Proof.
  unfold sameShape, zlen. intros H. apply (f_equal length) in H.
  rewrite !length_map in H. lia.
Qed.

Lemma sameShape_reach ivs0 ivs : sameShape ivs0 ivs -> reach ivs0 -> reach ivs.
Proof.
  intros H Hr iv Hiv. apply list_elem_of_lookup in Hiv as [i Hi].
  destruct (map_lookup_eq intervalStructure ivs0 ivs i iv H Hi) as (iv0 & Hiv0 & Heq).
  rewrite (sameShape_zlen _ _ H).
  assert (Hin : iv0 ∈ ivs0) by (eapply list_elem_of_lookup_2; eassumption).
  specialize (Hr iv0 Hin). unfold intervalStructure in Heq.
  injection Heq as _ _ _ _ _ Hmn Hmx. lia.
Qed.

Lemma zupd_total {A} (l : list A) i (g : A -> A) :
  0 <= i < zlen l -> exists l', zupd l i g = Some l'.
Proof.
  intros Hi. unfold zupd. destruct (zget_in_range l i Hi) as [x ->]. eauto.
Qed.

Lemma rangeUpd_total ivs0 (g : fileInterval -> fileInterval) a b ivs :
  (forall iv, intervalStructure (g iv) = intervalStructure iv) ->
  0 <= a -> b < zlen ivs0 -> sameShape ivs0 ivs ->
  exists ivs', foldM (fun ivs i => lift (zupd ivs i g)) (zrange a b) ivs = Ok ivs' /\
               sameShape ivs0 ivs'.
Proof.
  intros Hg Ha Hb H0.
  apply (foldM_total (sameShape ivs0)); [|exact H0].
  intros l i Hi Hl.
  pose proof (zrange_bounds a b) as HF. rewrite Forall_forall in HF. specialize (HF i Hi).
  destruct (zupd_total l i g) as [l' Hl'].
  { rewrite (sameShape_zlen _ _ Hl). lia. }
  exists l'. rewrite Hl'. split; [reflexivity|].
  pose proof (zupd_sameShape _ _ _ _ Hg Hl') as Hs. unfold sameShape in *. congruence.
Qed.

Section StateCallsReturn.
Context `{E : Env}.
Variable s : L0Sublevels.
Hypothesis HW : wfEngine s.
Hypothesis Hreach : reach (orderedIntervals s).

Lemma initFile_returns ivs f :
  f ∈ levelMetadata s -> sameShape (orderedIntervals s) ivs ->
  exists ivs', initFile ivs f = Ok ivs' /\ sameShape (orderedIntervals s) ivs'.
Proof.
  intros Hf H0. unfold initFile. destruct (Compacting f); [|eauto].
  apply list_elem_of_lookup in Hf as [q Hq].
  destruct (W_file _ HW _ _ Hq) as (_ & Hmn & _ & Hmx & _).
  apply (rangeUpd_total (orderedIntervals s)
           (fun iv => if IsIntraL0Compacting f then countCompacting iv
                      else setBaseCompacting (countCompacting iv)));
    [|lia|lia|exact H0].
  intros iv. destruct (IsIntraL0Compacting f); reflexivity.
Qed.

Lemma initInProgress_returns ivs c :
  sameShape (orderedIntervals s) ivs ->
  exists ivs', initInProgress ivs c = Ok ivs' /\ sameShape (orderedIntervals s) ivs'.
Proof.
  intros H0. unfold initInProgress. cbv zeta.
  set (start := searchIn ivs _). set (end_ := searchIn ivs _).
  assert (Hstart : 0 <= start) by apply searchIn_bounds.
  pose proof (sameShape_zlen _ _ H0) as Hlen.
  destruct (IsIntraL0 c).
  - apply (foldM_total (sameShape (orderedIntervals s))); [|exact H0].
    intros l i Hi Hl.
    pose proof (zrange_bounds start (Z.min end_ (zlen ivs) - 1)) as HF.
    rewrite Forall_forall in HF. specialize (HF i Hi).
    destruct (zget_in_range l i) as [x Hx].
    { rewrite (sameShape_zlen _ _ Hl). lia. }
    exists l. rewrite Hx. simpl. split; [reflexivity|exact Hl].
  - apply (rangeUpd_total (orderedIntervals s) setBaseCompacting);
      [reflexivity|lia|lia|exact H0].
Qed.

Lemma propagateStep_returns st i :
  0 <= i < zlen (orderedIntervals s) ->
  0 <= fst st /\ sameShape (orderedIntervals s) (snd st) ->
  exists st', propagateStep st i = Ok st' /\
              0 <= fst st' /\ sameShape (orderedIntervals s) (snd st').
Proof.
  intros Hi [Hfst Hs]. unfold propagateStep.
  destruct (zget_in_range (snd st) i) as [iv Hiv].
  { rewrite (sameShape_zlen _ _ Hs). lia. }
  rewrite Hiv. cbn [bind lift].
  destruct (isBaseCompacting iv); [|eauto].
  assert (Hr : 0 <= filesMinIntervalIndex iv /\
               filesMaxIntervalIndex iv < zlen (orderedIntervals s)).
  { apply zget_Some in Hiv as [_ Hiv].
    assert (Hin : iv ∈ snd st) by (eapply list_elem_of_lookup_2; eassumption).
    pose proof (sameShape_reach _ _ Hs Hreach iv Hin) as Hr.
    rewrite (sameShape_zlen _ _ Hs) in Hr. exact Hr. }
  set (minIndex := if filesMinIntervalIndex iv <? fst st
                   then fst st else filesMinIntervalIndex iv).
  assert (Hmin : 0 <= minIndex).
  { unfold minIndex. destruct (filesMinIntervalIndex iv <? fst st); lia. }
  apply (foldM_total (fun st => 0 <= fst st /\ sameShape (orderedIntervals s) (snd st)));
    [|split; assumption].
  intros st0 j Hj [Hfst0 Hs0].
  pose proof (zrange_bounds minIndex (filesMaxIntervalIndex iv)) as HF.
  rewrite Forall_forall in HF. specialize (HF j Hj).
  unfold markRange.
  destruct (zupd_total (snd st0) j setRangeBaseCompacting) as [l' Hl'].
  { rewrite (sameShape_zlen _ _ Hs0). lia. }
  rewrite Hl'. cbn [bind lift]. eexists. split; [reflexivity|]. simpl. split; [lia|].
  pose proof (zupd_sameShape _ _ setRangeBaseCompacting _ (fun _ => eq_refl) Hl') as Hs'.
  unfold sameShape in *. congruence.
Qed.

Lemma InitCompactingFileInfo_returns_aux inProgress :
  exists s', InitCompactingFileInfo s inProgress = Ok s'.
Proof.
  unfold InitCompactingFileInfo. cbv zeta.
  assert (H0 : sameShape (orderedIntervals s) (map resetInterval (orderedIntervals s))).
  { unfold sameShape. rewrite map_map. reflexivity. }
  destruct (foldM_total (sameShape (orderedIntervals s)) initFile (levelMetadata s))
    with (s := map resetInterval (orderedIntervals s)) as (ivs1 & H1 & Hs1);
    [|exact H0|].
  { intros l f Hf Hl. apply initFile_returns; assumption. }
  rewrite H1. cbn [bind].
  destruct (foldM_total (sameShape (orderedIntervals s)) initInProgress inProgress)
    with (s := ivs1) as (ivs2 & H2 & Hs2); [|exact Hs1|].
  { intros l c _ Hl. apply initInProgress_returns; assumption. }
  rewrite H2. cbn [bind].
  destruct (foldM_total
              (fun st => 0 <= fst st /\ sameShape (orderedIntervals s) (snd st))
              propagateStep (zrange 0 (zlen ivs2 - 1)))
    with (s := (0, ivs2)) as (st & H3 & _); [|simpl; split; [lia|exact Hs2]|].
  { intros st0 i Hi Hst0.
    pose proof (zrange_bounds 0 (zlen ivs2 - 1)) as HF.
    rewrite Forall_forall in HF. specialize (HF i Hi).
    apply propagateStep_returns; [|exact Hst0].
    rewrite <- (sameShape_zlen _ _ Hs2). lia. }
  rewrite H3. cbn [bind]. eauto.
Qed.

Lemma updateFile_returns st p :
  (p < length (levelMetadata s))%nat ->
  sameShape (orderedIntervals s) (snd st) ->
  (fst (fst st) = -1 /\ snd (fst st) = 0) \/
  (0 <= fst (fst st) /\ snd (fst st) < zlen (orderedIntervals s)) ->
  exists st', updateFile (levelMetadata s) st p = Ok st' /\
              sameShape (orderedIntervals s) (snd st') /\
              0 <= fst (fst st') /\ snd (fst st') < zlen (orderedIntervals s).
Proof.
  destruct st as [[mn mx] ivs]. simpl. intros Hp Hs Hst. unfold updateFile.
  destruct (lookup_lt_is_Some_2 _ _ Hp) as [f Hf].
  unfold deref. rewrite Hf. cbn [bind lift].
  destruct (W_file _ HW _ _ Hf) as (_ & Hmn & Hspan & Hmx & _).
  destruct (rangeUpd_total (orderedIntervals s) countCompacting
              (minIntervalIndex f) (maxIntervalIndex f) ivs) as (ivs' & H1 & Hs');
    [reflexivity|lia|lia|exact Hs|].
  rewrite H1. cbn [bind]. eexists. split; [reflexivity|]. simpl.
  split; [exact Hs'|].
  destruct (Z.ltb_spec (minIntervalIndex f) mn), (Z.eqb_spec mn (-1)),
    (Z.ltb_spec mx (maxIntervalIndex f)); simpl; lia.
Qed.

Lemma updateBase_returns ivs i :
  0 <= i < zlen (orderedIntervals s) -> sameShape (orderedIntervals s) ivs ->
  exists ivs', updateBase ivs i = Ok ivs' /\ sameShape (orderedIntervals s) ivs'.
Proof.
  intros Hi Hs. unfold updateBase.
  destruct (zupd_total ivs i setBaseCompacting) as [ivs1 H1].
  { rewrite (sameShape_zlen _ _ Hs). lia. }
  rewrite H1. cbn [bind lift].
  assert (Hs1 : sameShape (orderedIntervals s) ivs1).
  { pose proof (zupd_sameShape _ _ setBaseCompacting _ (fun _ => eq_refl) H1) as Hs'.
    unfold sameShape in *. congruence. }
  destruct (zget_in_range ivs1 i) as [iv Hiv].
  { rewrite (sameShape_zlen _ _ Hs1). lia. }
  rewrite Hiv. cbn [bind lift].
  assert (Hr : 0 <= filesMinIntervalIndex iv /\
               filesMaxIntervalIndex iv < zlen (orderedIntervals s)).
  { apply zget_Some in Hiv as [_ Hiv].
    assert (Hin : iv ∈ ivs1) by (eapply list_elem_of_lookup_2; eassumption).
    pose proof (sameShape_reach _ _ Hs1 Hreach iv Hin) as Hr.
    rewrite (sameShape_zlen _ _ Hs1) in Hr. exact Hr. }
  apply (rangeUpd_total (orderedIntervals s) setRangeBaseCompacting);
    [reflexivity|lia|lia|exact Hs1].
Qed.

Lemma UpdateStateForStartedCompaction_returns_aux inputs isBase :
  (forall p, p ∈ concat inputs -> (p < length (levelMetadata s))%nat) ->
  (isBase = true -> concat inputs <> []) ->
  exists s', UpdateStateForStartedCompaction s inputs isBase = Ok s'.
Proof.
  intros Hvalid Hne. unfold UpdateStateForStartedCompaction.
  set (good := fun st : Z * Z * list fileInterval =>
         sameShape (orderedIntervals s) (snd st) /\
         0 <= fst (fst st) /\ snd (fst st) < zlen (orderedIntervals s)).
  destruct (concat inputs) as [|p rest] eqn:Hin.
  - simpl. destruct isBase; [exfalso; apply Hne; reflexivity|eauto].
  - cbn [foldM].
    destruct (updateFile_returns (-1, 0, orderedIntervals s) p) as (st1 & H1 & Hgood1).
    { apply Hvalid. left. }
    { simpl. reflexivity. }
    { left. simpl. split; reflexivity. }
    rewrite H1. cbn [bind].
    destruct (foldM_total good (updateFile (levelMetadata s)) rest) with (s := st1)
      as (st & H2 & Hs2 & Hmn & Hmx); [|exact Hgood1|].
    { intros st0 q Hq (Hs0 & Hmn0 & Hmx0). apply updateFile_returns.
      - apply Hvalid. right. exact Hq.
      - exact Hs0.
      - right. split; assumption. }
    rewrite H2. cbn [bind]. destruct st as [[mn mx] ivs]. simpl in Hs2, Hmn, Hmx.
    destruct isBase; [|eauto].
    destruct (foldM_total (sameShape (orderedIntervals s)) updateBase (zrange mn mx))
      with (s := ivs) as (ivs' & H3 & _); [|exact Hs2|].
    { intros l i Hi Hl.
      pose proof (zrange_bounds mn mx) as HF. rewrite Forall_forall in HF.
      specialize (HF i Hi). apply updateBase_returns; [lia|exact Hl]. }
    rewrite H3. cbn [bind]. eauto.
Qed.

End StateCallsReturn.

Section StateCallsTheorems.
Context `{E : Env}.

Lemma built_structure_reach fs flushSplitMaxBytes s0 s :
  (forall f0, f0 ∈ fs -> wfFile f0) ->
  NewL0Sublevels fs flushSplitMaxBytes = Ok s0 ->
  structure s = structure s0 -> reach (orderedIntervals s).
Proof.
  intros Hwf Hnew Hs.
  destruct (structure_fields _ _ Hs) as (_ & Hivs & _).
  apply (sameShape_reach (orderedIntervals s0)); [exact Hivs|].
  destruct (built_interval_range fs flushSplitMaxBytes s0 Hwf Hnew) as [Hrange _].
  intros iv Hiv. apply list_elem_of_lookup in Hiv as [i Hi].
  destruct (Hrange i iv Hi) as (? & ? & _). lia.
Qed.

Lemma built_structure_arena_length fs flushSplitMaxBytes s0 s :
  (forall f0, f0 ∈ fs -> wfFile f0) ->
  NewL0Sublevels fs flushSplitMaxBytes = Ok s0 ->
  structure s = structure s0 -> length (levelMetadata s) = length fs.
Proof.
  intros Hwf Hnew Hs.
  destruct (structure_fields _ _ Hs) as (_ & _ & ->).
  destruct (NewL0Sublevels_built fs flushSplitMaxBytes s0 Hwf Hnew) as (subs & _ & HB).
  rewrite (B_arena _ _ _ _ HB), length_imap. unfold arenaOf. apply length_imap.
Qed.

(** X27.  On an engine with the structure that [NewL0Sublevels] built,
    [InitCompactingFileInfo] returns an engine, whatever compactions are
    said to be in progress: no index leaves [orderedIntervals].  The
    engine returned has the same structure. *)
Theorem InitCompactingFileInfo_returns (fs : list FileMetadata) (flushSplitMaxBytes : Z)
    (s0 s : L0Sublevels) (inProgress : list L0Compaction) :
  (forall f0, f0 ∈ fs -> wfFile f0) ->
  NewL0Sublevels fs flushSplitMaxBytes = Ok s0 ->
  structure s = structure s0 ->
  exists s', InitCompactingFileInfo s inProgress = Ok s' /\ structure s' = structure s0.
Proof.
  intros Hwf Hnew Hs.
  destruct (InitCompactingFileInfo_returns_aux s
              (built_structure_wfEngine fs flushSplitMaxBytes s0 s Hwf Hnew Hs)
              (built_structure_reach fs flushSplitMaxBytes s0 s Hwf Hnew Hs) inProgress)
    as [s' Hs'].
  exists s'. split; [exact Hs'|].
  rewrite (InitCompactingFileInfo_structure _ _ _ Hs'). exact Hs.
Qed.

(** X28.  On such an engine, [UpdateStateForStartedCompaction] returns an
    engine with the same structure when every input is a file of the
    engine and, for a base compaction, there is at least one input. *)
Theorem UpdateStateForStartedCompaction_returns (fs : list FileMetadata)
    (flushSplitMaxBytes : Z) (s0 s : L0Sublevels) (inputs : list (list fileRef))
    (isBase : bool) :
  (forall f0, f0 ∈ fs -> wfFile f0) ->
  NewL0Sublevels fs flushSplitMaxBytes = Ok s0 ->
  structure s = structure s0 ->
  (forall p, p ∈ concat inputs -> (p < length fs)%nat) ->
  (isBase = true -> concat inputs <> []) ->
  exists s', UpdateStateForStartedCompaction s inputs isBase = Ok s' /\
             structure s' = structure s0.
Proof.
  intros Hwf Hnew Hs Hvalid Hne.
  destruct (UpdateStateForStartedCompaction_returns_aux s
              (built_structure_wfEngine fs flushSplitMaxBytes s0 s Hwf Hnew Hs)
              (built_structure_reach fs flushSplitMaxBytes s0 s Hwf Hnew Hs) inputs isBase)
    as [s' Hs'].
  - intros p Hp. rewrite (built_structure_arena_length fs flushSplitMaxBytes s0 s Hwf Hnew Hs).
    apply Hvalid. exact Hp.
  - exact Hne.
  - exists s'. split; [exact Hs'|].
    rewrite (UpdateStateForStartedCompaction_structure _ _ _ _ Hs'). exact Hs.
Qed.

End StateCallsTheorems.

Lemma InitCompactingFileInfo_returns_witness :
  exists s',
    InitCompactingFileInfo (E := bytesEnv) tallStack
      [mkL0Compaction (mkInternalKey (userKey "b") 1) (mkInternalKey (userKey "z") 1) false]
    = Ok s' /\
    structure s' = structure (orEmpty (NewL0Sublevels (E := bytesEnv) tallStackFiles 1048576)).
Proof.
  apply (InitCompactingFileInfo_returns (E := bytesEnv) tallStackFiles 1048576
           (orEmpty (NewL0Sublevels (E := bytesEnv) tallStackFiles 1048576)) tallStack).
  - wf_files.
  - vm_compute. reflexivity.
  - vm_compute. reflexivity.
Defined.

Lemma UpdateStateForStartedCompaction_returns_witness :
  exists s',
    UpdateStateForStartedCompaction tallStack [[0%nat; 1%nat]] true = Ok s' /\
    structure s' = structure (orEmpty (NewL0Sublevels (E := bytesEnv) tallStackFiles 1048576)).
Proof.
  apply (UpdateStateForStartedCompaction_returns (E := bytesEnv) tallStackFiles 1048576
           (orEmpty (NewL0Sublevels (E := bytesEnv) tallStackFiles 1048576)) tallStack).
  - wf_files.
  - vm_compute. reflexivity.
  - vm_compute. reflexivity.
  - intros p Hp. simpl in Hp.
    repeat (apply elem_of_cons in Hp as [->|Hp]); [simpl; lia..|inversion Hp].
  - intros _. discriminate.
Defined.

(** ** Intervals that share a file *)

(** The file range recorded for the interval at position [i]. *)
Definition span (ivs : list fileInterval) (i : nat) : option (Z * Z) :=
  (fun iv => (filesMinIntervalIndex iv, filesMaxIntervalIndex iv)) <$> ivs !! i.

(** The file ranges lie among the intervals and hold their own interval;
    an interval lies in the range of another exactly when the other lies in
    its range, and then so does every interval in between. *)
Record Geometry (ivs : list fileInterval) : Prop := {
  G_in : forall (i : nat) a b, span ivs i = Some (a, b) ->
      0 <= a <= Z.of_nat i /\ Z.of_nat i <= b < zlen ivs;
  G_sym : forall (i j : nat) a b, span ivs i = Some (a, b) ->
      a <= Z.of_nat j <= b ->
      exists a' b', span ivs j = Some (a', b') /\ a' <= Z.of_nat i <= b';
  G_between : forall (k i x : nat) a b, span ivs k = Some (a, b) ->
      a <= Z.of_nat x <= b -> (x <= i <= k)%nat \/ (k <= i <= x)%nat ->
      exists a' b', span ivs i = Some (a', b') /\ a' <= Z.of_nat x <= b'
}.

Lemma span_Some ivs (i : nat) iv :
  ivs !! i = Some iv ->
  span ivs i = Some (filesMinIntervalIndex iv, filesMaxIntervalIndex iv).
Proof. intros H. unfold span. rewrite H. reflexivity. Qed.

Lemma span_inv ivs (i : nat) a b :
  span ivs i = Some (a, b) ->
  exists iv, ivs !! i = Some iv /\ filesMinIntervalIndex iv = a /\
             filesMaxIntervalIndex iv = b.
Proof.
  unfold span. destruct (ivs !! i) as [iv|]; [|discriminate].
  intros [= <- <-]. eauto.
Qed.

Lemma span_shape ivs ivs' (i : nat) :
  sameShape ivs ivs' -> span ivs' i = span ivs i.
Proof.
  intros H. unfold sameShape in H. apply (f_equal (fun l => l !! i)) in H.
  change (map intervalStructure ivs') with (intervalStructure <$> ivs') in H.
  change (map intervalStructure ivs) with (intervalStructure <$> ivs) in H.
  rewrite !list_lookup_fmap in H. unfold span.
  destruct (ivs' !! i) as [iv'|], (ivs !! i) as [iv|]; try discriminate; [|reflexivity].
  simpl in *. unfold intervalStructure in H. injection H as _ _ _ _ _ -> ->. reflexivity.
Qed.

Lemma Geometry_shape ivs ivs' : sameShape ivs ivs' -> Geometry ivs -> Geometry ivs'.
Proof.
  intros H HG. pose proof (sameShape_zlen _ _ H) as Hlen. constructor.
  - intros i a b Hi. rewrite (span_shape _ _ _ H) in Hi. rewrite Hlen.
    apply (G_in _ HG _ _ _ Hi).
  - intros i j a b Hi Hj. rewrite (span_shape _ _ _ H) in Hi.
    destruct (G_sym _ HG _ _ _ _ Hi Hj) as (a' & b' & Hs & Hr).
    exists a', b'. rewrite (span_shape _ _ _ H). auto.
  - intros k i x a b Hk Hx Hi. rewrite (span_shape _ _ _ H) in Hk.
    destruct (G_between _ HG _ _ _ _ _ Hk Hx Hi) as (a' & b' & Hs & Hr).
    exists a', b'. rewrite (span_shape _ _ _ H). auto.
Qed.

Section BuiltGeometry.
Context `{E : Env}.
Variable fs : list FileMetadata.
Variable flushSplitMaxBytes : Z.
Variable s : L0Sublevels.
Hypothesis fs_wf : forall f0, f0 ∈ fs -> wfFile f0.
Hypothesis Hnew : NewL0Sublevels fs flushSplitMaxBytes = Ok s.

(** A file of the interval [k] whose span holds the interval [x] is a file
    of every interval from [x] to [k], so the ranges of those intervals
    hold [x] and [k]. *)
Lemma shared_file (k i x : nat) ivk q f :
  orderedIntervals s !! k = Some ivk -> q ∈ files ivk ->
  levelMetadata s !! q = Some f ->
  minIntervalIndex f <= Z.of_nat x <= maxIntervalIndex f ->
  (x <= i <= k)%nat \/ (k <= i <= x)%nat ->
  exists ivi, orderedIntervals s !! i = Some ivi /\
    filesMinIntervalIndex ivi <= Z.of_nat x <= filesMaxIntervalIndex ivi /\
    filesMinIntervalIndex ivi <= Z.of_nat k <= filesMaxIntervalIndex ivi.
Proof.
  intros Hk Hq Hf Hx Hi.
  destruct (interval_files_spec fs flushSplitMaxBytes s fs_wf Hnew k ivk Hk)
    as (_ & Hfiles & _).
  apply Hfiles in Hq as (f' & Hf' & Hcov).
  assert (f' = f) by congruence. subst f'.
  destruct (built_interval_range fs flushSplitMaxBytes s fs_wf Hnew) as [Hrange _].
  pose proof (NewL0Sublevels_wfEngine fs flushSplitMaxBytes s fs_wf Hnew) as HW.
  destruct (W_file _ HW _ _ Hf) as (_ & _ & _ & Hmax & _).
  destruct (lookup_lt_is_Some_2 (orderedIntervals s) i) as [ivi Hivi].
  { unfold zlen in Hmax. lia. }
  exists ivi. split; [exact Hivi|].
  destruct (interval_files_spec fs flushSplitMaxBytes s fs_wf Hnew i ivi Hivi)
    as (_ & Hfilesi & _).
  assert (Hqi : q ∈ files ivi).
  { apply Hfilesi. exists f. split; [exact Hf|]. lia. }
  destruct (Hrange i ivi Hivi) as (H1 & H2 & Hhold).
  destruct (Hhold q f Hqi Hf) as [Hlo Hhi]. lia.
Qed.

Lemma built_Geometry : Geometry (orderedIntervals s).
Proof.
  destruct (built_interval_range fs flushSplitMaxBytes s fs_wf Hnew) as [Hrange Hreached].
  assert (Hlink : forall (k i x : nat) ivk,
            orderedIntervals s !! k = Some ivk ->
            filesMinIntervalIndex ivk <= Z.of_nat x <= filesMaxIntervalIndex ivk ->
            (x <= i <= k)%nat \/ (k <= i <= x)%nat ->
            exists ivi, orderedIntervals s !! i = Some ivi /\
              filesMinIntervalIndex ivi <= Z.of_nat x <= filesMaxIntervalIndex ivi /\
              filesMinIntervalIndex ivi <= Z.of_nat k <= filesMaxIntervalIndex ivi).
  { intros k i x ivk Hk Hx Hi.
    destruct (Hrange k ivk Hk) as (Hk1 & Hk2 & Hhold).
    destruct (interval_files_spec fs flushSplitMaxBytes s fs_wf Hnew k ivk Hk)
      as (_ & Hfiles & _).
    destruct (decide (x = k)) as [->|Hne].
    { assert (i = k) by lia. subst i. exists ivk. split; [exact Hk|]. lia. }
    destruct (Hreached k ivk Hk) as [Hlow Hhigh].
    destruct (decide (x < k)%nat) as [Hlt|Hge].
    - destruct Hlow as [Heq|(q & f & Hq & Hf & Hmn)]; [lia|].
      pose proof Hq as Hq'. apply Hfiles in Hq' as (f' & Hf' & Hcov).
      assert (f' = f) by congruence. subst f'.
      apply (shared_file k i x ivk q f Hk Hq Hf); lia.
    - destruct Hhigh as [Heq|(q & f & Hq & Hf & Hmx)]; [lia|].
      pose proof Hq as Hq'. apply Hfiles in Hq' as (f' & Hf' & Hcov).
      assert (f' = f) by congruence. subst f'.
      apply (shared_file k i x ivk q f Hk Hq Hf); lia. }
  constructor.
  - intros i a b Hi. apply span_inv in Hi as (iv & Hiv & <- & <-).
    destruct (Hrange i iv Hiv) as (H1 & H2 & _). lia.
  - intros i j a b Hi Hj. apply span_inv in Hi as (iv & Hiv & <- & <-).
    destruct (Hlink i j j iv Hiv Hj) as (ivj & Hivj & _ & Hr).
    { destruct (decide (j <= i)%nat); [left|right]; lia. }
    exists (filesMinIntervalIndex ivj), (filesMaxIntervalIndex ivj).
    split; [apply span_Some; exact Hivj|exact Hr].
  - intros k i x a b Hk Hx Hi. apply span_inv in Hk as (iv & Hiv & <- & <-).
    destruct (Hlink k i x iv Hiv Hx Hi) as (ivi & Hivi & Hr & _).
    exists (filesMinIntervalIndex ivi), (filesMaxIntervalIndex ivi).
    split; [apply span_Some; exact Hivi|exact Hr].
Qed.

End BuiltGeometry.

(** ** The last loop of InitCompactingFileInfo *)

(** Everything of an interval but [intervalRangeIsBaseCompacting]. *)
Definition core (iv : fileInterval)
    : Z * intervalKey * list fileRef * Z * Z * Z * Z * bool * Z :=
  (intervalStructure iv, isBaseCompacting iv, compactingFileCount iv).

Definition rangeMarked (ivs : list fileInterval) (x : nat) : Prop :=
  exists iv, ivs !! x = Some iv /\ intervalRangeIsBaseCompacting iv = true.

(** Some interval in front of [k] is base compacting and has [x] in its
    file range. *)
Definition baseLinked (ivs : list fileInterval) (k : Z) (x : nat) : Prop :=
  exists (i : nat) iv,
    Z.of_nat i < k /\ ivs !! i = Some iv /\ isBaseCompacting iv = true /\
    filesMinIntervalIndex iv <= Z.of_nat x <= filesMaxIntervalIndex iv.

Lemma core_shape ivs ivs' : map core ivs' = map core ivs -> sameShape ivs ivs'.
Proof.
  intros H. unfold sameShape.
  apply (f_equal (map (fun c : Z * intervalKey * list fileRef * Z * Z * Z * Z * bool * Z =>
                         fst (fst c)))) in H.
  rewrite !map_map in H. exact H.
Qed.

Lemma markRange_spec st j st' :
  markRange st j = Ok st' ->
  0 <= j /\ fst st' = j /\ map core (snd st') = map core (snd st) /\
  forall x : nat, rangeMarked (snd st') x <-> rangeMarked (snd st) x \/ Z.of_nat x = j.
Proof.
  unfold markRange. intros H. inv_bind H. injection H as <-. simpl.
  apply lift_Ok in Hx.
  pose proof (zupd_map_id core _ _ setRangeBaseCompacting _ (fun _ => eq_refl) Hx) as Hcore.
  apply zupd_Some in Hx as (iv & Hj & Hiv & ->).
  split; [exact Hj|]. split; [reflexivity|]. split; [exact Hcore|].
  intros x. unfold rangeMarked.
  destruct (decide (x = Z.to_nat j)) as [->|Hne].
  - rewrite list_lookup_insert_eq by (eapply lookup_lt_Some; exact Hiv). split.
    + intros _. right. lia.
    + intros _. eexists. split; [reflexivity|]. reflexivity.
  - rewrite list_lookup_insert_ne by congruence. split.
    + intros H. left. exact H.
    + intros [H|H]; [exact H|lia].
Qed.

Lemma markRange_fold a b st st' :
  foldM markRange (zrange a b) st = Ok st' ->
  map core (snd st') = map core (snd st) /\
  fst st' = (if a <=? b then b else fst st) /\
  forall x : nat, rangeMarked (snd st') x <->
                  rangeMarked (snd st) x \/ a <= Z.of_nat x <= b.
Proof.
  intros H. destruct (Z_le_gt_dec a (b + 1)) as [Hab|Hab].
  - pose proof (foldM_zrange_inv
        (fun j st1 =>
           map core (snd st1) = map core (snd st) /\
           fst st1 = (if a <? j then j - 1 else fst st) /\
           forall x : nat, rangeMarked (snd st1) x <->
                           rangeMarked (snd st) x \/ a <= Z.of_nat x < j)
        markRange a b st st' Hab) as Hinv.
    destruct Hinv as (Hc & Hf & Hm); [| |exact H|].
    + intros j st1 st2 Hj (Hc1 & Hf1 & Hm1) Hstep.
      apply markRange_spec in Hstep as (Hj0 & Hf2 & Hc2 & Hm2).
      split; [congruence|]. split.
      * destruct (Z.ltb_spec a (j + 1)); lia.
      * intros x. rewrite Hm2, Hm1. split.
        -- intros [[Hl|Hr]|Hr]; [left; exact Hl|right; lia|right; lia].
        -- intros [Hl|Hr]; [left; left; exact Hl|].
           destruct (decide (Z.of_nat x = j)); [right; assumption|left; right; lia].
    + split; [reflexivity|]. split.
      * rewrite Z.ltb_irrefl. reflexivity.
      * intros x. split; [auto|]. intros [?|?]; [assumption|lia].
    + split; [exact Hc|]. split.
      * rewrite Hf. destruct (Z.ltb_spec a (b + 1)), (Z.leb_spec a b); lia.
      * intros x. rewrite Hm. split; intros [?|?]; auto; right; lia.
  - rewrite zrange_nil in H by lia. injection H as <-.
    split; [reflexivity|]. split.
    + destruct (Z.leb_spec a b); [lia|reflexivity].
    + intros x. split; [auto|]. intros [?|?]; [assumption|lia].
Qed.

Lemma core_lookup ivs ivs' (i : nat) iv' :
  map core ivs' = map core ivs -> ivs' !! i = Some iv' ->
  exists iv, ivs !! i = Some iv /\
    isBaseCompacting iv' = isBaseCompacting iv /\
    filesMinIntervalIndex iv' = filesMinIntervalIndex iv /\
    filesMaxIntervalIndex iv' = filesMaxIntervalIndex iv.
Proof.
  intros H Hi. destruct (map_lookup_eq core ivs ivs' i iv' H Hi) as (iv & Hiv & Heq).
  exists iv. split; [exact Hiv|]. unfold core, intervalStructure in Heq.
  injection Heq as _ _ _ _ _ Hmn Hmx Hb _. auto.
Qed.

(** The loop that spreads [isBaseCompacting] over the file ranges marks
    exactly the intervals in the file range of a base compacting interval,
    although it starts each range no lower than the last interval marked. *)
Lemma propagate_fold ivs st :
  Geometry ivs ->
  (forall x, ~ rangeMarked ivs x) ->
  foldM propagateStep (zrange 0 (zlen ivs - 1)) (0, ivs) = Ok st ->
  map core (snd st) = map core ivs /\
  forall x : nat, rangeMarked (snd st) x <-> baseLinked ivs (zlen ivs) x.
Proof.
  intros HG Hclear H.
  pose proof (foldM_zrange_inv
      (fun k st1 =>
         map core (snd st1) = map core ivs /\
         (0 <= fst st1 /\
          forall (i : nat) iv, Z.of_nat i < k -> ivs !! i = Some iv ->
            isBaseCompacting iv = true -> filesMaxIntervalIndex iv <= fst st1) /\
         (fst st1 = 0 \/
          exists (i : nat) iv, Z.of_nat i < k /\ ivs !! i = Some iv /\
            isBaseCompacting iv = true /\ filesMaxIntervalIndex iv = fst st1) /\
         forall x : nat, rangeMarked (snd st1) x <-> baseLinked ivs k x)
      propagateStep 0 (zlen ivs - 1) (0, ivs) st) as Hinv.
  destruct Hinv as (Hc & _ & _ & Hm); [unfold zlen; lia| | |exact H|].
  - intros k st1 st2 Hk (Hc1 & (Hf0 & Hfmax) & Hfrom & Hm1) Hstep.
    unfold propagateStep in Hstep. inv_bind Hstep. rename x into ivr.
    apply lift_Ok in Hx. apply zget_Some in Hx as [_ Hx].
    destruct (core_lookup _ _ _ _ Hc1 Hx) as (ivk & Hivk & Hb & Hmn & Hmx).
    rewrite Hb, Hmn, Hmx in Hstep.
    assert (Hkn : Z.of_nat (Z.to_nat k) = k) by lia.
    destruct (G_in _ HG _ _ _ (span_Some _ _ _ Hivk)) as [Hin1 Hin2].
    rewrite Hkn in Hin1, Hin2.
    assert (Hnext : forall x : nat,
              baseLinked ivs (k + 1) x <->
              baseLinked ivs k x \/
              (isBaseCompacting ivk = true /\
               filesMinIntervalIndex ivk <= Z.of_nat x <= filesMaxIntervalIndex ivk)).
    { intros x. split.
      - intros (i & iv & Hi & Hiv & Hbase & Hr).
        destruct (decide (Z.of_nat i = k)) as [Heq|Hne].
        + right. assert (i = Z.to_nat k) by lia. subst i.
          assert (iv = ivk) by congruence. subst iv. auto.
        + left. exists i, iv. repeat split; try assumption; lia.
      - intros [(i & iv & Hi & Hiv & Hbase & Hr)|[Hbase Hr]].
        + exists i, iv. repeat split; try assumption; lia.
        + exists (Z.to_nat k), ivk. repeat split; try assumption; lia. }
    destruct (isBaseCompacting ivk) eqn:Hbase.
    + apply markRange_fold in Hstep as (Hc2 & Hf2 & Hm2).
      set (a := filesMinIntervalIndex ivk) in *.
      set (b := filesMaxIntervalIndex ivk) in *.
      set (m := fst st1) in *.
      assert (Hstart : (if a <? m then m else a) = Z.max a m).
      { destruct (Z.ltb_spec a m); lia. }
      rewrite Hstart in Hf2, Hm2.
      assert (Hm' : fst st2 = Z.max m b).
      { rewrite Hf2. destruct (Z.leb_spec (Z.max a m) b); lia. }
      split; [congruence|]. split; [|split].
      * split; [lia|]. intros i iv Hi Hiv Hbi.
        destruct (decide (Z.of_nat i = k)) as [Heq|Hne].
        -- assert (i = Z.to_nat k) by lia. subst i.
           assert (iv = ivk) by congruence. subst iv. fold b. lia.
        -- specialize (Hfmax i iv ltac:(lia) Hiv Hbi). lia.
      * destruct (Z_le_gt_dec m b) as [Hle|Hgt].
        -- right. exists (Z.to_nat k), ivk. repeat split; try assumption; [lia|].
           fold b. lia.
        -- destruct Hfrom as [H0|(i & iv & Hi & Hiv & Hbi & Hmax)]; [lia|].
           right. exists i, iv. repeat split; try assumption; lia.
      * intros x. rewrite Hm2, Hm1, Hnext. split.
        -- intros [Hl|Hr]; [left; exact Hl|right; split; [reflexivity|lia]].
        -- intros [Hl|[_ Hr]]; [left; exact Hl|].
           destruct (Z_le_gt_dec (Z.max a m) (Z.of_nat x)) as [Hge|Hlt]; [right; lia|].
           left. destruct Hfrom as [H0|(i & iv & Hi & Hiv & Hbi & Hmax)]; [lia|].
           exists i, iv. split; [exact Hi|]. split; [exact Hiv|]. split; [exact Hbi|].
           destruct (G_in _ HG _ _ _ (span_Some _ _ _ Hiv)) as [Hi1 Hi2].
           destruct (decide (i <= x)%nat) as [Hix|Hxi]; [lia|].
           destruct (G_between _ HG (Z.to_nat k) i x a b (span_Some _ _ _ Hivk))
             as (a' & b' & Hs & Hr'); [lia|left; lia|].
           rewrite (span_Some _ _ _ Hiv) in Hs. injection Hs as <- <-. exact Hr'.
    + injection Hstep as <-. split; [exact Hc1|]. split; [|split].
      * split; [exact Hf0|]. intros i iv Hi Hiv Hbi.
        destruct (decide (Z.of_nat i = k)) as [Heq|Hne].
        -- assert (i = Z.to_nat k) by lia. subst i. congruence.
        -- apply (Hfmax i iv); [lia|assumption..].
      * destruct Hfrom as [H0|(i & iv & Hi & Hiv & Hbi & Hmax)]; [left; exact H0|].
        right. exists i, iv. repeat split; try assumption; lia.
      * intros x. rewrite Hm1, Hnext. split; [auto|].
        intros [Hl|[Hr _]]; [exact Hl|discriminate].
  - simpl. split; [reflexivity|]. split; [split; [lia|]|split; [left; reflexivity|]].
    + intros i iv Hi. lia.
    + intros x. split.
      * intros Hx. exfalso. apply (Hclear x Hx).
      * intros (i & iv & Hi & _). lia.
  - split; [exact Hc|]. intros x. rewrite Hm.
    replace (zlen ivs - 1 + 1) with (zlen ivs) by lia. reflexivity.
Qed.

Definition rangeClear (ivs : list fileInterval) : Prop :=
  forall iv, iv ∈ ivs -> intervalRangeIsBaseCompacting iv = false.

Section InitRangeFlag.
Context `{E : Env}.

Lemma initFile_rangeClear ivs f ivs' :
  rangeClear ivs -> initFile ivs f = Ok ivs' -> rangeClear ivs'.
Proof.
  unfold initFile. intros H0 H.
  destruct (Compacting f); [|injection H as <-; exact H0].
  eapply (foldM_inv rangeClear); [|exact H0|exact H].
  intros l i l' Hl Hstep. unfold markFileCompacting in Hstep. apply lift_Ok in Hstep.
  unfold rangeClear. eapply zupd_forall; [|exact Hl|exact Hstep].
  intros iv Hiv. destruct (IsIntraL0Compacting f); exact Hiv.
Qed.

Lemma initInProgress_rangeClear ivs c ivs' :
  rangeClear ivs -> initInProgress ivs c = Ok ivs' -> rangeClear ivs'.
Proof.
  unfold initInProgress. intros H0 H.
  eapply (foldM_inv rangeClear); [|exact H0|exact H].
  intros l i l' Hl Hstep. simpl in Hstep. destruct (IsIntraL0 c).
  - inv_bind Hstep. injection Hstep as <-. exact Hl.
  - apply lift_Ok in Hstep. unfold rangeClear.
    eapply zupd_forall; [|exact Hl|exact Hstep]. intros iv Hiv. exact Hiv.
Qed.

(** What [InitCompactingFileInfo] leaves in [intervalRangeIsBaseCompacting],
    on an engine whose file ranges are those of a built engine. *)
Lemma InitCompactingFileInfo_range_flag s inProgress s' :
  Geometry (orderedIntervals s) ->
  InitCompactingFileInfo s inProgress = Ok s' ->
  forall x : nat,
    rangeMarked (orderedIntervals s') x <->
    baseLinked (orderedIntervals s') (zlen (orderedIntervals s')) x.
Proof.
  intros HG H. unfold InitCompactingFileInfo in H. do 3 inv_bind H. injection H as <-.
  rename x into ivs1, x0 into ivs2, x1 into st. simpl.
  assert (H0 : sameShape (orderedIntervals s) (map resetInterval (orderedIntervals s))).
  { unfold sameShape. rewrite map_map. reflexivity. }
  assert (H1 : sameShape (orderedIntervals s) ivs1).
  { eapply (foldM_inv (sameShape (orderedIntervals s))); [|exact H0|exact Hx].
    intros; eapply initFile_sameShape; eauto. }
  assert (H2 : sameShape (orderedIntervals s) ivs2).
  { eapply (foldM_inv (sameShape (orderedIntervals s))); [|exact H1|exact Hx0].
    intros; eapply initInProgress_sameShape; eauto. }
  assert (C0 : rangeClear (map resetInterval (orderedIntervals s))).
  { intros iv Hiv. apply list_elem_of_In, in_map_iff in Hiv as (iv0 & <- & _). reflexivity. }
  assert (C1 : rangeClear ivs1).
  { eapply (foldM_inv rangeClear); [|exact C0|exact Hx].
    intros; eapply initFile_rangeClear; eauto. }
  assert (C2 : rangeClear ivs2).
  { eapply (foldM_inv rangeClear); [|exact C1|exact Hx0].
    intros; eapply initInProgress_rangeClear; eauto. }
  destruct (propagate_fold ivs2 st (Geometry_shape _ _ H2 HG)) as [Hc Hm]; [|exact Hx1|].
  { intros x (iv & Hiv & Hflag).
    rewrite (C2 iv) in Hflag; [discriminate|]. eapply list_elem_of_lookup_2; exact Hiv. }
  intros x. rewrite Hm.
  assert (Hlen : zlen (snd st) = zlen ivs2) by (apply sameShape_zlen, core_shape, Hc).
  rewrite Hlen. unfold baseLinked. split.
  - intros (i & iv & Hi & Hiv & Hb & Hr).
    destruct (lookup_lt_is_Some_2 (snd st) i) as [iv' Hiv'].
    { apply lookup_lt_Some in Hiv. unfold zlen in Hlen. lia. }
    destruct (core_lookup _ _ _ _ Hc Hiv') as (iv0 & Hiv0 & Hb' & Hmn & Hmx).
    assert (iv0 = iv) by congruence. subst iv0.
    exists i, iv'. rewrite Hb', Hmn, Hmx. auto.
  - intros (i & iv' & Hi & Hiv' & Hb & Hr).
    destruct (core_lookup _ _ _ _ Hc Hiv') as (iv & Hiv & Hb' & Hmn & Hmx).
    exists i, iv. rewrite <- Hb', <- Hmn, <- Hmx. auto.
Qed.

(** X29.  After [InitCompactingFileInfo] on an engine with the structure
    that [NewL0Sublevels] built, [intervalRangeIsBaseCompacting] is set on
    an interval exactly when the interval lies in the file range of some
    interval with [isBaseCompacting], which is exactly when some interval in
    its own file range has [isBaseCompacting]. *)
Theorem intervalRangeIsBaseCompacting_after_init (fs : list FileMetadata)
    (flushSplitMaxBytes : Z) (s0 s s' : L0Sublevels) (inProgress : list L0Compaction) :
  (forall f0, f0 ∈ fs -> wfFile f0) ->
  NewL0Sublevels fs flushSplitMaxBytes = Ok s0 ->
  structure s = structure s0 ->
  InitCompactingFileInfo s inProgress = Ok s' ->
  (forall (j : nat) ivj, orderedIntervals s' !! j = Some ivj ->
     (intervalRangeIsBaseCompacting ivj = true <->
      exists (i : nat) ivi,
        orderedIntervals s' !! i = Some ivi /\ isBaseCompacting ivi = true /\
        filesMinIntervalIndex ivi <= Z.of_nat j <= filesMaxIntervalIndex ivi)) /\
  (forall (j : nat) ivj, orderedIntervals s' !! j = Some ivj ->
     (intervalRangeIsBaseCompacting ivj = true <->
      exists (i : nat) ivi,
        orderedIntervals s' !! i = Some ivi /\ isBaseCompacting ivi = true /\
        filesMinIntervalIndex ivj <= Z.of_nat i <= filesMaxIntervalIndex ivj)).
Proof.
  intros Hwf Hnew Hs Hinit.
  destruct (structure_fields _ _ Hs) as (_ & Hivs & _).
  pose proof (Geometry_shape _ _ Hivs (built_Geometry fs flushSplitMaxBytes s0 Hwf Hnew))
    as HG.
  pose proof (InitCompactingFileInfo_range_flag s inProgress s' HG Hinit) as Hflag.
  pose proof (InitCompactingFileInfo_structure _ _ _ Hinit) as Hs'.
  destruct (structure_fields _ _ Hs') as (_ & Hivs' & _).
  pose proof (Geometry_shape _ _ Hivs' HG) as HG'.
  assert (Hfirst : forall (j : nat) ivj, orderedIntervals s' !! j = Some ivj ->
            (intervalRangeIsBaseCompacting ivj = true <->
             exists (i : nat) ivi,
               orderedIntervals s' !! i = Some ivi /\ isBaseCompacting ivi = true /\
               filesMinIntervalIndex ivi <= Z.of_nat j <= filesMaxIntervalIndex ivi)).
  { intros j ivj Hj. split.
    - intros Hset. destruct (proj1 (Hflag j)) as (i & ivi & _ & Hi & Hb & Hr).
      { exists ivj. auto. }
      exists i, ivi. auto.
    - intros (i & ivi & Hi & Hb & Hr). destruct (proj2 (Hflag j)) as (iv & Hiv & Hset).
      { exists i, ivi. apply lookup_lt_Some in Hi as Hlt. unfold zlen.
        repeat split; try assumption; lia. }
      congruence. }
  split; [exact Hfirst|].
  intros j ivj Hj. rewrite (Hfirst j ivj Hj). split.
  - intros (i & ivi & Hi & Hb & Hr). exists i, ivi. split; [exact Hi|]. split; [exact Hb|].
    destruct (G_sym _ HG' i j _ _ (span_Some _ _ _ Hi) Hr) as (a' & b' & Hsp & Hr').
    rewrite (span_Some _ _ _ Hj) in Hsp. injection Hsp as <- <-. exact Hr'.
  - intros (i & ivi & Hi & Hb & Hr). exists i, ivi. split; [exact Hi|]. split; [exact Hb|].
    destruct (G_sym _ HG' j i _ _ (span_Some _ _ _ Hj) Hr) as (a' & b' & Hsp & Hr').
    rewrite (span_Some _ _ _ Hi) in Hsp. injection Hsp as <- <-. exact Hr'.
Qed.

End InitRangeFlag.

(** The staircase engine while a compaction of [a, b] into the base level
    is in progress. *)
Definition staircaseBaseCompacting : L0Sublevels :=
  orEmpty (InitCompactingFileInfo (E := bytesEnv) staircaseEngine
             [mkL0Compaction (mkInternalKey (userKey "a") 1)
                (mkInternalKey (userKey "b") 1) false]).

Lemma intervalRangeIsBaseCompacting_after_init_witness :
  (forall (j : nat) ivj, orderedIntervals staircaseBaseCompacting !! j = Some ivj ->
     (intervalRangeIsBaseCompacting ivj = true <->
      exists (i : nat) ivi,
        orderedIntervals staircaseBaseCompacting !! i = Some ivi /\
        isBaseCompacting ivi = true /\
        filesMinIntervalIndex ivi <= Z.of_nat j <= filesMaxIntervalIndex ivi)) /\
  (forall (j : nat) ivj, orderedIntervals staircaseBaseCompacting !! j = Some ivj ->
     (intervalRangeIsBaseCompacting ivj = true <->
      exists (i : nat) ivi,
        orderedIntervals staircaseBaseCompacting !! i = Some ivi /\
        isBaseCompacting ivi = true /\
        filesMinIntervalIndex ivj <= Z.of_nat i <= filesMaxIntervalIndex ivj)).
Proof.
  apply (intervalRangeIsBaseCompacting_after_init (E := bytesEnv) staircase 100
           staircaseEngine staircaseEngine staircaseBaseCompacting
           [mkL0Compaction (mkInternalKey (userKey "a") 1)
              (mkInternalKey (userKey "b") 1) false]).
  - wf_files.
  - vm_compute. reflexivity.
  - reflexivity.
  - vm_compute. reflexivity.
Defined.

(** ** Which intervals InitCompactingFileInfo marks as base compacting *)

(** The interval keys between which an in-progress compaction lies. *)
Definition compactionStart (c : L0Compaction) : intervalKey :=
  mkIntervalKey (UserKey (CSmallest c)) false.

Definition compactionEnd (c : L0Compaction) : intervalKey :=
  mkIntervalKey (UserKey (CLargest c))
    (negb (Trailer (CLargest c) =? InternalKeyRangeDeleteSentinel)).

(** [based P ivs ivs'] : the intervals [ivs'] have the start keys of [ivs],
    and [isBaseCompacting] where [ivs] has it or [P] holds. *)
Definition based (P : nat -> Prop) (ivs ivs' : list fileInterval) : Prop :=
  map startKey ivs' = map startKey ivs /\
  forall (i : nat) iv', ivs' !! i = Some iv' ->
    (isBaseCompacting iv' = true <->
     (exists iv, ivs !! i = Some iv /\ isBaseCompacting iv = true) \/ P i).

Lemma based_same ivs : based (fun _ => False) ivs ivs.
Proof.
  split; [reflexivity|]. intros i iv Hiv. split.
  - intros Hb. left. eauto.
  - intros [(iv0 & Hiv0 & Hb)|[]]. congruence.
Qed.

Lemma based_iff (P Q : nat -> Prop) ivs ivs' :
  (forall i, (i < length ivs)%nat -> (P i <-> Q i)) -> based P ivs ivs' -> based Q ivs ivs'.
Proof.
  intros HPQ [Hk Hb]. split; [exact Hk|]. intros i iv' Hiv'.
  rewrite (Hb i iv' Hiv'), HPQ; [reflexivity|].
  apply lookup_lt_Some in Hiv'. apply (f_equal length) in Hk.
  rewrite !length_map in Hk. lia.
Qed.

Lemma based_trans (P1 P2 : nat -> Prop) ivs1 ivs2 ivs3 :
  based P1 ivs1 ivs2 -> based P2 ivs2 ivs3 -> based (fun i => P1 i \/ P2 i) ivs1 ivs3.
Proof.
  intros [Hk1 Hb1] [Hk2 Hb2]. split; [congruence|]. intros i iv3 Hiv3.
  rewrite (Hb2 i iv3 Hiv3). split.
  - intros [(iv2 & Hiv2 & Hb)|HP2]; [|right; right; exact HP2].
    apply (Hb1 i iv2 Hiv2) in Hb as [Hm|HP1]; [left; exact Hm|right; left; exact HP1].
  - assert (Hlen : length ivs2 = length ivs3).
    { apply (f_equal length) in Hk2. rewrite !length_map in Hk2. lia. }
    destruct (lookup_lt_is_Some_2 ivs2 i) as [iv2 Hiv2].
    { apply lookup_lt_Some in Hiv3. lia. }
    intros [Hm|[HP1|HP2]]; [left|left|right; exact HP2];
      exists iv2; (split; [exact Hiv2|]); apply (Hb1 i iv2 Hiv2); auto.
Qed.

Lemma mark_span_fold (g : fileInterval -> fileInterval) (flag : bool) mn mx ivs ivs' :
  (forall iv, isBaseCompacting (g iv) = isBaseCompacting iv || flag) ->
  (forall iv, startKey (g iv) = startKey iv) ->
  foldM (fun ivs i => lift (zupd ivs i g)) (zrange mn mx) ivs = Ok ivs' ->
  based (fun i => flag = true /\ mn <= Z.of_nat i <= mx) ivs ivs'.
Proof.
  intros Hg Hkey H. destruct (Z.le_gt_cases mn (mx + 1)) as [Hle|Hgt].
  2:{ rewrite zrange_nil in H by lia. injection H as <-.
      apply (based_iff (fun _ => False)); [|apply based_same].
      intros i _. split; [intros []|lia]. }
  apply (based_iff (fun i => flag = true /\ mn <= Z.of_nat i < mx + 1));
    [intros i _; split; intros [? ?]; (split; [assumption|lia])|].
  eapply (foldM_zrange_inv
            (fun k ivs1 => based (fun i => flag = true /\ mn <= Z.of_nat i < k) ivs ivs1));
    [exact Hle| | |exact H].
  - intros k ivs1 ivs1' Hk [Hkeys Hb] Hstep. apply lift_Ok in Hstep.
    apply zupd_Some in Hstep as (x & Hk0 & Hx & ->). split.
    + rewrite <- Hkeys. change (startKey <$> <[Z.to_nat k := g x]> ivs1 = startKey <$> ivs1).
      rewrite list_fmap_insert, Hkey. apply list_insert_id.
      rewrite list_lookup_fmap, Hx. reflexivity.
    + intros i iv' Hiv'. destruct (decide (i = Z.to_nat k)) as [->|Hne].
      * rewrite list_lookup_insert_eq in Hiv' by (eapply lookup_lt_Some; exact Hx).
        injection Hiv' as <-. rewrite Hg, orb_true_iff, (Hb _ x Hx), Z2Nat.id by lia.
        split.
        -- intros [[Hm|[_ Hr]]|Hf]; [left; exact Hm|lia|right; split; [exact Hf|lia]].
        -- intros [Hm|[Hf _]]; [left; left; exact Hm|right; exact Hf].
      * rewrite list_lookup_insert_ne in Hiv' by congruence.
        rewrite (Hb i iv' Hiv'). split.
        -- intros [Hm|[Hf Hr]]; [left; exact Hm|right; split; [exact Hf|lia]].
        -- intros [Hm|[Hf Hr]]; [left; exact Hm|right; split; [exact Hf|lia]].
  - apply (based_iff (fun _ => False)); [|apply based_same].
    intros i _. split; [intros []|lia].
Qed.

Section InitBaseFlag.
Context `{E : Env}.

(** A file that is compacting into the base level and spans the interval. *)
Definition baseFileOver (arena : list FileMetadata) (i : nat) : Prop :=
  exists f, f ∈ arena /\ Compacting f = true /\ IsIntraL0Compacting f = false /\
            minIntervalIndex f <= Z.of_nat i <= maxIntervalIndex f.

(** The key lies in the key range of a compaction into the base level. *)
Definition inCompaction (c : L0Compaction) (k : intervalKey) : Prop :=
  IsIntraL0 c = false /\
  0 <= intervalKeyCompare k (compactionStart c) /\
  intervalKeyCompare k (compactionEnd c) < 0.

Lemma initFiles_based arena :
  forall ivs ivs', foldM initFile arena ivs = Ok ivs' -> based (baseFileOver arena) ivs ivs'.
Proof.
  induction arena as [|f arena IH]; intros ivs ivs' H; simpl in H.
  - injection H as <-. apply (based_iff (fun _ => False)); [|apply based_same].
    intros i _. split; [intros []|]. intros (f & Hf & _). inversion Hf.
  - inv_bind H. rename x into ivs1.
    assert (H1 : based (fun i => (Compacting f && negb (IsIntraL0Compacting f)) = true /\
                                 minIntervalIndex f <= Z.of_nat i <= maxIntervalIndex f)
                   ivs ivs1).
    { unfold initFile in Hx. destruct (Compacting f) eqn:Hc.
      - unfold markFileCompacting in Hx.
        apply (mark_span_fold _ (negb (IsIntraL0Compacting f))) in Hx.
        + exact Hx.
        + intros iv. destruct (IsIntraL0Compacting f); simpl;
            [rewrite orb_false_r|rewrite orb_true_r]; reflexivity.
        + intros iv. destruct (IsIntraL0Compacting f); reflexivity.
      - injection Hx as <-. apply (based_iff (fun _ => False)); [|apply based_same].
        intros i _. split; [intros []|]. simpl. intros [? _]. discriminate. }
    pose proof (based_trans _ _ _ _ _ H1 (IH _ _ H)) as H2.
    eapply based_iff; [|exact H2]. intros i _. simpl. unfold baseFileOver. split.
    + intros [[Hflags Hr]|(g & Hg & Hrest)].
      * apply andb_true_iff in Hflags as [Hc Hi]. apply negb_true_iff in Hi.
        exists f. split; [left|auto].
      * exists g. split; [right; exact Hg|exact Hrest].
    + intros (g & Hg & Hc & Hi & Hr). apply elem_of_cons in Hg as [->|Hg].
      * left. rewrite Hc, Hi. auto.
      * right. exists g. auto.
Qed.

End InitBaseFlag.

Section InitBaseKeys.
Context `{E : Env}.

Lemma readOnly_fold {A} (l : list Z) (xs xs' : list A) :
  foldM (fun xs i => let* _ := lift (zget xs i) in Ok xs) l xs = Ok xs' -> xs' = xs.
Proof.
  intros H. symmetry. eapply (foldM_inv (fun ys => xs = ys)); [|reflexivity|exact H].
  intros ys i ys' -> Hstep. inv_bind Hstep. congruence.
Qed.

(** [sort.Search] over intervals in key order finds the first interval
    whose start key is not below [K]. *)
Lemma key_threshold ivs (K : intervalKey) :
  StronglySorted iklt (map startKey ivs) ->
  0 <= searchIn ivs (fun iv => 0 <=? intervalKeyCompare (startKey iv) K) <= zlen ivs /\
  forall (i : nat) iv, ivs !! i = Some iv ->
    (searchIn ivs (fun iv => 0 <=? intervalKeyCompare (startKey iv) K) <= Z.of_nat i <->
     0 <= intervalKeyCompare (startKey iv) K).
Proof.
  intros Hsorted.
  destruct (searchIn_spec ivs (fun iv => 0 <=? intervalKeyCompare (startKey iv) K))
    as (Hr & Hlo & Hhi).
  { intros i j x y Hij Hx Hy Hpx. apply Z.leb_le in Hpx. apply Z.leb_le.
    destruct (decide (i = j)) as [->|Hne]; [congruence|].
    assert (Hlt : iklt (startKey x) (startKey y)).
    { apply (StronglySorted_lookup iklt (map startKey ivs) i j); [exact Hsorted|lia| |].
      - change (map startKey ivs) with (startKey <$> ivs). rewrite list_lookup_fmap, Hx.
        reflexivity.
      - change (map startKey ivs) with (startKey <$> ivs). rewrite list_lookup_fmap, Hy.
        reflexivity. }
    unfold iklt in Hlt.
    destruct (Z_lt_le_dec (intervalKeyCompare (startKey y) K) 0) as [Hneg|]; [|assumption].
    assert (Hle : intervalKeyCompare (startKey x) (startKey y) <= 0) by lia.
    pose proof (intervalKeyCompare_le_lt (startKey x) (startKey y) K Hle Hneg). lia. }
  split; [exact Hr|]. intros i iv Hiv. split.
  - intros Hge. apply Z.leb_le. apply (Hhi i iv Hiv Hge).
  - intros Hk.
    destruct (Z_lt_le_dec (Z.of_nat i)
                (searchIn ivs (fun iv => 0 <=? intervalKeyCompare (startKey iv) K)))
      as [Hlt|]; [|assumption].
    specialize (Hlo i iv Hiv Hlt). simpl in Hlo. apply Z.leb_gt in Hlo. lia.
Qed.

Lemma initInProgress_based ivs c ivs' :
  StronglySorted iklt (map startKey ivs) ->
  initInProgress ivs c = Ok ivs' ->
  based (fun i => exists k, map startKey ivs !! i = Some k /\ inCompaction c k) ivs ivs'.
Proof.
  intros Hsorted H. unfold initInProgress in H. cbv zeta in H.
  fold (compactionStart c) in H. fold (compactionEnd c) in H.
  destruct (key_threshold ivs (compactionStart c) Hsorted) as [Hs0 Hstart].
  destruct (key_threshold ivs (compactionEnd c) Hsorted) as [He0 Hend].
  set (start := searchIn ivs (fun iv =>
                  0 <=? intervalKeyCompare (startKey iv) (compactionStart c))) in *.
  set (end_ := searchIn ivs (fun iv =>
                 0 <=? intervalKeyCompare (startKey iv) (compactionEnd c))) in *.
  assert (Hkey : forall i : nat, (i < length ivs)%nat ->
            ((exists k, map startKey ivs !! i = Some k /\ inCompaction c k) <->
             IsIntraL0 c = false /\ start <= Z.of_nat i <= Z.min end_ (zlen ivs) - 1)).
  { intros i Hi. destruct (lookup_lt_is_Some_2 ivs i Hi) as [iv Hiv].
    change (map startKey ivs) with (startKey <$> ivs). rewrite list_lookup_fmap, Hiv.
    simpl. pose proof (Hstart i iv Hiv) as H1. pose proof (Hend i iv Hiv) as H2.
    unfold inCompaction, zlen. split.
    - intros (k & [= <-] & Hc & Hk1 & Hk2). split; [exact Hc|]. lia.
    - intros (Hc & Hr). exists (startKey iv). split; [reflexivity|].
      split; [exact Hc|]. lia. }
  destruct (IsIntraL0 c) eqn:Hintra.
  - apply readOnly_fold in H. subst ivs'.
    apply (based_iff (fun _ => False)); [|apply based_same].
    intros i Hi. rewrite (Hkey i Hi). split; [intros []|]. intros [? _]. discriminate.
  - apply (mark_span_fold setBaseCompacting true) in H;
      [|intros iv; simpl; rewrite orb_true_r; reflexivity|reflexivity].
    eapply based_iff; [|exact H]. intros i Hi. rewrite (Hkey i Hi). simpl. tauto.
Qed.

Lemma initInProgressAll_based inProgress :
  forall ivs ivs',
    StronglySorted iklt (map startKey ivs) ->
    foldM initInProgress inProgress ivs = Ok ivs' ->
    based (fun i => exists k c, map startKey ivs !! i = Some k /\ c ∈ inProgress /\
                                inCompaction c k) ivs ivs'.
Proof.
  induction inProgress as [|c rest IH]; intros ivs ivs' Hsorted H; simpl in H.
  - injection H as <-. apply (based_iff (fun _ => False)); [|apply based_same].
    intros i _. split; [intros []|]. intros (k & c & _ & Hc & _). inversion Hc.
  - inv_bind H. rename x into ivs1.
    pose proof (initInProgress_based ivs c ivs1 Hsorted Hx) as H1.
    assert (Hkeys : map startKey ivs1 = map startKey ivs) by apply H1.
    rewrite <- Hkeys in Hsorted.
    pose proof (based_trans _ _ _ _ _ H1 (IH ivs1 ivs' Hsorted H)) as H2.
    eapply based_iff; [|exact H2]. intros i _. simpl. rewrite Hkeys. split.
    + intros [(k & Hk & Hin)|(k & c' & Hk & Hc' & Hin)].
      * exists k, c. split; [exact Hk|]. split; [left|exact Hin].
      * exists k, c'. split; [exact Hk|]. split; [right; exact Hc'|exact Hin].
    + intros (k & c' & Hk & Hc' & Hin). apply elem_of_cons in Hc' as [->|Hc'].
      * left. exists k. auto.
      * right. exists k, c'. auto.
Qed.

End InitBaseKeys.

Lemma sameShape_startKeys ivs ivs' :
  sameShape ivs ivs' -> map startKey ivs' = map startKey ivs.
Proof.
  intros H. unfold sameShape in H.
  apply (f_equal (map (fun t : Z * intervalKey * list fileRef * Z * Z * Z * Z =>
                         snd (fst (fst (fst (fst (fst t)))))))) in H.
  rewrite !map_map in H. exact H.
Qed.

Lemma propagate_core (l : list Z) st st' :
  foldM propagateStep l st = Ok st' -> map core (snd st') = map core (snd st).
Proof.
  intros H.
  eapply (foldM_inv (fun st1 => map core (snd st1) = map core (snd st)));
    [|reflexivity|exact H].
  intros st1 i st2 Hst1 Hstep. unfold propagateStep in Hstep. inv_bind Hstep.
  destruct (isBaseCompacting x); [|injection Hstep as <-; exact Hst1].
  eapply (foldM_inv (fun st3 => map core (snd st3) = map core (snd st)));
    [|exact Hst1|exact Hstep].
  intros st3 j st4 Hst3 Hmark. apply markRange_spec in Hmark as (_ & _ & Hc & _).
  congruence.
Qed.

Section InitBaseTheorem.
Context `{E : Env}.

Lemma built_keys_sorted fs flushSplitMaxBytes s :
  (forall f0, f0 ∈ fs -> wfFile f0) ->
  NewL0Sublevels fs flushSplitMaxBytes = Ok s ->
  StronglySorted iklt (map startKey (orderedIntervals s)).
Proof.
  intros fs_wf Hnew.
  destruct (built_subs fs flushSplitMaxBytes s fs_wf Hnew) as (subs & Hlen & HB).
  assert (Hkeys : map startKey (orderedIntervals s) = keysOf fs).
  { apply list_eq. intros i. rewrite list_lookup_fmap.
    destruct (orderedIntervals s !! i) as [iv|] eqn:Hiv; simpl.
    - destruct (B_ivs _ _ _ _ HB _ _ Hiv) as (_ & Hk & _). congruence.
    - symmetry. apply lookup_ge_None. apply lookup_ge_None in Hiv.
      rewrite <- (B_ivs_len _ _ _ _ HB). exact Hiv. }
  rewrite Hkeys. apply keysOf_sorted.
Qed.

(** What [InitCompactingFileInfo] leaves in [isBaseCompacting]. *)
Lemma InitCompactingFileInfo_base_flag s inProgress s' :
  StronglySorted iklt (map startKey (orderedIntervals s)) ->
  InitCompactingFileInfo s inProgress = Ok s' ->
  forall (i : nat) iv', orderedIntervals s' !! i = Some iv' ->
    (isBaseCompacting iv' = true <->
     baseFileOver (levelMetadata s) i \/
     exists c, c ∈ inProgress /\ inCompaction c (startKey iv')).
Proof.
  intros Hsorted H. unfold InitCompactingFileInfo in H. do 3 inv_bind H. injection H as <-.
  rename x into ivs1, x0 into ivs2, x1 into st. simpl.
  set (ivs0 := map resetInterval (orderedIntervals s)) in *.
  assert (Hk0 : map startKey ivs0 = map startKey (orderedIntervals s)).
  { unfold ivs0. rewrite map_map. reflexivity. }
  pose proof (initFiles_based _ _ _ Hx) as B1.
  assert (Hk1 : map startKey ivs1 = map startKey ivs0) by apply B1.
  assert (Hsorted1 : StronglySorted iklt (map startKey ivs1)) by (rewrite Hk1, Hk0; exact Hsorted).
  pose proof (initInProgressAll_based _ _ _ Hsorted1 Hx0) as B2.
  pose proof (based_trans _ _ _ _ _ B1 B2) as [Hk2 B].
  pose proof (propagate_core _ _ _ Hx1) as Hc. simpl in Hc.
  intros i iv' Hiv'.
  destruct (map_lookup_eq core ivs2 (snd st) i iv' Hc Hiv') as (iv2 & Hiv2 & Heq).
  assert (Hsame : isBaseCompacting iv' = isBaseCompacting iv2 /\ startKey iv' = startKey iv2).
  { unfold core, intervalStructure in Heq. injection Heq. intros. auto. }
  destruct Hsame as [-> Hkey]. rewrite (B i iv2 Hiv2).
  assert (Hki : map startKey ivs1 !! i = Some (startKey iv')).
  { rewrite Hk1, <- Hk2. change (map startKey ivs2) with (startKey <$> ivs2).
    rewrite list_lookup_fmap, Hiv2, Hkey. reflexivity. }
  split.
  - intros [(iv0 & Hiv0 & Hb)|[Hf|(k & c & Hk & Hc' & Hin)]].
    + unfold ivs0 in Hiv0. change (map resetInterval (orderedIntervals s))
        with (resetInterval <$> orderedIntervals s) in Hiv0.
      rewrite list_lookup_fmap in Hiv0.
      destruct (orderedIntervals s !! i); [|discriminate].
      injection Hiv0 as <-. discriminate.
    + left. exact Hf.
    + right. exists c. split; [exact Hc'|]. congruence.
  - intros [Hf|(c & Hc' & Hin)]; [right; left; exact Hf|].
    right. right. exists (startKey iv'), c. auto.
Qed.

(** X30.  After [InitCompactingFileInfo] on an engine with the structure
    that [NewL0Sublevels] built, an interval has [isBaseCompacting] exactly
    when one of its files is compacting and not in an intra-L0 compaction,
    or its start key lies between the bounds of an in-progress compaction
    that is not intra-L0; and every such interval also has
    [intervalRangeIsBaseCompacting]. *)
Theorem isBaseCompacting_after_init (fs : list FileMetadata) (flushSplitMaxBytes : Z)
    (s0 s s' : L0Sublevels) (inProgress : list L0Compaction) :
  (forall f0, f0 ∈ fs -> wfFile f0) ->
  NewL0Sublevels fs flushSplitMaxBytes = Ok s0 ->
  structure s = structure s0 ->
  InitCompactingFileInfo s inProgress = Ok s' ->
  (forall (i : nat) iv', orderedIntervals s' !! i = Some iv' ->
     (isBaseCompacting iv' = true <->
      (exists q f, q ∈ files iv' /\ levelMetadata s' !! q = Some f /\
                   Compacting f = true /\ IsIntraL0Compacting f = false) \/
      (exists c, c ∈ inProgress /\ IsIntraL0 c = false /\
                 0 <= intervalKeyCompare (startKey iv') (compactionStart c) /\
                 intervalKeyCompare (startKey iv') (compactionEnd c) < 0))) /\
  (forall (i : nat) iv', orderedIntervals s' !! i = Some iv' ->
     isBaseCompacting iv' = true -> intervalRangeIsBaseCompacting iv' = true).
Proof.
  intros Hwf Hnew Hs Hinit.
  destruct (structure_fields _ _ Hs) as (_ & Hivs & Harena).
  pose proof (InitCompactingFileInfo_structure _ _ _ Hinit) as Hs'.
  destruct (structure_fields _ _ Hs') as (_ & Hivs' & Harena').
  assert (Hsorted : StronglySorted iklt (map startKey (orderedIntervals s))).
  { rewrite (sameShape_startKeys _ _ Hivs).
    apply (built_keys_sorted fs flushSplitMaxBytes s0 Hwf Hnew). }
  pose proof (InitCompactingFileInfo_base_flag s inProgress s' Hsorted Hinit) as Hflag.
  split.
  - intros i iv' Hiv'. rewrite (Hflag i iv' Hiv').
    assert (Hs0' : structure s' = structure s0) by congruence.
    destruct (structure_lookup _ _ _ _ Hs0' Hiv') as (iv0 & Hiv0 & _ & Hfiles & _).
    destruct (interval_files_spec fs flushSplitMaxBytes s0 Hwf Hnew i iv0 Hiv0)
      as (_ & Hspec & _).
    rewrite Harena', Harena, Hfiles. unfold baseFileOver, inCompaction.
    split; (intros [Hfile|Hcomp]; [left|right; exact Hcomp]).
    + destruct Hfile as (f & Hf & Hc & Hi & Hr).
      apply list_elem_of_lookup in Hf as [q Hq].
      exists q, f. split; [|auto]. apply Hspec. exists f. auto.
    + destruct Hfile as (q & f & Hq & Hf & Hc & Hi).
      apply Hspec in Hq as (f' & Hf' & Hr).
      assert (f' = f) by congruence. subst f'.
      exists f. split; [|auto]. eapply list_elem_of_lookup_2. exact Hf.
  - intros i iv' Hiv' Hb.
    pose proof (Geometry_shape _ _ Hivs (built_Geometry fs flushSplitMaxBytes s0 Hwf Hnew))
      as HG.
    pose proof (Geometry_shape _ _ Hivs' HG) as HG'.
    destruct (G_in _ HG' _ _ _ (span_Some _ _ _ Hiv')) as [Hin1 Hin2].
    destruct (proj2 (InitCompactingFileInfo_range_flag s inProgress s' HG Hinit i))
      as (iv & Hiv & Hset).
    { exists i, iv'. repeat split; try assumption; lia. }
    congruence.
Qed.

End InitBaseTheorem.

(** An engine with one file compacting into the base level, while a
    compaction of [e, f] into the base level is in progress. *)
Definition baseCompactingFiles : list FileMetadata :=
  [l0file 1 "a" "b" 10 1 true false;
   l0file 2 "c" "d" 10 2 false false;
   l0file 3 "e" "f" 10 3 false false].

Definition baseCompactingBuilt : L0Sublevels :=
  orEmpty (NewL0Sublevels (E := bytesEnv) baseCompactingFiles 100).

Definition baseCompactingEngine : L0Sublevels :=
  orEmpty (InitCompactingFileInfo (E := bytesEnv) baseCompactingBuilt
             [mkL0Compaction (mkInternalKey (userKey "e") 1)
                (mkInternalKey (userKey "f") 1) false]).

Lemma isBaseCompacting_after_init_witness :
  (forall (i : nat) iv', orderedIntervals baseCompactingEngine !! i = Some iv' ->
     (isBaseCompacting iv' = true <->
      (exists q f, q ∈ files iv' /\ levelMetadata baseCompactingEngine !! q = Some f /\
                   Compacting f = true /\ IsIntraL0Compacting f = false) \/
      (exists c, c ∈ [mkL0Compaction (mkInternalKey (userKey "e") 1)
                        (mkInternalKey (userKey "f") 1) false] /\
                 IsIntraL0 c = false /\
                 0 <= intervalKeyCompare (E := bytesEnv) (startKey iv') (compactionStart c) /\
                 intervalKeyCompare (E := bytesEnv) (startKey iv') (compactionEnd c) < 0))) /\
  (forall (i : nat) iv', orderedIntervals baseCompactingEngine !! i = Some iv' ->
     isBaseCompacting iv' = true -> intervalRangeIsBaseCompacting iv' = true).
Proof.
  apply (isBaseCompacting_after_init (E := bytesEnv) baseCompactingFiles 100
           baseCompactingBuilt baseCompactingBuilt baseCompactingEngine).
  - wf_files.
  - vm_compute. reflexivity.
  - reflexivity.
  - vm_compute. reflexivity.
Defined.
